(** * flash-ai: the asynchronous ingestion pipeline

    A shallow embedding of the Go code of the upload pipeline:

    - the Job Manager of package [api] ([CreateJob], [GetJob], the
      [Mark...] operations, [UpdateFileProgress], [withJob], [file],
      [clone], [cloneResult], [percent]) and the harness [runUploadJob]
      with [processDocument];
    - the retry loop of [ZAIVisionService.AnalyzeMultipleImages];
    - the batching and reassembly code shared by
      [extractExamTopicsWithVisionAndProgress] and
      [generateFlashcardsWithVisionAndProgress];
    - the other entry points of the vision client ([AnalyzeImage],
      [AnalyzeImages], [AnalyzeImagesWithProgress]);
    - the conversion of a card to and from the scheduler's card
      ([ToFSRSCard], [ApplyFSRSCard]);
    - [extractJSON];
    - the clustering of concepts ([clusterConcepts] and the functions
      it calls);
    - the ingestion service ([ProcessExamDocumentWithProgress],
      [ProcessInformationDocumentWithProgress]).

    Go pointers are locations of an explicit store, Go [int] is [Z]
    (64 bits where the width matters), [float64] is the binary64
    instance of [SpecFloat], strings are byte strings. *)

From Stdlib Require Import ZArith Lia Ascii String SpecFloat.
From stdpp Require Import gmap strings list pretty.
From Equations Require Import Equations.

Local Open Scope string_scope.
Local Open Scope Z_scope.

(** ** Status constants (package [api]) *)

Definition JobStatusPending : string := "pending".
Definition JobStatusProcessing : string := "processing".
Definition JobStatusComplete : string := "complete".
Definition JobStatusFailed : string := "failed".

Definition FileStatusPending : string := "pending".
Definition FileStatusProcessing : string := "processing".
Definition FileStatusComplete : string := "complete".
Definition FileStatusError : string := "error".

(** ** Data model *)

(** Addresses of heap objects.  A [nil] pointer or [nil] slice is [None]. *)
Definition loc := positive.

(** [time.Time] values, as an instant on the UTC time line. *)
Definition time := Z.

(** [DocumentResult].  [Payload] is an [interface{}] holding a pointer to
    the extraction (or [nil]); the pipeline never looks inside it. *)
Record DocumentResult := mkDocumentResult {
  dr_DocumentID : Z;
  dr_Name : string;
  dr_Pages : Z;
  dr_Status : string;
  dr_Message : string;
  dr_Payload : option loc
}.

(** [FileProgress]; [fp_Result] is the [*DocumentResult] field. *)
Record FileProgress := mkFileProgress {
  fp_Index : Z;
  fp_Name : string;
  fp_Status : string;
  fp_Step : string;
  fp_Message : string;
  fp_Current : Z;
  fp_Total : Z;
  fp_Percent : Z;
  fp_Result : option loc;
  fp_Error : string
}.

(** [UploadJob]; the two slices are the addresses of their backing
    arrays ([None] for a [nil] slice). *)
Record UploadJob := mkUploadJob {
  job_ID : string;
  job_Status : string;
  job_CreatedAt : time;
  job_UpdatedAt : time;
  job_Files : option loc;
  job_Results : option loc;
  job_Error : string
}.

(** The store: the manager's table [m.jobs] (job id to [*UploadJob]) and
    the heap objects reachable from it or from snapshots handed to
    callers, one map per Go type.  The mutex [m.mu] is not modelled: an
    operation is one step on the store, also where the code takes its
    snapshot after releasing the lock ([CreateJob], [GetJob]). *)
Record Store := mkStore {
  jobs : gmap string loc;
  jobObjs : gmap loc UploadJob;
  fileArrs : gmap loc (list FileProgress);
  resultObjs : gmap loc DocumentResult;
  resultArrs : gmap loc (list DocumentResult)
}.

(** [NewJobManager], on an empty heap. *)
Definition NewJobManager : Store := mkStore ∅ ∅ ∅ ∅ ∅.

#[global] Instance DocumentResult_eq_dec : EqDecision DocumentResult.
Proof. solve_decision. Defined.
#[global] Instance FileProgress_eq_dec : EqDecision FileProgress.
Proof. solve_decision. Defined.
#[global] Instance UploadJob_eq_dec : EqDecision UploadJob.
Proof. solve_decision. Defined.

(** *** Field updates *)

Definition set_jobs (f : gmap string loc → gmap string loc) (σ : Store) : Store :=
  mkStore (f (jobs σ)) (jobObjs σ) (fileArrs σ) (resultObjs σ) (resultArrs σ).
Definition set_jobObjs (f : gmap loc UploadJob → gmap loc UploadJob) (σ : Store) : Store :=
  mkStore (jobs σ) (f (jobObjs σ)) (fileArrs σ) (resultObjs σ) (resultArrs σ).
Definition set_fileArrs
    (f : gmap loc (list FileProgress) → gmap loc (list FileProgress)) (σ : Store) : Store :=
  mkStore (jobs σ) (jobObjs σ) (f (fileArrs σ)) (resultObjs σ) (resultArrs σ).
Definition set_resultObjs
    (f : gmap loc DocumentResult → gmap loc DocumentResult) (σ : Store) : Store :=
  mkStore (jobs σ) (jobObjs σ) (fileArrs σ) (f (resultObjs σ)) (resultArrs σ).
Definition set_resultArrs
    (f : gmap loc (list DocumentResult) → gmap loc (list DocumentResult)) (σ : Store) : Store :=
  mkStore (jobs σ) (jobObjs σ) (fileArrs σ) (resultObjs σ) (f (resultArrs σ)).

Definition job_with_Status (s : string) (j : UploadJob) : UploadJob :=
  mkUploadJob (job_ID j) s (job_CreatedAt j) (job_UpdatedAt j)
              (job_Files j) (job_Results j) (job_Error j).
Definition job_with_UpdatedAt (t : time) (j : UploadJob) : UploadJob :=
  mkUploadJob (job_ID j) (job_Status j) (job_CreatedAt j) t
              (job_Files j) (job_Results j) (job_Error j).
Definition job_with_Results (r : option loc) (j : UploadJob) : UploadJob :=
  mkUploadJob (job_ID j) (job_Status j) (job_CreatedAt j) (job_UpdatedAt j)
              (job_Files j) r (job_Error j).
Definition job_with_Error (e : string) (j : UploadJob) : UploadJob :=
  mkUploadJob (job_ID j) (job_Status j) (job_CreatedAt j) (job_UpdatedAt j)
              (job_Files j) (job_Results j) e.

Definition fp_with_Result (r : option loc) (f : FileProgress) : FileProgress :=
  mkFileProgress (fp_Index f) (fp_Name f) (fp_Status f) (fp_Step f) (fp_Message f)
                 (fp_Current f) (fp_Total f) (fp_Percent f) r (fp_Error f).

Definition dr_with_Status (s : string) (r : DocumentResult) : DocumentResult :=
  mkDocumentResult (dr_DocumentID r) (dr_Name r) (dr_Pages r) s (dr_Message r) (dr_Payload r).
Definition dr_with_Message (s : string) (r : DocumentResult) : DocumentResult :=
  mkDocumentResult (dr_DocumentID r) (dr_Name r) (dr_Pages r) (dr_Status r) s (dr_Payload r).

(** *** Reading through slices and pointers *)

(** The elements of a [[]FileProgress] slice; [len] is the length of this
    list. *)
Definition readFiles (σ : Store) (s : option loc) : list FileProgress :=
  match s with
  | None => []
  | Some a => default [] (fileArrs σ !! a)
  end.

Definition readResults (σ : Store) (s : option loc) : list DocumentResult :=
  match s with
  | None => []
  | Some a => default [] (resultArrs σ !! a)
  end.

(** [m.jobs[id]] followed by the dereference of the pointer found. *)
Definition jobOf (σ : Store) (id : string) : option UploadJob :=
  lj ← jobs σ !! id; jobObjs σ !! lj.

(** The slots and the result sequence of the job stored under [id]. *)
Definition filesOf (σ : Store) (id : string) : list FileProgress :=
  match jobOf σ id with
  | Some j => readFiles σ (job_Files j)
  | None => []
  end.

Definition resultsOf (σ : Store) (id : string) : list DocumentResult :=
  match jobOf σ id with
  | Some j => readResults σ (job_Results j)
  | None => []
  end.

(** The [DocumentResult] a slot points to. *)
Definition resultAt (σ : Store) (f : FileProgress) : option DocumentResult :=
  lr ← fp_Result f; resultObjs σ !! lr.

(** ** [float64] arithmetic used by [percent]

    IEEE 754 binary64 is [SpecFloat] at precision 53 and [emax] 1024.  *)

Definition prec64 : Z := 53.
Definition emax64 : Z := 1024.

(** The conversion [float64(n)] of an [int]: round to nearest, ties to
    even. *)
Definition float64_of_int (n : Z) : spec_float :=
  binary_normalize prec64 emax64 n 0 false.

Definition float64_div (x y : spec_float) : spec_float := SFdiv prec64 emax64 x y.
Definition float64_mul (x y : spec_float) : spec_float := SFmul prec64 emax64 x y.

Definition minInt64 : Z := - 2 ^ 63.
Definition maxInt64 : Z := 2 ^ 63 - 1.

(** The conversion [int(f)]: the fraction is discarded (truncation towards
    zero).  For a value that does not fit an [int] Go leaves the result to
    the implementation; amd64 yields the smallest [int], and so does this
    definition. *)
Definition int_of_float64 (f : spec_float) : Z :=
  match f with
  | S754_zero _ => 0
  | S754_finite s m e =>
      let t := cond_Zopp s (Z.shiftl (Z.pos m) e) in
      if (minInt64 <=? t) && (t <=? maxInt64) then t else minInt64
  | _ => minInt64
  end.

(** [percent] *)
Definition percent (current total : Z) : Z :=
  if total <=? 0 then
    if current <=? 0 then 0
    else if current >? 100 then 100
    else current
  else if current <=? 0 then 0
  else if current >=? total then 100
  else int_of_float64
         (float64_mul (float64_div (float64_of_int current) (float64_of_int total))
                      (float64_of_int 100)).

(** ** [strings.TrimSpace]

    White space "as defined by Unicode": the six ASCII space characters,
    U+0085, U+00A0, U+1680, U+2000..U+200A, U+2028, U+2029, U+202F,
    U+205F and U+3000, recognised here by their UTF-8 encodings. *)

Definition byteN (c : ascii) : N := N_of_ascii c.

(** Number of bytes of the white-space rune at the head of [s], or 0. *)
Definition spaceRuneAtHead (s : list ascii) : nat :=
  match map byteN s with
  | (9 | 10 | 11 | 12 | 13 | 32)%N :: _ => 1
  | 194%N :: (133 | 160)%N :: _ => 2
  | 225%N :: 154%N :: 128%N :: _ => 3
  | 226%N :: 128%N :: (128 | 129 | 130 | 131 | 132 | 133 | 134 | 135
                       | 136 | 137 | 138 | 168 | 169 | 175)%N :: _ => 3
  | 226%N :: 129%N :: 159%N :: _ => 3
  | 227%N :: 128%N :: 128%N :: _ => 3
  | _ => 0
  end%nat.

(** The same at the end of a string, given its bytes in reverse order. *)
Definition spaceRuneAtTail (r : list ascii) : nat :=
  match map byteN r with
  | (9 | 10 | 11 | 12 | 13 | 32)%N :: _ => 1
  | (133 | 160)%N :: 194%N :: _ => 2
  | 128%N :: 154%N :: 225%N :: _ => 3
  | (128 | 129 | 130 | 131 | 132 | 133 | 134 | 135
     | 136 | 137 | 138 | 168 | 169 | 175)%N :: 128%N :: 226%N :: _ => 3
  | 159%N :: 129%N :: 226%N :: _ => 3
  | 128%N :: 128%N :: 227%N :: _ => 3
  | _ => 0
  end%nat.

Fixpoint trimWith (rune : list ascii → nat) (fuel : nat) (s : list ascii) : list ascii :=
  match fuel with
  | O => s
  | S fuel' =>
      match rune s with
      | O => s
      | n => trimWith rune fuel' (drop n s)
      end
  end.

Definition TrimSpace (s : string) : string :=
  let l := list_ascii_of_string s in
  let l1 := trimWith spaceRuneAtHead (length l) l in
  let l2 := trimWith spaceRuneAtTail (length l1) (rev l1) in
  string_of_list_ascii (rev l2).

(** ** Job Manager operations

    [uuid.NewString()] and [time.Now().UTC()] are inputs of the
    operations that call them. *)

(** Allocation of a new object in one of the typed heaps. *)
Definition newLoc {V} (h : gmap loc V) : loc := fresh (dom h).

(** [cloneResult]: [res := result; return &res]. *)
Definition cloneResult (result : DocumentResult) (σ : Store) : loc * Store :=
  let lr := newLoc (resultObjs σ) in
  (lr, set_resultObjs (insert lr result) σ).

(** The loop of [clone] over [job.Files]: every slot is copied, and a slot
    with a result gets a copy of the result of its own. *)
Fixpoint cloneFiles (fs : list FileProgress) (σ : Store) : list FileProgress * Store :=
  match fs with
  | [] => ([], σ)
  | file :: rest =>
      let '(file', σ1) :=
        match resultAt σ file with
        | Some res =>
            let lr := newLoc (resultObjs σ) in
            (fp_with_Result (Some lr) file, set_resultObjs (insert lr res) σ)
        | None => (file, σ)
        end in
      let '(rest', σ2) := cloneFiles rest σ1 in
      (file' :: rest', σ2)
  end.

(** [UploadJob.clone] *)
Definition clone (p : option loc) (σ : Store) : option loc * Store :=
  match p with
  | None => (None, σ)
  | Some lj =>
      match jobObjs σ !! lj with
      | None => (None, σ)
      | Some job =>
          let files := readFiles σ (job_Files job) in
          let '(copyFiles, σ1) :=
            if (0 <? length files)%nat then
              let '(fs', σ') := cloneFiles files σ in
              let lf := newLoc (fileArrs σ') in
              (Some lf, set_fileArrs (insert lf fs') σ')
            else (None, σ) in
          let results := readResults σ1 (job_Results job) in
          let '(copyResults, σ2) :=
            if (0 <? length results)%nat then
              let la := newLoc (resultArrs σ1) in
              (Some la, set_resultArrs (insert la results) σ1)
            else (None, σ1) in
          let copyJob :=
            mkUploadJob (job_ID job) (job_Status job) (job_CreatedAt job)
                        (job_UpdatedAt job) copyFiles copyResults (job_Error job) in
          let lc := newLoc (jobObjs σ2) in
          (Some lc, set_jobObjs (insert lc copyJob) σ2)
      end
  end.

(** The slots [CreateJob] builds: [files[i] = FileProgress{Index: i,
    Name: name, Status: FileStatusPending}]. *)
Definition newFile (i : nat) (name : string) : FileProgress :=
  mkFileProgress (Z.of_nat i) name FileStatusPending "" "" 0 0 0 None "".

(** [CreateJob]; [id] is the value of [uuid.NewString()], [t1] and [t2]
    the two clock readings. *)
Definition CreateJob (fileNames : list string) (id : string) (t1 t2 : time)
    (σ : Store) : (string * option loc) * Store :=
  let lf := newLoc (fileArrs σ) in
  let σ1 := set_fileArrs (insert lf (imap newFile fileNames)) σ in
  let job := mkUploadJob id JobStatusPending t1 t2 (Some lf) None "" in
  let lj := newLoc (jobObjs σ1) in
  let σ2 := set_jobObjs (insert lj job) σ1 in
  let σ3 := set_jobs (insert id lj) σ2 in
  let '(snapshot, σ4) := clone (Some lj) σ3 in
  ((id, snapshot), σ4).

(** [GetJob]; the [bool] is [ok]. *)
Definition GetJob (id : string) (σ : Store) : (option loc * bool) * Store :=
  match jobs σ !! id with
  | None => ((None, false), σ)
  | Some lj => let '(c, σ') := clone (Some lj) σ in ((c, true), σ')
  end.

(** [withJob]: [fn] receives the pointer found in the table; afterwards
    [job.UpdatedAt] is set. *)
Definition withJob (id : string) (fn : loc → Store → Store) (now : time)
    (σ : Store) : Store :=
  match jobs σ !! id with
  | None => σ
  | Some lj => set_jobObjs (alter (job_with_UpdatedAt now) lj) (fn lj σ)
  end.

(** [UploadJob.file]: the address of [job.Files[index]], as the
    backing array and the position in it, or [nil]. *)
Definition file (lj : loc) (index : Z) (σ : Store) : option (loc * nat) :=
  job ← jobObjs σ !! lj;
  if (index <? 0) || (index >=? Z.of_nat (length (readFiles σ (job_Files job))))
  then None
  else lf ← job_Files job; Some (lf, Z.to_nat index).

(** Assignment to the fields of [*file]. *)
Definition updFile (p : loc * nat) (f : FileProgress → FileProgress) (σ : Store) : Store :=
  set_fileArrs (alter (alter f p.2) p.1) σ.

(** Assignment to the fields of [*job]. *)
Definition updJob (lj : loc) (f : UploadJob → UploadJob) (σ : Store) : Store :=
  set_jobObjs (alter f lj) σ.

(** [job.Results = append(job.Results, result)].  The backing array of
    [job.Results] is referenced by this one slice only ([clone] copies it
    with [make] and [copy]), so growing it in place or moving it is the
    same; the cell holds the [len] elements of the slice. *)
Definition appendResult (lj : loc) (result : DocumentResult) (σ : Store) : Store :=
  match jobObjs σ !! lj with
  | None => σ
  | Some job =>
      let rs := (readResults σ (job_Results job) ++ [result])%list in
      match job_Results job with
      | Some la => set_resultArrs (insert la rs) σ
      | None =>
          let la := newLoc (resultArrs σ) in
          updJob lj (job_with_Results (Some la)) (set_resultArrs (insert la rs) σ)
      end
  end.

Definition MarkProcessing (id : string) : time → Store → Store :=
  withJob id (fun lj => updJob lj (job_with_Status JobStatusProcessing)).

Definition MarkCompleted (id : string) : time → Store → Store :=
  withJob id (fun lj => updJob lj (job_with_Status JobStatusComplete)).

Definition MarkFailed (id : string) (msg : string) : time → Store → Store :=
  withJob id (fun lj σ =>
    updJob lj (job_with_Error (TrimSpace msg))
      (updJob lj (job_with_Status JobStatusFailed) σ)).

Definition started (f : FileProgress) : FileProgress :=
  mkFileProgress (fp_Index f) (fp_Name f) FileStatusProcessing "" "Starting"
                 0 100 0 (fp_Result f) "".

Definition MarkFileStarted (id : string) (index : Z) : time → Store → Store :=
  withJob id (fun lj σ =>
    match file lj index σ with
    | Some p => updFile p started σ
    | None => σ
    end).

Definition progressed (step message : string) (current total : Z)
    (f : FileProgress) : FileProgress :=
  mkFileProgress (fp_Index f) (fp_Name f) FileStatusProcessing step message
                 current total (percent current total) (fp_Result f) (fp_Error f).

Definition UpdateFileProgress (id : string) (index : Z) (step message : string)
    (current total : Z) : time → Store → Store :=
  withJob id (fun lj σ =>
    match file lj index σ with
    | Some p => updFile p (progressed step message current total) σ
    | None => σ
    end).

Definition completed (res : option loc) (f : FileProgress) : FileProgress :=
  mkFileProgress (fp_Index f) (fp_Name f) FileStatusComplete "complete"
                 "Processing complete" 100 100 100 res "".

Definition MarkFileComplete (id : string) (index : Z) (result : DocumentResult)
    : time → Store → Store :=
  withJob id (fun lj σ =>
    let σ1 :=
      match file lj index σ with
      | Some p =>
          let '(lr, σ') := cloneResult result σ in
          updFile p (completed (Some lr)) σ'
      | None => σ
      end in
    appendResult lj result σ1).

Definition errored (msg : string) (res : option loc) (f : FileProgress) : FileProgress :=
  mkFileProgress (fp_Index f) (fp_Name f) FileStatusError "error" msg
                 100 100 100 res msg.

(** The message [MarkFileError] stores. *)
Definition errorMessage (message : string) : string :=
  let msg := TrimSpace message in
  if decide (msg = "") then "processing error" else msg.

(** The result [MarkFileError] appends to [job.Results]. *)
Definition forcedError (msg : string) (result : DocumentResult) : DocumentResult :=
  let result1 := dr_with_Status FileStatusError result in
  if decide (dr_Message result1 = "") then dr_with_Message msg result1 else result1.

Definition MarkFileError (id : string) (index : Z) (message : string)
    (result : DocumentResult) : time → Store → Store :=
  let msg := errorMessage message in
  withJob id (fun lj σ =>
    let σ1 :=
      match file lj index σ with
      | Some p =>
          let '(lr, σ') := cloneResult result σ in
          updFile p (errored msg (Some lr)) σ'
      | None => σ
      end in
    appendResult lj (forcedError msg result) σ1).

(** ** The upload harness ([Server.runUploadJob], [Server.processDocument]) *)

(** One call of the [progress] callback. *)
Record ProgressEvent := mkProgressEvent {
  ev_step : string;
  ev_message : string;
  ev_current : Z;
  ev_total : Z
}.

(** What the collaborators of [processDocument] do for one uploaded file:
    [file.Open], [documents.Create] (the id and page count of the new
    document) and the ingestion service (the progress callbacks it makes,
    its payload and its error). *)
Record FileHeader := mkFileHeader {
  fh_Filename : string;
  fh_Open : option string;
  fh_Create : string + Z * Z;
  fh_Progress : list ProgressEvent;
  fh_Ingest : option loc * option string
}.

Definition DocumentInformation : string := "information".
Definition DocumentExam : string := "exam".

(** [processDocument]: the progress callbacks made, the result and the
    error ([None] for [nil]). *)
Definition processDocument (fh : FileHeader) (docType : string)
    : list ProgressEvent * DocumentResult * option string :=
  let result := mkDocumentResult 0 (fh_Filename fh) 0 FileStatusError "" None in
  match fh_Open fh with
  | Some err =>
      ([], dr_with_Message err result,
       Some ("open file " ++ fh_Filename fh ++ ": " ++ err))
  | None =>
      match fh_Create fh with
      | inl err =>
          ([], dr_with_Message err result,
           Some ("create document " ++ fh_Filename fh ++ ": " ++ err))
      | inr (docID, pageCount) =>
          let result1 :=
            mkDocumentResult docID (fh_Filename fh) pageCount FileStatusError "" None in
          let '(events, payload, err) :=
            if decide (docType = DocumentExam ∨ docType = DocumentInformation)
            then (fh_Progress fh, (fh_Ingest fh).1, (fh_Ingest fh).2)
            else ([], None, Some ("unsupported document type: " ++ docType)) in
          match err with
          | Some e =>
              (events,
               mkDocumentResult docID (fh_Filename fh) pageCount FileStatusError e payload,
               Some e)
          | None =>
              (events,
               mkDocumentResult docID (fh_Filename fh) pageCount "ok" "" payload,
               None)
          end
      end
  end.

(** A Job Manager call made by the harness: the call reads the clock, and
    the harness goes on to its next call. *)
Definition call (clock : nat → time) (op : time → Store → Store)
    (s : Store * nat) : Store * nat :=
  (op (clock s.2) s.1, S s.2).

(** The body of the loop of [runUploadJob] for the file at [idx]. *)
Definition processFile (clock : nat → time) (jobID docType : string)
    (idx : nat) (fh : FileHeader) (s : Store * nat) : Store * nat :=
  let s1 := call clock (MarkFileStarted jobID (Z.of_nat idx)) s in
  let '(events, result, err) := processDocument fh docType in
  let s2 :=
    foldl (λ s ev,
             call clock (UpdateFileProgress jobID (Z.of_nat idx) (ev_step ev)
                           (ev_message ev) (ev_current ev) (ev_total ev)) s)
          s1 events in
  match err with
  | Some e => call clock (MarkFileError jobID (Z.of_nat idx) e result) s2
  | None => call clock (MarkFileComplete jobID (Z.of_nat idx) result) s2
  end.

(** [for idx, file := range files] *)
Fixpoint fileLoop (clock : nat → time) (jobID docType : string)
    (idx : nat) (files : list FileHeader) (s : Store * nat) : Store * nat :=
  match files with
  | [] => s
  | fh :: rest =>
      fileLoop clock jobID docType (S idx) rest
               (processFile clock jobID docType idx fh s)
  end.

(** [runUploadJob] *)
Definition runUploadJob (clock : nat → time) (jobID docType : string)
    (files : list FileHeader) (s : Store * nat) : Store * nat :=
  let s1 := call clock (MarkProcessing jobID) s in
  let s2 := fileLoop clock jobID docType 0 files s1 in
  call clock (MarkCompleted jobID) s2.

(** ** The Analysis Client ([ZAIVisionService.AnalyzeMultipleImages]) *)

(** What happens in one iteration of the retry loop, as far as the loop
    can tell: the request cannot be built, [httpClient.Do] fails, reading
    the body fails, or a response arrives with its status code, its body
    and what [json.Unmarshal] makes of the body (an error, or the
    [Message.Content] of the choices). *)
Inductive Attempt :=
  | NewRequestFails (err : string)
  | DoFails (err : string)
  | ReadFails (err : string)
  | Response (status : Z) (body : string) (decoded : string + list string).

Definition maxRetries : nat := 2.

(** [time.Duration] counts nanoseconds. *)
Definition Second : Z := 1000000000.

Definition StatusOK : Z := 200.

(** The state the loop leaves behind: how often the remote endpoint was
    called and the pauses made, oldest first. *)
Record ClientTrace := mkClientTrace {
  tr_calls : nat;
  tr_sleeps : list Z
}.

Inductive Verdict :=
  | Success (text : string)
  | Fatal (lastErr : string)
  | Retry (lastErr : string).

(** One pass through the loop body after the pause. *)
Definition tryOnce (attempt : nat) (a : Attempt) : Verdict :=
  match a with
  | NewRequestFails err => Retry ("create http request: " ++ err)
  | DoFails err => Retry ("execute vision request: " ++ err)
  | ReadFails err => Retry ("read response body: " ++ err)
  | Response status body decoded =>
      if decide (status ≠ StatusOK) then
        let lastErr := "vision api error: status=" ++ pretty status ++ ", body=" ++ body in
        if (status >=? 400) && (status <? 500) then Fatal lastErr else Retry lastErr
      else
        match decoded with
        | inl err => Retry ("unmarshal vision response: " ++ err ++ ", body=" ++ body)
        | inr [] => Retry ("vision api returned no choices, response: " ++ body)
        | inr (content :: _) =>
            if decide (content = "") then
              Retry ("vision api returned empty content (attempt "
                       ++ pretty (S attempt) ++ "/" ++ pretty (S maxRetries) ++ ")")
            else Success content
        end
  end.

(** Does the iteration reach [s.httpClient.Do]? *)
Definition callsRemote (a : Attempt) : bool :=
  match a with
  | NewRequestFails _ => false
  | _ => true
  end.

(** [for attempt := 0; attempt <= maxRetries; attempt++]; [left] is the
    number of iterations still allowed, [remote attempt] what the
    iteration meets. *)
Fixpoint retryLoop (remote : nat → Attempt) (left attempt : nat)
    (lastErr : string) (tr : ClientTrace) : (string + string) * ClientTrace :=
  match left with
  | O =>
      (inr ("vision api failed after " ++ pretty (S maxRetries) ++ " attempts: " ++ lastErr),
       tr)
  | S left' =>
      let tr1 :=
        if (0 <? attempt)%nat
        then mkClientTrace (tr_calls tr) (tr_sleeps tr ++ [Z.of_nat attempt * 2 * Second])%list
        else tr in
      let a := remote attempt in
      let tr2 :=
        if callsRemote a then mkClientTrace (S (tr_calls tr1)) (tr_sleeps tr1) else tr1 in
      match tryOnce attempt a with
      | Success text => (inl text, tr2)
      | Fatal err => (inr err, tr2)
      | Retry err => retryLoop remote left' (S attempt) err tr2
      end
  end.

(** [AnalyzeMultipleImages]: the text or the error, and the trace.  The
    request is built once from the images and the prompt; the loop does
    not look at it again. *)
Definition AnalyzeMultipleImages (remote : nat → Attempt)
    : (string + string) * ClientTrace :=
  retryLoop remote (S maxRetries) 0 "%!w(<nil>)" (mkClientTrace 0 []).

(** ** The Batch Analysis Engine

    The code between the conversion of the PDF and the synthesis request in
    [extractExamTopicsWithVisionAndProgress] ([batchSize := 8]) and in
    [generateFlashcardsWithVisionAndProgress] ([batchSize := 2]); the two
    functions differ in the batch size and the prompt only. *)

Record PDFPageImage := mkPDFPageImage {
  PageNumber : Z;
  ImageData : string
}.

(** The pages [ConvertPDFPagesToImages] returns for the rendered images:
    [pageNum] runs from 1. *)
Definition convertedPages (dataURIs : list string) : list PDFPageImage :=
  imap (λ i d, mkPDFPageImage (Z.of_nat i + 1) d) dataURIs.

Record batch := mkBatch {
  b_start : Z;
  b_end : Z;
  b_pages : list PDFPageImage;
  b_imageURIs : list string;
  b_pageNumbers : list Z
}.

(** [for i := 0; i < len(pages); i += batchSize], from [i] on. *)
Equations? createBatches (batchSize : positive) (pages : list PDFPageImage) (i : nat)
    : list batch by wf (length pages - i)%nat lt :=
  createBatches batchSize pages i with decide (i < length pages)%nat => {
    | left _ =>
        let e0 := (i + Pos.to_nat batchSize)%nat in
        let e := if decide (length pages < e0)%nat then length pages else e0 in
        let batchPages := take (e - i) (drop i pages) in
        mkBatch (Z.of_nat i + 1) (Z.of_nat e) batchPages
                (ImageData <$> batchPages) (PageNumber <$> batchPages)
          :: createBatches batchSize pages (i + Pos.to_nat batchSize)%nat;
    | right _ => [] }.
Proof. lia. Qed.

(** The local [result] struct. *)
Record result := mkResult {
  r_index : Z;
  r_analysis : string;
  r_err : option string
}.

Definition newline : string := String (ascii_of_nat 10) "".

(** The body of the goroutine started for the batch at [idx], given what
    [AnalyzeMultipleImages] returned for its images: the value it stores
    in [results[idx]].  A batch has at least one page, so the two index
    expressions on [bt.pageNumbers] do not panic; on an empty list the
    defaults below stand in for the panic. *)
Definition batchResult (idx : nat) (bt : batch) (answer : string + string) : result :=
  match answer with
  | inr err =>
      mkResult (Z.of_nat idx) ""
        (Some ("analyze pages " ++ pretty (b_start bt) ++ "-" ++ pretty (b_end bt)
                 ++ " with vision: " ++ err))
  | inl analysis =>
      let pageRange :=
        "Pages " ++ pretty (default 0 (head (b_pageNumbers bt))) ++ "-"
                 ++ pretty (default 0 (last (b_pageNumbers bt))) in
      mkResult (Z.of_nat idx) ("=== " ++ pageRange ++ " ===" ++ newline ++ analysis) None
  end.

(** The goroutines run in some order; [completion] lists the batch indices
    in the order in which the stores to [results] happen.  [wg.Wait()]
    returns when every goroutine has finished. *)
Definition runBatches (batches : list batch) (answers : nat → string + string)
    (completion : list nat) : list result :=
  foldl (λ results idx,
           match batches !! idx with
           | Some bt => <[idx := batchResult idx bt (answers idx)]> results
           | None => results
           end)
        (replicate (length batches) (mkResult 0 "" None)) completion.

(** The loop over [results] after [wg.Wait()]: the first error, or all
    analyses. *)
Fixpoint collect (results : list result) (pageAnalyses : list string)
    : string + list string :=
  match results with
  | [] => inr pageAnalyses
  | res :: rest =>
      match r_err res with
      | Some err => inl err
      | None => collect rest (pageAnalyses ++ [r_analysis res])%list
      end
  end.

(** [strings.Join] *)
Fixpoint Join (elems : list string) (sep : string) : string :=
  match elems with
  | [] => ""
  | [s] => s
  | s :: rest => s ++ sep ++ Join rest sep
  end.

(** From the pages to [combinedAnalysis], or the error returned. *)
Definition analyzePages (batchSize : positive) (pages : list PDFPageImage)
    (answers : nat → string + string) (completion : list nat) : string + string :=
  if decide (length pages = 0%nat) then inr "no pages extracted from pdf"
  else
    let batches := createBatches batchSize pages 0 in
    match collect (runBatches batches answers completion) [] with
    | inl err => inr err
    | inr pageAnalyses => inl (Join pageAnalyses (newline ++ newline))
    end.

Definition examBatchSize : positive := 8.
Definition flashcardBatchSize : positive := 2.

Definition extractExamTopicsAnalysis := analyzePages examBatchSize.
Definition generateFlashcardsAnalysis := analyzePages flashcardBatchSize.

(** ** The other entry points of the Analysis Client *)

(** [AnalyzeImage]: [AnalyzeMultipleImages] on the one image. *)
Definition AnalyzeImage (remote : nat → Attempt) : (string + string) * ClientTrace :=
  AnalyzeMultipleImages remote.

(** The loop of [AnalyzeImages], from the image at [i] on.  [ctxErr i] is
    [ctx.Err()] when the context is done as iteration [i] begins,
    [remotes i] what the call for image [i] meets; [log] lists the
    images sent so far, each with the trace of its call. *)
Fixpoint analyzeImagesLoop (ctxErr : nat → option string)
    (remotes : nat → nat → Attempt) (i : nat) (imageDataURIs : list string)
    (results : list string) (log : list (string * ClientTrace))
    : (list string + string) * list (string * ClientTrace) :=
  match imageDataURIs with
  | [] => (inl results, log)
  | imageData :: rest =>
      match ctxErr i with
      | Some err => (inr err, log)
      | None =>
          let '(answer, tr) := AnalyzeImage (remotes i) in
          let log1 := (log ++ [(imageData, tr)])%list in
          match answer with
          | inr err =>
              (inr ("analyze image " ++ pretty (Z.of_nat i + 1) ++ ": " ++ err), log1)
          | inl result =>
              analyzeImagesLoop ctxErr remotes (S i) rest (results ++ [result])%list log1
          end
      end
  end.

(** [AnalyzeImages] *)
Definition AnalyzeImages (ctxErr : nat → option string)
    (remotes : nat → nat → Attempt) (imageDataURIs : list string)
    : (list string + string) * list (string * ClientTrace) :=
  analyzeImagesLoop ctxErr remotes 0 imageDataURIs [] [].

(** One call of [progressFn]. *)
Record PageProgress := mkPageProgress {
  pp_page : Z;
  pp_total : Z;
  pp_content : string
}.

(** The loop of [AnalyzeImagesWithProgress]; [progressFn] is present
    ([true]) or [nil], and [calls] lists the calls made to it. *)
Fixpoint analyzeImagesWithProgressLoop (ctxErr : nat → option string)
    (remotes : nat → nat → Attempt) (progressFn : bool) (total : Z) (i : nat)
    (imageDataURIs : list string) (results : list string)
    (log : list (string * ClientTrace)) (calls : list PageProgress)
    : (list string + string) * list (string * ClientTrace) * list PageProgress :=
  match imageDataURIs with
  | [] => (inl results, log, calls)
  | imageData :: rest =>
      match ctxErr i with
      | Some err => (inr err, log, calls)
      | None =>
          let '(answer, tr) := AnalyzeImage (remotes i) in
          let log1 := (log ++ [(imageData, tr)])%list in
          match answer with
          | inr err =>
              (inr ("analyze page " ++ pretty (Z.of_nat i + 1) ++ " of "
                      ++ pretty total ++ ": " ++ err), log1, calls)
          | inl result =>
              let calls1 :=
                if progressFn
                then (calls ++ [mkPageProgress (Z.of_nat i + 1) total result])%list
                else calls in
              analyzeImagesWithProgressLoop ctxErr remotes progressFn total (S i) rest
                (results ++ [result])%list log1 calls1
          end
      end
  end.

(** [AnalyzeImagesWithProgress] *)
Definition AnalyzeImagesWithProgress (ctxErr : nat → option string)
    (remotes : nat → nat → Attempt) (imageDataURIs : list string) (progressFn : bool)
    : (list string + string) * list (string * ClientTrace) * list PageProgress :=
  analyzeImagesWithProgressLoop ctxErr remotes progressFn
    (Z.of_nat (length imageDataURIs)) 0 imageDataURIs [] [] [].

(** ** Cards and the scheduler's view of them (package [models]) *)

(** [sql.NullTime], [sql.NullInt64] and [sql.NullString].  A [time.Time]
    is the instant it stands for, counted from the zero time
    (January 1, year 1, 00:00 UTC), so that [IsZero] is a test for 0. *)
Record NullTime := mkNullTime { nt_Time : time; nt_Valid : bool }.
Record NullInt64 := mkNullInt64 { ni_Int64 : Z; ni_Valid : bool }.
Record NullString := mkNullString { ns_String : string; ns_Valid : bool }.

Definition IsZero (t : time) : bool := t =? 0.

Record Card := mkCard {
  c_ID : Z;
  c_ConceptID : NullInt64;
  c_SourceDocumentID : NullInt64;
  c_Front : string;
  c_Back : string;
  c_Due : NullTime;
  c_Stability : spec_float;
  c_Difficulty : spec_float;
  c_ElapsedDays : Z;
  c_ScheduledDays : Z;
  c_Reps : Z;
  c_Lapses : Z;
  c_State : Z;
  c_LastReview : NullTime;
  c_CreatedAt : time;
  c_UpdatedAt : time;
  c_WorkingQueuePosition : NullInt64;
  c_ConceptName : NullString;
  c_SourceDocumentRef : NullString
}.

(** [fsrs.Card] of go-fsrs: the counters are [uint64], [State] is an
    [int8]. *)
Record FSRSCard := mkFSRSCard {
  f_Due : time;
  f_Stability : spec_float;
  f_Difficulty : spec_float;
  f_ElapsedDays : Z;
  f_ScheduledDays : Z;
  f_Reps : Z;
  f_Lapses : Z;
  f_State : Z;
  f_LastReview : time
}.

(** Integer conversions: to [uint64], from [uint64] to [int], and to
    [int8]; the bits are kept and read in the new type. *)
Definition uint64_of_int (z : Z) : Z := z mod 2 ^ 64.
Definition int_of_uint64 (u : Z) : Z := (u + 2 ^ 63) mod 2 ^ 64 - 2 ^ 63.
Definition int8_of_int (z : Z) : Z := (z + 2 ^ 7) mod 2 ^ 8 - 2 ^ 7.

(** The generic [max] of package [models]. *)
Definition max (a b : Z) : Z := if a >? b then a else b.

(** [Card.ToFSRSCard] *)
Definition ToFSRSCard (c : Card) : FSRSCard :=
  let card :=
    mkFSRSCard 0 (c_Stability c) (c_Difficulty c)
      (uint64_of_int (max (c_ElapsedDays c) 0))
      (uint64_of_int (max (c_ScheduledDays c) 0))
      (uint64_of_int (max (c_Reps c) 0))
      (uint64_of_int (max (c_Lapses c) 0))
      (int8_of_int (max (c_State c) 0))
      0 in
  let card :=
    if nt_Valid (c_Due c)
    then mkFSRSCard (nt_Time (c_Due c)) (f_Stability card) (f_Difficulty card)
           (f_ElapsedDays card) (f_ScheduledDays card) (f_Reps card) (f_Lapses card)
           (f_State card) (f_LastReview card)
    else card in
  if nt_Valid (c_LastReview c)
  then mkFSRSCard (f_Due card) (f_Stability card) (f_Difficulty card)
         (f_ElapsedDays card) (f_ScheduledDays card) (f_Reps card) (f_Lapses card)
         (f_State card) (nt_Time (c_LastReview c))
  else card.

(** [Card.ApplyFSRSCard]: the card after the assignments. *)
Definition ApplyFSRSCard (f : FSRSCard) (c : Card) : Card :=
  mkCard (c_ID c) (c_ConceptID c) (c_SourceDocumentID c) (c_Front c) (c_Back c)
    (mkNullTime (f_Due f) (negb (IsZero (f_Due f))))
    (f_Stability f) (f_Difficulty f)
    (int_of_uint64 (f_ElapsedDays f)) (int_of_uint64 (f_ScheduledDays f))
    (int_of_uint64 (f_Reps f)) (int_of_uint64 (f_Lapses f))
    (f_State f)
    (mkNullTime (f_LastReview f) (negb (IsZero (f_LastReview f))))
    (c_CreatedAt c) (c_UpdatedAt c) (c_WorkingQueuePosition c)
    (c_ConceptName c) (c_SourceDocumentRef c).

(** ** [extractJSON] (package [services])

    Go strings are byte sequences; the functions of package [strings]
    used here work on the bytes. *)

(** [strings.HasPrefix]:
    [len(s) >= len(prefix) && s[0:len(prefix)] == prefix]. *)
Definition hasPrefix (s prefix : list ascii) : bool :=
  (length prefix <=? length s)%nat && bool_decide (take (length prefix) s = prefix).

Definition HasPrefix (s prefix : string) : bool :=
  hasPrefix (list_ascii_of_string s) (list_ascii_of_string prefix).

(** [strings.Index]: the index of the first instance of [substr] in [s],
    or -1; [i] is the index of the head of [s] in the whole string. *)
Fixpoint indexFrom (substr s : list ascii) (i : nat) : Z :=
  if hasPrefix s substr then Z.of_nat i
  else match s with
       | [] => -1
       | _ :: s' => indexFrom substr s' (S i)
       end.

Definition Index (s substr : string) : Z :=
  indexFrom (list_ascii_of_string substr) (list_ascii_of_string s) 0.

(** [strings.LastIndex]: the index of the last instance, or -1. *)
Fixpoint lastIndexFrom (substr s : list ascii) (i : nat) : Z :=
  match s with
  | [] => if hasPrefix [] substr then Z.of_nat i else -1
  | _ :: s' =>
      let later := lastIndexFrom substr s' (S i) in
      if decide (later ≠ -1) then later
      else if hasPrefix s substr then Z.of_nat i else -1
  end.

Definition LastIndex (s substr : string) : Z :=
  lastIndexFrom (list_ascii_of_string substr) (list_ascii_of_string s) 0.

(** The slice expressions [s[lo:hi]] and [s[lo:]], for indices in
    range. *)
Definition slice (s : string) (lo hi : Z) : string :=
  string_of_list_ascii
    (take (Z.to_nat (hi - lo)) (drop (Z.to_nat lo) (list_ascii_of_string s))).

Definition sliceFrom (s : string) (lo : Z) : string :=
  string_of_list_ascii (drop (Z.to_nat lo) (list_ascii_of_string s)).

Definition fence : string := "```".

(** [extractJSON] *)
Definition extractJSON (content : string) : string :=
  let content := TrimSpace content in
  let content :=
    if HasPrefix content fence then
      let start := 3 in
      let newlineIdx := Index (sliceFrom content start) newline in
      let start := if decide (newlineIdx ≠ -1) then start + newlineIdx + 1 else start in
      let endIdx := Index (sliceFrom content start) fence in
      if decide (endIdx ≠ -1) then slice content start (start + endIdx)
      else sliceFrom content start
    else content in
  let content := TrimSpace content in
  let content :=
    let startIdx := Index content "{" in
    if decide (startIdx ≠ -1) then
      let endIdx := LastIndex content "}" in
      if decide (endIdx ≠ -1 ∧ endIdx > startIdx)
      then slice content startIdx (endIdx + 1)
      else content
    else content in
  TrimSpace content.

(** ** Concept clustering (package [services], [ConceptService])

    [float64] comparisons are those of IEEE 754: every comparison with a
    NaN is false.  Arithmetic is done operation by operation, each
    rounded to binary64 (no fused multiply-add, as on amd64). *)

Definition float64_add (x y : spec_float) : spec_float := SFadd prec64 emax64 x y.
Definition float64_sub (x y : spec_float) : spec_float := SFsub prec64 emax64 x y.
Definition float64_lt (x y : spec_float) : bool := SFltb x y.
Definition float64_gt (x y : spec_float) : bool := SFltb y x.
Definition float64_ge (x y : spec_float) : bool := SFleb y x.
Definition float64_eq (x y : spec_float) : bool := SFeqb x y.

(** A decimal constant with the value [n / d]: the nearest [float64]. *)
Definition float64_const (n d : Z) : spec_float :=
  float64_div (float64_of_int n) (float64_of_int d).

(** [models.Concept] *)
Record Concept := mkConcept {
  co_ID : Z;
  co_Name : string;
  co_Description : NullString;
  co_Weight : spec_float;
  co_SourceExamIDs : string;
  co_CreatedAt : time;
  co_UpdatedAt : time
}.

Record conceptCluster := mkConceptCluster {
  cc_concepts : list Concept;
  cc_avgWeight : spec_float;
  cc_primaryName : string
}.

(** The helpers [abs], [min] and [max] of the package, on [float64];
    [min] and [max] are [fmin] and [fmax] here, [max] being the helper
    of package [models]. *)
Definition abs (x : spec_float) : spec_float :=
  if float64_lt x (float64_of_int 0) then SFopp x else x.
Definition fmin (a b : spec_float) : spec_float := if float64_lt a b then a else b.
Definition fmax (a b : spec_float) : spec_float := if float64_gt a b then a else b.

(** [strings.Fields]: the maximal stretches without white space, in
    order.  [cur] holds the bytes of the field being read. *)
Fixpoint fieldsFrom (fuel : nat) (l cur : list ascii) : list (list ascii) :=
  let flush := match cur with [] => [] | _ => [cur] end in
  match fuel with
  | O => flush
  | S fuel' =>
      match l with
      | [] => flush
      | b :: rest =>
          match spaceRuneAtHead l with
          | O => fieldsFrom fuel' rest (cur ++ [b])
          | n => flush ++ fieldsFrom fuel' (drop n l) []
          end
      end
  end%list.

Definition Fields (s : string) : list string :=
  let l := list_ascii_of_string s in
  string_of_list_ascii <$> fieldsFrom (S (length l)) l [].

Section clustering.

(** [strings.ToLower], the case mapping of Unicode. *)
Variable ToLower : string → string.

(** [calculateNameSimilarity] *)
Definition calculateNameSimilarity (name1 name2 : string) : spec_float :=
  let tokens1 := Fields (ToLower name1) in
  let tokens2 := Fields (ToLower name2) in
  if decide (length tokens1 = 0%nat ∨ length tokens2 = 0%nat) then float64_of_int 0
  else
    let tokenSet1 : gset string := list_to_set tokens1 in
    let common :=
      foldl (λ common token, if decide (token ∈ tokenSet1) then common + 1 else common)
            0 tokens2 in
    let total := Z.of_nat (length tokens1) + Z.of_nat (length tokens2) in
    if decide (total = 0) then float64_of_int 0
    else float64_div (float64_mul (float64_of_int 2) (float64_of_int common))
                     (float64_of_int total).

(** [calculateConceptSimilarity] *)
Definition calculateConceptSimilarity (c1 c2 : Concept) : spec_float :=
  let nameSim := calculateNameSimilarity (co_Name c1) (co_Name c2) in
  let descSim :=
    if ns_Valid (co_Description c1) && ns_Valid (co_Description c2)
    then calculateNameSimilarity (ns_String (co_Description c1))
                                 (ns_String (co_Description c2))
    else float64_of_int 0 in
  let maxWeight := fmax (co_Weight c1) (co_Weight c2) in
  let maxWeight :=
    if float64_eq maxWeight (float64_of_int 0) then float64_of_int 1 else maxWeight in
  let weightSim :=
    float64_sub (float64_of_int 1)
      (fmin (float64_div (abs (float64_sub (co_Weight c1) (co_Weight c2))) maxWeight)
            (float64_of_int 1)) in
  float64_add
    (float64_add (float64_mul (float64_const 6 10) nameSim)
                 (float64_mul (float64_const 25 100) descSim))
    (float64_mul (float64_const 15 100) weightSim).

(** [shouldMergeConcept], on the concepts of the cluster. *)
Fixpoint shouldMergeConcept (cluster : list Concept) (concept : Concept)
    (threshold : spec_float) : bool :=
  match cluster with
  | [] => false
  | clusterConcept :: rest =>
      if float64_ge (calculateConceptSimilarity clusterConcept concept) threshold
      then true
      else shouldMergeConcept rest concept threshold
  end.

(** [calculateAverageWeight] *)
Definition calculateAverageWeight (concepts : list Concept) : spec_float :=
  if decide (length concepts = 0%nat) then float64_of_int 0
  else
    let total := foldl (λ total concept, float64_add total (co_Weight concept))
                       (float64_of_int 0) concepts in
    float64_div total (float64_of_int (Z.of_nat (length concepts))).

(** [selectPrimaryName] *)
Definition selectPrimaryName (concepts : list Concept) : string :=
  match concepts with
  | [] => ""
  | first :: rest =>
      co_Name
        (foldl (λ primary concept,
                  if float64_gt (co_Weight concept) (co_Weight primary)
                  then concept else primary)
               first rest)
  end.

(** The sort at the head of [clusterConcepts]: for [i] and [j > i] in
    turn, the concepts at [i] and [j] change places when the one at [j]
    weighs more. *)
Definition swapIfHeavier (i j : nat) (s : list Concept) : list Concept :=
  match s !! i, s !! j with
  | Some ci, Some cj =>
      if float64_gt (co_Weight cj) (co_Weight ci) then <[i := cj]> (<[j := ci]> s) else s
  | _, _ => s
  end.

Definition sortByWeight (concepts : list Concept) : list Concept :=
  let n := length concepts in
  foldl (λ s i, foldl (λ s j, swapIfHeavier i j s) s (seq (S i) (n - S i)))
        concepts (seq 0 (n - 1)).

(** The inner loop of [clusterConcepts] for one concept: the members of
    the new cluster and the [processed] map. *)
Definition gather (threshold : spec_float) (st : list Concept * gset Z)
    (otherConcept : Concept) : list Concept * gset Z :=
  let '(members, processed) := st in
  if decide (co_ID otherConcept ∈ processed) then st
  else if shouldMergeConcept members otherConcept threshold
       then ((members ++ [otherConcept])%list, {[co_ID otherConcept]} ∪ processed)
       else st.

(** The body of the outer loop. *)
Definition formCluster (concepts : list Concept) (threshold : spec_float)
    (st : list conceptCluster * gset Z) (concept : Concept)
    : list conceptCluster * gset Z :=
  let '(clusters, processed) := st in
  if decide (co_ID concept ∈ processed) then st
  else
    let '(members, processed1) :=
      foldl (gather threshold) ([concept], {[co_ID concept]} ∪ processed) concepts in
    ((clusters ++ [mkConceptCluster members (calculateAverageWeight members)
                     (selectPrimaryName members)])%list,
     processed1).

(** [clusterConcepts] *)
Definition clusterConcepts (concepts : list Concept) (threshold : spec_float)
    : list conceptCluster :=
  if decide (length concepts = 0%nat) then []
  else (foldl (formCluster concepts threshold) ([], ∅) (sortByWeight concepts)).1.

End clustering.

(** ** The ingestion service (package [services], [IngestionService]) *)

Record Document := mkDocument {
  d_ID : Z;
  d_OriginalName : string;
  d_StoredPath : string;
  d_Type : string;
  d_PageCount : Z;
  d_UploadedAt : time
}.

Record CardSummary := mkCardSummary {
  cs_ConceptName : string;
  cs_Front : string;
  cs_Back : string
}.

Record DocumentTopic := mkDocumentTopic {
  dt_DocumentID : Z;
  dt_Topic : string;
  dt_Frequency : Z
}.

(** The results of the AI service.  A reference of a topic is kept as
    the JSON text it was decoded from. *)
Record ExamTopicResult := mkExamTopicResult {
  et_Name : string;
  et_Description : string;
  et_Frequency : Z;
  et_References : list string
}.

Record ExamExtraction := mkExamExtraction {
  ee_Topics : list ExamTopicResult;
  ee_Notes : string
}.

Record FlashcardPrototype := mkFlashcardPrototype {
  fp_Front : string;
  fp_Back : string
}.

Record FlashcardConcept := mkFlashcardConcept {
  fc_Name : string;
  fc_Description : string;
  fc_Cards : list FlashcardPrototype
}.

Record FlashcardExtraction := mkFlashcardExtraction {
  fe_Concepts : list FlashcardConcept;
  fe_Notes : string
}.

Record FlashcardPromptContext := mkFlashcardPromptContext {
  pc_FocusConcepts : list Concept;
  pc_ExistingConcepts : list Concept;
  pc_ExistingCards : list CardSummary
}.

Definition ErrAIUnavailable : string := "openai integration is not configured".

(** What the collaborators of the ingestion service do in one run: whether
    the AI service is there, the callbacks the AI service makes and what
    it returns, and the outcome of each call to the concept and the
    flashcard service.  The calls made inside a loop are told apart by
    the position of the topic or concept they are made for. *)
Record Collaborators := mkCollaborators {
  ai : bool;
  ExtractExamTopicsWithProgress : string → list ProgressEvent * (string + ExamExtraction);
  UpsertExamTopic : nat → option string;
  ListConcepts : string + list Concept;
  ListCardSummaries : string + list CardSummary;
  GenerateFlashcardsWithProgress :
    string → FlashcardPromptContext → list ProgressEvent * (string + FlashcardExtraction);
  TouchConcept : nat → string + Concept;
  BulkUpsertCards : nat → option string
}.

(** The calls the ingestion service makes, in the order it makes them. *)
Inductive Call :=
  | CallProgress (step message : string) (current total : Z)
  | CallExtractExamTopics (pdfPath : string)
  | CallUpsertExamTopic (topic : DocumentTopic) (description : string)
  | CallListConcepts (limit : Z)
  | CallListCardSummaries (limit : Z)
  | CallGenerateFlashcards (pdfPath : string) (promptCtx : FlashcardPromptContext)
  | CallTouchConcept (name description : string)
  | CallBulkUpsertCards (conceptID documentID : NullInt64) (cards : list Card).

(** [if progress != nil { progress(step, message, current, total) }] *)
Definition report (progress : bool) (step message : string) (current total : Z)
    : list Call :=
  if progress then [CallProgress step message current total] else [].

(** The callbacks a service makes with the callback it was handed. *)
Definition relayed (progress : bool) (events : list ProgressEvent) : list Call :=
  if progress
  then (λ e, CallProgress (ev_step e) (ev_message e) (ev_current e) (ev_total e)) <$> events
  else [].

(** The loop of [ProcessExamDocumentWithProgress] over the topics, from
    topic [i] on; [n] is [len(extraction.Topics)]. *)
Fixpoint saveTopics (w : Collaborators) (doc : Document) (progress : bool) (n : Z)
    (i : nat) (topics : list ExamTopicResult) : list Call * option string :=
  match topics with
  | [] => ([], None)
  | topic :: rest =>
      let frequency := if et_Frequency topic <=? 0 then 1 else et_Frequency topic in
      let modelTopic := mkDocumentTopic (d_ID doc) (et_Name topic) frequency in
      let call := CallUpsertExamTopic modelTopic (et_Description topic) in
      match UpsertExamTopic w i with
      | Some err => ([call], Some ("upsert concept " ++ et_Name topic ++ ": " ++ err))
      | None =>
          let said :=
            if progress && (n >? 0) then
              let pct := 90 + Z.quot (10 * (Z.of_nat i + 1)) n in
              [CallProgress "save" ("Saved topic: " ++ et_Name topic) pct 100]
            else [] in
          let '(calls, err) := saveTopics w doc progress n (S i) rest in
          ((call :: said ++ calls)%list, err)
      end
  end.

(** [ProcessExamDocumentWithProgress]: the calls made and the result;
    [progress] tells whether the callback is there. *)
Definition ProcessExamDocumentWithProgress (w : Collaborators) (doc : Document)
    (progress : bool) : list Call * (string + ExamExtraction) :=
  if negb (ai w) then ([], inl ErrAIUnavailable)
  else
    let started := report progress "extract" "Starting exam topic extraction" 0 100 in
    let '(events, res) := ExtractExamTopicsWithProgress w (d_StoredPath doc) in
    let extracted :=
      (started ++ CallExtractExamTopics (d_StoredPath doc) :: relayed progress events)%list in
    match res with
    | inl err => (extracted, inl err)
    | inr extraction =>
        let saving := report progress "save" "Saving topics to database" 90 100 in
        let '(calls, err) :=
          saveTopics w doc progress (Z.of_nat (length (ee_Topics extraction))) 0
                     (ee_Topics extraction) in
        match err with
        | Some err => ((extracted ++ saving ++ calls)%list, inl err)
        | None =>
            ((extracted ++ saving ++ calls
                ++ report progress "complete" "Processing complete" 100 100)%list,
             inr extraction)
        end
    end.

(** [ProcessExamDocument] *)
Definition ProcessExamDocument (w : Collaborators) (doc : Document)
    : list Call * (string + ExamExtraction) :=
  ProcessExamDocumentWithProgress w doc false.

(** [fsrs.New] of go-fsrs. *)
Definition fsrs_New : Z := 0.

(** The cards of one concept, as the inner loop of
    [ProcessInformationDocumentWithProgress] builds them. *)
Fixpoint cardsOf (recordID docID : Z) (protos : list FlashcardPrototype) : list Card :=
  match protos with
  | [] => []
  | proto :: rest =>
      if decide (TrimSpace (fp_Front proto) = "" ∨ TrimSpace (fp_Back proto) = "")
      then cardsOf recordID docID rest
      else
        mkCard 0 (mkNullInt64 recordID true) (mkNullInt64 docID true)
               (TrimSpace (fp_Front proto)) (TrimSpace (fp_Back proto))
               (mkNullTime 0 false) (float64_of_int 0) (float64_of_int 0)
               0 0 0 0 fsrs_New (mkNullTime 0 false) 0 0
               (mkNullInt64 0 false) (mkNullString "" false) (mkNullString "" false)
          :: cardsOf recordID docID rest
  end.

(** The loop of [ProcessInformationDocumentWithProgress] over the
    concepts, from concept [conceptIdx] on. *)
Fixpoint saveConcepts (w : Collaborators) (doc : Document) (progress : bool)
    (totalConcepts : Z) (conceptIdx : nat) (concepts : list FlashcardConcept)
    : list Call * option string :=
  match concepts with
  | [] => ([], None)
  | concept :: rest =>
      if decide (TrimSpace (fc_Name concept) = "" ∨ length (fc_Cards concept) = 0%nat)
      then saveConcepts w doc progress totalConcepts (S conceptIdx) rest
      else
        let touch := CallTouchConcept (fc_Name concept) (fc_Description concept) in
        match TouchConcept w conceptIdx with
        | inl err => ([touch], Some ("touch concept " ++ fc_Name concept ++ ": " ++ err))
        | inr record =>
            let cards := cardsOf (co_ID record) (d_ID doc) (fc_Cards concept) in
            let bulk :=
              CallBulkUpsertCards (mkNullInt64 (co_ID record) true)
                                  (mkNullInt64 (d_ID doc) true) cards in
            match BulkUpsertCards w conceptIdx with
            | Some err =>
                ([touch; bulk],
                 Some ("insert cards for concept " ++ fc_Name concept ++ ": " ++ err))
            | None =>
                let said :=
                  if progress && (totalConcepts >? 0) then
                    let pct := 80 + Z.quot (20 * (Z.of_nat conceptIdx + 1)) totalConcepts in
                    [CallProgress "save"
                       ("Saved " ++ pretty (Z.of_nat (length (fc_Cards concept)))
                          ++ " cards for: " ++ fc_Name concept)
                       pct 100]
                  else [] in
                let '(calls, err) :=
                  saveConcepts w doc progress totalConcepts (S conceptIdx) rest in
                ((touch :: bulk :: said ++ calls)%list, err)
            end
        end
  end.

(** [ProcessInformationDocumentWithProgress] *)
Definition ProcessInformationDocumentWithProgress (w : Collaborators) (doc : Document)
    (progress : bool) : list Call * (string + FlashcardExtraction) :=
  if negb (ai w) then ([], inl ErrAIUnavailable)
  else
    let c1 := (report progress "concepts" "Loading prior concepts" 0 100
                 ++ [CallListConcepts 100])%list in
    match ListConcepts w with
    | inl err => (c1, inl ("list concepts: " ++ err))
    | inr allConcepts =>
        let focusConcepts :=
          if (12 <? length allConcepts)%nat then take 12 allConcepts
          else allConcepts in
        let c2 := (c1 ++ report progress "flashcards" "Loading existing flashcards" 2 100
                      ++ [CallListCardSummaries 120])%list in
        match ListCardSummaries w with
        | inl err => (c2, inl ("list existing flashcards: " ++ err))
        | inr cardSummaries =>
            let promptCtx :=
              mkFlashcardPromptContext focusConcepts allConcepts cardSummaries in
            let '(events, res) :=
              GenerateFlashcardsWithProgress w (d_StoredPath doc) promptCtx in
            let c3 :=
              (c2 ++ report progress "extract" "Extracting flashcards from document" 5 100
                  ++ CallGenerateFlashcards (d_StoredPath doc) promptCtx
                  :: relayed progress events)%list in
            match res with
            | inl err => (c3, inl err)
            | inr extraction =>
                let saving := report progress "save" "Saving flashcards to database" 80 100 in
                let totalConcepts := Z.of_nat (length (fe_Concepts extraction)) in
                let '(calls, err) :=
                  saveConcepts w doc progress totalConcepts 0 (fe_Concepts extraction) in
                match err with
                | Some err => ((c3 ++ saving ++ calls)%list, inl err)
                | None =>
                    ((c3 ++ saving ++ calls
                        ++ report progress "complete" "Processing complete" 100 100)%list,
                     inr extraction)
                end
            end
        end
    end.

(** [ProcessInformationDocument] *)
Definition ProcessInformationDocument (w : Collaborators) (doc : Document)
    : list Call * (string + FlashcardExtraction) :=
  ProcessInformationDocumentWithProgress w doc false.

(** ** Notions used by the statements *)

(** The effect on the slot sequence of an assignment through
    [job.file(index)]: the slot at [index] changes when the index is in
    range, nothing changes otherwise. *)
Definition alterAt (index : Z) (f : FileProgress → FileProgress)
    (fs : list FileProgress) : list FileProgress :=
  if (index <? 0) || (index >=? Z.of_nat (length fs)) then fs
  else alter f (Z.to_nat index) fs.

(** A slot status from which the file is not worked on any more. *)
Definition terminal (status : string) : Prop :=
  status = FileStatusComplete ∨ status = FileStatusError.

(** A store with one job of two files, fresh from [CreateJob]. *)
Definition twoFileStore : Store :=
  (CreateJob ["a.pdf"; "b.pdf"] "job-1" 10 10 NewJobManager).2.

(** A result as [processDocument] returns it on success. *)
Definition okResult : DocumentResult :=
  mkDocumentResult 7 "a.pdf" 3 "ok" "" None.

(** The calls a client of the Job Manager can make, with the values of
    [uuid.NewString()] and of the clock they meet. *)
Inductive Op :=
  | OpCreateJob (fileNames : list string) (id : string) (t1 t2 : time)
  | OpGetJob (id : string)
  | OpMarkProcessing (id : string) (now : time)
  | OpMarkCompleted (id : string) (now : time)
  | OpMarkFailed (id msg : string) (now : time)
  | OpMarkFileStarted (id : string) (index : Z) (now : time)
  | OpUpdateFileProgress (id : string) (index : Z) (step message : string)
      (current total : Z) (now : time)
  | OpMarkFileComplete (id : string) (index : Z) (result : DocumentResult) (now : time)
  | OpMarkFileError (id : string) (index : Z) (message : string)
      (result : DocumentResult) (now : time).

Definition exec (op : Op) (σ : Store) : Store :=
  match op with
  | OpCreateJob fileNames id t1 t2 => (CreateJob fileNames id t1 t2 σ).2
  | OpGetJob id => (GetJob id σ).2
  | OpMarkProcessing id now => MarkProcessing id now σ
  | OpMarkCompleted id now => MarkCompleted id now σ
  | OpMarkFailed id msg now => MarkFailed id msg now σ
  | OpMarkFileStarted id index now => MarkFileStarted id index now σ
  | OpUpdateFileProgress id index step message current total now =>
      UpdateFileProgress id index step message current total now σ
  | OpMarkFileComplete id index result now => MarkFileComplete id index result now σ
  | OpMarkFileError id index message result now =>
      MarkFileError id index message result now σ
  end.

(** Identifiers are unique: [uuid.NewString()] does not return the id of
    a job in the table. *)
Definition uniqueId (op : Op) (σ : Store) : Prop :=
  match op with
  | OpCreateJob _ id _ _ => jobs σ !! id = None
  | _ => True
  end.

(** The two operations that assign [FileStatusProcessing], addressed to
    slot [k] of job [id]. *)
Definition reopens (id : string) (k : nat) (op : Op) : Prop :=
  match op with
  | OpMarkFileStarted id' index _ => id' = id ∧ index = Z.of_nat k
  | OpUpdateFileProgress id' index _ _ _ _ _ => id' = id ∧ index = Z.of_nat k
  | _ => False
  end.

(** The heap as Go keeps it: the pointers of the table and the [Files]
    slices of its jobs lead to allocated objects, and no two entries of
    the table share a job object or a backing array. *)
Definition Inv (σ : Store) : Prop :=
  (∀ id lj, jobs σ !! id = Some lj → is_Some (jobObjs σ !! lj))
  ∧ (∀ id job lf, jobOf σ id = Some job → job_Files job = Some lf →
       is_Some (fileArrs σ !! lf))
  ∧ (∀ id1 id2 lj, jobs σ !! id1 = Some lj → jobs σ !! id2 = Some lj → id1 = id2)
  ∧ (∀ id1 id2 j1 j2 lf, jobOf σ id1 = Some j1 → jobOf σ id2 = Some j2 →
       job_Files j1 = Some lf → job_Files j2 = Some lf → id1 = id2).

(** An operation on the job object at [lj]: the table stays, other job
    objects stay, the object keeps its [Files] slice, and of the backing
    arrays only the one of that slice may change. *)
Definition touches (lj : loc) (σ σ' : Store) : Prop :=
  jobs σ' = jobs σ
  ∧ (∀ l, l ≠ lj → jobObjs σ' !! l = jobObjs σ !! l)
  ∧ job_Files <$> jobObjs σ' !! lj = job_Files <$> jobObjs σ !! lj
  ∧ (∀ l, job_Files <$> jobObjs σ !! lj ≠ Some (Some l) →
       fileArrs σ' !! l = fileArrs σ !! l)
  ∧ (∀ l, is_Some (fileArrs σ' !! l) ↔ is_Some (fileArrs σ !! l)).

(** An operation that only allocates job objects and backing arrays. *)
Definition extends (σ σ' : Store) : Prop :=
  (∀ l, is_Some (jobObjs σ !! l) → jobObjs σ' !! l = jobObjs σ !! l)
  ∧ (∀ l, is_Some (fileArrs σ !! l) → fileArrs σ' !! l = fileArrs σ !! l).

(** A job object at [lc] with its slots at [lfc] that the table does not
    reach: what a caller holds after [CreateJob] or [GetJob]. *)
Definition detached (σ : Store) (lc : loc) (lfc : option loc) : Prop :=
  is_Some (jobObjs σ !! lc)
  ∧ (∀ id, jobs σ !! id ≠ Some lc)
  ∧ (∀ lf, lfc = Some lf →
       is_Some (fileArrs σ !! lf)
       ∧ ∀ id job, jobOf σ id = Some job → job_Files job ≠ Some lf).

(** The store of [CreateJob] before the snapshot is taken. *)
Definition withNewJob (fileNames : list string) (id : string) (t1 t2 : time)
    (σ : Store) : Store :=
  let lf := newLoc (fileArrs σ) in
  let σ1 := set_fileArrs (insert lf (imap newFile fileNames)) σ in
  let job := mkUploadJob id JobStatusPending t1 t2 (Some lf) None "" in
  let lj := newLoc (jobObjs σ1) in
  set_jobs (insert id lj) (set_jobObjs (insert lj job) σ1).


(** A job whose first file has been completed. *)
Definition firstFileDone : Store :=
  MarkFileComplete "job-1" 0 okResult 30 twoFileStore.

(** A sequence of Job Manager calls. *)
Fixpoint execs (ops : list Op) (σ : Store) : Store :=
  match ops with
  | [] => σ
  | op :: rest => execs rest (exec op σ)
  end.

(** The objects a caller holds are as they were, and still out of reach
    of the table. *)
Definition keeps (σ σ' : Store) (lc : loc) (lfc : option loc) : Prop :=
  jobObjs σ' !! lc = jobObjs σ !! lc
  ∧ (∀ lf, lfc = Some lf → fileArrs σ' !! lf = fileArrs σ !! lf)
  ∧ detached σ' lc lfc.

(** The fields of a job record that the per-file operations leave alone. *)
Definition jobHead (j : UploadJob) : string * string * time * string :=
  (job_ID j, job_Status j, job_CreatedAt j, job_Error j).

(** The status the harness gives the slot of a file. *)
Definition finalStatus (fh : FileHeader) (docType : string) : string :=
  match (processDocument fh docType).2 with
  | Some _ => FileStatusError
  | None => FileStatusComplete
  end.

(** A file whose document cannot be created, and one that goes through. *)
Definition brokenFile : FileHeader :=
  mkFileHeader "a.pdf" None (inl "no pages extracted from pdf") [] (None, None).
Definition goodFile : FileHeader :=
  mkFileHeader "b.pdf" None (inr (7, 3))
    [mkProgressEvent "convert" "Converting PDF to images" 0 100;
     mkProgressEvent "analyze" "Analyzing 3 pages" 10 100]
    (Some 1%positive, None).

(** A response of the 4xx class. *)
Definition clientError (a : Attempt) : Prop :=
  ∃ status body decoded, a = Response status body decoded ∧ 400 ≤ status < 500.

(** A response with status 200 whose first choice has the non-empty
    content [text]. *)
Definition succeedsWith (text : string) (a : Attempt) : Prop :=
  ∃ body rest, a = Response StatusOK body (inr (text :: rest)) ∧ text ≠ "".

(** A failure after which the loop goes on: anything that is neither a
    success nor a response of the 4xx class. *)
Definition retriable (attempt : nat) (a : Attempt) : Prop :=
  ∃ err, tryOnce attempt a = Retry err.

(** A remote endpoint that answers 500 twice and then succeeds, and one
    that answers 401. *)
Definition failsTwice (attempt : nat) : Attempt :=
  match attempt with
  | 0%nat | 1%nat => Response 500 "internal error" (inl "invalid character")
  | _ => Response 200 "{...}" (inr ["Topics: paging, scheduling"])
  end.

Definition unauthorized (attempt : nat) : Attempt :=
  Response 401 "unauthorized" (inl "invalid character").

(** The batch the loop of [createBatches] builds when it stands at [i]. *)
Definition batchAt (batchSize : positive) (pages : list PDFPageImage) (i : nat) : batch :=
  let e := Nat.min (i + Pos.to_nat batchSize) (length pages) in
  let batchPages := take (e - i) (drop i pages) in
  mkBatch (Z.of_nat i + 1) (Z.of_nat e) batchPages
          (ImageData <$> batchPages) (PageNumber <$> batchPages).

(** Pages numbered from 1 in their order, as [ConvertPDFPagesToImages]
    returns them. *)
Definition numbered (pages : list PDFPageImage) : Prop :=
  ∀ i p, pages !! i = Some p → PageNumber p = Z.of_nat i + 1.

(** The text stored for a batch whose analysis is [text]: the marker
    line with the first and the last page of the batch, then the text. *)
Definition marked (b : batch) (text : string) : string :=
  "=== Pages " ++ pretty (b_start b) ++ "-" ++ pretty (b_end b) ++ " ==="
    ++ newline ++ text.

(** *** Rounding, for the statements about [percent] *)

(** The integer above the value a mantissa and its location stand for:
    the mantissa itself when the value is exact, the next one otherwise. *)
Definition ceiling (mrs : shr_record) : Z :=
  shr_m mrs + if shr_r mrs || shr_s mrs then 1 else 0.

(** The location of [rem / N] in the unit interval. *)
Definition locOf (N rem : Z) : location :=
  if rem =? 0 then loc_Exact else loc_Inexact (2 * rem ?= N).

(** [z / 2 ^ n] rounded to the nearest integer, ties to even. *)
Definition rneShift (z n : Z) : Z :=
  round_nearest_even (z / 2 ^ n) (locOf (2 ^ n) (z mod 2 ^ n)).

(** The value of [float64(z)] for [0 < z]: [z] itself up to 53 bits, and
    otherwise [z] rounded to 53 bits. *)
Definition roundedInt (z : Z) : Z :=
  let d := Z.log2 z + 1 in
  if d <=? 53 then z else rneShift z (d - 53) * 2 ^ (d - 53).

(** What the claim says [percent] computes, [round] being rounding to the
    nearest integer (halves up) and the result clamped to 0..100. *)
Definition clamp100 (x : Z) : Z := Z.max 0 (Z.min 100 x).

Definition percentAsClaimed (complete : bool) (current total : Z) : Z :=
  if complete then 100
  else if current =? 0 then 0
  else if total <=? 0 then clamp100 current
  else clamp100 ((2 * (100 * current) + total) / (2 * total)).

(** ** Notions used by the statements about the Job Manager as a whole *)

(** The job an operation is addressed to; [CreateJob] makes its own. *)
Definition target (op : Op) : option string :=
  match op with
  | OpCreateJob _ _ _ _ => None
  | OpGetJob id | OpMarkProcessing id _ | OpMarkCompleted id _ | OpMarkFailed id _ _
  | OpMarkFileStarted id _ _ | OpUpdateFileProgress id _ _ _ _ _ _
  | OpMarkFileComplete id _ _ _ | OpMarkFileError id _ _ _ _ => Some id
  end.

(** The operations that go through [withJob], with the clock reading
    [withJob] makes. *)
Definition stamp (op : Op) : option time :=
  match op with
  | OpCreateJob _ _ _ _ | OpGetJob _ => None
  | OpMarkProcessing _ now | OpMarkCompleted _ now | OpMarkFailed _ _ now
  | OpMarkFileStarted _ _ now | OpUpdateFileProgress _ _ _ _ _ _ now
  | OpMarkFileComplete _ _ _ now | OpMarkFileError _ _ _ _ now => Some now
  end.

(** A Go [int] on a 64-bit platform. *)
Definition int64 (z : Z) : Prop := minInt64 ≤ z ≤ maxInt64.

(** The [int] arguments of an operation that enter a computation. *)
Definition intArgs (op : Op) : Prop :=
  match op with
  | OpUpdateFileProgress _ _ _ _ current total _ => int64 current ∧ int64 total
  | _ => True
  end.

(** The stores a program can reach: from [NewJobManager], by Job Manager
    calls. *)
Inductive reachable : Store → Prop :=
  | reachable_new : reachable NewJobManager
  | reachable_step op σ :
      reachable σ → uniqueId op σ → intArgs op → reachable (exec op σ).

(** The [Results] slices of the jobs of the table lead to allocated
    arrays, and no two jobs share one. *)
Definition InvR (σ : Store) : Prop :=
  (∀ id job la, jobOf σ id = Some job → job_Results job = Some la →
     is_Some (resultArrs σ !! la))
  ∧ (∀ id1 id2 j1 j2 la, jobOf σ id1 = Some j1 → jobOf σ id2 = Some j2 →
       job_Results j1 = Some la → job_Results j2 = Some la → id1 = id2).

(** The footprint of an operation on the job object at [lj] among the
    result arrays: only the array of the job's own [Results] slice
    changes, and the slice moves only from [nil] to a new array. *)
Definition touchesR (lj : loc) (σ σ' : Store) : Prop :=
  jobs σ' = jobs σ
  ∧ (∀ l, l ≠ lj → jobObjs σ' !! l = jobObjs σ !! l)
  ∧ (is_Some (jobObjs σ' !! lj) ↔ is_Some (jobObjs σ !! lj))
  ∧ (∀ l, is_Some (resultArrs σ !! l) → is_Some (resultArrs σ' !! l))
  ∧ (∀ l, resultArrs σ' !! l ≠ resultArrs σ !! l →
       job_Results <$> jobObjs σ' !! lj = Some (Some l))
  ∧ (job_Results <$> jobObjs σ' !! lj = job_Results <$> jobObjs σ !! lj
     ∨ ∃ la, job_Results <$> jobObjs σ !! lj = Some None
             ∧ job_Results <$> jobObjs σ' !! lj = Some (Some la)
             ∧ resultArrs σ !! la = None
             ∧ is_Some (resultArrs σ' !! la)).

(** What [Index] and [Name] say about the slots of a job. *)
Definition shape (fs : list FileProgress) : list (Z * string) :=
  (λ f, (fp_Index f, fp_Name f)) <$> fs.

(** The results an operation appends to the result sequence of job
    [id]. *)
Definition appended (id : string) (op : Op) : list DocumentResult :=
  match op with
  | OpMarkFileComplete i _ r _ => if decide (i = id) then [r] else []
  | OpMarkFileError i _ message r _ =>
      if decide (i = id) then [forcedError (errorMessage message) r] else []
  | _ => []
  end.

(** Identifiers stay unique along a sequence of calls. *)
Fixpoint uniqueIds (ops : list Op) (σ : Store) : Prop :=
  match ops with
  | [] => True
  | op :: rest => uniqueId op σ ∧ uniqueIds rest (exec op σ)
  end.

(** What the fields of a slot say together, by status. *)
Definition slotOk (σ : Store) (f : FileProgress) : Prop :=
  0 ≤ fp_Percent f ≤ 100
  ∧ (fp_Status f = FileStatusPending ∨ fp_Status f = FileStatusProcessing
     ∨ fp_Status f = FileStatusComplete ∨ fp_Status f = FileStatusError)
  ∧ (fp_Status f = FileStatusPending →
       fp_Step f = "" ∧ fp_Message f = "" ∧ fp_Current f = 0 ∧ fp_Total f = 0
       ∧ fp_Percent f = 0 ∧ fp_Result f = None ∧ fp_Error f = "")
  ∧ (fp_Status f = FileStatusComplete →
       fp_Percent f = 100 ∧ fp_Current f = 100 ∧ fp_Total f = 100
       ∧ fp_Error f = "" ∧ is_Some (resultAt σ f))
  ∧ (fp_Status f = FileStatusError →
       fp_Percent f = 100 ∧ fp_Error f ≠ "" ∧ fp_Message f = fp_Error f
       ∧ is_Some (resultAt σ f))
  ∧ (∀ lr, fp_Result f = Some lr → is_Some (resultObjs σ !! lr)).

(** A store with a job that the harness has given up. *)
Definition failedStore : Store :=
  MarkFailed "job-1" "  disk full  " 40 twoFileStore.

(** The slot assignment an operation makes in job [id], as a function on
    the slot sequence of that job; [σ] is the store the operation meets
    (the copy of a result goes to the next free address). *)
Definition slotEffect (σ : Store) (id : string) (op : Op)
    (fs : list FileProgress) : list FileProgress :=
  match op with
  | OpMarkFileStarted i index _ =>
      if decide (i = id) then alterAt index started fs else fs
  | OpUpdateFileProgress i index step message current total _ =>
      if decide (i = id) then alterAt index (progressed step message current total) fs
      else fs
  | OpMarkFileComplete i index _ _ =>
      if decide (i = id)
      then alterAt index (completed (Some (newLoc (resultObjs σ)))) fs else fs
  | OpMarkFileError i index message _ _ =>
      if decide (i = id)
      then alterAt index (errored (errorMessage message) (Some (newLoc (resultObjs σ)))) fs
      else fs
  | _ => fs
  end.

(** The slot an operation assigns to, if it assigns to one. *)
Definition slotOf (op : Op) : option (string * Z) :=
  match op with
  | OpMarkFileStarted i index _ | OpUpdateFileProgress i index _ _ _ _ _
  | OpMarkFileComplete i index _ _ | OpMarkFileError i index _ _ _ => Some (i, index)
  | _ => None
  end.

(** A sequence of calls for two jobs. *)
Definition mixedCalls : list Op :=
  [OpMarkFileStarted "job-1" 0 20;
   OpCreateJob ["c.pdf"] "job-2" 30 30;
   OpUpdateFileProgress "job-1" 0 "analyze" "Analyzing 3 pages" 10 100 35;
   OpMarkFileError "job-1" 5 "late" okResult 40;
   OpMarkFileComplete "job-1" 0 okResult 50;
   OpMarkFileComplete "job-2" 0 okResult 60].

(** Every slot of every job of the table is in order. *)
Definition slotsOk (σ : Store) : Prop :=
  ∀ id f, f ∈ filesOf σ id → slotOk σ f.

(** The status and the error text of a job record after an operation
    addressed to the job. *)
Definition statusAfter (op : Op) (j : UploadJob) : string * string :=
  match op with
  | OpMarkProcessing _ _ => (JobStatusProcessing, job_Error j)
  | OpMarkCompleted _ _ => (JobStatusComplete, job_Error j)
  | OpMarkFailed _ msg _ => (JobStatusFailed, TrimSpace msg)
  | _ => (job_Status j, job_Error j)
  end.



(** The result the harness hands to the Job Manager for a file: the one
    of [processDocument], through [MarkFileError] when there is an
    error. *)
Definition harnessResult (docType : string) (fh : FileHeader) : DocumentResult :=
  match processDocument fh docType with
  | (_, r, Some e) => forcedError (errorMessage e) r
  | (_, r, None) => r
  end.

(** ** Notions used by the statements about the Analysis Client *)

(** The pauses of a run that uses all its attempts. *)
Definition allPauses : list Z := [1 * 2 * Second; 2 * 2 * Second].

(** A remote endpoint that never gives a usable answer, and one that
    answers at once. *)
Definition alwaysDown (attempt : nat) : Attempt :=
  Response 503 "unavailable" (inl "invalid character").

Definition answers (text : string) (attempt : nat) : Attempt :=
  Response 200 "{...}" (inr [text]).

(** Three images of which the second cannot be analysed. *)
Definition secondFails (i : nat) : nat → Attempt :=
  match i with
  | 1%nat => unauthorized
  | _ => answers ("page " ++ pretty (Z.of_nat i + 1))
  end.

(** The images sent when the first [n] images have been worked on, each
    with the trace of its call; [i] is the position of the first one. *)
Definition sent (remotes : nat → nat → Attempt) (i n : nat) (imageDataURIs : list string)
    : list (string * ClientTrace) :=
  imap (λ j u, (u, (AnalyzeImage (remotes (i + j)%nat)).2)) (take n imageDataURIs).

(** The calls of [progressFn] after [n] images, when there is one. *)
Definition reported (progressFn : bool) (texts : nat → string) (total : Z) (i n : nat)
    : list PageProgress :=
  if progressFn
  then (λ j, mkPageProgress (Z.of_nat j + 1) total (texts j)) <$> seq i n
  else [].

(** ** Notions used by the statements about cards *)

(** A [sql.NullTime] as it comes from the database or from
    [ApplyFSRSCard]: valid exactly when it holds a time other than the
    zero time. *)
Definition plainTime (t : NullTime) : Prop :=
  nt_Valid t = negb (IsZero (nt_Time t)).

(** What the trip through the scheduler's card makes of a time field. *)
Definition throughScheduler (t : NullTime) : NullTime :=
  let t' := if nt_Valid t then nt_Time t else 0 in
  mkNullTime t' (negb (IsZero t')).

(** A new card as [ProcessInformationDocumentWithProgress] builds it,
    and one with counters that cannot be. *)
Definition freshCard : Card :=
  mkCard 1 (mkNullInt64 5 true) (mkNullInt64 7 true) "What is paging?" "A memory scheme"
         (mkNullTime 0 false) (S754_zero false) (S754_zero false) 0 0 0 0 0 (mkNullTime 0 false)
         100 100 (mkNullInt64 0 false) (mkNullString "" false) (mkNullString "" false).

Definition brokenCard : Card :=
  mkCard 2 (mkNullInt64 5 true) (mkNullInt64 7 true) "Q" "A"
         (mkNullTime 0 true) (S754_zero false) (S754_zero false) (-3) 4 (-1) 0 (-2) (mkNullTime 50 false)
         100 100 (mkNullInt64 0 false) (mkNullString "" false) (mkNullString "" false).

(** ** Notions used by the statements about [extractJSON] *)

(** [TrimSpace] on the bytes. *)
Definition trimSpaceBytes (l : list ascii) : list ascii :=
  let l1 := trimWith spaceRuneAtHead (length l) l in
  rev (trimWith spaceRuneAtTail (length l1) (rev l1)).

(** A string without white space at either end. *)
Definition trimmed (s : string) : Prop := TrimSpace s = s.

(** The bytes of the new line character, the back quote and the two
    braces. *)
Definition nlByte : ascii := ascii_of_nat 10.
Definition backquote : ascii := ascii_of_nat 96.
Definition openBrace : ascii := ascii_of_nat 123.
Definition closeBrace : ascii := ascii_of_nat 125.

(** A JSON object as a string: what stands between an opening and a
    closing brace, with the braces. *)
Definition object (mid : string) : string := "{" ++ mid ++ "}".

(** The two cuts of [extractJSON] on the bytes: the code fence, then the
    braces. *)
Definition fenceBytes : list ascii := [backquote; backquote; backquote].

Definition stripFence (l : list ascii) : list ascii :=
  if hasPrefix l fenceBytes then
    let newlineIdx := indexFrom [nlByte] (drop 3 l) 0 in
    let start := if decide (newlineIdx ≠ -1) then 3 + newlineIdx + 1 else 3 in
    let endIdx := indexFrom fenceBytes (drop (Z.to_nat start) l) 0 in
    if decide (endIdx ≠ -1)
    then take (Z.to_nat (start + endIdx - start)) (drop (Z.to_nat start) l)
    else drop (Z.to_nat start) l
  else l.

Definition cutBraces (l : list ascii) : list ascii :=
  let startIdx := indexFrom [openBrace] l 0 in
  if decide (startIdx ≠ -1) then
    let endIdx := lastIndexFrom [closeBrace] l 0 in
    if decide (endIdx ≠ -1 ∧ endIdx > startIdx)
    then take (Z.to_nat (endIdx + 1 - startIdx)) (drop (Z.to_nat startIdx) l)
    else l
  else l.

(** [p] stands somewhere in [l]. *)
Definition occursIn (p l : list ascii) : Prop :=
  ∃ k, hasPrefix (drop k l) p = true.

(** ** Notions used by the statements about concept clustering *)

(** The concepts of all clusters, cluster after cluster. *)
Definition members (clusters : list conceptCluster) : list Concept :=
  concat (cc_concepts <$> clusters).

(** The test [a.Weight > b.Weight] of the code holds. *)
Definition outweighs (a b : Concept) : Prop :=
  float64_gt (co_Weight a) (co_Weight b) = true.

(** No concept is outweighed by one that comes after it. *)
Definition descending (s : list Concept) : Prop :=
  ∀ i j a b, (i < j)%nat → s !! i = Some a → s !! j = Some b → ¬ outweighs b a.

(** The sort when the outer loop stands at [n], and when the inner loop
    for [i] stands at [j]. *)
Definition settled (n : nat) (s : list Concept) : Prop :=
  ∀ i j a b, (i < n)%nat → (i < j)%nat → s !! i = Some a → s !! j = Some b → ¬ outweighs b a.

Definition leads (i j : nat) (s : list Concept) : Prop :=
  ∀ k a b, (i < k < j)%nat → s !! i = Some a → s !! k = Some b → ¬ outweighs b a.

Definition ids (l : list Concept) : list Z := co_ID <$> l.

Section clustering_notions.

Variable ToLower : string → string.
Variable threshold : spec_float.
Variable concepts : list Concept.

(** [c] passes the test of [shouldMergeConcept] against [m]. *)
Definition similar (m c : Concept) : Prop :=
  float64_ge (calculateConceptSimilarity ToLower m c) threshold = true.

(** Every concept of a cluster after the first was merged on account of
    the concepts before it. *)
Definition linked (ms : list Concept) : Prop :=
  ∀ k m, ms !! S k = Some m → shouldMergeConcept ToLower (take (S k) ms) m threshold = true.

(** The inner loop of [clusterConcepts] after the concepts [seen]:
    [P0] is the [processed] map before the cluster was begun. *)
Definition gathered (P0 : gset Z) (seed : Concept) (seen ms : list Concept) (P : gset Z)
    : Prop :=
  NoDup (ids ms)
  ∧ P = list_to_set (ids ms) ∪ P0
  ∧ (∀ m, m ∈ ms → co_ID m ∉ P0)
  ∧ (∀ m, m ∈ ms → m ∈ concepts)
  ∧ linked ms
  ∧ head ms = Some seed
  ∧ (∀ c, c ∈ seen → co_ID c ∉ P → ¬ similar seed c).

Definition good (cl : conceptCluster) : Prop :=
  linked (cc_concepts cl)
  ∧ cc_avgWeight cl = calculateAverageWeight (cc_concepts cl)
  ∧ ∃ seed, head (cc_concepts cl) = Some seed ∧ cc_primaryName cl = co_Name seed.

(** The outer loop of [clusterConcepts] after the concepts [pre] of the
    sorted sequence. *)
Definition formed (pre : list Concept) (clusters : list conceptCluster) (P : gset Z) : Prop :=
  P = list_to_set (ids (members clusters))
  ∧ NoDup (ids (members clusters))
  ∧ (∀ c, c ∈ pre → co_ID c ∈ P)
  ∧ Forall good clusters
  ∧ (∀ c, c ∈ members clusters → c ∈ concepts)
  ∧ (∀ a b cla clb s m, clusters !! a = Some cla → clusters !! b = Some clb →
       head (cc_concepts cla) = Some s → m ∈ cc_concepts clb →
       ((a ≤ b)%nat → ¬ outweighs m s) ∧ ((a < b)%nat → ¬ similar s m))
  ∧ (∀ cl s c, cl ∈ clusters → head (cc_concepts cl) = Some s → c ∈ concepts →
       co_ID c ∉ P → ¬ outweighs c s ∧ ¬ similar s c).

End clustering_notions.

(** [strings.ToLower] on ASCII text. *)
Definition lowerByte (b : ascii) : ascii :=
  let n := nat_of_ascii b in
  if (65 <=? n)%nat && (n <=? 90)%nat then ascii_of_nat (n + 32) else b.

Definition asciiLower (s : string) : string :=
  string_of_list_ascii (lowerByte <$> list_ascii_of_string s).

(** Three concepts without descriptions, and the default threshold of
    the condense handler. *)
Definition noText : NullString := mkNullString "" false.

Definition binarySearch : Concept :=
  mkConcept 1 "Binary Search" noText (float64_of_int 3) "1" 100 100.
Definition searchTrees : Concept :=
  mkConcept 2 "binary search trees" noText (float64_of_int 5) "1,2" 100 100.
Definition paging : Concept :=
  mkConcept 3 "Paging" noText (float64_of_int 2) "2" 100 100.

Definition sampleConcepts : list Concept := [binarySearch; searchTrees; paging].
Definition half : spec_float := float64_const 5 10.

(** ** Notions used by the statements about the ingestion service *)

(** The calls of the [progress] callback among [calls], in order. *)
Definition progressOf (calls : list Call) : list ProgressEvent :=
  omap (λ c, match c with
             | CallProgress step message current total =>
                 Some (mkProgressEvent step message current total)
             | _ => None
             end) calls.

(** The calls of [UpsertExamTopic] among [calls], in order. *)
Definition upserts (calls : list Call) : list (DocumentTopic * string) :=
  omap (λ c, match c with
             | CallUpsertExamTopic topic description => Some (topic, description)
             | _ => None
             end) calls.

(** What is handed to [UpsertExamTopic] for a topic of the extraction. *)
Definition savedTopic (doc : Document) (t : ExamTopicResult) : DocumentTopic * string :=
  (mkDocumentTopic (d_ID doc) (et_Name t) (Z.max 1 (et_Frequency t)), et_Description t).

(** The report after topic [i] of [n] is saved. *)
Definition topicEvent (n : Z) (i : nat) (t : ExamTopicResult) : ProgressEvent :=
  mkProgressEvent "save" ("Saved topic: " ++ et_Name t) (90 + 10 * (Z.of_nat i + 1) / n) 100.

(** A card as the ingestion service hands it to the flashcard service:
    tied to a concept and a document, both sides non-empty and without
    white space around them, new to the scheduler. *)
Definition newCard (conceptID documentID : NullInt64) (c : Card) : Prop :=
  c_ConceptID c = conceptID ∧ c_SourceDocumentID c = documentID
  ∧ c_Front c ≠ "" ∧ TrimSpace (c_Front c) = c_Front c
  ∧ c_Back c ≠ "" ∧ TrimSpace (c_Back c) = c_Back c
  ∧ c_ID c = 0 ∧ c_State c = fsrs_New
  ∧ (c_ElapsedDays c, c_ScheduledDays c, c_Reps c, c_Lapses c) = (0, 0, 0, 0)
  ∧ nt_Valid (c_Due c) = false ∧ nt_Valid (c_LastReview c) = false.

(** What can be said of each call [ProcessInformationDocumentWithProgress]
    makes. *)
Definition cleanCall (w : Collaborators) (doc : Document) (call : Call) : Prop :=
  match call with
  | CallTouchConcept name _ => TrimSpace name ≠ ""
  | CallBulkUpsertCards conceptID documentID cards =>
      documentID = mkNullInt64 (d_ID doc) true
      ∧ (∃ i record, TouchConcept w i = inr record
                     ∧ conceptID = mkNullInt64 (co_ID record) true)
      ∧ Forall (newCard conceptID documentID) cards
  | CallListConcepts limit => limit = 100
  | CallListCardSummaries limit => limit = 120
  | CallGenerateFlashcards pdfPath promptCtx =>
      pdfPath = d_StoredPath doc
      ∧ ListConcepts w = inr (pc_ExistingConcepts promptCtx)
      ∧ ListCardSummaries w = inr (pc_ExistingCards promptCtx)
      ∧ pc_FocusConcepts promptCtx = take 12 (pc_ExistingConcepts promptCtx)
  | CallProgress _ _ _ _ => True
  | CallExtractExamTopics _ | CallUpsertExamTopic _ _ => False
  end.


(** A document, what the AI service finds in it, and collaborators that
    all work; then the same with a database that fails at the second
    topic. *)
Definition sampleDocument : Document := mkDocument 7 "os.pdf" "/data/os.pdf" "exam" 3 100.

Definition sampleExam : ExamExtraction :=
  mkExamExtraction [mkExamTopicResult "Paging" "Page tables" 3 [];
                    mkExamTopicResult "Deadlock" "" 0 [];
                    mkExamTopicResult "Scheduling" "Round robin" 2 []]
                   "three topics".

Definition sampleFlashcards : FlashcardExtraction :=
  mkFlashcardExtraction
    [mkFlashcardConcept "Paging" "Page tables"
       [mkFlashcardPrototype " What is a page? " "A fixed-size block";
        mkFlashcardPrototype "  " "no question"];
     mkFlashcardConcept "  " "no name" [mkFlashcardPrototype "Q" "A"];
     mkFlashcardConcept "Deadlock" "" [mkFlashcardPrototype "Q" "A"]]
    "".

Definition analysing : list ProgressEvent :=
  [mkProgressEvent "analyze" "Analyzing 3 pages" 40 100].

Definition working : Collaborators :=
  mkCollaborators true (λ _, (analysing, inr sampleExam)) (λ _, None)
                  (inr sampleConcepts) (inr [])
                  (λ _ _, (analysing, inr sampleFlashcards)) (λ _, inr paging) (λ _, None).

Definition lockedDatabase : Collaborators :=
  mkCollaborators true (λ _, (analysing, inr sampleExam))
                  (λ i, if (i =? 1)%nat then Some "database is locked" else None)
                  (inr sampleConcepts) (inr [])
                  (λ _ _, (analysing, inr sampleFlashcards)) (λ _, inr paging) (λ _, None).

(** * Properties *)

(** ** Reading the store after the building blocks of the operations *)

Lemma withJob_None id fn now σ :
  jobs σ !! id = None → withJob id fn now σ = σ.
Proof. unfold withJob. by intros ->. Qed.

Lemma withJob_Some id fn now σ lj :
  jobs σ !! id = Some lj →
  withJob id fn now σ = set_jobObjs (alter (job_with_UpdatedAt now) lj) (fn lj σ).
Proof. unfold withJob. by intros ->. Qed.

Lemma alterAt_nil index f : alterAt index f [] = [].
Proof. unfold alterAt. by destruct (_ || _). Qed.

Lemma length_alterAt index f fs : length (alterAt index f fs) = length fs.
Proof. unfold alterAt. destruct (_ || _); [done | apply length_alter]. Qed.

Lemma alterAt_in_range index f fs :
  0 ≤ index < Z.of_nat (length fs) →
  alterAt index f fs = alter f (Z.to_nat index) fs.
Proof.
  intros H. unfold alterAt.
  destruct (index <? 0) eqn:E1; [lia |].
  destruct (index >=? Z.of_nat (length fs)) eqn:E2; [lia | done].
Qed.

Lemma alterAt_out_of_range index f fs :
  index < 0 ∨ Z.of_nat (length fs) ≤ index → alterAt index f fs = fs.
Proof.
  intros H. unfold alterAt.
  destruct (index <? 0) eqn:E1; [done |].
  destruct (index >=? Z.of_nat (length fs)) eqn:E2; [done | lia].
Qed.

(** Assignments to fields of a job other than [Files] do not move its
    slots. *)
Lemma filesOf_alter_job σ id l g :
  (∀ j, job_Files (g j) = job_Files j) →
  filesOf (set_jobObjs (alter g l) σ) id = filesOf σ id.
Proof.
  intros Hg. unfold filesOf, jobOf. simpl.
  destruct (jobs σ !! id) as [lj|]; simpl; [| done].
  destruct (decide (l = lj)) as [->|Hne].
  - rewrite lookup_alter_eq. destruct (jobObjs σ !! lj); simpl; [| done].
    by rewrite Hg.
  - by rewrite lookup_alter_ne.
Qed.

Lemma resultsOf_alter_job σ id l g :
  (∀ j, job_Results (g j) = job_Results j) →
  resultsOf (set_jobObjs (alter g l) σ) id = resultsOf σ id.
Proof.
  intros Hg. unfold resultsOf, jobOf. simpl.
  destruct (jobs σ !! id) as [lj|]; simpl; [| done].
  destruct (decide (l = lj)) as [->|Hne].
  - rewrite lookup_alter_eq. destruct (jobObjs σ !! lj); simpl; [| done].
    by rewrite Hg.
  - by rewrite lookup_alter_ne.
Qed.

(** The slot assignment made through [job.file(index)]. *)
Lemma filesOf_slot_update σ id lj index f :
  jobs σ !! id = Some lj →
  filesOf (match file lj index σ with Some p => updFile p f σ | None => σ end) id
  = alterAt index f (filesOf σ id).
Proof.
  intros Hj. unfold file, filesOf at 2, jobOf. rewrite Hj. simpl.
  destruct (jobObjs σ !! lj) as [job|] eqn:Hjob; simpl.
  - unfold alterAt.
    destruct ((index <? 0) || (index >=? Z.of_nat (length (readFiles σ (job_Files job)))))
      eqn:Hoob.
    + unfold filesOf, jobOf. by rewrite Hj; simpl; rewrite Hjob.
    + destruct (job_Files job) as [lf|] eqn:Hf; simpl.
      * unfold filesOf, jobOf, updFile. simpl. rewrite Hj. simpl. rewrite Hjob, Hf.
        simpl. rewrite lookup_alter_eq. by destruct (fileArrs σ !! lf).
      * assert (length (readFiles σ None) = 0%nat) as Hlen by done.
        apply orb_false_elim in Hoob as [H1 H2]. lia.
  - unfold filesOf, jobOf. rewrite Hj. simpl. rewrite Hjob. by rewrite alterAt_nil.
Qed.

Lemma file_None_out_of_range σ id lj index :
  jobs σ !! id = Some lj →
  index < 0 ∨ Z.of_nat (length (filesOf σ id)) ≤ index →
  file lj index σ = None.
Proof.
  intros Hj Hr. unfold file. unfold filesOf, jobOf in Hr. rewrite Hj in Hr. simpl in Hr.
  destruct (jobObjs σ !! lj) as [job|]; simpl; [| done].
  destruct (index <? 0) eqn:E1; [done |].
  destruct (index >=? _) eqn:E2; [done | lia].
Qed.

Lemma file_is_Some σ id lj index :
  jobs σ !! id = Some lj →
  0 ≤ index < Z.of_nat (length (filesOf σ id)) →
  is_Some (file lj index σ).
Proof.
  intros Hj Hr. unfold file. unfold filesOf, jobOf in Hr. rewrite Hj in Hr. simpl in Hr.
  destruct (jobObjs σ !! lj) as [job|]; simpl in *; [| lia].
  destruct (index <? 0) eqn:E1; [lia |].
  destruct (index >=? _) eqn:E2; [lia |]. simpl.
  destruct (job_Files job); simpl in *; [eauto | lia].
Qed.

(** [job.Results = append(job.Results, result)] on a job of the table. *)
Lemma resultsOf_appendResult σ id lj r :
  jobs σ !! id = Some lj → is_Some (jobObjs σ !! lj) →
  resultsOf (appendResult lj r σ) id = (resultsOf σ id ++ [r])%list.
Proof.
  intros Hj [job Hjob]. unfold appendResult, resultsOf at 2, jobOf.
  rewrite Hj. simpl. rewrite Hjob.
  destruct (job_Results job) as [la|] eqn:Hr.
  - unfold resultsOf, jobOf. simpl. rewrite Hj. simpl. rewrite Hjob, Hr. simpl.
    by rewrite lookup_insert_eq.
  - unfold resultsOf, jobOf, updJob. simpl. rewrite Hj. simpl.
    rewrite lookup_alter_eq, Hjob. simpl. by rewrite lookup_insert_eq.
Qed.

Lemma filesOf_appendResult σ id lj r :
  filesOf (appendResult lj r σ) id = filesOf σ id.
Proof.
  unfold appendResult. destruct (jobObjs σ !! lj) as [job|]; [| done].
  destruct (job_Results job); [done |].
  unfold updJob. by rewrite filesOf_alter_job.
Qed.

(** ** The slots, the results and the job record after each operation *)

(** [withJob] around an assignment to one slot. *)
Lemma filesOf_withJob_slot id fn now σ index f :
  (∀ lj, jobs σ !! id = Some lj → filesOf (fn lj σ) id = alterAt index f (filesOf σ id)) →
  filesOf (withJob id fn now σ) id = alterAt index f (filesOf σ id).
Proof.
  intros Hfn. destruct (jobs σ !! id) as [lj|] eqn:Hj.
  - rewrite (withJob_Some _ _ _ _ lj Hj), filesOf_alter_job by done. by apply Hfn.
  - rewrite withJob_None by done. unfold filesOf, jobOf. rewrite Hj. simpl.
    by rewrite alterAt_nil.
Qed.

Lemma filesOf_MarkFileStarted σ id index now :
  filesOf (MarkFileStarted id index now σ) id = alterAt index started (filesOf σ id).
Proof.
  apply filesOf_withJob_slot. intros lj Hj. by apply filesOf_slot_update.
Qed.

Lemma filesOf_UpdateFileProgress σ id index step message current total now :
  filesOf (UpdateFileProgress id index step message current total now σ) id
  = alterAt index (progressed step message current total) (filesOf σ id).
Proof.
  apply filesOf_withJob_slot. intros lj Hj. by apply filesOf_slot_update.
Qed.

(** The two operations that finish a file: the slot assignment with a
    fresh copy of the result, then the append. *)
Lemma filesOf_finish σ id lj index f r r' :
  jobs σ !! id = Some lj →
  filesOf
    (appendResult lj r'
       match file lj index σ with
       | Some p => let '(lr, σ') := cloneResult r σ in updFile p (f (Some lr)) σ'
       | None => σ
       end) id
  = alterAt index (f (Some (newLoc (resultObjs σ)))) (filesOf σ id).
Proof.
  intros Hj. rewrite filesOf_appendResult.
  rewrite <- (filesOf_slot_update σ id lj index _ Hj).
  by destruct (file lj index σ).
Qed.

Lemma resultsOf_finish σ id lj index f r r' :
  jobs σ !! id = Some lj → is_Some (jobObjs σ !! lj) →
  resultsOf
    (appendResult lj r'
       match file lj index σ with
       | Some p => let '(lr, σ') := cloneResult r σ in updFile p (f (Some lr)) σ'
       | None => σ
       end) id
  = (resultsOf σ id ++ [r'])%list.
Proof.
  intros Hj Hjob. rewrite (resultsOf_appendResult _ id).
  - by destruct (file lj index σ).
  - by destruct (file lj index σ).
  - by destruct (file lj index σ).
Qed.

Lemma filesOf_MarkFileComplete σ id index r now :
  filesOf (MarkFileComplete id index r now σ) id
  = alterAt index (completed (Some (newLoc (resultObjs σ)))) (filesOf σ id).
Proof.
  apply filesOf_withJob_slot. intros lj Hj.
  by apply (filesOf_finish σ id lj index completed).
Qed.

Lemma filesOf_MarkFileError σ id index message r now :
  filesOf (MarkFileError id index message r now σ) id
  = alterAt index (errored (errorMessage message) (Some (newLoc (resultObjs σ))))
            (filesOf σ id).
Proof.
  apply filesOf_withJob_slot. intros lj Hj.
  by apply (filesOf_finish σ id lj index (errored (errorMessage message))).
Qed.

Lemma jobOf_is_Some σ id :
  is_Some (jobOf σ id) →
  ∃ lj, jobs σ !! id = Some lj ∧ is_Some (jobObjs σ !! lj).
Proof.
  unfold jobOf. destruct (jobs σ !! id) as [lj|]; simpl; [eauto |].
  by intros [? ?].
Qed.

Lemma resultsOf_MarkFileComplete σ id index r now :
  is_Some (jobOf σ id) →
  resultsOf (MarkFileComplete id index r now σ) id = (resultsOf σ id ++ [r])%list.
Proof.
  intros (lj & Hj & Hjob)%jobOf_is_Some. unfold MarkFileComplete.
  rewrite (withJob_Some _ _ _ _ lj Hj), resultsOf_alter_job by done.
  by apply (resultsOf_finish σ id lj index completed).
Qed.

Lemma resultsOf_MarkFileError σ id index message r now :
  is_Some (jobOf σ id) →
  resultsOf (MarkFileError id index message r now σ) id
  = (resultsOf σ id ++ [forcedError (errorMessage message) r])%list.
Proof.
  intros (lj & Hj & Hjob)%jobOf_is_Some. unfold MarkFileError.
  rewrite (withJob_Some _ _ _ _ lj Hj), resultsOf_alter_job by done.
  by apply (resultsOf_finish σ id lj index (errored (errorMessage message))).
Qed.

(** The job record after [withJob]: what [fn] made of it, with the new
    [UpdatedAt]. *)
Lemma jobOf_withJob σ id fn now lj :
  jobs σ !! id = Some lj →
  jobs (fn lj σ) = jobs σ →
  jobOf (withJob id fn now σ) id = job_with_UpdatedAt now <$> jobOf (fn lj σ) id.
Proof.
  intros Hj Hjobs. rewrite (withJob_Some _ _ _ _ lj Hj). unfold jobOf. simpl.
  rewrite Hjobs, Hj. simpl. by rewrite lookup_alter_eq.
Qed.

Lemma jobs_appendResult lj r σ : jobs (appendResult lj r σ) = jobs σ.
Proof.
  unfold appendResult. destruct (jobObjs σ !! lj) as [job|]; [| done].
  by destruct (job_Results job).
Qed.

Lemma jobs_finish σ lj index (f : option loc → FileProgress → FileProgress) r :
  jobs match file lj index σ with
       | Some p => let '(lr, σ') := cloneResult r σ in updFile p (f (Some lr)) σ'
       | None => σ
       end = jobs σ.
Proof. by destruct (file lj index σ). Qed.

Lemma UpdatedAt_withJob σ id fn now :
  is_Some (jobOf σ id) →
  (∀ lj, jobs (fn lj σ) = jobs σ) →
  (∀ lj, dom (jobObjs (fn lj σ)) = dom (jobObjs σ)) →
  job_UpdatedAt <$> jobOf (withJob id fn now σ) id = Some now.
Proof.
  intros (lj & Hj & Hjob)%jobOf_is_Some Hjobs Hdom.
  rewrite (jobOf_withJob _ _ _ _ lj Hj (Hjobs lj)).
  unfold jobOf. rewrite Hjobs, Hj. simpl.
  assert (is_Some (jobObjs (fn lj σ) !! lj)) as [j ->].
  { apply elem_of_dom. rewrite Hdom. by apply elem_of_dom. }
  done.
Qed.

Lemma dom_jobObjs_appendResult lj r σ :
  dom (jobObjs (appendResult lj r σ)) = dom (jobObjs σ).
Proof.
  unfold appendResult. destruct (jobObjs σ !! lj) as [job|]; [| done].
  destruct (job_Results job); [done |]. simpl. apply dom_alter_L.
Qed.

Lemma jobObjs_finish σ lj index (f : option loc → FileProgress → FileProgress) r :
  jobObjs match file lj index σ with
          | Some p => let '(lr, σ') := cloneResult r σ in updFile p (f (Some lr)) σ'
          | None => σ
          end = jobObjs σ.
Proof. by destruct (file lj index σ). Qed.

Lemma UpdatedAt_MarkFileComplete σ id index r now :
  is_Some (jobOf σ id) →
  job_UpdatedAt <$> jobOf (MarkFileComplete id index r now σ) id = Some now.
Proof.
  intros Hjob. apply UpdatedAt_withJob; [done | |]; intros lj.
  - by rewrite jobs_appendResult, (jobs_finish σ lj index completed).
  - by rewrite dom_jobObjs_appendResult, (jobObjs_finish σ lj index completed).
Qed.

Lemma UpdatedAt_MarkFileError σ id index message r now :
  is_Some (jobOf σ id) →
  job_UpdatedAt <$> jobOf (MarkFileError id index message r now σ) id = Some now.
Proof.
  intros Hjob. apply UpdatedAt_withJob; [done | |]; intros lj.
  - by rewrite jobs_appendResult,
      (jobs_finish σ lj index (errored (errorMessage message))).
  - by rewrite dom_jobObjs_appendResult,
      (jobObjs_finish σ lj index (errored (errorMessage message))).
Qed.

Lemma resultObjs_appendResult lj r σ :
  resultObjs (appendResult lj r σ) = resultObjs σ.
Proof.
  unfold appendResult. destruct (jobObjs σ !! lj) as [job|]; [| done].
  by destruct (job_Results job).
Qed.

Lemma lookup_alterAt index f fs :
  0 ≤ index →
  alterAt index f fs !! Z.to_nat index = f <$> fs !! Z.to_nat index.
Proof.
  intros Hi. unfold alterAt. destruct (index <? 0) eqn:E1; [lia |]. simpl.
  destruct (index >=? Z.of_nat (length fs)) eqn:E2.
  - rewrite lookup_ge_None_2 by lia. done.
  - apply list_lookup_alter_eq.
Qed.

Lemma lookup_alterAt_ne index f fs (k : nat) :
  k ≠ Z.to_nat index → alterAt index f fs !! k = fs !! k.
Proof.
  intros Hk. unfold alterAt. destruct (_ || _); [done |].
  by apply list_lookup_alter_ne.
Qed.

(** ** MarkFileStarted *)

(** C8, as the code has it: on an existing job and a valid index,
    [MarkFileStarted] sets the slot to [processing] with an empty stage
    label, the message "Starting", [Current] and [Percent] zero, [Total]
    100 and the error text cleared; index, name and result pointer of the
    slot and all other slots stay as they are. *)
Theorem MarkFileStarted_resets_slot σ id index now f :
  0 ≤ index →
  filesOf σ id !! Z.to_nat index = Some f →
  ∃ f', filesOf (MarkFileStarted id index now σ) id !! Z.to_nat index = Some f'
        ∧ fp_Status f' = FileStatusProcessing
        ∧ fp_Step f' = ""
        ∧ fp_Message f' = "Starting"
        ∧ fp_Current f' = 0
        ∧ fp_Total f' = 100
        ∧ fp_Percent f' = 0
        ∧ fp_Error f' = ""
        ∧ fp_Index f' = fp_Index f
        ∧ fp_Name f' = fp_Name f
        ∧ fp_Result f' = fp_Result f
        ∧ ∀ k, k ≠ Z.to_nat index →
               filesOf (MarkFileStarted id index now σ) id !! k = filesOf σ id !! k.
Proof.
  intros Hi Hf. exists (started f). rewrite filesOf_MarkFileStarted.
  rewrite lookup_alterAt, Hf by done. repeat split.
  intros k Hk. by apply lookup_alterAt_ne.
Qed.

Lemma MarkFileStarted_resets_slot_witness :
  0 ≤ 1
  ∧ filesOf twoFileStore "job-1" !! Z.to_nat 1 = Some (newFile 1 "b.pdf")
  ∧ ∃ f', filesOf (MarkFileStarted "job-1" 1 20 twoFileStore) "job-1" !! Z.to_nat 1
          = Some f'
          ∧ fp_Status f' = FileStatusProcessing
          ∧ fp_Step f' = ""
          ∧ fp_Message f' = "Starting"
          ∧ fp_Current f' = 0
          ∧ fp_Total f' = 100
          ∧ fp_Percent f' = 0
          ∧ fp_Error f' = ""
          ∧ fp_Index f' = fp_Index (newFile 1 "b.pdf")
          ∧ fp_Name f' = fp_Name (newFile 1 "b.pdf")
          ∧ fp_Result f' = fp_Result (newFile 1 "b.pdf")
          ∧ ∀ k, k ≠ Z.to_nat 1 →
                 filesOf (MarkFileStarted "job-1" 1 20 twoFileStore) "job-1" !! k
                 = filesOf twoFileStore "job-1" !! k.
Proof.
  split; [lia |]. split; [vm_compute; reflexivity |].
  apply (MarkFileStarted_resets_slot twoFileStore "job-1" 1 20 (newFile 1 "b.pdf")).
  - lia.
  - vm_compute; reflexivity.
Defined.

(** C8 as stated fails: after [MarkFileStarted] the counter [Total] of
    the slot is 100, not 0. *)
Lemma MarkFileStarted_total_counterexample :
  ∃ f', filesOf (MarkFileStarted "job-1" 0 20 twoFileStore) "job-1" !! 0%nat = Some f'
        ∧ fp_Status f' = FileStatusProcessing
        ∧ fp_Current f' = 0
        ∧ fp_Total f' = 100
        ∧ ¬ (fp_Current f' = 0 ∧ fp_Total f' = 0).
Proof.
  eexists. split; [vm_compute; reflexivity |]. simpl.
  repeat split. intros [_ H]. discriminate H.
Qed.

(** ** MarkFileComplete, MarkFileError *)

(** What [MarkFileError] does on an existing job and a valid index: the
    slot becomes [error] with the trimmed message, or "processing error"
    when that is empty; the slot points to a copy of the result as it was
    passed; the result with status [error] and the message filled in is
    appended to the result sequence. *)
Lemma MarkFileError_effect σ id index message r now f :
  0 ≤ index →
  filesOf σ id !! Z.to_nat index = Some f →
  let σ' := MarkFileError id index message r now σ in
  ∃ f', filesOf σ' id !! Z.to_nat index = Some f'
        ∧ fp_Status f' = FileStatusError
        ∧ fp_Message f' = errorMessage message
        ∧ fp_Error f' = errorMessage message
        ∧ errorMessage message ≠ ""
        ∧ resultAt σ' f' = Some r
        ∧ resultsOf σ' id
          = (resultsOf σ id ++ [forcedError (errorMessage message) r])%list
        ∧ dr_Status (forcedError (errorMessage message) r) = FileStatusError
        ∧ dr_Message (forcedError (errorMessage message) r) ≠ "".
Proof.
  intros Hi Hf σ'.
  assert (is_Some (jobOf σ id)) as Hjob.
  { unfold filesOf in Hf. destruct (jobOf σ id); [eauto | done]. }
  assert (errorMessage message ≠ "") as Hmsg.
  { unfold errorMessage. by case_decide. }
  exists (errored (errorMessage message) (Some (newLoc (resultObjs σ))) f).
  subst σ'. rewrite filesOf_MarkFileError, lookup_alterAt, Hf by done.
  rewrite resultsOf_MarkFileError by done.
  repeat split; try done.
  - destruct (jobOf_is_Some _ _ Hjob) as (lj & Hj & Hobj).
    unfold resultAt, MarkFileError. simpl.
    rewrite (withJob_Some _ _ _ _ lj Hj). simpl.
    rewrite resultObjs_appendResult.
    destruct (file_is_Some σ id lj index Hj) as [p ->].
    { apply lookup_lt_Some in Hf. lia. }
    simpl. by rewrite lookup_insert_eq.
  - unfold forcedError. by case_decide.
  - unfold forcedError. case_decide as Hd; [| done]. done.
Qed.

(** C9 at a failing input: [MarkFileError] with the message "boom" and a
    result whose status is "ok" and whose message is empty.  The result
    appended to the job has status [error] and message "boom"; the
    result attached to the slot is the one passed in, status "ok" and
    empty message, so the two differ. *)
Theorem MarkFileError_slot_result_not_forced :
  let σ' := MarkFileError "job-1" 0 "boom" okResult 20 twoFileStore in
  ∃ f', filesOf σ' "job-1" !! 0%nat = Some f'
        ∧ fp_Status f' = FileStatusError
        ∧ fp_Message f' = "boom"
        ∧ resultAt σ' f' = Some okResult
        ∧ dr_Status okResult = "ok"
        ∧ dr_Message okResult = ""
        ∧ resultsOf σ' "job-1" = [mkDocumentResult 7 "a.pdf" 3 "error" "boom" None].
Proof.
  eexists. split; [vm_compute; reflexivity |].
  repeat split; vm_compute; reflexivity.
Qed.

(** The same through the harness: a file that cannot be opened, with an
    error whose text is empty.  The result appended to the job carries
    the message of the harness; the result of the slot has none. *)
Example runUploadJob_slot_message_not_filled :
  let fh := mkFileHeader "a.pdf" (Some "") (inl "") [] (None, None) in
  let σ' := (runUploadJob Z.of_nat "job-1" DocumentExam [fh] (twoFileStore, 0%nat)).1 in
  dr_Message <$> resultsOf σ' "job-1" = ["open file a.pdf:"]
  ∧ ∃ f', filesOf σ' "job-1" !! 0%nat = Some f'
          ∧ fp_Status f' = FileStatusError
          ∧ dr_Message <$> resultAt σ' f' = Some "".
Proof.
  split; [vm_compute; reflexivity |].
  eexists. split; [vm_compute; reflexivity |]. split; vm_compute; reflexivity.
Qed.

(** C10: with an index out of range, [MarkFileComplete] and
    [MarkFileError] on an existing job leave its slots and every result
    cell as they are, and still append the result ([MarkFileError]: with
    status [error] and the message filled in, as for a valid index) and
    set [UpdatedAt]. *)
Theorem finish_out_of_range_still_appends σ id index message r now :
  is_Some (jobOf σ id) →
  index < 0 ∨ Z.of_nat (length (filesOf σ id)) ≤ index →
  (filesOf (MarkFileComplete id index r now σ) id = filesOf σ id
   ∧ resultObjs (MarkFileComplete id index r now σ) = resultObjs σ
   ∧ resultsOf (MarkFileComplete id index r now σ) id = (resultsOf σ id ++ [r])%list
   ∧ job_UpdatedAt <$> jobOf (MarkFileComplete id index r now σ) id = Some now)
  ∧ (filesOf (MarkFileError id index message r now σ) id = filesOf σ id
     ∧ resultObjs (MarkFileError id index message r now σ) = resultObjs σ
     ∧ resultsOf (MarkFileError id index message r now σ) id
       = (resultsOf σ id ++ [forcedError (errorMessage message) r])%list
     ∧ job_UpdatedAt <$> jobOf (MarkFileError id index message r now σ) id = Some now).
Proof.
  intros Hjob Hr. destruct (jobOf_is_Some _ _ Hjob) as (lj & Hj & Hobj).
  pose proof (file_None_out_of_range σ id lj index Hj Hr) as Hnone.
  split; split_and!.
  - rewrite filesOf_MarkFileComplete. by apply alterAt_out_of_range.
  - unfold MarkFileComplete. rewrite (withJob_Some _ _ _ _ lj Hj). simpl.
    by rewrite resultObjs_appendResult, Hnone.
  - by apply resultsOf_MarkFileComplete.
  - by apply UpdatedAt_MarkFileComplete.
  - rewrite filesOf_MarkFileError. by apply alterAt_out_of_range.
  - unfold MarkFileError. rewrite (withJob_Some _ _ _ _ lj Hj). simpl.
    by rewrite resultObjs_appendResult, Hnone.
  - by apply resultsOf_MarkFileError.
  - by apply UpdatedAt_MarkFileError.
Qed.

Lemma finish_out_of_range_still_appends_witness :
  is_Some (jobOf twoFileStore "job-1")
  ∧ (-1 < 0 ∨ Z.of_nat (length (filesOf twoFileStore "job-1")) ≤ -1)
  ∧ resultsOf (MarkFileComplete "job-1" (-1) okResult 20 twoFileStore) "job-1"
    = (resultsOf twoFileStore "job-1" ++ [okResult])%list.
Proof.
  assert (is_Some (jobOf twoFileStore "job-1")) as H1 by (vm_compute; eauto).
  assert (-1 < 0 ∨ Z.of_nat (length (filesOf twoFileStore "job-1")) ≤ -1) as H2
    by (left; lia).
  split; [exact H1 |]. split; [exact H2 |].
  exact (proj1 (proj2 (proj2 (proj1
    (finish_out_of_range_still_appends twoFileStore "job-1" (-1) "x" okResult 20 H1 H2))))).
Defined.

(** ** The heap invariant and the footprint of the operations *)

Lemma touches_refl lj σ : touches lj σ σ.
Proof. unfold touches. naive_solver. Qed.

Lemma touches_trans lj σ1 σ2 σ3 :
  touches lj σ1 σ2 → touches lj σ2 σ3 → touches lj σ1 σ3.
Proof.
  intros (A1 & A2 & A3 & A4 & A5) (B1 & B2 & B3 & B4 & B5). split_and!.
  - congruence.
  - intros l Hl. rewrite B2, A2; done.
  - congruence.
  - intros l Hl. rewrite B4, A4; [done | done |]. by rewrite A3.
  - intros l. rewrite B5. apply A5.
Qed.

Lemma touches_updJob lj g σ :
  (∀ j, job_Files (g j) = job_Files j) → touches lj σ (updJob lj g σ).
Proof.
  intros Hg. unfold touches, updJob. simpl. split_and!; try done.
  - intros l Hl. by rewrite lookup_alter_ne.
  - rewrite lookup_alter_eq. destruct (jobObjs σ !! lj); simpl; [| done].
    by rewrite Hg.
Qed.

Lemma touches_cloneResult lj r σ : touches lj σ (cloneResult r σ).2.
Proof. unfold touches. simpl. naive_solver. Qed.

Lemma touches_appendResult lj r σ : touches lj σ (appendResult lj r σ).
Proof.
  unfold appendResult. destruct (jobObjs σ !! lj) as [job|] eqn:Hjob.
  - destruct (job_Results job).
    + unfold touches. simpl. naive_solver.
    + apply (touches_trans _ _ (set_resultArrs
        (insert (newLoc (resultArrs σ)) (readResults σ None ++ [r])%list) σ)).
      * unfold touches. simpl. naive_solver.
      * by apply touches_updJob.
  - apply touches_refl.
Qed.

Lemma touches_slot_update lj index f σ :
  touches lj σ match file lj index σ with Some p => updFile p f σ | None => σ end.
Proof.
  destruct (file lj index σ) as [[lf i]|] eqn:Hfile; [| apply touches_refl].
  unfold file in Hfile. destruct (jobObjs σ !! lj) as [job|] eqn:Hjob; [| done].
  simpl in Hfile. destruct (_ || _); [done |].
  destruct (job_Files job) as [lf'|] eqn:Hf; [| done]. simpl in Hfile.
  injection Hfile as <- <-.
  unfold touches, updFile. simpl. split_and!; try done.
  - intros l Hl. rewrite lookup_alter_ne; [done |]. rewrite Hjob in Hl. simpl in Hl.
    congruence.
  - intros l. rewrite lookup_alter. case_decide; [subst | done].
    by rewrite fmap_is_Some.
Qed.

Lemma touches_finish lj index (f : option loc → FileProgress → FileProgress) r r' σ :
  touches lj σ
    (appendResult lj r'
       match file lj index σ with
       | Some p => let '(lr, σ') := cloneResult r σ in updFile p (f (Some lr)) σ'
       | None => σ
       end).
Proof.
  eapply touches_trans; [| apply touches_appendResult].
  pose proof (touches_slot_update lj index (f (Some (newLoc (resultObjs σ))))
                (cloneResult r σ).2) as H.
  change (file lj index (cloneResult r σ).2) with (file lj index σ) in H.
  destruct (file lj index σ); [| apply touches_refl].
  eapply touches_trans; [apply (touches_cloneResult lj r) | exact H].
Qed.

Lemma touches_withJob id fn now σ lj :
  jobs σ !! id = Some lj →
  touches lj σ (fn lj σ) →
  touches lj σ (withJob id fn now σ).
Proof.
  intros Hj Hfn. rewrite (withJob_Some _ _ _ _ lj Hj).
  eapply touches_trans; [exact Hfn |].
  by apply (touches_updJob lj (job_with_UpdatedAt now)).
Qed.

(** The operation addressed to a job, if any. *)
Lemma exec_touches op σ :
  match op with
  | OpCreateJob _ _ _ _ | OpGetJob _ => True
  | OpMarkProcessing id _ | OpMarkCompleted id _ | OpMarkFailed id _ _
  | OpMarkFileStarted id _ _ | OpUpdateFileProgress id _ _ _ _ _ _
  | OpMarkFileComplete id _ _ _ | OpMarkFileError id _ _ _ _ =>
      match jobs σ !! id with
      | Some lj => touches lj σ (exec op σ)
      | None => exec op σ = σ
      end
  end.
Proof.
  destruct op; try done; simpl;
    (destruct (jobs σ !! id) as [lj|] eqn:Hj; [| by apply withJob_None]);
    apply touches_withJob; try done.
  - by apply touches_updJob.
  - by apply touches_updJob.
  - eapply touches_trans; by apply touches_updJob.
  - apply touches_slot_update.
  - apply touches_slot_update.
  - apply (touches_finish lj index completed).
  - apply (touches_finish lj index (errored (errorMessage message))).
Qed.

Lemma newLoc_fresh {V} (h : gmap loc V) : h !! newLoc h = None.
Proof. apply not_elem_of_dom, is_fresh. Qed.

Lemma newLoc_ne {V} (h : gmap loc V) l : is_Some (h !! l) → l ≠ newLoc h.
Proof. intros [v Hv] ->. by rewrite newLoc_fresh in Hv. Qed.

(** [clone] allocates and writes nowhere else. *)
Lemma cloneFiles_frame fs σ :
  jobs (cloneFiles fs σ).2 = jobs σ
  ∧ jobObjs (cloneFiles fs σ).2 = jobObjs σ
  ∧ fileArrs (cloneFiles fs σ).2 = fileArrs σ
  ∧ resultArrs (cloneFiles fs σ).2 = resultArrs σ.
Proof.
  revert σ. induction fs as [|f fs IH]; intros σ; [done |]. simpl.
  destruct (resultAt σ f) as [res|].
  - destruct (cloneFiles fs _) as [rest σ2] eqn:E. simpl.
    specialize (IH (set_resultObjs (insert (newLoc (resultObjs σ)) res) σ)).
    rewrite E in IH. apply IH.
  - destruct (cloneFiles fs σ) as [rest σ2] eqn:E. simpl.
    specialize (IH σ). rewrite E in IH. apply IH.
Qed.

Lemma cloneFiles_no_results fs σ :
  Forall (λ f, fp_Result f = None) fs → cloneFiles fs σ = (fs, σ).
Proof.
  induction 1 as [|f fs Hf _ IH]; [done |]. simpl.
  unfold resultAt. rewrite Hf. simpl. by rewrite IH.
Qed.

Lemma clone_extends p σ :
  jobs (clone p σ).2 = jobs σ ∧ extends σ (clone p σ).2.
Proof.
  unfold clone, extends. destruct p as [lj|]; [| done].
  destruct (jobObjs σ !! lj) as [job|]; [| done].
  set (files := readFiles σ (job_Files job)).
  pose proof (cloneFiles_frame files σ) as (F1 & F2 & F3 & F4).
  destruct (cloneFiles files σ) as [fs' σ'] eqn:Ecf.
  simpl in F1, F2, F3, F4.
  destruct (0 <? length files)%nat;
    (match goal with |- context [if ?c then _ else _] => destruct c end);
    simpl; rewrite ?F1, ?F2, ?F3; (split; [done |]); split; intros l Hl;
    rewrite ?lookup_insert_ne; try done; symmetry; by apply newLoc_ne.
Qed.

(** The table keeps its shape: same entries, same [Files] slices, no
    backing array lost. *)
Lemma Inv_stable σ σ' :
  jobs σ' = jobs σ →
  (∀ id, job_Files <$> jobOf σ' id = job_Files <$> jobOf σ id) →
  (∀ l, is_Some (fileArrs σ !! l) → is_Some (fileArrs σ' !! l)) →
  Inv σ → Inv σ'.
Proof.
  intros Hjobs Hfiles Hdom (I1 & I2 & I3 & I4). split_and!.
  - intros id lj Hj. specialize (Hfiles id). unfold jobOf in Hfiles.
    rewrite Hjobs in Hj, Hfiles. rewrite Hj in Hfiles. simpl in Hfiles.
    destruct (I1 id lj Hj) as [j Hjob]. rewrite Hjob in Hfiles.
    destruct (jobObjs σ' !! lj); [eauto | done].
  - intros id job' lf Hjob' Hf. specialize (Hfiles id). rewrite Hjob' in Hfiles.
    simpl in Hfiles. destruct (jobOf σ id) as [job|] eqn:Hjob; [| done].
    simpl in Hfiles. apply Hdom, (I2 id job lf Hjob). congruence.
  - intros id1 id2 lj. rewrite Hjobs. apply I3.
  - intros id1 id2 j1' j2' lf H1 H2 Hf1 Hf2.
    pose proof (Hfiles id1) as E1. pose proof (Hfiles id2) as E2.
    rewrite H1 in E1. rewrite H2 in E2. simpl in E1, E2.
    destruct (jobOf σ id1) as [j1|] eqn:Hj1; [| done].
    destruct (jobOf σ id2) as [j2|] eqn:Hj2; [| done].
    simpl in E1, E2. apply (I4 id1 id2 j1 j2 lf Hj1 Hj2); congruence.
Qed.

Lemma touches_Files lj σ σ' id :
  touches lj σ σ' → job_Files <$> jobOf σ' id = job_Files <$> jobOf σ id.
Proof.
  intros (T1 & T2 & T3 & _). unfold jobOf. rewrite T1.
  destruct (jobs σ !! id) as [l|]; simpl; [| done].
  destruct (decide (l = lj)) as [->|Hne]; [done |]. by rewrite T2.
Qed.

Lemma Inv_touches lj σ σ' : touches lj σ σ' → Inv σ → Inv σ'.
Proof.
  intros HT. apply Inv_stable.
  - apply HT.
  - intros id. by apply (touches_Files lj).
  - intros l. apply HT.
Qed.

Lemma extends_jobOf σ σ' id :
  jobs σ' = jobs σ → extends σ σ' → Inv σ → jobOf σ' id = jobOf σ id.
Proof.
  intros Hjobs [E1 _] (I1 & _). unfold jobOf. rewrite Hjobs.
  destruct (jobs σ !! id) as [l|] eqn:Hj; simpl; [| done].
  apply E1. by apply (I1 id).
Qed.

Lemma Inv_extends σ σ' : jobs σ' = jobs σ → extends σ σ' → Inv σ → Inv σ'.
Proof.
  intros Hjobs Hext HI. apply (Inv_stable σ σ'); try done.
  - intros id. by rewrite (extends_jobOf σ σ').
  - intros l Hl. destruct Hext as [_ E2]. by rewrite E2.
Qed.

Lemma CreateJob_unfold fileNames id t1 t2 σ :
  CreateJob fileNames id t1 t2 σ
  = let '(snapshot, σ4) :=
      clone (Some (newLoc (jobObjs σ))) (withNewJob fileNames id t1 t2 σ) in
    ((id, snapshot), σ4).
Proof. reflexivity. Qed.

Lemma jobOf_withNewJob fileNames id t1 t2 σ id' :
  Inv σ →
  jobOf (withNewJob fileNames id t1 t2 σ) id'
  = if decide (id' = id)
    then Some (mkUploadJob id JobStatusPending t1 t2
                 (Some (newLoc (fileArrs σ))) None "")
    else jobOf σ id'.
Proof.
  intros (I1 & _). unfold jobOf, withNewJob. simpl. case_decide as Hid.
  - subst. rewrite lookup_insert_eq. simpl. by rewrite lookup_insert_eq.
  - rewrite lookup_insert_ne by done.
    destruct (jobs σ !! id') as [l|] eqn:Hj; simpl; [| done].
    rewrite lookup_insert_ne; [done |]. symmetry. apply newLoc_ne. by apply (I1 id').
Qed.

Lemma Inv_withNewJob fileNames id t1 t2 σ :
  Inv σ → Inv (withNewJob fileNames id t1 t2 σ).
Proof.
  intros HI. pose proof HI as (I1 & I2 & I3 & I4).
  pose proof (jobOf_withNewJob fileNames id t1 t2 σ) as HjobOf.
  split_and!.
  - intros id' lj. unfold withNewJob. simpl. rewrite lookup_insert.
    case_decide as Hid.
    + intros [= <-]. rewrite lookup_insert_eq. eauto.
    + intros Hj. rewrite lookup_insert_ne; [by apply (I1 id') |].
      symmetry. apply newLoc_ne. by apply (I1 id').
  - intros id' job lf. rewrite HjobOf by done. case_decide.
    + intros [= <-] [= <-]. unfold withNewJob. simpl. rewrite lookup_insert_eq. eauto.
    + intros Hjob Hf. unfold withNewJob. simpl.
      rewrite lookup_insert_ne; [by apply (I2 id' job) |].
      symmetry. apply newLoc_ne. by apply (I2 id' job).
  - intros id1 id2 lj. unfold withNewJob. simpl. rewrite !lookup_insert.
    repeat case_decide; subst; try done.
    + intros [= <-] H2. exfalso. by apply (newLoc_ne _ _ (I1 _ _ H2)).
    + intros H1 [= <-]. exfalso. by apply (newLoc_ne _ _ (I1 _ _ H1)).
    + apply I3.
  - intros id1 id2 j1 j2 lf. rewrite !HjobOf by done.
    repeat case_decide; subst; try done.
    + intros [= <-] H2 [= <-] Hf2. exfalso.
      by apply (newLoc_ne _ _ (I2 _ _ _ H2 Hf2)).
    + intros H1 [= <-] Hf1 [= <-]. exfalso.
      by apply (newLoc_ne _ _ (I2 _ _ _ H1 Hf1)).
    + apply I4.
Qed.

(** Every operation keeps the invariant. *)
Lemma Inv_NewJobManager : Inv NewJobManager.
Proof.
  unfold Inv, jobOf, NewJobManager. simpl. split_and!; intros *.
  - by rewrite lookup_empty.
  - by rewrite lookup_empty.
  - by rewrite lookup_empty.
  - by rewrite lookup_empty.
Qed.

Lemma Inv_clone p σ : Inv σ → Inv (clone p σ).2.
Proof.
  intros HI. destruct (clone_extends p σ) as [Hjobs Hext].
  by apply (Inv_extends σ).
Qed.

Lemma Inv_exec op σ : Inv σ → Inv (exec op σ).
Proof.
  intros HI. pose proof (exec_touches op σ) as HT. destruct op; simpl in *.
  - rewrite CreateJob_unfold.
    pose proof (Inv_clone (Some (newLoc (jobObjs σ)))
                  (withNewJob fileNames id t1 t2 σ)
                  (Inv_withNewJob fileNames id t1 t2 σ HI)) as H.
    by destruct (clone _ _).
  - unfold GetJob. destruct (jobs σ !! id) as [lj|]; [| done].
    pose proof (Inv_clone (Some lj) σ HI) as H. by destruct (clone _ _).
  - destruct (jobs σ !! id); [by eapply Inv_touches | by rewrite HT].
  - destruct (jobs σ !! id); [by eapply Inv_touches | by rewrite HT].
  - destruct (jobs σ !! id); [by eapply Inv_touches | by rewrite HT].
  - destruct (jobs σ !! id); [by eapply Inv_touches | by rewrite HT].
  - destruct (jobs σ !! id); [by eapply Inv_touches | by rewrite HT].
  - destruct (jobs σ !! id); [by eapply Inv_touches | by rewrite HT].
  - destruct (jobs σ !! id); [by eapply Inv_touches | by rewrite HT].
Qed.

(** ** Operations on one job leave the slots of the others alone *)

Lemma filesOf_frame_touches σ σ' id id' lj' :
  Inv σ → jobs σ !! id' = Some lj' → id ≠ id' → touches lj' σ σ' →
  filesOf σ' id = filesOf σ id.
Proof.
  intros (I1 & I2 & I3 & I4) Hj' Hne (T1 & T2 & T3 & T4 & T5).
  unfold filesOf, jobOf. rewrite T1.
  destruct (jobs σ !! id) as [lj|] eqn:Hj; simpl; [| done].
  assert (lj ≠ lj') as Hl by (intros ->; by apply Hne, (I3 id id' lj')).
  rewrite T2 by done.
  destruct (jobObjs σ !! lj) as [job|] eqn:Hjob; [| done].
  destruct (job_Files job) as [lf|] eqn:Hf; simpl; [| done].
  rewrite T4; [done |]. intros Hsame.
  destruct (jobObjs σ !! lj') as [job'|] eqn:Hjob'; [| done].
  simpl in Hsame. apply Hne, (I4 id id' job job' lf).
  - unfold jobOf. rewrite Hj. simpl. done.
  - unfold jobOf. rewrite Hj'. simpl. done.
  - done.
  - congruence.
Qed.

Lemma filesOf_frame_extends σ σ' id :
  Inv σ → jobs σ' = jobs σ → extends σ σ' → filesOf σ' id = filesOf σ id.
Proof.
  intros HI Hjobs Hext. unfold filesOf. rewrite (extends_jobOf σ σ') by done.
  destruct (jobOf σ id) as [job|] eqn:Hjob; [| done].
  destruct (job_Files job) as [lf|] eqn:Hf; simpl; [| done].
  destruct Hext as [_ E2]. rewrite E2; [done |].
  destruct HI as (_ & I2 & _). by apply (I2 id job).
Qed.

Lemma filesOf_withNewJob fileNames id t1 t2 σ id' :
  Inv σ → id' ≠ id →
  filesOf (withNewJob fileNames id t1 t2 σ) id' = filesOf σ id'.
Proof.
  intros HI Hne. unfold filesOf. rewrite jobOf_withNewJob by done.
  case_decide; [done |].
  destruct (jobOf σ id') as [job|] eqn:Hjob; [| done].
  destruct (job_Files job) as [lf|] eqn:Hf; simpl; [| done].
  unfold withNewJob. simpl. rewrite lookup_insert_ne; [done |].
  symmetry. apply newLoc_ne. destruct HI as (_ & I2 & _). by apply (I2 id' job).
Qed.

Lemma filesOf_clone p σ id : Inv σ → filesOf (clone p σ).2 id = filesOf σ id.
Proof.
  intros HI. destruct (clone_extends p σ) as [Hjobs Hext].
  by apply filesOf_frame_extends.
Qed.

Lemma filesOf_CreateJob fileNames id t1 t2 σ id' :
  Inv σ → id' ≠ id →
  filesOf (CreateJob fileNames id t1 t2 σ).2 id' = filesOf σ id'.
Proof.
  intros HI Hne. rewrite CreateJob_unfold.
  pose proof (filesOf_clone (Some (newLoc (jobObjs σ)))
                (withNewJob fileNames id t1 t2 σ) id'
                (Inv_withNewJob fileNames id t1 t2 σ HI)) as H.
  destruct (clone _ _) as [snapshot σ4]. simpl in *.
  by rewrite H, filesOf_withNewJob.
Qed.

Lemma filesOf_GetJob id σ id' : Inv σ → filesOf (GetJob id σ).2 id' = filesOf σ id'.
Proof.
  intros HI. unfold GetJob. destruct (jobs σ !! id) as [lj|]; [| done].
  pose proof (filesOf_clone (Some lj) σ id' HI) as H. by destruct (clone _ _).
Qed.

(** The operations on the whole job do not touch its slots. *)
Lemma filesOf_MarkProcessing id now σ id' :
  filesOf (MarkProcessing id now σ) id' = filesOf σ id'.
Proof.
  unfold MarkProcessing, withJob, updJob. destruct (jobs σ !! id); [| done].
  by rewrite !filesOf_alter_job.
Qed.

Lemma filesOf_MarkCompleted id now σ id' :
  filesOf (MarkCompleted id now σ) id' = filesOf σ id'.
Proof.
  unfold MarkCompleted, withJob, updJob. destruct (jobs σ !! id); [| done].
  by rewrite !filesOf_alter_job.
Qed.

Lemma filesOf_MarkFailed id msg now σ id' :
  filesOf (MarkFailed id msg now σ) id' = filesOf σ id'.
Proof.
  unfold MarkFailed, withJob, updJob. destruct (jobs σ !! id); [| done].
  by rewrite !filesOf_alter_job.
Qed.

Lemma lookup_alterAt_other index f fs (k : nat) :
  index ≠ Z.of_nat k → alterAt index f fs !! k = fs !! k.
Proof.
  intros Hne. destruct (decide (index < 0)).
  - rewrite alterAt_out_of_range; [done | lia].
  - apply lookup_alterAt_ne. lia.
Qed.

Lemma lookup_alterAt_nat (k : nat) f fs :
  alterAt (Z.of_nat k) f fs !! k = f <$> fs !! k.
Proof.
  pose proof (lookup_alterAt (Z.of_nat k) f fs) as H.
  rewrite Nat2Z.id in H. apply H. lia.
Qed.

(** An operation addressed to another job. *)
Lemma filesOf_exec_other_job op σ id id' :
  Inv σ → id ≠ id' →
  match op with
  | OpCreateJob _ _ _ _ | OpGetJob _ => False
  | OpMarkProcessing i _ | OpMarkCompleted i _ | OpMarkFailed i _ _
  | OpMarkFileStarted i _ _ | OpUpdateFileProgress i _ _ _ _ _ _
  | OpMarkFileComplete i _ _ _ | OpMarkFileError i _ _ _ _ => i = id'
  end →
  filesOf (exec op σ) id = filesOf σ id.
Proof.
  intros HI Hne Hop. pose proof (exec_touches op σ) as HT.
  destruct op; try done; subst;
    (destruct (jobs σ !! id') as [lj'|] eqn:Hj'; [| by rewrite HT]);
    by apply (filesOf_frame_touches σ _ id id' lj').
Qed.

(** ** Terminal slots *)

(** C5, as the code has it: a slot whose status is [complete] or [error]
    keeps a terminal status under every Job Manager operation, whatever
    job or slot it addresses, other than [MarkFileStarted] and
    [UpdateFileProgress] addressed to that very slot. *)
Theorem terminal_slot_stays_terminal σ op id k f :
  Inv σ → uniqueId op σ →
  filesOf σ id !! k = Some f → terminal (fp_Status f) →
  ¬ reopens id k op →
  ∃ f', filesOf (exec op σ) id !! k = Some f' ∧ terminal (fp_Status f').
Proof.
  intros HI Huniq Hf Hterm Hre.
  assert (is_Some (jobOf σ id)) as Hjob.
  { unfold filesOf in Hf. destruct (jobOf σ id); [eauto | done]. }
  destruct op as [fileNames i t1 t2 | i | i now | i now | i msg now
                 | i index now | i index step message current total now
                 | i index r now | i index message r now]; simpl in *.
  - exists f. split; [| done]. rewrite filesOf_CreateJob; [done | done |].
    intros ->. apply jobOf_is_Some in Hjob as (lj & Hj & _). congruence.
  - exists f. by rewrite filesOf_GetJob.
  - exists f. by rewrite filesOf_MarkProcessing.
  - exists f. by rewrite filesOf_MarkCompleted.
  - exists f. by rewrite filesOf_MarkFailed.
  - destruct (decide (i = id)) as [->|Hne].
    + exists f. split; [| done]. rewrite filesOf_MarkFileStarted.
      rewrite lookup_alterAt_other; [done |]. naive_solver.
    + exists f. split; [| done].
      pose proof (filesOf_exec_other_job (OpMarkFileStarted i index now) σ id i HI
                    (not_eq_sym Hne) eq_refl) as Hother.
      simpl in Hother. by rewrite Hother.
  - destruct (decide (i = id)) as [->|Hne].
    + exists f. split; [| done]. rewrite filesOf_UpdateFileProgress.
      rewrite lookup_alterAt_other; [done |]. naive_solver.
    + exists f. split; [| done].
      pose proof (filesOf_exec_other_job
                    (OpUpdateFileProgress i index step message current total now)
                    σ id i HI (not_eq_sym Hne) eq_refl) as Hother.
      simpl in Hother. by rewrite Hother.
  - destruct (decide (i = id)) as [->|Hne].
    + rewrite filesOf_MarkFileComplete.
      destruct (decide (index = Z.of_nat k)) as [->|Hk].
      * eexists. rewrite lookup_alterAt_nat, Hf. simpl.
        split; [done |]. by left.
      * exists f. by rewrite lookup_alterAt_other.
    + exists f. split; [| done].
      pose proof (filesOf_exec_other_job (OpMarkFileComplete i index r now) σ id i HI
                    (not_eq_sym Hne) eq_refl) as Hother.
      simpl in Hother. by rewrite Hother.
  - destruct (decide (i = id)) as [->|Hne].
    + rewrite filesOf_MarkFileError.
      destruct (decide (index = Z.of_nat k)) as [->|Hk].
      * eexists. rewrite lookup_alterAt_nat, Hf. simpl.
        split; [done |]. by right.
      * exists f. by rewrite lookup_alterAt_other.
    + exists f. split; [| done].
      pose proof (filesOf_exec_other_job (OpMarkFileError i index message r now) σ id i HI
                    (not_eq_sym Hne) eq_refl) as Hother.
      simpl in Hother. by rewrite Hother.
Qed.

Lemma Inv_twoFileStore : Inv twoFileStore.
Proof.
  apply (Inv_exec (OpCreateJob ["a.pdf"; "b.pdf"] "job-1" 10 10)), Inv_NewJobManager.
Qed.

Lemma Inv_firstFileDone : Inv firstFileDone.
Proof. apply (Inv_exec (OpMarkFileComplete "job-1" 0 okResult 30)), Inv_twoFileStore. Qed.

Lemma terminal_slot_stays_terminal_witness :
  ∃ f, filesOf firstFileDone "job-1" !! 0%nat = Some f
       ∧ terminal (fp_Status f)
       ∧ ∃ f', filesOf (exec (OpMarkFileError "job-1" 0 "late" okResult 40) firstFileDone)
                 "job-1" !! 0%nat = Some f'
               ∧ terminal (fp_Status f').
Proof.
  eexists. split; [vm_compute; reflexivity |]. split; [by left |].
  eapply (terminal_slot_stays_terminal firstFileDone
            (OpMarkFileError "job-1" 0 "late" okResult 40) "job-1" 0).
  - apply Inv_firstFileDone.
  - exact I.
  - vm_compute; reflexivity.
  - by left.
  - intros [].
Defined.

(** C5 as stated fails: [UpdateFileProgress] and [MarkFileStarted] on a
    slot that is [complete] set it to [processing]. *)
Lemma terminal_slot_reopened_counterexample :
  ∃ f f1 f2,
    filesOf firstFileDone "job-1" !! 0%nat = Some f
    ∧ fp_Status f = FileStatusComplete
    ∧ filesOf (UpdateFileProgress "job-1" 0 "analyze" "again" 1 2 40 firstFileDone)
        "job-1" !! 0%nat = Some f1
    ∧ fp_Status f1 = FileStatusProcessing
    ∧ filesOf (MarkFileStarted "job-1" 0 40 firstFileDone) "job-1" !! 0%nat = Some f2
    ∧ fp_Status f2 = FileStatusProcessing.
Proof.
  do 3 eexists. split_and!; vm_compute; reflexivity.
Qed.

(** ** Snapshots *)

(** What [clone] returns is not reachable from the table. *)
Lemma clone_detached lj σ :
  Inv σ → is_Some (jobObjs σ !! lj) →
  ∃ lc jc, (clone (Some lj) σ).1 = Some lc
           ∧ jobObjs (clone (Some lj) σ).2 !! lc = Some jc
           ∧ detached (clone (Some lj) σ).2 lc (job_Files jc).
Proof.
  intros HI [job Hjob].
  pose proof (clone_extends (Some lj) σ) as [Hjobs Hext].
  pose proof (λ id, extends_jobOf σ _ id Hjobs Hext HI) as HjobOf.
  destruct HI as (I1 & I2 & _).
  destruct (clone (Some lj) σ) as [p σc] eqn:E. simpl in Hjobs, Hext, HjobOf |- *.
  assert (∃ lc jc, p = Some lc ∧ jobObjs σc !! lc = Some jc
                   ∧ jobObjs σ !! lc = None
                   ∧ ∀ lf, job_Files jc = Some lf →
                           is_Some (fileArrs σc !! lf) ∧ fileArrs σ !! lf = None)
    as (lc & jc & -> & Hjc & Hlc & Hfc).
  { unfold clone in E. rewrite Hjob in E.
    set (files := readFiles σ (job_Files job)) in E.
    pose proof (cloneFiles_frame files σ) as (F1 & F2 & F3 & F4).
    destruct (cloneFiles files σ) as [fs' σ'] eqn:Ecf.
    simpl in F1, F2, F3, F4.
    destruct (0 <? length files)%nat;
      (match type of E with context [if ?c then _ else _] => destruct c end);
      injection E as <- <-; eexists _, _; simpl;
      rewrite ?lookup_insert_eq, ?F2, ?F3; split_and!; try done;
      try apply newLoc_fresh.
    - intros lf [= <-]. rewrite lookup_insert_eq. split; [eauto |]. apply newLoc_fresh.
    - intros lf [= <-]. rewrite lookup_insert_eq. split; [eauto |]. apply newLoc_fresh. }
  exists lc, jc. split; [done |]. split; [done |]. unfold detached. split_and!.
  - eauto.
  - intros id Hid. rewrite Hjobs in Hid. destruct (I1 _ _ Hid) as [? ?]. congruence.
  - intros lf Hf. destruct (Hfc lf Hf) as [Hs Hn]. split; [done |].
    intros id j Hj Hfj. rewrite HjobOf in Hj.
    destruct (I2 _ _ _ Hj Hfj) as [? ?]. congruence.
Qed.

Lemma keeps_refl σ lc lfc : detached σ lc lfc → keeps σ σ lc lfc.
Proof. by unfold keeps. Qed.

Lemma keeps_trans σ1 σ2 σ3 lc lfc :
  keeps σ1 σ2 lc lfc → keeps σ2 σ3 lc lfc → keeps σ1 σ3 lc lfc.
Proof.
  intros (A1 & A2 & A3) (B1 & B2 & B3). split_and!; [congruence | | done].
  intros lf Hlf. by rewrite B2, A2.
Qed.

Lemma keeps_touches σ σ' id' lj' lc lfc :
  jobs σ !! id' = Some lj' → touches lj' σ σ' →
  detached σ lc lfc → keeps σ σ' lc lfc.
Proof.
  intros Hj' HT (D1 & D2 & D3).
  pose proof (λ id, touches_Files lj' σ σ' id HT) as HFiles.
  destruct HT as (T1 & T2 & T3 & T4 & T5).
  assert (lc ≠ lj') as Hne by (intros ->; by apply (D2 id')).
  assert (∀ lf, lfc = Some lf → fileArrs σ' !! lf = fileArrs σ !! lf) as Hfa.
  { intros lf Hlf. apply T4. destruct (D3 lf Hlf) as [_ Hnot].
    destruct (jobObjs σ !! lj') as [job'|] eqn:Hjob'; [| done]. simpl.
    intros [= Hsame]. apply (Hnot id' job'); [| done].
    unfold jobOf. rewrite Hj'. simpl. done. }
  split_and!; [by apply T2 | done |]. unfold detached. split_and!.
  - by rewrite T2.
  - intros id. rewrite T1. apply D2.
  - intros lf Hlf. destruct (D3 lf Hlf) as [Hs Hnot]. split.
    + by rewrite Hfa.
    + intros id j' Hj Hf. specialize (HFiles id). rewrite Hj in HFiles.
      simpl in HFiles. destruct (jobOf σ id) as [j|] eqn:Hjo; [| done].
      simpl in HFiles. apply (Hnot id j); [done | congruence].
Qed.

Lemma keeps_extends σ σ' lc lfc :
  Inv σ → jobs σ' = jobs σ → extends σ σ' →
  detached σ lc lfc → keeps σ σ' lc lfc.
Proof.
  intros HI Hjobs Hext (D1 & D2 & D3).
  pose proof (λ id, extends_jobOf σ σ' id Hjobs Hext HI) as HjobOf.
  destruct Hext as [E1 E2].
  assert (∀ lf, lfc = Some lf → fileArrs σ' !! lf = fileArrs σ !! lf) as Hfa.
  { intros lf Hlf. apply E2. by apply D3. }
  split_and!; [by apply E1 | done |]. unfold detached. split_and!.
  - by rewrite E1.
  - intros id. rewrite Hjobs. apply D2.
  - intros lf Hlf. destruct (D3 lf Hlf) as [Hs Hnot]. split.
    + by rewrite Hfa.
    + intros id j. rewrite HjobOf. apply Hnot.
Qed.

Lemma keeps_withNewJob fileNames id t1 t2 σ lc lfc :
  Inv σ → detached σ lc lfc →
  keeps σ (withNewJob fileNames id t1 t2 σ) lc lfc.
Proof.
  intros HI (D1 & D2 & D3).
  assert (jobObjs (withNewJob fileNames id t1 t2 σ) !! lc = jobObjs σ !! lc) as Hlc.
  { unfold withNewJob. simpl. rewrite lookup_insert_ne; [done |].
    symmetry. by apply newLoc_ne. }
  assert (∀ lf, lfc = Some lf →
            fileArrs (withNewJob fileNames id t1 t2 σ) !! lf = fileArrs σ !! lf) as Hfa.
  { intros lf Hlf. unfold withNewJob. simpl. rewrite lookup_insert_ne; [done |].
    symmetry. apply newLoc_ne. by apply D3. }
  split_and!; [done | done |]. unfold detached. split_and!.
  - by rewrite Hlc.
  - intros id'. unfold withNewJob. simpl. rewrite lookup_insert. case_decide.
    + intros [= <-]. by apply (newLoc_ne _ _ D1).
    + apply D2.
  - intros lf Hlf. destruct (D3 lf Hlf) as [Hs Hnot]. split.
    + by rewrite Hfa.
    + intros id' j. rewrite jobOf_withNewJob by done. case_decide.
      * intros [= <-]. simpl. intros [= <-]. by apply (newLoc_ne _ _ Hs).
      * apply Hnot.
Qed.

Lemma keeps_clone p σ lc lfc :
  Inv σ → detached σ lc lfc → keeps σ (clone p σ).2 lc lfc.
Proof.
  intros HI HD. destruct (clone_extends p σ) as [Hjobs Hext].
  by apply keeps_extends.
Qed.

Lemma keeps_exec op σ lc lfc :
  Inv σ → detached σ lc lfc → keeps σ (exec op σ) lc lfc.
Proof.
  intros HI HD. pose proof (exec_touches op σ) as HT.
  destruct op; simpl in *;
    try (destruct (jobs σ !! id) as [lj'|] eqn:Hj';
         [by apply (keeps_touches σ _ id lj') | rewrite HT; by apply keeps_refl]).
  - rewrite CreateJob_unfold.
    pose proof (keeps_clone (Some (newLoc (jobObjs σ)))
                  (withNewJob fileNames id t1 t2 σ) lc lfc
                  (Inv_withNewJob fileNames id t1 t2 σ HI)) as H.
    pose proof (keeps_withNewJob fileNames id t1 t2 σ lc lfc HI HD) as H0.
    destruct (clone _ _) as [s σ4]. simpl in *.
    eapply keeps_trans; [exact H0 |]. apply H, H0.
  - unfold GetJob. destruct (jobs σ !! id) as [lj|]; [| by apply keeps_refl].
    pose proof (keeps_clone (Some lj) σ lc lfc HI HD) as H.
    by destruct (clone _ _).
Qed.

Lemma Inv_execs ops σ : Inv σ → Inv (execs ops σ).
Proof.
  revert σ. induction ops as [|op ops IH]; intros σ HI; [done |].
  simpl. by apply IH, Inv_exec.
Qed.

Lemma keeps_execs ops σ lc lfc :
  Inv σ → detached σ lc lfc → keeps σ (execs ops σ) lc lfc.
Proof.
  revert σ. induction ops as [|op ops IH]; intros σ HI HD; [by apply keeps_refl |].
  simpl. pose proof (keeps_exec op σ lc lfc HI HD) as H.
  eapply keeps_trans; [exact H |]. apply IH; [by apply Inv_exec | apply H].
Qed.

(** Assignments through a detached job object or to its slots are not
    seen through the table. *)
Lemma detached_writes_unseen σ lc lfc :
  detached σ lc lfc →
  (∀ g id, jobOf (set_jobObjs (alter g lc) σ) id = jobOf σ id
           ∧ filesOf (set_jobObjs (alter g lc) σ) id = filesOf σ id)
  ∧ (∀ lf h id, lfc = Some lf →
       jobOf (set_fileArrs (alter h lf) σ) id = jobOf σ id
       ∧ filesOf (set_fileArrs (alter h lf) σ) id = filesOf σ id).
Proof.
  intros (D1 & D2 & D3). split.
  - intros g id.
    assert (jobOf (set_jobObjs (alter g lc) σ) id = jobOf σ id) as HjobOf.
    { unfold jobOf. simpl. destruct (jobs σ !! id) as [lj|] eqn:Hj; simpl; [| done].
      rewrite lookup_alter_ne; [done |]. intros ->. by apply (D2 id). }
    split; [done |]. unfold filesOf. by rewrite HjobOf.
  - intros lf h id Hlf. split; [done |]. unfold filesOf.
    change (jobOf (set_fileArrs (alter h lf) σ) id) with (jobOf σ id).
    destruct (jobOf σ id) as [j|] eqn:Hj; [| done].
    destruct (job_Files j) as [lf'|] eqn:Hf; simpl; [| done].
    rewrite lookup_alter_ne; [done |]. intros ->.
    destruct (D3 lf' Hlf) as [_ Hnot]. by apply (Hnot id j).
Qed.

(** ** CreateJob *)

Lemma newFile_no_result fileNames :
  Forall (λ f, fp_Result f = None) (imap newFile fileNames).
Proof.
  apply Forall_lookup. intros i f. rewrite list_lookup_imap.
  destruct (fileNames !! i); simpl; [| done]. by intros [= <-].
Qed.

(** The snapshot [CreateJob] takes of the job it has just stored. *)
Lemma clone_withNewJob fileNames id t1 t2 σ :
  let σ3 := withNewJob fileNames id t1 t2 σ in
  let copyFiles :=
    if (0 <? length fileNames)%nat then Some (newLoc (fileArrs σ3)) else None in
  clone (Some (newLoc (jobObjs σ))) σ3
  = (Some (newLoc (jobObjs σ3)),
     set_jobObjs
       (insert (newLoc (jobObjs σ3))
               (mkUploadJob id JobStatusPending t1 t2 copyFiles None ""))
       (if (0 <? length fileNames)%nat
        then set_fileArrs (insert (newLoc (fileArrs σ3)) (imap newFile fileNames)) σ3
        else σ3)).
Proof.
  intros σ3 copyFiles. unfold clone.
  assert (jobObjs σ3 !! newLoc (jobObjs σ)
          = Some (mkUploadJob id JobStatusPending t1 t2
                    (Some (newLoc (fileArrs σ))) None "")) as ->.
  { unfold σ3, withNewJob. simpl. apply lookup_insert_eq. }
  assert (readFiles σ3 (Some (newLoc (fileArrs σ))) = imap newFile fileNames) as Hfiles.
  { unfold σ3, withNewJob, readFiles. simpl. by rewrite lookup_insert_eq. }
  cbn [job_Files job_Results job_ID job_Status job_CreatedAt job_UpdatedAt job_Error].
  rewrite Hfiles, length_imap, cloneFiles_no_results by apply newFile_no_result.
  subst copyFiles. by destruct (0 <? length fileNames)%nat.
Qed.

(** C7: [CreateJob] returns the id and a pointer to a new job object;
    that object has the id, status [pending], the two clock readings and
    no error; its slots are one per file name, in the order submitted,
    each [pending] with empty texts, zero [Current], [Total] and [Percent]
    and no result; its result sequence is empty; the record stored in
    the table reads the same.  The snapshot shares no object with the
    table: it is detached, no later sequence of Job Manager calls
    changes it, and assignments to it or to its slots are not seen
    through the table. *)
Theorem CreateJob_snapshot fileNames id t1 t2 σ :
  Inv σ →
  ∃ lc snap σ',
    CreateJob fileNames id t1 t2 σ = ((id, Some lc), σ')
    ∧ jobObjs σ' !! lc = Some snap
    ∧ job_ID snap = id
    ∧ job_Status snap = JobStatusPending
    ∧ job_CreatedAt snap = t1
    ∧ job_UpdatedAt snap = t2
    ∧ job_Error snap = ""
    ∧ length (readFiles σ' (job_Files snap)) = length fileNames
    ∧ (∀ k name, fileNames !! k = Some name →
         readFiles σ' (job_Files snap) !! k
         = Some (mkFileProgress (Z.of_nat k) name FileStatusPending "" "" 0 0 0 None ""))
    ∧ readResults σ' (job_Results snap) = []
    ∧ (∃ stored, jobOf σ' id = Some stored
                 ∧ job_ID stored = id
                 ∧ job_Status stored = JobStatusPending
                 ∧ job_CreatedAt stored = t1
                 ∧ job_UpdatedAt stored = t2
                 ∧ job_Error stored = "")
    ∧ filesOf σ' id = readFiles σ' (job_Files snap)
    ∧ resultsOf σ' id = []
    ∧ detached σ' lc (job_Files snap)
    ∧ (∀ ops, keeps σ' (execs ops σ') lc (job_Files snap))
    ∧ (∀ g id', jobOf (set_jobObjs (alter g lc) σ') id' = jobOf σ' id'
                ∧ filesOf (set_jobObjs (alter g lc) σ') id' = filesOf σ' id')
    ∧ (∀ lf h id', job_Files snap = Some lf →
         jobOf (set_fileArrs (alter h lf) σ') id' = jobOf σ' id'
         ∧ filesOf (set_fileArrs (alter h lf) σ') id' = filesOf σ' id').
Proof.
  intros HI. pose proof (Inv_withNewJob fileNames id t1 t2 σ HI) as HI3.
  assert (is_Some (jobObjs (withNewJob fileNames id t1 t2 σ) !! newLoc (jobObjs σ)))
    as Hlj.
  { unfold withNewJob. simpl. rewrite lookup_insert_eq. eauto. }
  destruct (clone_detached _ _ HI3 Hlj) as (lc & snap & Hlc & Hsnap & Hdet).
  pose proof (Inv_clone (Some (newLoc (jobObjs σ))) _ HI3) as HI4.
  pose proof (filesOf_clone (Some (newLoc (jobObjs σ))) _ id HI3) as Hfiles.
  pose proof (clone_extends (Some (newLoc (jobObjs σ)))
                (withNewJob fileNames id t1 t2 σ)) as [Hjobs Hext].
  pose proof (extends_jobOf _ _ id Hjobs Hext HI3) as HjobOf.
  rewrite jobOf_withNewJob in HjobOf by done.
  rewrite decide_True in HjobOf by done.
  assert (filesOf (withNewJob fileNames id t1 t2 σ) id = imap newFile fileNames)
    as Hstored.
  { unfold filesOf. rewrite jobOf_withNewJob by done. rewrite decide_True by done.
    unfold withNewJob, readFiles. simpl. by rewrite lookup_insert_eq. }
  rewrite Hstored in Hfiles.
  rewrite CreateJob_unfold.
  pose proof (clone_withNewJob fileNames id t1 t2 σ) as Hclone.
  cbv zeta in Hclone.
  rewrite Hclone in Hlc, Hsnap, Hdet, HI4, Hfiles, HjobOf |- *.
  cbn [fst snd] in *. injection Hlc as <-.
  assert (snap = mkUploadJob id JobStatusPending t1 t2
                   (if (0 <? length fileNames)%nat
                    then Some (newLoc (fileArrs (withNewJob fileNames id t1 t2 σ)))
                    else None) None "") as Hsnap'.
  { cbn [jobObjs set_jobObjs] in Hsnap. rewrite lookup_insert_eq in Hsnap. congruence. }
  clear Hsnap.
  match goal with
  | H : Inv ?s |- _ =>
      match s with set_jobObjs _ _ => set (σ' := s) in * end
  end.
  assert (jobObjs σ' !! newLoc (jobObjs (withNewJob fileNames id t1 t2 σ)) = Some snap)
    as Hsnap.
  { unfold σ'. cbn [jobObjs set_jobObjs]. rewrite lookup_insert_eq. congruence. }
  assert (fileArrs σ'
          = if (0 <? length fileNames)%nat
            then <[newLoc (fileArrs (withNewJob fileNames id t1 t2 σ)) :=
                     imap newFile fileNames]>
                   (fileArrs (withNewJob fileNames id t1 t2 σ))
            else fileArrs (withNewJob fileNames id t1 t2 σ)) as Hfa.
  { unfold σ'. by destruct (0 <? length fileNames)%nat. }
  exists (newLoc (jobObjs (withNewJob fileNames id t1 t2 σ))), snap, σ'.
  assert (readFiles σ' (job_Files snap) = imap newFile fileNames) as Hread.
  { rewrite Hsnap'. cbn [job_Files]. unfold readFiles. rewrite Hfa.
    destruct (0 <? length fileNames)%nat eqn:Hlen.
    - by rewrite lookup_insert_eq.
    - by destruct fileNames. }
  assert (detached σ' (newLoc (jobObjs (withNewJob fileNames id t1 t2 σ)))
            (job_Files snap)) as Hdet'.
  { exact Hdet. }
  destruct (detached_writes_unseen _ _ _ Hdet') as [W1 W2].
  pose proof (λ ops, keeps_execs ops _ _ _ HI4 Hdet') as W3.
  split; [done |]. split; [done |].
  rewrite Hread, Hfiles.
  assert (job_ID snap = id ∧ job_Status snap = JobStatusPending
          ∧ job_CreatedAt snap = t1 ∧ job_UpdatedAt snap = t2
          ∧ job_Error snap = "" ∧ job_Results snap = None)
    as (-> & -> & -> & -> & -> & ->) by (by rewrite Hsnap').
  split_and!; try done.
  - apply length_imap.
  - intros k name Hk. rewrite list_lookup_imap, Hk. done.
  - eexists. split; [exact HjobOf |]. done.
  - unfold resultsOf. by rewrite HjobOf.
Qed.

Lemma CreateJob_snapshot_witness :
  Inv NewJobManager
  ∧ ∃ lc snap σ',
      CreateJob ["a.pdf"; "b.pdf"] "job-1" 10 11 NewJobManager = (("job-1", Some lc), σ')
      ∧ jobObjs σ' !! lc = Some snap
      ∧ length (readFiles σ' (job_Files snap)) = 2%nat
      ∧ detached σ' lc (job_Files snap).
Proof.
  split; [apply Inv_NewJobManager |].
  destruct (CreateJob_snapshot ["a.pdf"; "b.pdf"] "job-1" 10 11 NewJobManager
              Inv_NewJobManager)
    as (lc & snap & σ' & H1 & H2 & _ & _ & _ & _ & _ & H3 & _ & _ & _ & _ & _ & H4 & _).
  exists lc, snap, σ'. by split_and!.
Defined.

(** ** The upload harness *)

Lemma jobHead_withJob id fn now σ id' :
  (∀ lj, jobs (fn lj σ) = jobs σ) →
  (∀ lj l, jobHead <$> jobObjs (fn lj σ) !! l = jobHead <$> jobObjs σ !! l) →
  jobHead <$> jobOf (withJob id fn now σ) id' = jobHead <$> jobOf σ id'.
Proof.
  intros Hjobs Hobjs. unfold withJob. destruct (jobs σ !! id) as [lj|]; [| done].
  unfold jobOf. simpl. rewrite Hjobs.
  destruct (jobs σ !! id') as [l|]; simpl; [| done].
  rewrite lookup_alter. case_decide as Hl.
  - subst. rewrite <- (Hobjs l l).
    by destruct (jobObjs (fn l σ) !! l).
  - apply Hobjs.
Qed.

Lemma jobHead_appendResult lj r σ l :
  jobHead <$> jobObjs (appendResult lj r σ) !! l = jobHead <$> jobObjs σ !! l.
Proof.
  unfold appendResult. destruct (jobObjs σ !! lj) as [job|] eqn:Hjob; [| done].
  destruct (job_Results job); [done |]. simpl. rewrite lookup_alter.
  case_decide; [subst | done]. by rewrite Hjob.
Qed.

Lemma jobHead_MarkFileStarted id index now σ id' :
  jobHead <$> jobOf (MarkFileStarted id index now σ) id' = jobHead <$> jobOf σ id'.
Proof.
  apply jobHead_withJob; intros lj; [| intros l]; by destruct (file lj index σ).
Qed.

Lemma jobHead_UpdateFileProgress id index step message current total now σ id' :
  jobHead <$> jobOf (UpdateFileProgress id index step message current total now σ) id'
  = jobHead <$> jobOf σ id'.
Proof.
  apply jobHead_withJob; intros lj; [| intros l]; by destruct (file lj index σ).
Qed.

Lemma jobHead_MarkFileComplete id index r now σ id' :
  jobHead <$> jobOf (MarkFileComplete id index r now σ) id' = jobHead <$> jobOf σ id'.
Proof.
  apply jobHead_withJob; intros lj; [| intros l].
  - by rewrite jobs_appendResult, (jobs_finish σ lj index completed).
  - by rewrite jobHead_appendResult, (jobObjs_finish σ lj index completed).
Qed.

Lemma jobHead_MarkFileError id index message r now σ id' :
  jobHead <$> jobOf (MarkFileError id index message r now σ) id' = jobHead <$> jobOf σ id'.
Proof.
  apply jobHead_withJob; intros lj; [| intros l].
  - by rewrite jobs_appendResult,
      (jobs_finish σ lj index (errored (errorMessage message))).
  - by rewrite jobHead_appendResult,
      (jobObjs_finish σ lj index (errored (errorMessage message))).
Qed.

(** The progress callbacks of one file: the job record and the other
    slots stay. *)
Lemma progress_events clock jobID (idx : nat) events s :
  let s' :=
    foldl (λ s ev,
             call clock (UpdateFileProgress jobID (Z.of_nat idx) (ev_step ev)
                           (ev_message ev) (ev_current ev) (ev_total ev)) s)
          s events in
  jobHead <$> jobOf s'.1 jobID = jobHead <$> jobOf s.1 jobID
  ∧ length (filesOf s'.1 jobID) = length (filesOf s.1 jobID)
  ∧ ∀ k, k ≠ idx → filesOf s'.1 jobID !! k = filesOf s.1 jobID !! k.
Proof.
  revert s. induction events as [|ev events IH]; intros s; [done |].
  cbn [foldl].
  set (s1 := call clock (UpdateFileProgress jobID (Z.of_nat idx) (ev_step ev)
                           (ev_message ev) (ev_current ev) (ev_total ev)) s).
  destruct (IH s1) as (H1 & H2 & H3).
  assert (s1.1 = UpdateFileProgress jobID (Z.of_nat idx) (ev_step ev)
                   (ev_message ev) (ev_current ev) (ev_total ev) (clock s.2) s.1)
    as E by reflexivity.
  rewrite E in H1, H2, H3. cbv zeta. split_and!.
  - by rewrite H1, jobHead_UpdateFileProgress.
  - by rewrite H2, filesOf_UpdateFileProgress, length_alterAt.
  - intros k Hk. rewrite H3, filesOf_UpdateFileProgress by done.
    apply lookup_alterAt_other. lia.
Qed.

(** One iteration of the loop of [runUploadJob]. *)
Lemma processFile_spec clock jobID docType (idx : nat) fh s :
  (idx < length (filesOf s.1 jobID))%nat →
  let s' := processFile clock jobID docType idx fh s in
  jobHead <$> jobOf s'.1 jobID = jobHead <$> jobOf s.1 jobID
  ∧ length (filesOf s'.1 jobID) = length (filesOf s.1 jobID)
  ∧ (∀ k, k ≠ idx → filesOf s'.1 jobID !! k = filesOf s.1 jobID !! k)
  ∧ ∃ f, filesOf s'.1 jobID !! idx = Some f ∧ fp_Status f = finalStatus fh docType.
Proof.
  intros Hidx. unfold processFile, finalStatus.
  destruct (processDocument fh docType) as [[events r] err]. simpl.
  set (s1 := call clock (MarkFileStarted jobID (Z.of_nat idx)) s).
  destruct (progress_events clock jobID idx events s1) as (P1 & P2 & P3).
  set (s2 := foldl _ s1 events) in *.
  assert (jobHead <$> jobOf s2.1 jobID = jobHead <$> jobOf s.1 jobID) as H1.
  { rewrite P1. apply jobHead_MarkFileStarted. }
  assert (length (filesOf s2.1 jobID) = length (filesOf s.1 jobID)) as H2.
  { rewrite P2. unfold s1, call. simpl.
    by rewrite filesOf_MarkFileStarted, length_alterAt. }
  assert (∀ k, k ≠ idx → filesOf s2.1 jobID !! k = filesOf s.1 jobID !! k) as H3.
  { intros k Hk. rewrite P3 by done. unfold s1, call. simpl.
    rewrite filesOf_MarkFileStarted. apply lookup_alterAt_other. lia. }
  assert (is_Some (filesOf s2.1 jobID !! idx)) as [f0 Hf0].
  { apply lookup_lt_is_Some. lia. }
  destruct err as [e|]; unfold call; simpl.
  - rewrite jobHead_MarkFileError, filesOf_MarkFileError, length_alterAt.
    split_and!; try done.
    + intros k Hk. rewrite lookup_alterAt_other by lia. by apply H3.
    + rewrite lookup_alterAt_nat, Hf0. simpl. eauto.
  - rewrite jobHead_MarkFileComplete, filesOf_MarkFileComplete, length_alterAt.
    split_and!; try done.
    + intros k Hk. rewrite lookup_alterAt_other by lia. by apply H3.
    + rewrite lookup_alterAt_nat, Hf0. simpl. eauto.
Qed.

Lemma fileLoop_spec clock jobID docType files (idx : nat) s :
  (idx + length files ≤ length (filesOf s.1 jobID))%nat →
  let s' := fileLoop clock jobID docType idx files s in
  jobHead <$> jobOf s'.1 jobID = jobHead <$> jobOf s.1 jobID
  ∧ length (filesOf s'.1 jobID) = length (filesOf s.1 jobID)
  ∧ (∀ k, (k < idx)%nat → filesOf s'.1 jobID !! k = filesOf s.1 jobID !! k)
  ∧ ∀ k fh, files !! k = Some fh →
            ∃ f, filesOf s'.1 jobID !! (idx + k)%nat = Some f
                 ∧ fp_Status f = finalStatus fh docType.
Proof.
  revert idx s. induction files as [|fh files IH]; intros idx s Hlen; [done |].
  simpl in Hlen. cbn [fileLoop].
  destruct (processFile_spec clock jobID docType idx fh s) as (Q1 & Q2 & Q3 & f & Q4 & Q5);
    [lia |].
  destruct (IH (S idx) (processFile clock jobID docType idx fh s)) as (R1 & R2 & R3 & R4);
    [lia |].
  cbv zeta. split_and!.
  - by rewrite R1.
  - by rewrite R2.
  - intros k Hk. rewrite R3 by lia. apply Q3. lia.
  - intros [|k] fh' Hk.
    + simpl in Hk. injection Hk as <-. rewrite Nat.add_0_r, R3 by lia. eauto.
    + simpl in Hk. replace (idx + S k)%nat with (S idx + k)%nat by lia.
      by apply R4.
Qed.

Lemma jobOf_set_status id status now σ :
  is_Some (jobOf σ id) →
  jobHead <$> jobOf (withJob id (λ lj, updJob lj (job_with_Status status)) now σ) id
  = (λ j, (job_ID j, status, job_CreatedAt j, job_Error j)) <$> jobOf σ id.
Proof.
  intros (lj & Hj & [job Hjob])%jobOf_is_Some.
  unfold withJob, jobOf, updJob. rewrite Hj. simpl. rewrite Hj. simpl.
  rewrite !lookup_alter_eq, Hjob. done.
Qed.

(** C6: whatever happens to the single files, after the loop of
    [runUploadJob] the job has status [complete] and its error text is
    what it was; every file has its slot in a terminal status, [error]
    when [processDocument] returned an error and [complete] otherwise. *)
Theorem runUploadJob_completes clock jobID docType files σ n :
  is_Some (jobOf σ jobID) →
  length (filesOf σ jobID) = length files →
  let σ' := (runUploadJob clock jobID docType files (σ, n)).1 in
  job_Status <$> jobOf σ' jobID = Some JobStatusComplete
  ∧ job_Status <$> jobOf σ' jobID ≠ Some JobStatusFailed
  ∧ job_Error <$> jobOf σ' jobID = job_Error <$> jobOf σ jobID
  ∧ length (filesOf σ' jobID) = length files
  ∧ ∀ k fh, files !! k = Some fh →
            ∃ f, filesOf σ' jobID !! k = Some f
                 ∧ fp_Status f = finalStatus fh docType
                 ∧ terminal (fp_Status f).
Proof.
  intros Hjob Hlen. unfold runUploadJob.
  set (s1 := call clock (MarkProcessing jobID) (σ, n)).
  assert (jobHead <$> jobOf s1.1 jobID
          = (λ j, (job_ID j, JobStatusProcessing, job_CreatedAt j, job_Error j))
              <$> jobOf σ jobID) as H1.
  { unfold s1, call. simpl. by apply jobOf_set_status. }
  assert (filesOf s1.1 jobID = filesOf σ jobID) as H1f.
  { unfold s1, call. simpl. apply filesOf_MarkProcessing. }
  destruct (fileLoop_spec clock jobID docType files 0 s1) as (L1 & L2 & _ & L4).
  { rewrite H1f. lia. }
  set (s2 := fileLoop clock jobID docType 0 files s1) in *.
  assert (is_Some (jobOf s2.1 jobID)) as Hjob2.
  { rewrite <- (fmap_is_Some jobHead), L1, H1, fmap_is_Some. done. }
  cbv zeta. unfold call. cbn [fst snd].
  pose proof (jobOf_set_status jobID JobStatusComplete (clock s2.2) s2.1 Hjob2) as H3.
  fold (MarkCompleted jobID (clock s2.2) s2.1) in H3.
  assert (job_Status <$> jobOf (MarkCompleted jobID (clock s2.2) s2.1) jobID
          = Some JobStatusComplete) as Hst.
  { destruct Hjob2 as [j2 Hj2]. rewrite Hj2 in H3.
    destruct (jobOf (MarkCompleted _ _ _) _) as [j3|]; [| done].
    simpl in *. injection H3 as H3. unfold jobHead in H3. congruence. }
  split_and!.
  - done.
  - by rewrite Hst.
  - destruct Hjob as [j0 Hj0]. rewrite Hj0 in H1 |- *.
    destruct (jobOf s1.1 jobID) as [j1|] eqn:Hj1; [| done].
    destruct (jobOf s2.1 jobID) as [j2|] eqn:Hj2; [| by destruct Hjob2].
    destruct (jobOf (MarkCompleted _ _ _) _) as [j3|]; [| done].
    simpl in *. unfold jobHead in *. congruence.
  - rewrite filesOf_MarkCompleted, L2, H1f. done.
  - intros k fh Hk. rewrite filesOf_MarkCompleted.
    destruct (L4 k fh Hk) as (f & Hf & Hs). exists f. split_and!; try done.
    rewrite Hs. unfold finalStatus, terminal.
    destruct ((processDocument fh docType).2); [by right | by left].
Qed.

Lemma runUploadJob_completes_witness :
  is_Some (jobOf twoFileStore "job-1")
  ∧ length (filesOf twoFileStore "job-1") = length [brokenFile; goodFile]
  ∧ let σ' := (runUploadJob Z.of_nat "job-1" DocumentExam [brokenFile; goodFile]
                 (twoFileStore, 0%nat)).1 in
    job_Status <$> jobOf σ' "job-1" = Some JobStatusComplete
    ∧ job_Status <$> jobOf σ' "job-1" ≠ Some JobStatusFailed
    ∧ job_Error <$> jobOf σ' "job-1" = job_Error <$> jobOf twoFileStore "job-1"
    ∧ length (filesOf σ' "job-1") = length [brokenFile; goodFile]
    ∧ ∀ k fh, [brokenFile; goodFile] !! k = Some fh →
              ∃ f, filesOf σ' "job-1" !! k = Some f
                   ∧ fp_Status f = finalStatus fh DocumentExam
                   ∧ terminal (fp_Status f).
Proof.
  assert (is_Some (jobOf twoFileStore "job-1")) as H1 by (vm_compute; eauto).
  assert (length (filesOf twoFileStore "job-1") = length [brokenFile; goodFile]) as H2
    by (vm_compute; reflexivity).
  split; [exact H1 |]. split; [exact H2 |].
  exact (runUploadJob_completes Z.of_nat "job-1" DocumentExam [brokenFile; goodFile]
           twoFileStore 0 H1 H2).
Defined.

(** The run of the witness, evaluated: the first file ends in [error],
    the second in [complete], the job in [complete]. *)
Example runUploadJob_two_files :
  let σ' := (runUploadJob Z.of_nat "job-1" DocumentExam [brokenFile; goodFile]
               (twoFileStore, 0%nat)).1 in
  job_Status <$> jobOf σ' "job-1" = Some "complete"
  ∧ fp_Status <$> filesOf σ' "job-1" = ["error"; "complete"]
  ∧ dr_Status <$> resultsOf σ' "job-1" = ["error"; "ok"].
Proof. vm_compute. done. Qed.

(** ** The Analysis Client *)

Lemma tryOnce_clientError attempt a :
  clientError a → ∃ err, tryOnce attempt a = Fatal err.
Proof.
  intros (status & body & decoded & -> & Hs). simpl.
  rewrite decide_True by (unfold StatusOK; lia).
  assert ((status >=? 400) && (status <? 500) = true) as -> by lia. eauto.
Qed.

Lemma tryOnce_succeedsWith attempt a text :
  succeedsWith text a → tryOnce attempt a = Success text.
Proof.
  intros (body & rest & -> & Ht). simpl.
  by repeat case_decide.
Qed.

Lemma tryOnce_Success_inv attempt a text :
  tryOnce attempt a = Success text → succeedsWith text a.
Proof.
  destruct a as [e | e | e | status body decoded]; simpl; try done.
  case_decide as Hok.
  - by destruct ((status >=? 400) && (status <? 500)).
  - subst status.
    destruct decoded as [e | [| content rest]]; try done.
    case_decide as Hempty; [done |]. intros [= <-]. by exists body, rest.
Qed.

Lemma tryOnce_Fatal_inv attempt a err :
  tryOnce attempt a = Fatal err → clientError a.
Proof.
  destruct a as [e | e | e | status body decoded]; simpl; try done.
  case_decide as Hok.
  - destruct ((status >=? 400) && (status <? 500)) eqn:Hc; [| done].
    intros _. exists status, body, decoded. split; [done | lia].
  - destruct decoded as [e | [| content rest]]; try done. by case_decide.
Qed.

(** The three outcomes of an iteration exclude each other, and the loop
    goes on exactly after a failure that is not of the 4xx class. *)
Lemma tryOnce_classes attempt a :
  (∃ text, tryOnce attempt a = Success text ∧ succeedsWith text a)
  ∨ (∃ err, tryOnce attempt a = Fatal err ∧ clientError a)
  ∨ (retriable attempt a ∧ ¬ clientError a ∧ ∀ text, ¬ succeedsWith text a).
Proof.
  destruct (tryOnce attempt a) as [text | err | err] eqn:E.
  - left. exists text. split; [done |]. by apply (tryOnce_Success_inv attempt).
  - right. left. exists err. split; [done |]. by apply (tryOnce_Fatal_inv attempt _ err).
  - right. right. split; [by exists err |]. split.
    + intros Hc. destruct (tryOnce_clientError attempt a Hc) as [e' He']. congruence.
    + intros text Hs. pose proof (tryOnce_succeedsWith attempt a text Hs). congruence.
Qed.

(** C2: when the first two attempts reach the remote endpoint and fail
    with a retriable failure and the third succeeds with [text],
    [AnalyzeMultipleImages] returns [text], the endpoint has been called
    three times, and the client has paused 2 s before the first retry and
    4 s before the second. *)
Theorem AnalyzeMultipleImages_succeeds_on_third_attempt remote text :
  callsRemote (remote 0%nat) = true → retriable 0 (remote 0%nat) →
  callsRemote (remote 1%nat) = true → retriable 1 (remote 1%nat) →
  succeedsWith text (remote 2%nat) →
  AnalyzeMultipleImages remote
  = (inl text, mkClientTrace 3 [1 * 2 * Second; 2 * 2 * Second]).
Proof.
  intros Hc0 [e0 H0] Hc1 [e1 H1] H2.
  pose proof (tryOnce_succeedsWith 2 _ _ H2) as H2'.
  assert (callsRemote (remote 2%nat) = true) as Hc2.
  { by destruct H2 as (? & ? & -> & _). }
  unfold AnalyzeMultipleImages, maxRetries. cbn [retryLoop Nat.ltb Nat.leb].
  rewrite Hc0, H0. cbn [retryLoop Nat.ltb Nat.leb].
  rewrite Hc1, H1. cbn [retryLoop Nat.ltb Nat.leb].
  rewrite Hc2, H2'. reflexivity.
Qed.

Lemma AnalyzeMultipleImages_succeeds_on_third_attempt_witness :
  callsRemote (failsTwice 0%nat) = true ∧ retriable 0 (failsTwice 0%nat)
  ∧ callsRemote (failsTwice 1%nat) = true ∧ retriable 1 (failsTwice 1%nat)
  ∧ succeedsWith "Topics: paging, scheduling" (failsTwice 2%nat)
  ∧ AnalyzeMultipleImages failsTwice
    = (inl "Topics: paging, scheduling",
       mkClientTrace 3 [1 * 2 * Second; 2 * 2 * Second]).
Proof.
  assert (retriable 0 (failsTwice 0%nat)) as R0 by (eexists; vm_compute; reflexivity).
  assert (retriable 1 (failsTwice 1%nat)) as R1 by (eexists; vm_compute; reflexivity).
  assert (succeedsWith "Topics: paging, scheduling" (failsTwice 2%nat)) as S2.
  { exists "{...}", []. split; [reflexivity | discriminate]. }
  split; [reflexivity |]. split; [exact R0 |].
  split; [reflexivity |]. split; [exact R1 |]. split; [exact S2 |].
  exact (AnalyzeMultipleImages_succeeds_on_third_attempt failsTwice _
           eq_refl R0 eq_refl R1 S2).
Defined.

(** C3: a response of the 4xx class ends the loop at once.  When it
    answers the first attempt, [AnalyzeMultipleImages] returns the error
    after one call of the endpoint and without a pause; when it answers a
    later attempt, no further attempt follows it.  Every other failure
    (request not built, transport error, unreadable body, another status
    than 200, undecodable body, no choices, empty content) is retried
    while attempts are left: after such a failure of the first attempt
    the client pauses and tries again. *)
Theorem client_error_is_not_retried remote :
  (clientError (remote 0%nat) →
   ∃ err, AnalyzeMultipleImages remote = (inr err, mkClientTrace 1 []))
  ∧ (retriable 0 (remote 0%nat) → clientError (remote 1%nat) →
     ∃ err, (AnalyzeMultipleImages remote).1 = inr err
            ∧ tr_sleeps (AnalyzeMultipleImages remote).2 = [1 * 2 * Second])
  ∧ (∀ attempt a, retriable attempt a ↔ ¬ clientError a ∧ ∀ text, ¬ succeedsWith text a)
  ∧ (retriable 0 (remote 0%nat) →
     ∃ rest, tr_sleeps (AnalyzeMultipleImages remote).2 = 1 * 2 * Second :: rest).
Proof.
  split_and!.
  - intros Hc. destruct (tryOnce_clientError 0 _ Hc) as [err Herr].
    exists err. unfold AnalyzeMultipleImages, maxRetries. cbn [retryLoop Nat.ltb Nat.leb].
    rewrite Herr. by destruct Hc as (? & ? & ? & -> & _).
  - intros [e0 H0] Hc. destruct (tryOnce_clientError 1 _ Hc) as [err Herr].
    exists err. unfold AnalyzeMultipleImages, maxRetries. cbn [retryLoop Nat.ltb Nat.leb].
    rewrite H0. cbn [retryLoop Nat.ltb Nat.leb]. rewrite Herr.
    by destruct (callsRemote (remote 0%nat)), (callsRemote (remote 1%nat)).
  - intros attempt a. split.
    + intros [e He].
      destruct (tryOnce_classes attempt a) as [(t & Ht & _) | [(e' & He' & _) | (_ & H)]];
        [congruence | congruence | done].
    + intros [Hn Hs].
      destruct (tryOnce_classes attempt a) as [(t & _ & Ht) | [(e' & _ & He') | (H & _)]];
        [by destruct (Hs t) | done | done].
  - intros [e0 H0]. unfold AnalyzeMultipleImages, maxRetries.
    cbn [retryLoop Nat.ltb Nat.leb]. rewrite H0. cbn [retryLoop Nat.ltb Nat.leb].
    destruct (tryOnce 1 (remote 1%nat)) eqn:H1.
    + eexists. by destruct (callsRemote (remote 0%nat)), (callsRemote (remote 1%nat)).
    + eexists. by destruct (callsRemote (remote 0%nat)), (callsRemote (remote 1%nat)).
    + cbn [retryLoop Nat.ltb Nat.leb].
      destruct (tryOnce 2 (remote 2%nat)) eqn:H2;
        eexists;
        by destruct (callsRemote (remote 0%nat)), (callsRemote (remote 1%nat)),
             (callsRemote (remote 2%nat)).
Qed.

Lemma client_error_is_not_retried_witness :
  clientError (unauthorized 0%nat)
  ∧ ∃ err, AnalyzeMultipleImages unauthorized = (inr err, mkClientTrace 1 []).
Proof.
  assert (clientError (unauthorized 0%nat)) as H.
  { exists 401, "unauthorized", (inl "invalid character"). split; [reflexivity | lia]. }
  split; [exact H |].
  exact (proj1 (client_error_is_not_retried unauthorized) H).
Defined.

(** ** The Batch Analysis Engine *)

Lemma createBatches_step batchSize pages i :
  createBatches batchSize pages i
  = if decide (i < length pages)%nat
    then batchAt batchSize pages i
           :: createBatches batchSize pages (i + Pos.to_nat batchSize)
    else [].
Proof.
  rewrite createBatches_equation_1. unfold createBatches_unfold_clause_1.
  destruct (decide (i < length pages)%nat) as [Hlt|Hge]; [| done].
  cbv zeta. unfold batchAt. cbv zeta.
  destruct (decide (length pages < i + Pos.to_nat batchSize)%nat).
  - by rewrite Nat.min_r by lia.
  - by rewrite Nat.min_l by lia.
Qed.

Lemma createBatches_lookup batchSize pages i k :
  createBatches batchSize pages i !! k
  = if decide (i + k * Pos.to_nat batchSize < length pages)%nat
    then Some (batchAt batchSize pages (i + k * Pos.to_nat batchSize))
    else None.
Proof.
  remember (length pages - i)%nat as n eqn:Hn.
  revert i k Hn. induction (lt_wf n) as [n _ IH]. intros i k Hn.
  rewrite createBatches_step. pose proof (Pos2Nat.is_pos batchSize) as Hbs.
  destruct (decide (i < length pages)%nat) as [Hlt|Hge].
  - destruct k as [|k]; simpl.
    + rewrite Nat.add_0_r. by rewrite decide_True.
    + rewrite (IH (length pages - (i + Pos.to_nat batchSize))%nat) by lia.
      replace (i + Pos.to_nat batchSize + k * Pos.to_nat batchSize)%nat
        with (i + (Pos.to_nat batchSize + k * Pos.to_nat batchSize))%nat by lia.
      done.
  - rewrite decide_False by lia. done.
Qed.

Lemma createBatches_concat batchSize pages i :
  concat (b_pages <$> createBatches batchSize pages i) = drop i pages.
Proof.
  remember (length pages - i)%nat as n eqn:Hn.
  revert i Hn. induction (lt_wf n) as [n _ IH]. intros i Hn.
  rewrite createBatches_step. pose proof (Pos2Nat.is_pos batchSize) as Hbs.
  destruct (decide (i < length pages)%nat) as [Hlt|Hge].
  - rewrite fmap_cons. simpl.
    rewrite (IH (length pages - (i + Pos.to_nat batchSize))%nat) by lia.
    destruct (decide (i + Pos.to_nat batchSize ≤ length pages)%nat).
    + rewrite Nat.min_l by lia.
      replace (i + Pos.to_nat batchSize - i)%nat with (Pos.to_nat batchSize) by lia.
      rewrite <- drop_drop. apply take_drop.
    + rewrite Nat.min_r by lia. rewrite (drop_ge pages (i + _)) by lia.
      rewrite app_nil_r. apply take_ge. rewrite length_drop. lia.
  - simpl. symmetry. apply drop_ge. lia.
Qed.

Lemma length_batchAt batchSize pages i :
  (i < length pages)%nat →
  (1 ≤ length (b_pages (batchAt batchSize pages i)) ≤ Pos.to_nat batchSize)%nat.
Proof.
  intros Hi. pose proof (Pos2Nat.is_pos batchSize) as Hbs.
  unfold batchAt. simpl. rewrite length_take, length_drop. lia.
Qed.

(** On numbered pages the page range of a batch is [start]-[end]. *)
Lemma pageNumbers_batchAt batchSize pages i :
  numbered pages → (i < length pages)%nat →
  head (b_pageNumbers (batchAt batchSize pages i))
  = Some (b_start (batchAt batchSize pages i))
  ∧ last (b_pageNumbers (batchAt batchSize pages i))
    = Some (b_end (batchAt batchSize pages i)).
Proof.
  intros Hnum Hi. pose proof (Pos2Nat.is_pos batchSize) as Hbs.
  unfold batchAt. simpl.
  set (e := Nat.min (i + Pos.to_nat batchSize) (length pages)).
  assert (i < e ≤ length pages)%nat as He by (unfold e; lia).
  split.
  - rewrite head_lookup, list_lookup_fmap, lookup_take_lt, lookup_drop by lia.
    rewrite Nat.add_0_r.
    destruct (lookup_lt_is_Some_2 pages i Hi) as [p Hp]. rewrite Hp. simpl.
    by rewrite (Hnum i p Hp).
  - rewrite last_lookup, length_fmap, length_take, length_drop.
    rewrite list_lookup_fmap, lookup_take_lt, lookup_drop by lia.
    replace (i + Init.Nat.pred (Nat.min (e - i) (length pages - i)))%nat
      with (e - 1)%nat by lia.
    destruct (lookup_lt_is_Some_2 pages (e - 1)) as [p Hp]; [lia |].
    rewrite Hp. simpl. rewrite (Hnum _ p Hp). f_equal. lia.
Qed.

Lemma string_app_assoc (s1 s2 s3 : string) : (s1 ++ s2) ++ s3 = s1 ++ (s2 ++ s3).
Proof.
  induction s1 as [|c s1 IH]; [done |].
  change ((String c s1 ++ s2) ++ s3) with (String c ((s1 ++ s2) ++ s3)).
  change (String c s1 ++ s2 ++ s3) with (String c (s1 ++ s2 ++ s3)).
  by rewrite IH.
Qed.

Lemma batchResult_marked batchSize pages i idx text :
  numbered pages → (i < length pages)%nat →
  batchResult idx (batchAt batchSize pages i) (inl text)
  = mkResult (Z.of_nat idx) (marked (batchAt batchSize pages i) text) None.
Proof.
  intros Hnum Hi. unfold batchResult, marked.
  destruct (pageNumbers_batchAt batchSize pages i Hnum Hi) as [-> ->].
  cbn [default]. cbv zeta. f_equal. rewrite !string_app_assoc. reflexivity.
Qed.

(** The stores to [results] commute: after any completion order the
    entry of a batch that has finished is the result of that batch. *)
Lemma runBatches_lookup batches answers completion idx :
  runBatches batches answers completion !! idx
  = if decide (idx ∈ completion)
    then (λ bt, batchResult idx bt (answers idx)) <$> batches !! idx
    else replicate (length batches) (mkResult 0 "" None) !! idx.
Proof.
  unfold runBatches.
  generalize (eq_refl : length (replicate (length batches) (mkResult 0 "" None))
                        = length (replicate (length batches) (mkResult 0 "" None))).
  generalize (replicate (length batches) (mkResult 0 "" None)) at 1 3 4 as init.
  rewrite length_replicate.
  induction completion as [|c completion IH]; intros init Hlen; cbn [foldl].
  - case_decide as Hin; [by apply not_elem_of_nil in Hin | done].
  - rewrite IH.
    2:{ destruct (batches !! c); [by rewrite length_insert | done]. }
    destruct (decide (idx ∈ completion)) as [Hin|Hnin].
    + rewrite decide_True; [done |]. by right.
    + destruct (decide (idx = c)) as [->|Hne].
      * rewrite decide_True by left.
        destruct (batches !! c) as [bt|] eqn:Hbt; simpl.
        -- apply list_lookup_insert_eq. rewrite Hlen.
           by apply lookup_lt_Some in Hbt.
        -- apply lookup_ge_None. rewrite Hlen. by apply lookup_ge_None.
      * rewrite decide_False; [| by intros [?|?]%elem_of_cons].
        destruct (batches !! c); [| done]. by apply list_lookup_insert_ne.
Qed.

Lemma runBatches_all_done batches answers completion :
  completion ≡ₚ seq 0 (length batches) →
  runBatches batches answers completion
  = imap (λ idx bt, batchResult idx bt (answers idx)) batches.
Proof.
  intros Hperm. apply list_eq. intros idx.
  rewrite runBatches_lookup, list_lookup_imap.
  destruct (decide (idx ∈ completion)) as [Hin|Hnin]; [done |].
  rewrite Hperm, elem_of_seq in Hnin.
  rewrite (lookup_ge_None_2 batches) by lia.
  apply lookup_ge_None_2. rewrite length_replicate. lia.
Qed.

Lemma collect_all_ok results acc :
  Forall (λ res, r_err res = None) results →
  collect results acc = inr (acc ++ (r_analysis <$> results))%list.
Proof.
  intros Hok. revert acc. induction Hok as [|res results Hres _ IH]; intros acc.
  - by rewrite app_nil_r.
  - simpl. rewrite Hres, IH, <- app_assoc. done.
Qed.

Lemma convertedPages_numbered dataURIs : numbered (convertedPages dataURIs).
Proof.
  intros i p. unfold convertedPages. rewrite list_lookup_imap.
  destruct (dataURIs !! i); simpl; [| done]. by intros [= <-].
Qed.

(** C1: for a document of at least one page, numbered from 1, the
    batches are consecutive slices of at most [batchSize] pages (8 for
    exam topics, 2 for flashcards), none empty, whose concatenation is
    the page sequence; the batch at position [k] runs from page
    [k * batchSize + 1] to page [min ((k + 1) * batchSize) P].  When the
    analysis of every batch succeeds, then for every order in which the
    batches complete the combined text is the texts in batch order, each
    after its marker line, joined by an empty line; the page ranges of
    the markers increase strictly. *)
Theorem batches_partition_and_combine_in_order
    batchSize pages answers completion (texts : nat → string) :
  let batches := createBatches batchSize pages 0 in
  (1 ≤ length pages)%nat →
  numbered pages →
  completion ≡ₚ seq 0 (length batches) →
  (∀ k, (k < length batches)%nat → answers k = inl (texts k)) →
  concat (b_pages <$> batches) = pages
  ∧ (∀ k b, batches !! k = Some b →
       (1 ≤ length (b_pages b) ≤ Pos.to_nat batchSize)%nat
       ∧ b_pages b = take (Pos.to_nat batchSize) (drop (k * Pos.to_nat batchSize) pages)
       ∧ b_start b = Z.of_nat (k * Pos.to_nat batchSize) + 1
       ∧ b_end b = Z.of_nat (Nat.min ((k + 1) * Pos.to_nat batchSize) (length pages))
       ∧ b_start b ≤ b_end b)
  ∧ (∀ k b b', batches !! k = Some b → batches !! S k = Some b' →
       b_start b' = b_end b + 1)
  ∧ analyzePages batchSize pages answers completion
    = inl (Join (imap (λ k b, marked b (texts k)) batches) (newline ++ newline))
  ∧ extractExamTopicsAnalysis = analyzePages 8
  ∧ generateFlashcardsAnalysis = analyzePages 2.
Proof.
  intros batches Hlen Hnum Hperm Hok.
  pose proof (Pos2Nat.is_pos batchSize) as Hbs.
  assert (∀ k b, batches !! k = Some b →
            (k * Pos.to_nat batchSize < length pages)%nat
            ∧ b = batchAt batchSize pages (k * Pos.to_nat batchSize)) as Hlook.
  { intros k b. unfold batches. rewrite createBatches_lookup. simpl.
    case_decide; [| done]. by intros [= <-]. }
  split_and!.
  - unfold batches. by rewrite createBatches_concat.
  - intros k b (Hk & ->)%Hlook.
    split; [by apply length_batchAt |].
    unfold batchAt. cbn [b_pages b_start b_end].
    split; [| split; [lia | split; [f_equal; lia | lia]]].
    destruct (decide ((k + 1) * Pos.to_nat batchSize ≤ length pages)%nat).
    + f_equal. lia.
    + rewrite !take_ge; [done | |]; rewrite length_drop; lia.
  - intros k b b' (Hk & ->)%Hlook (Hk' & ->)%Hlook.
    unfold batchAt. cbn [b_start b_end]. lia.
  - unfold analyzePages. rewrite decide_False by lia. fold batches.
    rewrite runBatches_all_done by done.
    assert (imap (λ idx bt, batchResult idx bt (answers idx)) batches
            = imap (λ idx bt, mkResult (Z.of_nat idx) (marked bt (texts idx)) None)
                   batches) as ->.
    { apply list_eq. intros k. rewrite !list_lookup_imap.
      destruct (batches !! k) as [b|] eqn:Hb; [| done]. simpl.
      destruct (Hlook k b Hb) as [Hk ->].
      rewrite Hok by (by apply lookup_lt_Some in Hb).
      by rewrite batchResult_marked. }
    rewrite collect_all_ok.
    2:{ apply Forall_lookup. intros k res. rewrite list_lookup_imap.
        destruct (batches !! k); [| done]. by intros [= <-]. }
    simpl. do 2 f_equal. apply list_eq. intros k.
    rewrite list_lookup_fmap, !list_lookup_imap. by destruct (batches !! k).
  - done.
  - done.
Qed.

Lemma batches_partition_and_combine_in_order_witness :
  let pages := convertedPages ["p1"; "p2"; "p3"; "p4"; "p5"] in
  let texts := λ k : nat, "analysis " ++ pretty k in
  (1 ≤ length pages)%nat
  ∧ numbered pages
  ∧ [2; 0; 1]%nat ≡ₚ seq 0 (length (createBatches 2 pages 0))
  ∧ analyzePages 2 pages (λ k, inl (texts k)) [2; 0; 1]%nat
    = inl (Join (imap (λ k b, marked b (texts k)) (createBatches 2 pages 0))
                (newline ++ newline)).
Proof.
  intros pages texts.
  assert (1 ≤ length pages)%nat as H1 by (vm_compute; lia).
  assert (numbered pages) as H2 by apply convertedPages_numbered.
  assert ([2; 0; 1]%nat ≡ₚ seq 0 (length (createBatches 2 pages 0))) as H3.
  { change (seq 0 (length (createBatches 2 pages 0))) with [0; 1; 2]%nat.
    apply (Permutation_cons_append [0%nat; 1%nat] 2%nat). }
  split; [exact H1 |]. split; [exact H2 |]. split; [exact H3 |].
  exact (proj1 (proj2 (proj2 (proj2
    (batches_partition_and_combine_in_order 2 pages (λ k, inl (texts k)) [2; 0; 1]%nat
       texts H1 H2 H3 (λ k _, eq_refl)))))).
Defined.

(** The witness, evaluated: the markers are in page order although the
    last batch completed first. *)
Example analyzePages_out_of_order :
  analyzePages 2 (convertedPages ["p1"; "p2"; "p3"; "p4"; "p5"])
    (λ k, inl ("analysis " ++ pretty k)) [2; 0; 1]%nat
  = inl ("=== Pages 1-2 ===" ++ newline ++ "analysis 0" ++ newline ++ newline
         ++ "=== Pages 3-4 ===" ++ newline ++ "analysis 1" ++ newline ++ newline
         ++ "=== Pages 5-5 ===" ++ newline ++ "analysis 2").
Proof. vm_compute. reflexivity. Qed.

(** ** binary64 rounding *)

Lemma digits2_pos_size p : digits2_pos p = Pos.size p.
Proof. induction p as [p IH | p IH |]; simpl; by rewrite ?IH. Qed.

Lemma Zdigits2_log2 m : 0 < m → Zdigits2 m = Z.log2 m + 1.
Proof.
  destruct m as [|p|p]; [lia | | lia]. intros _. simpl.
  rewrite digits2_pos_size. destruct p; simpl; lia.
Qed.

Lemma Zdigits2_spec m :
  0 < m → 0 < Zdigits2 m ∧ 2 ^ (Zdigits2 m - 1) ≤ m < 2 ^ Zdigits2 m.
Proof.
  intros Hm. rewrite Zdigits2_log2 by done.
  pose proof (Z.log2_nonneg m). pose proof (Z.log2_spec m Hm).
  replace (Z.log2 m + 1 - 1) with (Z.log2 m) by lia.
  replace (Z.log2 m + 1) with (Z.succ (Z.log2 m)) by lia. lia.
Qed.

Lemma Zdigits2_unique m d : 2 ^ (d - 1) ≤ m < 2 ^ d → 0 < d → Zdigits2 m = d.
Proof.
  intros Hm Hd. assert (0 < m) by (pose proof (Z.pow_pos_nonneg 2 (d - 1)); lia).
  rewrite Zdigits2_log2 by done.
  rewrite (Z.log2_unique m (d - 1)); [lia | lia |].
  by replace (Z.succ (d - 1)) with d by lia.
Qed.

Lemma Zdigits2_le m k : 0 ≤ m < 2 ^ k → 0 ≤ k → Zdigits2 m ≤ k.
Proof.
  intros Hm Hk. destruct (decide (m = 0)) as [->|Hne]; [done |].
  rewrite Zdigits2_log2 by lia.
  assert (Z.log2 m < k); [| lia]. apply Z.log2_lt_pow2; lia.
Qed.

Lemma iter_pos_nat {A} (f : A → A) p x :
  SpecFloat.iter_pos f p x = Nat.iter (Pos.to_nat p) f x.
Proof.
  revert x. induction p as [p IH | p IH |]; intros x; cbn [SpecFloat.iter_pos].
  - rewrite !IH, Pos2Nat.inj_xI.
    replace (S (2 * Pos.to_nat p)) with (Pos.to_nat p + S (Pos.to_nat p))%nat by lia.
    rewrite Nat.iter_add, Nat.iter_succ_r. done.
  - rewrite !IH, Pos2Nat.inj_xO.
    replace (2 * Pos.to_nat p)%nat with (Pos.to_nat p + Pos.to_nat p)%nat by lia.
    by rewrite Nat.iter_add.
  - done.
Qed.

Lemma shr_1_nonneg m r s :
  0 ≤ m →
  shr_1 (Build_shr_record m r s) = Build_shr_record (m / 2) (Z.odd m) (r || s).
Proof.
  intros Hm. destruct m as [|p|p]; [done | | lia].
  destruct p as [p | p |]; simpl.
  - f_equal. rewrite Pos2Z.inj_xI. rewrite Z.add_comm, Z.mul_comm, Z.div_add by done.
    done.
  - f_equal. rewrite Pos2Z.inj_xO. by rewrite Z.mul_comm, Z.div_mul.
  - done.
Qed.

(** Shifting right keeps the value below an integer bound. *)
Lemma shr_1_ceiling mrs K :
  0 ≤ shr_m mrs → ceiling mrs ≤ 2 * K →
  0 ≤ shr_m (shr_1 mrs) ∧ ceiling (shr_1 mrs) ≤ K.
Proof.
  destruct mrs as [m r s]. unfold ceiling. cbn [shr_m shr_r shr_s]. intros Hm Hc.
  rewrite shr_1_nonneg by done. cbn [shr_m shr_r shr_s].
  pose proof (Z.div_mod m 2) as Hdiv. pose proof (Z.mod_pos_bound m 2) as Hmod.
  rewrite Zodd_mod.
  destruct (Z.eqb_spec (m mod 2) 1) as [H1|H1]; destruct (r || s); simpl; lia.
Qed.

Lemma iter_shr_1_ceiling (n : nat) mrs K :
  0 ≤ shr_m mrs → ceiling mrs ≤ 2 ^ Z.of_nat n * K →
  0 ≤ shr_m (Nat.iter n shr_1 mrs) ∧ ceiling (Nat.iter n shr_1 mrs) ≤ K.
Proof.
  revert K. induction n as [|n IH]; intros K Hm Hc.
  - simpl in *. lia.
  - simpl. destruct (IH (2 * K)) as [H1 H2]; [done | |].
    + rewrite Nat2Z.inj_succ, Z.pow_succ_r in Hc by lia. lia.
    + by apply shr_1_ceiling.
Qed.

(** Shifting an exact value right: quotient and location of the rest. *)
Lemma iter_shr_1_exact (n : nat) z :
  0 ≤ z →
  shr_m (Nat.iter n shr_1 (Build_shr_record z false false)) = z / 2 ^ Z.of_nat n
  ∧ loc_of_shr_record (Nat.iter n shr_1 (Build_shr_record z false false))
    = locOf (2 ^ Z.of_nat n) (z mod 2 ^ Z.of_nat n).
Proof.
  intros Hz. induction n as [|n [IHm IHl]].
  - simpl. rewrite Z.div_1_r, Z.mod_1_r. done.
  - simpl. destruct (Nat.iter n shr_1 _) as [m r s]. simpl in IHm, IHl.
    assert (0 < 2 ^ Z.of_nat n) as Hpow by (apply Z.pow_pos_nonneg; lia).
    assert (0 ≤ m) as Hm by (rewrite IHm; apply Z.div_pos; lia).
    rewrite shr_1_nonneg by done. simpl.
    rewrite Nat2Z.inj_succ, Z.pow_succ_r by lia.
    replace (2 * 2 ^ Z.of_nat n) with (2 ^ Z.of_nat n * 2) by lia.
    rewrite <- Z.div_div, <- IHm by lia. split; [done |].
    rewrite Z.rem_mul_r, <- IHm by lia.
    pose proof (Z.mod_pos_bound z (2 ^ Z.of_nat n) Hpow) as Hrem.
    pose proof (Z.mod_pos_bound m 2) as Hmod.
    rewrite Zodd_mod. unfold locOf in *.
    destruct (Z.eqb_spec (m mod 2) 1) as [H1|H1];
      destruct (Z.eqb_spec (z mod 2 ^ Z.of_nat n) 0) as [H0|H0];
      destruct r, s; simpl in *; try discriminate IHl.
    all: repeat match goal with
                | |- context [?a =? ?b] => destruct (Z.eqb_spec a b); try lia
                | |- context [?a ?= ?b] => destruct (Z.compare_spec a b); try lia
                end; done.
Qed.

Lemma round_nearest_even_ceiling mrs :
  shr_m mrs ≤ round_nearest_even (shr_m mrs) (loc_of_shr_record mrs) ≤ ceiling mrs.
Proof.
  destruct mrs as [m [|] [|]]; unfold ceiling; simpl; destruct (Z.even m); lia.
Qed.

Lemma shr_ceiling mrs e n K mrs' e' :
  0 ≤ shr_m mrs → ceiling mrs ≤ 2 ^ Z.max 0 n * K →
  shr mrs e n = (mrs', e') →
  0 ≤ shr_m mrs' ∧ ceiling mrs' ≤ K ∧ e' = e + Z.max 0 n.
Proof.
  intros Hm Hc. unfold shr. destruct n as [|p|p].
  - intros [= <- <-]. change (2 ^ Z.max 0 0) with 1 in Hc. lia.
  - intros [= <- <-]. rewrite iter_pos_nat.
    rewrite Z.max_r in Hc by lia. rewrite <- (positive_nat_Z p) in Hc.
    destruct (iter_shr_1_ceiling (Pos.to_nat p) mrs K Hm Hc). lia.
  - intros [= <- <-]. rewrite Z.max_l in Hc by lia. change (2 ^ 0) with 1 in Hc. lia.
Qed.

Lemma fexp64 e : fexp prec64 emax64 e = Z.max (e - 53) (-1074).
Proof. reflexivity. Qed.

Lemma ceiling_of_loc m l :
  shr_m (shr_record_of_loc m l) = m
  ∧ m ≤ ceiling (shr_record_of_loc m l)
  ∧ ceiling (shr_record_of_loc m l)
    = m + match l with loc_Exact => 0 | loc_Inexact _ => 1 end.
Proof. destruct l as [|[]]; unfold ceiling; simpl; lia. Qed.

(** Rounding does not cross a representable bound: when the value given
    by [mx], [ex] and [lx] is at most [B * 2 ^ eb], so is the rounded
    float, which is a zero or a finite float. *)
Lemma binary_round_aux_upper mx ex lx B eb :
  0 ≤ mx → 0 < B < 2 ^ 53 → -1074 ≤ eb ≤ 971 → ex ≤ eb →
  ceiling (shr_record_of_loc mx lx) ≤ B * 2 ^ (eb - ex) →
  match binary_round_aux prec64 emax64 false mx ex lx with
  | S754_zero false => True
  | S754_finite false m e => e ≤ eb ∧ Z.pos m ≤ B * 2 ^ (eb - e)
  | _ => False
  end.
Proof.
  intros Hmx HB Heb Hex Hc. unfold binary_round_aux, shr_fexp.
  destruct (ceiling_of_loc mx lx) as (Hm0 & Hc0 & _).
  set (n1 := fexp prec64 emax64 (Zdigits2 mx + ex) - ex).
  assert (ex + Z.max 0 n1 ≤ eb) as He1.
  { unfold n1. rewrite fexp64.
    assert (Zdigits2 mx ≤ 53 + (eb - ex)); [| lia].
    apply Zdigits2_le; [| lia]. rewrite Z.pow_add_r by lia.
    assert (0 < 2 ^ (eb - ex)) by (apply Z.pow_pos_nonneg; lia).
    assert (B * 2 ^ (eb - ex) ≤ (2 ^ 53 - 1) * 2 ^ (eb - ex))
      by (apply Z.mul_le_mono_nonneg_r; lia).
    lia. }
  destruct (shr (shr_record_of_loc mx lx) ex n1) as [mrs1 e1] eqn:E1.
  assert (B * 2 ^ (eb - ex) = 2 ^ Z.max 0 n1 * (B * 2 ^ (eb - (ex + Z.max 0 n1))))
    as Hsplit1.
  { replace (eb - ex) with (Z.max 0 n1 + (eb - (ex + Z.max 0 n1))) at 1 by lia.
    rewrite Z.pow_add_r by lia. lia. }
  destruct (shr_ceiling (shr_record_of_loc mx lx) ex n1
              (B * 2 ^ (eb - (ex + Z.max 0 n1))) mrs1 e1) as (Hm1 & Hc1 & ->);
    [lia | lia | done |].
  pose proof (round_nearest_even_ceiling mrs1) as Hrne.
  set (m1 := round_nearest_even (shr_m mrs1) (loc_of_shr_record mrs1)) in *.
  set (e1 := ex + Z.max 0 n1) in *.
  destruct (ceiling_of_loc m1 loc_Exact) as (Hm1' & _ & Hc1').
  set (n2 := fexp prec64 emax64 (Zdigits2 m1 + e1) - e1).
  assert (e1 + Z.max 0 n2 ≤ eb) as He2.
  { unfold n2. rewrite fexp64.
    assert (Zdigits2 m1 ≤ 53 + (eb - e1)); [| lia].
    apply Zdigits2_le; [| lia]. rewrite Z.pow_add_r by lia.
    assert (0 < 2 ^ (eb - e1)) by (apply Z.pow_pos_nonneg; lia).
    assert (B * 2 ^ (eb - e1) ≤ (2 ^ 53 - 1) * 2 ^ (eb - e1))
      by (apply Z.mul_le_mono_nonneg_r; lia).
    lia. }
  destruct (shr (shr_record_of_loc m1 loc_Exact) e1 n2) as [mrs2 e2] eqn:E2.
  assert (B * 2 ^ (eb - e1) = 2 ^ Z.max 0 n2 * (B * 2 ^ (eb - (e1 + Z.max 0 n2))))
    as Hsplit2.
  { replace (eb - e1) with (Z.max 0 n2 + (eb - (e1 + Z.max 0 n2))) at 1 by lia.
    rewrite Z.pow_add_r by lia. lia. }
  destruct (shr_ceiling (shr_record_of_loc m1 loc_Exact) e1 n2
              (B * 2 ^ (eb - (e1 + Z.max 0 n2))) mrs2 e2) as (Hm2 & Hc2 & ->);
    [lia | | done |].
  { rewrite Hc1'. cbn match. lia. }
  assert (shr_m mrs2 ≤ ceiling mrs2) as Hle.
  { unfold ceiling. destruct (shr_r mrs2 || shr_s mrs2); lia. }
  destruct (shr_m mrs2) as [|m|m] eqn:Em; [done | | lia].
  rewrite (proj2 (Z.leb_le _ _)) by (unfold emax64, prec64; lia).
  split; lia.
Qed.

Lemma rneShift_bounds z n : z / 2 ^ n ≤ rneShift z n ≤ z / 2 ^ n + 1.
Proof.
  unfold rneShift, locOf, round_nearest_even.
  destruct (_ =? 0); [lia |]. destruct (_ ?= _); [| lia | lia].
  destruct (Z.even _); lia.
Qed.

Lemma rneShift_mono c t n : 0 ≤ c ≤ t → 0 ≤ n → rneShift c n ≤ rneShift t n.
Proof.
  intros Hct Hn. assert (0 < 2 ^ n) as Hpow by (apply Z.pow_pos_nonneg; lia).
  pose proof (Z.div_le_mono c t (2 ^ n) Hpow ltac:(lia)) as Hq.
  destruct (decide (c / 2 ^ n < t / 2 ^ n)) as [Hlt|Hge].
  - pose proof (rneShift_bounds c n). pose proof (rneShift_bounds t n). lia.
  - assert (c / 2 ^ n = t / 2 ^ n) as Heq by lia.
    pose proof (Z.div_mod c (2 ^ n) ltac:(lia)) as Hc.
    pose proof (Z.div_mod t (2 ^ n) ltac:(lia)) as Ht.
    pose proof (Z.mod_pos_bound c (2 ^ n) Hpow).
    pose proof (Z.mod_pos_bound t (2 ^ n) Hpow).
    assert (c mod 2 ^ n ≤ t mod 2 ^ n) as Hrem by (rewrite Heq in Hc; lia).
    unfold rneShift, locOf, round_nearest_even. rewrite Heq.
    destruct (Z.eqb_spec (c mod 2 ^ n) 0); destruct (Z.eqb_spec (t mod 2 ^ n) 0);
      repeat match goal with
             | |- context [?a ?= ?b] => destruct (Z.compare_spec a b)
             end;
      destruct (Z.even (t / 2 ^ n)); lia.
Qed.

(** A float that is already in canonical form rounds to itself. *)
Lemma binary_round_aux_canonical (m : positive) e :
  Zdigits2 (Z.pos m) = 53 → -1074 ≤ e ≤ 971 →
  binary_round_aux prec64 emax64 false (Z.pos m) e loc_Exact = S754_finite false m e.
Proof.
  intros Hd He. unfold binary_round_aux, shr_fexp.
  assert (fexp prec64 emax64 (Zdigits2 (Z.pos m) + e) - e = 0) as Hn
    by (rewrite fexp64; lia).
  rewrite Hn. cbn [shr shr_record_of_loc shr_m shr_r shr_s loc_of_shr_record
                   round_nearest_even].
  rewrite Hn. cbn [shr shr_record_of_loc shr_m].
  by rewrite (proj2 (Z.leb_le _ _)) by (unfold emax64, prec64; lia).
Qed.

(** An integer mantissa of more than 53 bits is shifted right and
    rounded; the value of the result is the rounded quotient. *)
Lemma binary_round_aux_shift z n :
  0 < n ≤ 900 → Zdigits2 z = 53 + n → 0 < z →
  ∃ m e, binary_round_aux prec64 emax64 false z 0 loc_Exact = S754_finite false m e
         ∧ 2 ^ 52 ≤ Z.pos m < 2 ^ 53
         ∧ n ≤ e ≤ n + 1
         ∧ Z.pos m * 2 ^ e = rneShift z n * 2 ^ n.
Proof.
  intros Hn Hd Hz. unfold binary_round_aux, shr_fexp.
  assert (fexp prec64 emax64 (Zdigits2 z + 0) - 0 = n) as Hn1
    by (rewrite fexp64; lia).
  rewrite Hn1. destruct n as [|pn|pn]; [lia | | lia].
  cbn [shr shr_record_of_loc]. rewrite iter_pos_nat.
  destruct (iter_shr_1_exact (Pos.to_nat pn) z ltac:(lia)) as [Hm Hl].
  rewrite positive_nat_Z in Hm, Hl. rewrite Hm, Hl.
  fold (rneShift z (Z.pos pn)).
  destruct (Zdigits2_spec z Hz) as [_ Hzb]. rewrite Hd in Hzb.
  replace (53 + Z.pos pn - 1) with (52 + Z.pos pn) in Hzb by lia.
  rewrite !Z.pow_add_r in Hzb by lia.
  assert (0 < 2 ^ Z.pos pn) as Hpow by (apply Z.pow_pos_nonneg; lia).
  assert (2 ^ 52 ≤ z / 2 ^ Z.pos pn < 2 ^ 53) as Hq.
  { split.
    - apply Z.div_le_lower_bound; lia.
    - apply Z.div_lt_upper_bound; lia. }
  pose proof (rneShift_bounds z (Z.pos pn)) as Hr.
  set (m1 := rneShift z (Z.pos pn)) in *.
  destruct (decide (m1 < 2 ^ 53)) as [Hlt|Hge].
  - assert (Zdigits2 m1 = 53) as Hd1 by (apply Zdigits2_unique; lia).
    assert (fexp prec64 emax64 (Zdigits2 m1 + (0 + Z.pos pn)) - (0 + Z.pos pn) = 0)
      as Hn2 by (rewrite fexp64; lia).
    rewrite Hn2. cbn [shr shr_m].
    destruct m1 as [|m|m] eqn:Em1; [lia | | lia].
    rewrite (proj2 (Z.leb_le _ _)) by (unfold emax64, prec64; lia).
    exists m, (0 + Z.pos pn). split_and!; try done; lia.
  - assert (m1 = 2 ^ 53) as -> by lia.
    assert (fexp prec64 emax64 (Zdigits2 (2 ^ 53) + (0 + Z.pos pn)) - (0 + Z.pos pn) = 1)
      as Hn2.
    { rewrite fexp64. change (Zdigits2 (2 ^ 53)) with 54. lia. }
    rewrite Hn2.
    change (shr (Build_shr_record (2 ^ 53) false false) (0 + Z.pos pn) 1)
      with (Build_shr_record (2 ^ 52) false false, 0 + Z.pos pn + 1).
    cbn [shr_m]. change (2 ^ 52) with (Z.pos (2 ^ 52)).
    rewrite (proj2 (Z.leb_le _ _)) by (unfold emax64, prec64; lia).
    exists (2 ^ 52)%positive, (0 + Z.pos pn + 1). split_and!; try done; try lia.
    rewrite Z.pow_add_r by lia. change (Z.pos (2 ^ 52)) with (2 ^ 52).
    change (2 ^ 53) with (2 ^ 52 * 2 ^ 1). rewrite Z.add_0_l. lia.
Qed.

Lemma iter_xO_pow2 (p k : positive) : Z.pos (Pos.iter xO p k) = Z.pos p * 2 ^ Z.pos k.
Proof.
  rewrite (Pos.iter_swap_gen _ _ Z.pos xO (Z.mul 2)) by done.
  change (Pos.iter (Z.mul 2) (Z.pos p) k) with (Z.shiftl (Z.pos p) (Z.pos k)).
  apply Z.shiftl_mul_pow2. lia.
Qed.

(** The conversion of a positive [int] is a normal float whose value is
    the integer rounded to 53 bits. *)
Lemma float64_of_int_value z :
  0 < z < 2 ^ 63 →
  ∃ m e, float64_of_int z = S754_finite false m e
         ∧ 2 ^ 52 ≤ Z.pos m < 2 ^ 53
         ∧ -52 ≤ e ≤ 11
         ∧ Z.pos m * 2 ^ (e + 52) = roundedInt z * 2 ^ 52.
Proof.
  intros Hz. destruct z as [|p|p]; [lia | | lia].
  destruct (Zdigits2_spec (Z.pos p) ltac:(lia)) as [Hd0 Hdb].
  assert (Zdigits2 (Z.pos p) ≤ 63) as Hd63 by (apply Zdigits2_le; lia).
  pose proof (Zdigits2_log2 (Z.pos p) ltac:(lia)) as Hlog.
  unfold roundedInt. rewrite <- Hlog.
  change (float64_of_int (Z.pos p)) with (binary_round prec64 emax64 false p 0).
  unfold binary_round.
  change (Z.pos (digits2_pos p)) with (Zdigits2 (Z.pos p)).
  set (d := Zdigits2 (Z.pos p)) in *.
  assert (fexp prec64 emax64 (d + 0) = d - 53) as Hfexp by (rewrite fexp64; lia).
  rewrite Hfexp. unfold shl_align.
  destruct (Z.leb_spec d 53) as [Hle|Hgt].
  - assert (∃ mz, (match d - 53 - 0 with
                   | Z.neg k => (Pos.iter xO p k, d - 53)
                   | _ => (p, 0)
                   end) = (mz, d - 53)
                  ∧ Z.pos mz = Z.pos p * 2 ^ (53 - d)) as (mz & -> & Hmz).
    { destruct (d - 53 - 0) as [|k|k] eqn:Ek; [| lia |].
      - exists p. replace (d - 53) with 0 by lia. replace (53 - d) with 0 by lia.
        split; [done | lia].
      - exists (Pos.iter xO p k). split; [done |]. rewrite iter_xO_pow2.
        by replace (53 - d) with (Z.pos k) by lia. }
    assert (0 < 2 ^ (53 - d)) as Hpow by (apply Z.pow_pos_nonneg; lia).
    assert (2 ^ 52 ≤ Z.pos mz < 2 ^ 53) as Hmzb.
    { rewrite Hmz.
      replace (2 ^ 52) with (2 ^ (d - 1) * 2 ^ (53 - d))
        by (rewrite <- Z.pow_add_r by lia; f_equal; lia).
      replace (2 ^ 53) with (2 ^ d * 2 ^ (53 - d))
        by (rewrite <- Z.pow_add_r by lia; f_equal; lia).
      split; [apply Z.mul_le_mono_nonneg_r; lia | apply Z.mul_lt_mono_pos_r; lia]. }
    rewrite binary_round_aux_canonical; [| by apply Zdigits2_unique | lia].
    exists mz, (d - 53). split_and!; try done; try lia.
    rewrite Hmz, <- Z.mul_assoc, <- Z.pow_add_r by lia. do 2 f_equal. lia.
  - assert ((match d - 53 - 0 with
             | Z.neg k => (Pos.iter xO p k, d - 53)
             | _ => (p, 0)
             end) = (p, 0)) as ->.
    { by destruct (d - 53 - 0) as [|k|k] eqn:Ek; [| | lia]. }
    destruct (binary_round_aux_shift (Z.pos p) (d - 53)) as (m & e & Hr & Hm & He & Hv);
      [lia | fold d; lia | lia |].
    rewrite Hr. exists m, e. split_and!; try done; try lia.
    rewrite Z.pow_add_r, Z.mul_assoc, Hv by lia. done.
Qed.

Lemma roundedInt_bounds z :
  0 < z →
  2 ^ Z.log2 z ≤ roundedInt z ≤ 2 ^ (Z.log2 z + 1).
Proof.
  intros Hz. pose proof (Z.log2_spec z Hz) as Hs. pose proof (Z.log2_nonneg z) as Hl.
  replace (Z.succ (Z.log2 z)) with (Z.log2 z + 1) in Hs by lia.
  unfold roundedInt. destruct (Z.leb_spec (Z.log2 z + 1) 53) as [Hle|Hgt]; [lia |].
  set (n := Z.log2 z + 1 - 53). assert (0 < n) as Hn by (unfold n; lia).
  assert (0 < 2 ^ n) as Hpow by (apply Z.pow_pos_nonneg; lia).
  pose proof (rneShift_bounds z n) as Hr.
  assert (2 ^ Z.log2 z = 2 ^ 52 * 2 ^ n) as E1
    by (rewrite <- Z.pow_add_r by lia; f_equal; unfold n; lia).
  assert (2 ^ (Z.log2 z + 1) = 2 ^ 53 * 2 ^ n) as E2
    by (rewrite <- Z.pow_add_r by lia; f_equal; unfold n; lia).
  assert (2 ^ 52 ≤ z / 2 ^ n < 2 ^ 53) as Hq.
  { split.
    - apply Z.div_le_lower_bound; lia.
    - apply Z.div_lt_upper_bound; lia. }
  rewrite E1, E2. split; apply Z.mul_le_mono_nonneg_r; lia.
Qed.

(** The conversion is monotone. *)
Lemma roundedInt_mono c t : 0 < c ≤ t → roundedInt c ≤ roundedInt t.
Proof.
  intros Hct. pose proof (Z.log2_le_mono c t ltac:(lia)) as Hlog.
  pose proof (Z.log2_nonneg c) as Hl.
  destruct (decide (Z.log2 c = Z.log2 t)) as [Heq|Hne].
  - unfold roundedInt. rewrite Heq.
    destruct (Z.leb_spec (Z.log2 t + 1) 53) as [Hle|Hgt]; [lia |].
    apply Z.mul_le_mono_nonneg_r; [apply Z.pow_nonneg; lia |].
    apply rneShift_mono; lia.
  - pose proof (roundedInt_bounds c ltac:(lia)) as [_ Hc].
    pose proof (roundedInt_bounds t ltac:(lia)) as [Ht _].
    assert (2 ^ (Z.log2 c + 1) ≤ 2 ^ Z.log2 t); [| lia].
    apply Z.pow_le_mono_r; lia.
Qed.

Lemma new_location_exact N r :
  new_location N r = if r =? 0 then loc_Exact else new_location N r.
Proof.
  unfold new_location, new_location_even, new_location_odd.
  by destruct (Z.even N), (r =? 0).
Qed.

Lemma new_location_inexact N r :
  r ≠ 0 → ∃ c, new_location N r = loc_Inexact c.
Proof.
  intros Hr. unfold new_location, new_location_even, new_location_odd.
  destruct (Z.even N); destruct (Z.eqb_spec r 0); try done; by eexists.
Qed.

Lemma SFdiv_core_binary64 (mc mt : positive) ec et :
  Zdigits2 (Z.pos mc) = 53 → Zdigits2 (Z.pos mt) = 53 →
  -52 ≤ ec ≤ 11 → -52 ≤ et ≤ 11 →
  SFdiv_core_binary prec64 emax64 (Z.pos mc) ec (Z.pos mt) et
  = (Z.pos mc * 2 ^ 53 / Z.pos mt, ec - et - 53,
     new_location (Z.pos mt) ((Z.pos mc * 2 ^ 53) mod Z.pos mt)).
Proof.
  intros Hdc Hdt Hec Het. unfold SFdiv_core_binary. rewrite Hdc, Hdt.
  assert (Z.min (fexp prec64 emax64 (53 + ec - (53 + et))) (ec - et) = ec - et - 53)
    as -> by (rewrite fexp64; lia).
  replace (ec - et - (ec - et - 53)) with 53 by lia.
  cbv zeta. cbn match. rewrite Z.shiftl_mul_pow2 by lia.
  unfold Z.div, Z.modulo. by destruct (Z.div_eucl _ _).
Qed.

(** The quotient of two converted integers [c ≤ t] is at most 1. *)
Lemma float64_div_le_one (mc mt : positive) ec et :
  2 ^ 52 ≤ Z.pos mc < 2 ^ 53 → 2 ^ 52 ≤ Z.pos mt < 2 ^ 53 →
  -52 ≤ ec ≤ 11 → -52 ≤ et ≤ 11 →
  Z.pos mc * 2 ^ (ec + 52) ≤ Z.pos mt * 2 ^ (et + 52) →
  match float64_div (S754_finite false mc ec) (S754_finite false mt et) with
  | S754_zero false => True
  | S754_finite false m e => e ≤ 0 ∧ Z.pos m ≤ 1 * 2 ^ (0 - e)
  | _ => False
  end.
Proof.
  intros Hmc Hmt Hec Het Hle.
  assert (ec ≤ et) as Hexp.
  { destruct (decide (ec ≤ et)) as [|Hgt]; [done | exfalso].
    assert (2 * 2 ^ (et + 52) ≤ 2 ^ (ec + 52)) as Hp.
    { rewrite <- (Z.pow_succ_r 2 (et + 52)) by lia. apply Z.pow_le_mono_r; lia. }
    assert (0 < 2 ^ (et + 52)) by (apply Z.pow_pos_nonneg; lia).
    assert (Z.pos mt * 2 ^ (et + 52) < 2 ^ 53 * 2 ^ (et + 52))
      by (apply Z.mul_lt_mono_pos_r; lia).
    assert (2 ^ 52 * 2 ^ (ec + 52) ≤ Z.pos mc * 2 ^ (ec + 52))
      by (apply Z.mul_le_mono_nonneg_r; lia).
    lia. }
  unfold float64_div, SFdiv.
  rewrite SFdiv_core_binary64; [| by apply Zdigits2_unique | by apply Zdigits2_unique
                                | done | done].
  cbn [xorb].
  set (q := Z.pos mc * 2 ^ 53 / Z.pos mt).
  set (r := (Z.pos mc * 2 ^ 53) mod Z.pos mt).
  set (K := 2 ^ (53 + et - ec)).
  assert (0 < K) as HK by (apply Z.pow_pos_nonneg; lia).
  assert (Z.pos mc * 2 ^ 53 ≤ Z.pos mt * K) as Hm'.
  { assert (Z.pos mc ≤ Z.pos mt * 2 ^ (et - ec)) as H1.
    { replace (et + 52) with ((et - ec) + (ec + 52)) in Hle by lia.
      rewrite (Z.pow_add_r 2 (et - ec) (ec + 52)), Z.mul_assoc in Hle by lia.
      apply Z.mul_le_mono_pos_r in Hle; [done |]. apply Z.pow_pos_nonneg; lia. }
    unfold K. replace (53 + et - ec) with ((et - ec) + 53) by lia.
    rewrite (Z.pow_add_r 2 (et - ec) 53), Z.mul_assoc by lia.
    apply Z.mul_le_mono_nonneg_r; [lia | done]. }
  pose proof (Z.div_mod (Z.pos mc * 2 ^ 53) (Z.pos mt) ltac:(lia)) as Hdm.
  pose proof (Z.mod_pos_bound (Z.pos mc * 2 ^ 53) (Z.pos mt) ltac:(lia)) as Hrb.
  fold q r in Hdm, Hrb.
  assert (0 ≤ q) as Hq by (apply Z.div_pos; lia).
  apply binary_round_aux_upper; try lia.
  replace (0 - (ec - et - 53)) with (53 + et - ec) by lia. fold K.
  destruct (ceiling_of_loc q (new_location (Z.pos mt) r)) as (_ & _ & ->).
  destruct (decide (r = 0)) as [Hr0|Hr0].
  - assert (new_location (Z.pos mt) r = loc_Exact) as ->
      by (rewrite new_location_exact, Hr0; reflexivity).
    assert (q ≤ K); [| lia]. apply (Z.mul_le_mono_pos_l _ _ (Z.pos mt)); lia.
  - destruct (new_location_inexact (Z.pos mt) r Hr0) as [c ->].
    assert (q < K); [| lia]. apply (Z.mul_lt_mono_pos_l (Z.pos mt)); lia.
Qed.

Lemma float64_100 : float64_of_int 100 = S754_finite false 7036874417766400 (-46).
Proof. reflexivity. Qed.

(** A float of at most 1 times 100 is at most 100. *)
Lemma float64_mul_100 q :
  match q with
  | S754_zero false => True
  | S754_finite false m e => e ≤ 0 ∧ Z.pos m ≤ 1 * 2 ^ (0 - e)
  | _ => False
  end →
  match float64_mul q (float64_of_int 100) with
  | S754_zero false => True
  | S754_finite false m e => e ≤ 0 ∧ Z.pos m ≤ 100 * 2 ^ (0 - e)
  | _ => False
  end.
Proof.
  rewrite float64_100. destruct q as [[|] | | | [|] mq eq]; try done.
  intros [He Hm]. unfold float64_mul, SFmul. cbn [xorb].
  apply binary_round_aux_upper; try lia.
  destruct (ceiling_of_loc (Z.pos (mq * 7036874417766400)) loc_Exact) as (_ & _ & ->).
  rewrite Pos2Z.inj_mul.
  replace (0 - (eq + -46)) with (46 + (0 - eq)) by lia.
  rewrite Z.pow_add_r by lia.
  change (Z.pos 7036874417766400) with (100 * 2 ^ 46).
  assert (0 < 2 ^ (0 - eq)) by (apply Z.pow_pos_nonneg; lia).
  assert (Z.pos mq * (100 * 2 ^ 46) ≤ (1 * 2 ^ (0 - eq)) * (100 * 2 ^ 46))
    by (apply Z.mul_le_mono_nonneg_r; lia).
  lia.
Qed.

Lemma int_of_float64_le_100 p :
  match p with
  | S754_zero false => True
  | S754_finite false m e => e ≤ 0 ∧ Z.pos m ≤ 100 * 2 ^ (0 - e)
  | _ => False
  end →
  0 ≤ int_of_float64 p ≤ 100.
Proof.
  destruct p as [[|] | | | [|] m e]; try done. intros [He Hm].
  unfold int_of_float64. cbn [cond_Zopp].
  assert (0 < 2 ^ (0 - e)) by (apply Z.pow_pos_nonneg; lia).
  assert (0 ≤ Z.shiftl (Z.pos m) e ≤ 100) as Ht.
  { rewrite Z.shiftl_div_pow2 by lia.
    replace (0 - e) with (- e) in * by lia. split.
    - apply Z.div_pos; lia.
    - apply Z.div_le_upper_bound; lia. }
  unfold minInt64, maxInt64.
  destruct (Z.leb_spec (- 2 ^ 63) (Z.shiftl (Z.pos m) e)); [| lia].
  destruct (Z.leb_spec (Z.shiftl (Z.pos m) e) (2 ^ 63 - 1)); [| lia].
  simpl. lia.
Qed.

(** The float branch of [percent]. *)
Lemma percent_float_branch c t :
  0 < c → c < t → t < 2 ^ 63 →
  0 ≤ int_of_float64
        (float64_mul (float64_div (float64_of_int c) (float64_of_int t))
                     (float64_of_int 100)) ≤ 100.
Proof.
  intros Hc Hct Ht.
  destruct (float64_of_int_value c ltac:(lia)) as (mc & ec & -> & Hmc & Hec & Hvc).
  destruct (float64_of_int_value t ltac:(lia)) as (mt & et & -> & Hmt & Het & Hvt).
  pose proof (roundedInt_mono c t ltac:(lia)) as Hmono.
  apply int_of_float64_le_100, float64_mul_100, float64_div_le_one; try done.
  rewrite Hvc, Hvt. apply Z.mul_le_mono_nonneg_r; lia.
Qed.

(** [percent] stays within 0..100. *)
Lemma percent_range current total :
  minInt64 ≤ current ≤ maxInt64 → minInt64 ≤ total ≤ maxInt64 →
  0 ≤ percent current total ≤ 100.
Proof.
  unfold minInt64, maxInt64. intros Hc Ht. unfold percent.
  destruct (Z.leb_spec total 0).
  - destruct (Z.leb_spec current 0); [lia |].
    destruct (Z.gtb_spec current 100); lia.
  - destruct (Z.leb_spec current 0); [lia |].
    destruct (Z.geb_spec current total); [lia |].
    apply percent_float_branch; lia.
Qed.

(** ** The percentage of a slot *)

(** C4, as the code has it: [percent] is within 0..100; it is 0 for
    [current <= 0], [current] cut off at 100 for [total <= 0], 100 for
    [current >= total > 0], and otherwise the [float64] product
    [(current / total) * 100] with its fraction discarded.
    [UpdateFileProgress] on a valid slot stores this value in [Percent];
    [MarkFileComplete] stores 100. *)
Theorem percent_clamped_and_truncated σ id index step message current total now f :
  minInt64 ≤ current ≤ maxInt64 → minInt64 ≤ total ≤ maxInt64 →
  0 ≤ index → filesOf σ id !! Z.to_nat index = Some f →
  0 ≤ percent current total ≤ 100
  ∧ (current ≤ 0 → percent current total = 0)
  ∧ (total ≤ 0 → 0 < current → percent current total = Z.min 100 current)
  ∧ (0 < total ≤ current → percent current total = 100)
  ∧ (0 < current < total →
     percent current total
     = int_of_float64
         (float64_mul (float64_div (float64_of_int current) (float64_of_int total))
                      (float64_of_int 100)))
  ∧ fp_Percent
      <$> filesOf (UpdateFileProgress id index step message current total now σ) id
            !! Z.to_nat index
    = Some (percent current total)
  ∧ ∀ r, fp_Percent <$> filesOf (MarkFileComplete id index r now σ) id !! Z.to_nat index
         = Some 100.
Proof.
  intros Hc Ht Hi Hf. split; [by apply percent_range |].
  split_and!.
  - intros H. unfold percent.
    destruct (Z.leb_spec total 0); destruct (Z.leb_spec current 0); try lia; done.
  - intros H1 H2. unfold percent.
    destruct (Z.leb_spec total 0); [| lia]. destruct (Z.leb_spec current 0); [lia |].
    destruct (Z.gtb_spec current 100); lia.
  - intros H. unfold percent.
    destruct (Z.leb_spec total 0); [lia |]. destruct (Z.leb_spec current 0); [lia |].
    destruct (Z.geb_spec current total); [done | lia].
  - intros H. unfold percent.
    destruct (Z.leb_spec total 0); [lia |]. destruct (Z.leb_spec current 0); [lia |].
    destruct (Z.geb_spec current total); [lia | done].
  - rewrite filesOf_UpdateFileProgress, lookup_alterAt, Hf by done. done.
  - intros r. rewrite filesOf_MarkFileComplete, lookup_alterAt, Hf by done. done.
Qed.

Lemma percent_clamped_and_truncated_witness :
  (minInt64 ≤ 2 ≤ maxInt64) ∧ (minInt64 ≤ 3 ≤ maxInt64) ∧ 0 ≤ 0
  ∧ filesOf twoFileStore "job-1" !! Z.to_nat 0 = Some (newFile 0 "a.pdf")
  ∧ 0 ≤ percent 2 3 ≤ 100
  ∧ fp_Percent
      <$> filesOf (UpdateFileProgress "job-1" 0 "analyze" "page 2" 2 3 20 twoFileStore)
            "job-1" !! Z.to_nat 0
    = Some (percent 2 3).
Proof.
  assert (minInt64 ≤ 2 ≤ maxInt64) as H1 by (unfold minInt64, maxInt64; lia).
  assert (minInt64 ≤ 3 ≤ maxInt64) as H2 by (unfold minInt64, maxInt64; lia).
  assert (filesOf twoFileStore "job-1" !! Z.to_nat 0 = Some (newFile 0 "a.pdf")) as H4
    by (vm_compute; reflexivity).
  split; [exact H1 |]. split; [exact H2 |]. split; [lia |]. split; [exact H4 |].
  destruct (percent_clamped_and_truncated twoFileStore "job-1" 0 "analyze" "page 2"
              2 3 20 (newFile 0 "a.pdf") H1 H2 ltac:(lia) H4)
    as (R1 & _ & _ & _ & _ & R2 & _).
  split; [exact R1 | exact R2].
Defined.

(** C4 as stated fails: for 2 of 3 the claim's rounding gives 67, the
    code stores 66. *)
Lemma percent_rounding_counterexample :
  percentAsClaimed false 2 3 = 67
  ∧ percent 2 3 = 66
  ∧ fp_Percent
      <$> filesOf (UpdateFileProgress "job-1" 0 "analyze" "page 2" 2 3 20 twoFileStore)
            "job-1" !! 0%nat
    = Some 66.
Proof. split_and!; vm_compute; reflexivity. Qed.

(** The quotient is rounded before it is multiplied: 29 of 100 is 28. *)
Example percent_29_of_100 : percent 29 100 = 28.
Proof. vm_compute. reflexivity. Qed.

(** * Further properties of the Job Manager *)

(** ** Calls for a job that is not in the table *)

(** An operation addressed to an id that is not in the table does
    nothing: the store is left as it was (no allocation, no append, no
    time stamp), and [GetJob] returns [nil] and [false]. *)
Theorem unknown_job_is_ignored op σ id :
  target op = Some id → jobs σ !! id = None →
  exec op σ = σ ∧ GetJob id σ = ((None, false), σ).
Proof.
  intros Ht Hj. split.
  - destruct op; simpl in Ht; try done; injection Ht as ->; simpl;
      try by apply withJob_None.
    unfold GetJob. by rewrite Hj.
  - unfold GetJob. by rewrite Hj.
Qed.

Lemma unknown_job_is_ignored_witness :
  exec (OpMarkFileComplete "job-2" 0 okResult 50) twoFileStore = twoFileStore
  ∧ GetJob "job-2" twoFileStore = ((None, false), twoFileStore).
Proof.
  exact (unknown_job_is_ignored (OpMarkFileComplete "job-2" 0 okResult 50)
           twoFileStore "job-2" eq_refl eq_refl).
Defined.

(** ** The slots of a job under every operation *)

Lemma jobs_exec_mono op σ id :
  uniqueId op σ → is_Some (jobs σ !! id) → is_Some (jobs (exec op σ) !! id).
Proof.
  intros Hu Hid. pose proof (exec_touches op σ) as HT. destruct op; simpl in *.
  - rewrite CreateJob_unfold.
    pose proof (clone_extends (Some (newLoc (jobObjs σ)))
                  (withNewJob fileNames id0 t1 t2 σ)) as [Hjobs _].
    destruct (clone _ _) as [s σ4]. simpl in *. rewrite Hjobs.
    unfold withNewJob. simpl. rewrite lookup_insert_ne; [done |].
    intros ->. rewrite Hu in Hid. by destruct Hid.
  - unfold GetJob. destruct (jobs σ !! id0) as [lj|] eqn:Hj; [| done].
    pose proof (clone_extends (Some lj) σ) as [Hjobs _].
    destruct (clone _ _) as [s σ4]. simpl in *. by rewrite Hjobs.
  - destruct (jobs σ !! id0); [destruct HT as [-> _]; done | by rewrite HT].
  - destruct (jobs σ !! id0); [destruct HT as [-> _]; done | by rewrite HT].
  - destruct (jobs σ !! id0); [destruct HT as [-> _]; done | by rewrite HT].
  - destruct (jobs σ !! id0); [destruct HT as [-> _]; done | by rewrite HT].
  - destruct (jobs σ !! id0); [destruct HT as [-> _]; done | by rewrite HT].
  - destruct (jobs σ !! id0); [destruct HT as [-> _]; done | by rewrite HT].
  - destruct (jobs σ !! id0); [destruct HT as [-> _]; done | by rewrite HT].
Qed.

(** The slot sequence of a job after any operation. *)
Lemma filesOf_exec op σ id :
  Inv σ → uniqueId op σ → is_Some (jobs σ !! id) →
  filesOf (exec op σ) id = slotEffect σ id op (filesOf σ id).
Proof.
  intros HI Hu Hid. destruct op; simpl in *.
  - apply filesOf_CreateJob; [done |]. intros ->. rewrite Hu in Hid. by destruct Hid.
  - by apply filesOf_GetJob.
  - apply filesOf_MarkProcessing.
  - apply filesOf_MarkCompleted.
  - apply filesOf_MarkFailed.
  - case_decide as Hi; [subst; apply filesOf_MarkFileStarted |].
    by apply (filesOf_exec_other_job (OpMarkFileStarted id0 index now) σ id id0).
  - case_decide as Hi; [subst; apply filesOf_UpdateFileProgress |].
    by apply (filesOf_exec_other_job
                (OpUpdateFileProgress id0 index step message current total now) σ id id0).
  - case_decide as Hi; [subst; apply filesOf_MarkFileComplete |].
    by apply (filesOf_exec_other_job (OpMarkFileComplete id0 index result0 now) σ id id0).
  - case_decide as Hi; [subst; apply filesOf_MarkFileError |].
    by apply (filesOf_exec_other_job
                (OpMarkFileError id0 index message result0 now) σ id id0).
Qed.

Lemma shape_alterAt index f fs :
  (∀ x, fp_Index (f x) = fp_Index x ∧ fp_Name (f x) = fp_Name x) →
  shape (alterAt index f fs) = shape fs.
Proof.
  intros Hf. unfold alterAt. destruct (_ || _); [done |].
  unfold shape. apply list_eq. intros k. rewrite !list_lookup_fmap.
  destruct (decide (k = Z.to_nat index)) as [->|Hne].
  - rewrite list_lookup_alter_eq.
    destruct (fs !! Z.to_nat index) as [x|]; simpl; [| done].
    destruct (Hf x) as [-> ->]. done.
  - by rewrite list_lookup_alter_ne.
Qed.

Lemma shape_slotEffect σ id op fs : shape (slotEffect σ id op fs) = shape fs.
Proof.
  destruct op; simpl; try done; case_decide; try done; by apply shape_alterAt.
Qed.

(** Whatever calls are made, in whatever order and for whatever jobs, a
    job keeps the slots it was created with: their number, and the
    [Index] and [Name] of each. *)
Theorem slots_keep_index_and_name ops σ id :
  Inv σ → uniqueIds ops σ → is_Some (jobs σ !! id) →
  shape (filesOf (execs ops σ) id) = shape (filesOf σ id)
  ∧ length (filesOf (execs ops σ) id) = length (filesOf σ id).
Proof.
  intros HI Hu Hid.
  assert (shape (filesOf (execs ops σ) id) = shape (filesOf σ id)) as H.
  { revert σ HI Hu Hid. induction ops as [|op ops IH]; intros σ HI Hu Hid; [done |].
    destruct Hu as [Hu Hus]. simpl.
    rewrite IH; [| by apply Inv_exec | done | by apply jobs_exec_mono].
    rewrite filesOf_exec by done. apply shape_slotEffect. }
  split; [done |]. apply (f_equal length) in H. unfold shape in H.
  by rewrite !length_fmap in H.
Qed.

Lemma slots_keep_index_and_name_witness :
  shape (filesOf (execs mixedCalls twoFileStore) "job-1") = [(0, "a.pdf"); (1, "b.pdf")]
  ∧ length (filesOf (execs mixedCalls twoFileStore) "job-1") = 2%nat.
Proof.
  refine (slots_keep_index_and_name mixedCalls twoFileStore "job-1"
            Inv_twoFileStore _ _).
  - vm_compute. repeat split.
  - vm_compute. eauto.
Defined.

(** ** The result sequences under every operation *)

Lemma touchesR_refl lj σ : touchesR lj σ σ.
Proof. unfold touchesR. split_and!; try done. by left. Qed.

Lemma touchesR_neutral lj σ σ' :
  jobs σ' = jobs σ → jobObjs σ' = jobObjs σ → resultArrs σ' = resultArrs σ →
  touchesR lj σ σ'.
Proof.
  intros H1 H2 H3. unfold touchesR. rewrite H1, H2, H3.
  split_and!; try done. by left.
Qed.

Lemma touchesR_trans lj σ1 σ2 σ3 :
  touchesR lj σ1 σ2 → touchesR lj σ2 σ3 → touchesR lj σ1 σ3.
Proof.
  intros (A1 & A2 & A3 & A4 & A5 & A6) (B1 & B2 & B3 & B4 & B5 & B6). split_and!.
  - congruence.
  - intros l Hl. rewrite B2, A2; done.
  - by rewrite B3.
  - intros l Hl. by apply B4, A4.
  - intros l Hl.
    destruct (decide (resultArrs σ3 !! l = resultArrs σ2 !! l)) as [E|E];
      [| by apply B5].
    rewrite E in Hl. specialize (A5 l Hl).
    destruct B6 as [B6|(la & B6 & _)]; [by rewrite B6 |]. congruence.
  - destruct A6 as [A6|(la & A61 & A62 & A63 & A64)];
      destruct B6 as [B6|(lb & B61 & B62 & B63 & B64)].
    + left. congruence.
    + right. exists lb. split_and!; [congruence | done | | done].
      destruct (resultArrs σ1 !! lb) eqn:E; [| done].
      destruct (A4 lb) as [? ?]; [by rewrite E | congruence].
    + right. exists la. split_and!; [done | congruence | done | by apply B4].
    + congruence.
Qed.

Lemma touchesR_updJob lj g σ :
  (∀ j, job_Results (g j) = job_Results j) → touchesR lj σ (updJob lj g σ).
Proof.
  intros Hg. unfold touchesR, updJob. simpl. split_and!; try done.
  - intros l Hl. by rewrite lookup_alter_ne.
  - rewrite lookup_alter_eq. by rewrite fmap_is_Some.
  - left. rewrite lookup_alter_eq. destruct (jobObjs σ !! lj); simpl; [| done].
    by rewrite Hg.
Qed.

Lemma touchesR_appendResult lj r σ : touchesR lj σ (appendResult lj r σ).
Proof.
  unfold appendResult. destruct (jobObjs σ !! lj) as [job|] eqn:Hjob;
    [| apply touchesR_refl].
  destruct (job_Results job) as [la|] eqn:Hr.
  - unfold touchesR. simpl. rewrite Hjob. simpl. rewrite Hr. split_and!; try done.
    + intros l Hl. rewrite lookup_insert. case_decide; [eauto | done].
    + intros l. rewrite lookup_insert. case_decide; [by subst | done].
    + by left.
  - unfold touchesR, updJob. simpl. rewrite lookup_alter_eq, Hjob. simpl.
    rewrite Hr. split_and!; try done.
    + intros l Hl. by rewrite lookup_alter_ne.
    + intros l Hl. rewrite lookup_insert. case_decide; [eauto | done].
    + intros l. rewrite lookup_insert. case_decide; [by subst | done].
    + right. eexists. split_and!; [done | done | apply newLoc_fresh |].
      rewrite lookup_insert_eq. eauto.
Qed.

Lemma touchesR_slot_update lj index f σ :
  touchesR lj σ match file lj index σ with Some p => updFile p f σ | None => σ end.
Proof. destruct (file lj index σ); [by apply touchesR_neutral | apply touchesR_refl]. Qed.

Lemma touchesR_finish lj index (f : option loc → FileProgress → FileProgress) r r' σ :
  touchesR lj σ
    (appendResult lj r'
       match file lj index σ with
       | Some p => let '(lr, σ') := cloneResult r σ in updFile p (f (Some lr)) σ'
       | None => σ
       end).
Proof.
  eapply touchesR_trans; [| apply touchesR_appendResult].
  destruct (file lj index σ); [by apply touchesR_neutral | apply touchesR_refl].
Qed.

Lemma touchesR_withJob id fn now σ lj :
  jobs σ !! id = Some lj →
  touchesR lj σ (fn lj σ) →
  touchesR lj σ (withJob id fn now σ).
Proof.
  intros Hj Hfn. rewrite (withJob_Some _ _ _ _ lj Hj).
  eapply touchesR_trans; [exact Hfn |].
  by apply (touchesR_updJob lj (job_with_UpdatedAt now)).
Qed.

Lemma exec_touchesR op σ id lj :
  target op = Some id → stamp op ≠ None → jobs σ !! id = Some lj →
  touchesR lj σ (exec op σ).
Proof.
  intros Ht Hs Hj. destruct op; simpl in Ht, Hs; try done; injection Ht as ->; simpl;
    apply touchesR_withJob; try done.
  - by apply touchesR_updJob.
  - by apply touchesR_updJob.
  - eapply touchesR_trans; by apply touchesR_updJob.
  - apply touchesR_slot_update.
  - apply touchesR_slot_update.
  - apply (touchesR_finish lj index completed).
  - apply (touchesR_finish lj index (errored (errorMessage message))).
Qed.

Lemma jobOf_touchesR_other σ σ' id id' lj' :
  Inv σ → jobs σ !! id' = Some lj' → id ≠ id' → touchesR lj' σ σ' →
  jobOf σ' id = jobOf σ id.
Proof.
  intros (I1 & I2 & I3 & I4) Hj' Hne (T1 & T2 & _).
  unfold jobOf. rewrite T1.
  destruct (jobs σ !! id) as [lj|] eqn:Hj; simpl; [| done].
  apply T2. intros ->. by apply Hne, (I3 id id' lj').
Qed.

Lemma resultsOf_frame_touchesR σ σ' id id' lj' :
  Inv σ → InvR σ → jobs σ !! id' = Some lj' → id ≠ id' → touchesR lj' σ σ' →
  resultsOf σ' id = resultsOf σ id.
Proof.
  intros HI (R1 & R2) Hj' Hne HT.
  unfold resultsOf. rewrite (jobOf_touchesR_other σ σ' id id' lj') by done.
  destruct (jobOf σ id) as [job|] eqn:Hjob; [| done].
  destruct (job_Results job) as [la|] eqn:Hr; simpl; [| done].
  destruct HT as (T1 & T2 & T3 & T4 & T5 & T6).
  destruct (decide (resultArrs σ' !! la = resultArrs σ !! la)) as [E|E];
    [by rewrite E |].
  exfalso. specialize (T5 la E).
  destruct T6 as [T6|(lb & T61 & T62 & T63 & T64)].
  - rewrite T5 in T6. destruct (jobObjs σ !! lj') as [job'|] eqn:Hjob'; [| done].
    simpl in T6. apply Hne, (R2 id id' job job' la); try done.
    + unfold jobOf. rewrite Hj'. done.
    + congruence.
  - assert (lb = la) as -> by congruence.
    destruct (R1 id job la Hjob Hr) as [? ?]. congruence.
Qed.

Lemma InvR_touchesR σ σ' id' lj' :
  Inv σ → InvR σ → jobs σ !! id' = Some lj' → touchesR lj' σ σ' → InvR σ'.
Proof.
  intros HI (R1 & R2) Hj' HT.
  pose proof (λ id Hne, jobOf_touchesR_other σ σ' id id' lj' HI Hj' Hne HT) as Hother.
  destruct HT as (T1 & T2 & T3 & T4 & T5 & T6).
  assert (jobOf σ' id' = jobObjs σ' !! lj') as Hown'.
  { unfold jobOf. rewrite T1, Hj'. done. }
  assert (jobOf σ id' = jobObjs σ !! lj') as Hown.
  { unfold jobOf. rewrite Hj'. done. }
  assert (∀ job la, jobOf σ' id' = Some job → job_Results job = Some la →
            is_Some (resultArrs σ' !! la)
            ∧ ∀ id j, id ≠ id' → jobOf σ id = Some j → job_Results j ≠ Some la) as Hmine.
  { intros job la Hjob Hr. rewrite Hown' in Hjob. rewrite Hjob in T6. simpl in T6.
    rewrite Hr in T6. destruct T6 as [T6|(lb & T61 & [= <-] & T63 & T64)].
    - destruct (jobObjs σ !! lj') as [job0|] eqn:Hjob0; [| done].
      simpl in T6. injection T6 as T6. split.
      + apply T4, (R1 id' job0); [by rewrite Hown | done].
      + intros id j Hne Hj Hrj. by apply Hne, (R2 id id' j job0 la).
    - split; [done |]. intros id j Hne Hj Hrj.
      destruct (R1 id j la Hj Hrj) as [? ?]. congruence. }
  split.
  - intros id job la Hjob Hr. destruct (decide (id = id')) as [->|Hne].
    + by apply (Hmine job la).
    + rewrite Hother in Hjob by done. by apply T4, (R1 id job la).
  - intros id1 id2 j1 j2 la H1 H2 Hr1 Hr2.
    destruct (decide (id1 = id')) as [->|Hne1]; destruct (decide (id2 = id')) as [->|Hne2];
      try done.
    + exfalso. rewrite Hother in H2 by done.
      destruct (Hmine j1 la H1 Hr1) as [_ Hno]. by apply (Hno id2 j2).
    + exfalso. rewrite Hother in H1 by done.
      destruct (Hmine j2 la H2 Hr2) as [_ Hno]. by apply (Hno id1 j1).
    + rewrite Hother in H1, H2 by done. by apply (R2 id1 id2 j1 j2 la).
Qed.

(** [clone] and result arrays: it allocates one and writes to no other. *)
Lemma clone_resultArrs p σ l :
  is_Some (resultArrs σ !! l) → resultArrs (clone p σ).2 !! l = resultArrs σ !! l.
Proof.
  intros Hl. unfold clone. destruct p as [lj|]; [| done].
  destruct (jobObjs σ !! lj) as [job|]; [| done].
  set (files := readFiles σ (job_Files job)).
  pose proof (cloneFiles_frame files σ) as (F1 & F2 & F3 & F4).
  destruct (cloneFiles files σ) as [fs' σ'] eqn:Ecf.
  simpl in F1, F2, F3, F4.
  destruct (0 <? length files)%nat;
    (match goal with |- context [if ?c then _ else _] => destruct c end);
    simpl; rewrite ?F4; try done;
    rewrite lookup_insert_ne; try done; symmetry; by apply newLoc_ne.
Qed.

Lemma InvR_stable σ σ' :
  (∀ id, jobOf σ' id = jobOf σ id) →
  (∀ l, is_Some (resultArrs σ !! l) → is_Some (resultArrs σ' !! l)) →
  InvR σ → InvR σ'.
Proof.
  intros Hjob Hdom (R1 & R2). split.
  - intros id job la. rewrite Hjob. intros H1 H2. by apply Hdom, (R1 id job la).
  - intros id1 id2 j1 j2 la. rewrite !Hjob. apply R2.
Qed.

Lemma InvR_clone p σ : Inv σ → InvR σ → InvR (clone p σ).2.
Proof.
  intros HI HR. destruct (clone_extends p σ) as [Hjobs Hext].
  apply (InvR_stable σ); [| | done].
  - intros id. by apply extends_jobOf.
  - intros l Hl. by rewrite clone_resultArrs.
Qed.

Lemma resultsOf_clone p σ id : Inv σ → InvR σ → resultsOf (clone p σ).2 id = resultsOf σ id.
Proof.
  intros HI (R1 & _). destruct (clone_extends p σ) as [Hjobs Hext].
  unfold resultsOf. rewrite (extends_jobOf σ _ id Hjobs Hext HI).
  destruct (jobOf σ id) as [job|] eqn:Hjob; [| done].
  destruct (job_Results job) as [la|] eqn:Hr; simpl; [| done].
  rewrite clone_resultArrs; [done |]. by apply (R1 id job la).
Qed.

Lemma InvR_withNewJob fileNames id t1 t2 σ :
  Inv σ → InvR σ → InvR (withNewJob fileNames id t1 t2 σ).
Proof.
  intros HI (R1 & R2).
  pose proof (jobOf_withNewJob fileNames id t1 t2 σ) as HjobOf. split.
  - intros id' job la. rewrite HjobOf by done. case_decide.
    + by intros [= <-].
    + intros Hjob Hr. unfold withNewJob. simpl. by apply (R1 id' job la).
  - intros id1 id2 j1 j2 la. rewrite !HjobOf by done.
    repeat case_decide; subst; try done.
    + by intros [= <-].
    + by intros _ [= <-].
    + apply R2.
Qed.

Lemma resultsOf_withNewJob fileNames id t1 t2 σ id' :
  Inv σ → id' ≠ id →
  resultsOf (withNewJob fileNames id t1 t2 σ) id' = resultsOf σ id'.
Proof.
  intros HI Hne. unfold resultsOf. rewrite jobOf_withNewJob by done.
  by case_decide.
Qed.

Lemma InvR_NewJobManager : InvR NewJobManager.
Proof.
  unfold InvR, jobOf, NewJobManager. simpl. split; intros *; by rewrite lookup_empty.
Qed.

Lemma InvR_exec op σ : Inv σ → InvR σ → InvR (exec op σ).
Proof.
  intros HI HR.
  destruct (stamp op) as [now|] eqn:Hs.
  - destruct (target op) as [id|] eqn:Ht; [| by destruct op].
    destruct (jobs σ !! id) as [lj|] eqn:Hj.
    + apply (InvR_touchesR σ _ id lj); try done.
      apply (exec_touchesR op σ id lj); try done. by rewrite Hs.
    + pose proof (exec_touches op σ) as HT.
      destruct op; simpl in Ht, Hs; try done; injection Ht as ->; simpl in HT |- *;
        rewrite Hj in HT; by rewrite HT.
  - destruct op; simpl in Hs; try done; simpl.
    + rewrite CreateJob_unfold.
      pose proof (InvR_clone (Some (newLoc (jobObjs σ)))
                    (withNewJob fileNames id t1 t2 σ)
                    (Inv_withNewJob fileNames id t1 t2 σ HI)
                    (InvR_withNewJob fileNames id t1 t2 σ HI HR)) as H.
      by destruct (clone _ _).
    + unfold GetJob. destruct (jobs σ !! id) as [lj|]; [| done].
      pose proof (InvR_clone (Some lj) σ HI HR) as H. by destruct (clone _ _).
Qed.

(** The result sequence of a job after any operation. *)
Lemma resultsOf_exec op σ id :
  Inv σ → InvR σ → uniqueId op σ → is_Some (jobOf σ id) →
  resultsOf (exec op σ) id = (resultsOf σ id ++ appended id op)%list.
Proof.
  intros HI HR Hu Hid.
  pose proof Hid as (lj & Hj & Hjob)%jobOf_is_Some.
  destruct op; simpl in *; rewrite ?app_nil_r.
  - rewrite CreateJob_unfold.
    pose proof (resultsOf_clone (Some (newLoc (jobObjs σ)))
                  (withNewJob fileNames id0 t1 t2 σ) id
                  (Inv_withNewJob fileNames id0 t1 t2 σ HI)
                  (InvR_withNewJob fileNames id0 t1 t2 σ HI HR)) as H.
    destruct (clone _ _) as [s σ4]. simpl in *. rewrite H.
    apply resultsOf_withNewJob; [done |]. intros ->. congruence.
  - unfold GetJob. destruct (jobs σ !! id0) as [lj0|]; [| done].
    pose proof (resultsOf_clone (Some lj0) σ id HI HR) as H. by destruct (clone _ _).
  - unfold MarkProcessing, withJob, updJob. destruct (jobs σ !! id0); [| done].
    by rewrite !resultsOf_alter_job.
  - unfold MarkCompleted, withJob, updJob. destruct (jobs σ !! id0); [| done].
    by rewrite !resultsOf_alter_job.
  - unfold MarkFailed, withJob, updJob. destruct (jobs σ !! id0); [| done].
    by rewrite !resultsOf_alter_job.
  - unfold MarkFileStarted, withJob. destruct (jobs σ !! id0) as [lj0|]; [| done].
    rewrite resultsOf_alter_job by done. by destruct (file lj0 index σ).
  - unfold UpdateFileProgress, withJob. destruct (jobs σ !! id0) as [lj0|]; [| done].
    rewrite resultsOf_alter_job by done. by destruct (file lj0 index σ).
  - case_decide as Hi; [subst; by apply resultsOf_MarkFileComplete |].
    rewrite app_nil_r. destruct (jobs σ !! id0) as [lj0|] eqn:Hj0.
    + apply (resultsOf_frame_touchesR σ _ id id0 lj0); try done; try congruence.
      by apply (exec_touchesR (OpMarkFileComplete id0 index result0 now) σ id0 lj0).
    + unfold MarkFileComplete. by rewrite withJob_None.
  - case_decide as Hi; [subst; by apply resultsOf_MarkFileError |].
    rewrite app_nil_r. destruct (jobs σ !! id0) as [lj0|] eqn:Hj0.
    + apply (resultsOf_frame_touchesR σ _ id id0 lj0); try done; try congruence.
      by apply (exec_touchesR (OpMarkFileError id0 index message result0 now) σ id0 lj0).
    + unfold MarkFileError. by rewrite withJob_None.
Qed.

(** The result sequence of a job is the log of the [MarkFileComplete] and
    [MarkFileError] calls made for it: after any sequence of calls it is
    what it was, followed by the results of those calls in the order of
    the calls (for [MarkFileError], the result forced to [error]).
    Nothing is ever removed or reordered, and calls for other jobs add
    nothing. *)
Theorem results_are_the_log_of_finish_calls ops σ id :
  Inv σ → InvR σ → uniqueIds ops σ → is_Some (jobOf σ id) →
  resultsOf (execs ops σ) id = (resultsOf σ id ++ concat (appended id <$> ops))%list.
Proof.
  revert σ. induction ops as [|op ops IH]; intros σ HI HR Hu Hid.
  - simpl. by rewrite app_nil_r.
  - destruct Hu as [Hu Hus]. simpl.
    rewrite IH; [| by apply Inv_exec | by apply InvR_exec | done |].
    + rewrite resultsOf_exec by done. by rewrite <- app_assoc.
    + destruct (jobOf_is_Some _ _ Hid) as (lj & Hj & _).
      destruct (jobs_exec_mono op σ id Hu) as [lj' Hj']; [eauto |].
      pose proof (Inv_exec op σ HI) as (I1 & _).
      unfold jobOf. rewrite Hj'. simpl. by apply (I1 id).
Qed.

Lemma InvR_twoFileStore : InvR twoFileStore.
Proof.
  apply (InvR_exec (OpCreateJob ["a.pdf"; "b.pdf"] "job-1" 10 10));
    [apply Inv_NewJobManager | apply InvR_NewJobManager].
Qed.

Lemma results_are_the_log_of_finish_calls_witness :
  resultsOf (execs mixedCalls twoFileStore) "job-1"
  = [mkDocumentResult 7 "a.pdf" 3 "error" "late" None; okResult].
Proof.
  refine (results_are_the_log_of_finish_calls mixedCalls twoFileStore "job-1"
            Inv_twoFileStore InvR_twoFileStore _ _).
  - vm_compute. repeat split.
  - vm_compute. eauto.
Defined.

(** ** What the fields of a slot say together *)

Lemma jobs_exec op σ :
  (∀ fileNames id t1 t2, op ≠ OpCreateJob fileNames id t1 t2) →
  jobs (exec op σ) = jobs σ.
Proof.
  intros Hop. pose proof (exec_touches op σ) as HT. destruct op; simpl in *;
    try (destruct (jobs σ !! id); [by destruct HT | by rewrite HT]).
  - by destruct (Hop fileNames id t1 t2).
  - unfold GetJob. destruct (jobs σ !! id) as [lj|]; [| done].
    pose proof (clone_extends (Some lj) σ) as [Hjobs _]. by destruct (clone _ _).
Qed.

Lemma filesOf_no_job σ id : jobs σ !! id = None → filesOf σ id = [].
Proof. intros H. unfold filesOf, jobOf. by rewrite H. Qed.

Lemma filesOf_CreateJob_new fileNames id t1 t2 σ :
  Inv σ → filesOf (CreateJob fileNames id t1 t2 σ).2 id = imap newFile fileNames.
Proof.
  intros HI. rewrite CreateJob_unfold.
  pose proof (filesOf_clone (Some (newLoc (jobObjs σ)))
                (withNewJob fileNames id t1 t2 σ) id
                (Inv_withNewJob fileNames id t1 t2 σ HI)) as H.
  destruct (clone _ _) as [snapshot σ4]. simpl in *. rewrite H.
  unfold filesOf. rewrite jobOf_withNewJob by done. rewrite decide_True by done.
  unfold withNewJob. simpl. by rewrite lookup_insert_eq.
Qed.

Lemma cloneFiles_resultObjs fs σ l :
  is_Some (resultObjs σ !! l) →
  resultObjs (cloneFiles fs σ).2 !! l = resultObjs σ !! l.
Proof.
  revert σ. induction fs as [|f fs IH]; intros σ Hl; [done |]. simpl.
  destruct (resultAt σ f) as [res|].
  - specialize (IH (set_resultObjs (insert (newLoc (resultObjs σ)) res) σ)).
    destruct (cloneFiles fs _) as [rest σ2] eqn:E. simpl in *.
    assert (l ≠ newLoc (resultObjs σ)) as Hne by by apply newLoc_ne.
    rewrite IH; rewrite lookup_insert_ne; done.
  - specialize (IH σ Hl). by destruct (cloneFiles fs σ) as [rest σ2] eqn:E.
Qed.

Lemma clone_resultObjs p σ l :
  is_Some (resultObjs σ !! l) → resultObjs (clone p σ).2 !! l = resultObjs σ !! l.
Proof.
  intros Hl. unfold clone. destruct p as [lj|]; [| done].
  destruct (jobObjs σ !! lj) as [job|]; [| done].
  set (files := readFiles σ (job_Files job)).
  pose proof (cloneFiles_resultObjs files σ l Hl) as F.
  destruct (cloneFiles files σ) as [fs' σ'] eqn:Ecf. simpl in F.
  destruct (0 <? length files)%nat;
    (match goal with |- context [if ?c then _ else _] => destruct c end);
    simpl; done.
Qed.

Lemma resultObjs_finish σ lj index (f : option loc → FileProgress → FileProgress) r r' :
  resultObjs
    (appendResult lj r'
       match file lj index σ with
       | Some p => let '(lr, σ') := cloneResult r σ in updFile p (f (Some lr)) σ'
       | None => σ
       end)
  = match file lj index σ with
    | Some _ => <[newLoc (resultObjs σ) := r]> (resultObjs σ)
    | None => resultObjs σ
    end.
Proof. rewrite resultObjs_appendResult. by destruct (file lj index σ). Qed.

Lemma resultObjs_set_jobObjs g σ : resultObjs (set_jobObjs g σ) = resultObjs σ.
Proof. done. Qed.

(** Result objects are allocated and never written again. *)
Lemma resultObjs_exec op σ l :
  is_Some (resultObjs σ !! l) → resultObjs (exec op σ) !! l = resultObjs σ !! l.
Proof.
  intros Hl. assert (l ≠ newLoc (resultObjs σ)) as Hne by by apply newLoc_ne.
  destruct op; simpl.
  - rewrite CreateJob_unfold.
    pose proof (clone_resultObjs (Some (newLoc (jobObjs σ)))
                  (withNewJob fileNames id t1 t2 σ) l Hl) as H.
    by destruct (clone _ _).
  - unfold GetJob. destruct (jobs σ !! id) as [lj|]; [| done].
    pose proof (clone_resultObjs (Some lj) σ l Hl) as H. by destruct (clone _ _).
  - unfold MarkProcessing, withJob. by destruct (jobs σ !! id).
  - unfold MarkCompleted, withJob. by destruct (jobs σ !! id).
  - unfold MarkFailed, withJob. by destruct (jobs σ !! id).
  - unfold MarkFileStarted, withJob. destruct (jobs σ !! id) as [lj|]; [| done].
    simpl. by destruct (file lj index σ).
  - unfold UpdateFileProgress, withJob. destruct (jobs σ !! id) as [lj|]; [| done].
    simpl. by destruct (file lj index σ).
  - unfold MarkFileComplete, withJob. destruct (jobs σ !! id) as [lj|]; [| done].
    rewrite resultObjs_set_jobObjs, (resultObjs_finish σ lj index completed).
    destruct (file lj index σ); [by rewrite lookup_insert_ne | done].
  - unfold MarkFileError, withJob. destruct (jobs σ !! id) as [lj|]; [| done].
    rewrite resultObjs_set_jobObjs,
      (resultObjs_finish σ lj index (errored (errorMessage message))).
    destruct (file lj index σ); [by rewrite lookup_insert_ne | done].
Qed.

(** The copy a finishing operation makes for a slot in range. *)
Lemma resultObjs_finish_in_range op σ id index r :
  (∃ now, op = OpMarkFileComplete id index r now)
  ∨ (∃ message now, op = OpMarkFileError id index message r now) →
  is_Some (jobs σ !! id) →
  0 ≤ index < Z.of_nat (length (filesOf σ id)) →
  resultObjs (exec op σ) !! newLoc (resultObjs σ) = Some r.
Proof.
  intros Hop [lj Hj] Hr. destruct (file_is_Some σ id lj index Hj Hr) as [p Hp].
  destruct Hop as [(now & ->)|(message & now & ->)]; simpl.
  - unfold MarkFileComplete. rewrite (withJob_Some _ _ _ _ lj Hj).
    rewrite resultObjs_set_jobObjs, (resultObjs_finish σ lj index completed), Hp.
    apply lookup_insert_eq.
  - unfold MarkFileError. rewrite (withJob_Some _ _ _ _ lj Hj).
    rewrite resultObjs_set_jobObjs,
      (resultObjs_finish σ lj index (errored (errorMessage message))), Hp.
    apply lookup_insert_eq.
Qed.

Lemma elem_of_alterAt index (g : FileProgress → FileProgress) fs f :
  f ∈ alterAt index g fs →
  f ∈ fs ∨ ∃ x, x ∈ fs ∧ f = g x ∧ 0 ≤ index < Z.of_nat (length fs).
Proof.
  unfold alterAt. destruct (index <? 0) eqn:E1; [by left |].
  destruct (index >=? Z.of_nat (length fs)) eqn:E2; [by left |]. simpl.
  intros (k & Hk)%list_elem_of_lookup.
  destruct (decide (k = Z.to_nat index)) as [->|Hne].
  - rewrite list_lookup_alter_eq in Hk.
    destruct (fs !! Z.to_nat index) as [x|] eqn:Hx; [| done].
    injection Hk as <-. right. exists x. split_and!; [| done | lia | lia].
    by apply list_elem_of_lookup_2 in Hx.
  - rewrite list_lookup_alter_ne in Hk by done. left.
    by apply list_elem_of_lookup_2 in Hk.
Qed.

Lemma slotOk_mono σ σ' f :
  (∀ l, is_Some (resultObjs σ !! l) → resultObjs σ' !! l = resultObjs σ !! l) →
  slotOk σ f → slotOk σ' f.
Proof.
  intros Hmono (S1 & S2 & S3 & S4 & S5 & S6).
  assert (is_Some (resultAt σ f) → is_Some (resultAt σ' f)) as Hres.
  { unfold resultAt. destruct (fp_Result f) as [lr|]; simpl; [| done].
    intros H. rewrite Hmono; done. }
  refine (conj S1 (conj S2 (conj S3 (conj _ (conj _ _))))).
  - intros H. destruct (S4 H) as (? & ? & ? & ? & ?). repeat split; try done.
    by apply Hres.
  - intros H. destruct (S5 H) as (? & ? & ? & ?). repeat split; try done.
    by apply Hres.
  - intros lr Hlr. rewrite Hmono; by apply S6.
Qed.

Lemma slotOk_newFile σ i name : slotOk σ (newFile i name).
Proof.
  unfold slotOk, newFile. simpl.
  refine (conj _ (conj _ (conj _ (conj _ (conj _ _))))); try done; try lia; eauto.
Qed.

Lemma slotOk_slotEffect op σ id f :
  Inv σ → uniqueId op σ → intArgs op → is_Some (jobs σ !! id) →
  (∀ x, x ∈ filesOf σ id → slotOk σ x) →
  f ∈ slotEffect σ id op (filesOf σ id) → slotOk (exec op σ) f.
Proof.
  intros HI Hu Hint Hid Hall Hf.
  pose proof (λ x Hx, slotOk_mono σ (exec op σ) x (resultObjs_exec op σ) (Hall x Hx))
    as Hold.
  assert (∀ x lr, x ∈ filesOf σ id → fp_Result x = Some lr →
            is_Some (resultObjs (exec op σ) !! lr)) as Hptr.
  { intros x lr Hx Hlr. destruct (Hold x Hx) as (_ & _ & _ & _ & _ & S6). by apply S6. }
  destruct op; simpl in Hf; try (by apply Hold);
    (case_decide as Hi; [subst id0 | by apply Hold]);
    apply elem_of_alterAt in Hf as [Hf|(x & Hx & -> & Hr)]; try (by apply Hold).
  - unfold slotOk, started. simpl.
    refine (conj _ (conj _ (conj _ (conj _ (conj _ _))))); try done; try lia; eauto.
  - unfold slotOk, progressed. simpl. destruct Hint as [Hc Ht].
    refine (conj _ (conj _ (conj _ (conj _ (conj _ _))))); try done; eauto.
    by apply percent_range.
  - assert (resultObjs (exec (OpMarkFileComplete id index result0 now) σ)
              !! newLoc (resultObjs σ) = Some result0) as Hnew.
    { apply (resultObjs_finish_in_range _ σ id index); eauto. }
    unfold slotOk, completed, resultAt. simpl in *. rewrite Hnew.
    refine (conj _ (conj _ (conj _ (conj _ (conj _ _))))); try done; try lia; eauto.
    intros lr [= <-]. eauto.
  - assert (resultObjs (exec (OpMarkFileError id index message result0 now) σ)
              !! newLoc (resultObjs σ) = Some result0) as Hnew.
    { apply (resultObjs_finish_in_range _ σ id index); eauto. }
    assert (errorMessage message ≠ "") as Hmsg.
    { unfold errorMessage. by case_decide. }
    unfold slotOk, errored, resultAt. simpl in *. rewrite Hnew.
    refine (conj _ (conj _ (conj _ (conj _ (conj _ _))))); try done; try lia;
      eauto 6.
    intros lr [= <-]. eauto.
Qed.

Lemma slotsOk_exec op σ :
  Inv σ → uniqueId op σ → intArgs op → slotsOk σ → slotsOk (exec op σ).
Proof.
  intros HI Hu Hint Hall id f Hf.
  destruct (jobs σ !! id) as [lj|] eqn:Hj.
  - rewrite filesOf_exec in Hf by eauto.
    apply (slotOk_slotEffect op σ id); eauto.
  - destruct op;
      try (rewrite filesOf_no_job in Hf; [by apply elem_of_nil in Hf |];
           rewrite jobs_exec; [done | by intros]).
    simpl in Hf |- *. destruct (decide (id = id0)) as [->|Hne].
    + rewrite filesOf_CreateJob_new in Hf by done.
      apply elem_of_lookup_imap in Hf as (i & name & -> & _). apply slotOk_newFile.
    + rewrite filesOf_CreateJob, filesOf_no_job in Hf by done.
      by apply elem_of_nil in Hf.
Qed.

Lemma slotsOk_NewJobManager : slotsOk NewJobManager.
Proof. intros id f Hf. rewrite filesOf_no_job in Hf by done. by apply elem_of_nil in Hf. Qed.

Lemma reachable_invariants σ : reachable σ → Inv σ ∧ InvR σ ∧ slotsOk σ.
Proof.
  induction 1 as [|op σ _ (HI & HR & HS) Hu Hint].
  - split_and!; [apply Inv_NewJobManager | apply InvR_NewJobManager
                 | apply slotsOk_NewJobManager].
  - split_and!; [by apply Inv_exec | by apply InvR_exec | by apply slotsOk_exec].
Qed.

(** In every store the program can reach, every slot of every job is
    consistent: [Percent] is between 0 and 100; the status is one of the
    four constants; a [pending] slot has never been written (empty
    texts, zero counters, no result); a [complete] slot stands at
    100/100, 100 percent, has no error text and points to a result; an
    [error] slot stands at 100 percent, has a non-empty error text that
    is also its message, and points to a result; and a result pointer
    of a slot never dangles. *)
Theorem reachable_slots_are_consistent σ id f :
  reachable σ → f ∈ filesOf σ id → slotOk σ f.
Proof. intros (_ & _ & HS)%reachable_invariants. apply HS. Qed.

Lemma reachable_twoFileStore : reachable twoFileStore.
Proof.
  apply (reachable_step (OpCreateJob ["a.pdf"; "b.pdf"] "job-1" 10 10) NewJobManager);
    [apply reachable_new | done | done].
Qed.

Lemma reachable_firstFileDone : reachable firstFileDone.
Proof.
  apply (reachable_step (OpMarkFileComplete "job-1" 0 okResult 30) twoFileStore);
    [apply reachable_twoFileStore | done | done].
Qed.

Lemma reachable_slots_are_consistent_witness :
  ∃ f, filesOf firstFileDone "job-1" !! 0%nat = Some f
       ∧ fp_Status f = FileStatusComplete
       ∧ slotOk firstFileDone f.
Proof.
  eexists. split; [vm_compute; reflexivity |]. split; [reflexivity |].
  apply (reachable_slots_are_consistent firstFileDone "job-1" _ reachable_firstFileDone).
  apply (list_elem_of_lookup_2 _ 0%nat). vm_compute. reflexivity.
Defined.

(** ** The job record under every operation *)

Lemma jobObjs_appendResult lj r σ job :
  jobObjs σ !! lj = Some job →
  ∃ res, jobObjs (appendResult lj r σ) !! lj = Some (job_with_Results res job).
Proof.
  intros Hjob. unfold appendResult. rewrite Hjob.
  destruct (job_Results job) as [la|] eqn:Hr.
  - exists (Some la). simpl. rewrite Hjob. f_equal. destruct job. simpl in *. by subst.
  - eexists. unfold updJob. simpl. by rewrite lookup_alter_eq, Hjob.
Qed.

(** Every operation that goes through [withJob] and finds its job sets
    [UpdatedAt] to the clock reading, also when the slot index is out of
    range and nothing else happens.  [ID], [CreatedAt] and the [Files]
    slice of the record never change; the status changes only under
    [MarkProcessing], [MarkCompleted] and [MarkFailed], and the error
    text only under [MarkFailed], which stores the message trimmed: in
    particular [MarkCompleted] after [MarkFailed] gives a job that is
    [complete] and still carries the error text. *)
Theorem job_record_after_a_call op σ id now job :
  target op = Some id → stamp op = Some now → jobOf σ id = Some job →
  ∃ job', jobOf (exec op σ) id = Some job'
          ∧ job_UpdatedAt job' = now
          ∧ job_ID job' = job_ID job
          ∧ job_CreatedAt job' = job_CreatedAt job
          ∧ job_Files job' = job_Files job
          ∧ (job_Status job', job_Error job') = statusAfter op job.
Proof.
  intros Ht Hs Hjob.
  assert (is_Some (jobOf σ id)) as (lj & Hj & _)%jobOf_is_Some by eauto.
  assert (jobObjs σ !! lj = Some job) as Hobj.
  { unfold jobOf in Hjob. by rewrite Hj in Hjob. }
  assert (∀ fn job1,
            jobs (fn lj σ) = jobs σ → jobObjs (fn lj σ) !! lj = Some job1 →
            jobOf (withJob id fn now σ) id = Some (job_with_UpdatedAt now job1)) as Hwith.
  { intros fn job1 Hjobs H1. rewrite (jobOf_withJob _ _ _ _ lj Hj Hjobs).
    unfold jobOf. rewrite Hjobs, Hj. simpl. by rewrite H1. }
  destruct op; simpl in Ht, Hs; try done;
    injection Ht as ->; injection Hs as ->; simpl.
  - eexists. split; [apply Hwith; [done |] |].
    + unfold updJob. simpl. by rewrite lookup_alter_eq, Hobj.
    + done.
  - eexists. split; [apply Hwith; [done |] |].
    + unfold updJob. simpl. by rewrite lookup_alter_eq, Hobj.
    + done.
  - eexists. split; [apply Hwith; [done |] |].
    + unfold updJob. simpl. by rewrite !lookup_alter_eq, Hobj.
    + done.
  - eexists. split; [apply Hwith |].
    + by destruct (file lj index σ).
    + destruct (file lj index σ); exact Hobj.
    + done.
  - eexists. split; [apply Hwith |].
    + by destruct (file lj index σ).
    + destruct (file lj index σ); exact Hobj.
    + done.
  - destruct (jobObjs_appendResult lj result0
                match file lj index σ with
                | Some p => let '(lr, σ') := cloneResult result0 σ in
                            updFile p (completed (Some lr)) σ'
                | None => σ
                end job) as [res Hres].
    { by rewrite (jobObjs_finish σ lj index completed). }
    eexists. split; [apply Hwith; [| exact Hres] |].
    + by rewrite jobs_appendResult, (jobs_finish σ lj index completed).
    + done.
  - destruct (jobObjs_appendResult lj (forcedError (errorMessage message) result0)
                match file lj index σ with
                | Some p => let '(lr, σ') := cloneResult result0 σ in
                            updFile p (errored (errorMessage message) (Some lr)) σ'
                | None => σ
                end job) as [res Hres].
    { by rewrite (jobObjs_finish σ lj index (errored (errorMessage message))). }
    eexists. split; [apply Hwith; [| exact Hres] |].
    + by rewrite jobs_appendResult,
        (jobs_finish σ lj index (errored (errorMessage message))).
    + done.
Qed.

Lemma job_record_after_a_call_witness :
  ∃ job job',
    jobOf failedStore "job-1" = Some job
    ∧ jobOf (exec (OpMarkCompleted "job-1" 50) failedStore) "job-1" = Some job'
    ∧ job_UpdatedAt job' = 50
    ∧ (job_Status job', job_Error job') = (JobStatusComplete, "disk full").
Proof.
  eexists. 
  destruct (job_record_after_a_call (OpMarkCompleted "job-1" 50) failedStore "job-1" 50 _
              eq_refl eq_refl eq_refl) as (job' & H1 & H2 & _ & _ & _ & H3).
  exists job'. split; [vm_compute; reflexivity |]. split; [exact H1 |].
  split; [exact H2 |]. exact H3.
Defined.

(** ** Jobs do not interfere *)

Lemma jobOf_clone p σ id : Inv σ → jobOf (clone p σ).2 id = jobOf σ id.
Proof.
  intros HI. destruct (clone_extends p σ) as [Hjobs Hext]. by apply extends_jobOf.
Qed.

(** A call leaves every job it is not addressed to as it was: the job
    record with its time stamps, the slots and the result sequence.
    This holds for [CreateJob] (given a new id), for [GetJob] on any
    job, and for every other operation addressed to another id, known
    or not. *)
Theorem calls_do_not_reach_other_jobs op σ id :
  Inv σ → InvR σ → uniqueId op σ → is_Some (jobs σ !! id) →
  target op ≠ Some id ∨ stamp op = None →
  jobOf (exec op σ) id = jobOf σ id
  ∧ filesOf (exec op σ) id = filesOf σ id
  ∧ resultsOf (exec op σ) id = resultsOf σ id.
Proof.
  intros HI HR Hu Hid Hop.
  assert (is_Some (jobOf σ id)) as Hjob.
  { destruct Hid as [lj Hj]. destruct HI as (I1 & _).
    unfold jobOf. rewrite Hj. simpl. by apply (I1 id). }
  split; [| split].
  - destruct (stamp op) as [now|] eqn:Hs.
    + destruct Hop as [Hop|]; [| done].
      destruct (target op) as [id'|] eqn:Ht; [| by destruct op].
      destruct (jobs σ !! id') as [lj'|] eqn:Hj'.
      * apply (jobOf_touchesR_other σ _ id id' lj'); try done; [congruence |].
        apply (exec_touchesR op σ id' lj'); try done. by rewrite Hs.
      * pose proof (exec_touches op σ) as HT.
        destruct op; simpl in Ht, Hs; try done; injection Ht as ->; simpl in HT |- *;
          rewrite Hj' in HT; by rewrite HT.
    + destruct op; simpl in Hs; try done; simpl.
      * rewrite CreateJob_unfold.
        pose proof (jobOf_clone (Some (newLoc (jobObjs σ)))
                      (withNewJob fileNames id0 t1 t2 σ) id
                      (Inv_withNewJob fileNames id0 t1 t2 σ HI)) as H.
        destruct (clone _ _) as [s σ4]. simpl in *. rewrite H.
        rewrite jobOf_withNewJob by done. case_decide; [| done].
        subst. rewrite Hu in Hid. by destruct Hid.
      * unfold GetJob. destruct (jobs σ !! id0) as [lj0|]; [| done].
        pose proof (jobOf_clone (Some lj0) σ id HI) as H. by destruct (clone _ _).
  - rewrite filesOf_exec by done.
    destruct op; simpl in *; try done; case_decide; try done; subst;
      by destruct Hop.
  - rewrite resultsOf_exec by done.
    destruct op; simpl in *; rewrite ?app_nil_r; try done; case_decide;
      rewrite ?app_nil_r; try done; subst; by destruct Hop.
Qed.

Lemma calls_do_not_reach_other_jobs_witness :
  let σ := exec (OpCreateJob ["c.pdf"] "job-2" 30 30) twoFileStore in
  let op := OpMarkFileComplete "job-2" 0 okResult 60 in
  jobOf (exec op σ) "job-1" = jobOf σ "job-1"
  ∧ filesOf (exec op σ) "job-1" = filesOf σ "job-1"
  ∧ resultsOf (exec op σ) "job-1" = resultsOf σ "job-1".
Proof.
  intros σ op.
  refine (calls_do_not_reach_other_jobs op σ "job-1" _ _ I _ _).
  - apply Inv_exec, Inv_twoFileStore.
  - apply InvR_exec; [apply Inv_twoFileStore | apply InvR_twoFileStore].
  - vm_compute. eauto.
  - left. simpl. discriminate.
Defined.

(** ** GetJob *)





(** ** The results the harness records *)

Lemma resultsOf_withJob_neutral id fn now σ id' :
  (∀ lj, resultsOf (fn lj σ) id' = resultsOf σ id') →
  resultsOf (withJob id fn now σ) id' = resultsOf σ id'.
Proof.
  intros Hfn. unfold withJob. destruct (jobs σ !! id) as [lj|]; [| done].
  by rewrite resultsOf_alter_job.
Qed.

Lemma resultsOf_MarkFileStarted id index now σ id' :
  resultsOf (MarkFileStarted id index now σ) id' = resultsOf σ id'.
Proof. apply resultsOf_withJob_neutral. intros lj. by destruct (file lj index σ). Qed.

Lemma resultsOf_UpdateFileProgress id index step message current total now σ id' :
  resultsOf (UpdateFileProgress id index step message current total now σ) id'
  = resultsOf σ id'.
Proof. apply resultsOf_withJob_neutral. intros lj. by destruct (file lj index σ). Qed.

Lemma resultsOf_set_status id status now σ id' :
  resultsOf (withJob id (λ lj, updJob lj (job_with_Status status)) now σ) id'
  = resultsOf σ id'.
Proof.
  apply resultsOf_withJob_neutral. intros lj. unfold updJob.
  by rewrite resultsOf_alter_job.
Qed.

Lemma is_Some_jobOf_jobHead σ σ' id :
  jobHead <$> jobOf σ' id = jobHead <$> jobOf σ id →
  is_Some (jobOf σ id) → is_Some (jobOf σ' id).
Proof. intros H. rewrite <- !(fmap_is_Some jobHead). by rewrite H. Qed.

Lemma progress_events_results clock jobID (idx : nat) events s :
  let s' :=
    foldl (λ s ev,
             call clock (UpdateFileProgress jobID (Z.of_nat idx) (ev_step ev)
                           (ev_message ev) (ev_current ev) (ev_total ev)) s)
          s events in
  resultsOf s'.1 jobID = resultsOf s.1 jobID
  ∧ (is_Some (jobOf s.1 jobID) → is_Some (jobOf s'.1 jobID)).
Proof.
  revert s. induction events as [|ev events IH]; intros s; [done |].
  cbn [foldl].
  set (s1 := call clock (UpdateFileProgress jobID (Z.of_nat idx) (ev_step ev)
                           (ev_message ev) (ev_current ev) (ev_total ev)) s).
  destruct (IH s1) as (H1 & H2).
  assert (s1.1 = UpdateFileProgress jobID (Z.of_nat idx) (ev_step ev)
                   (ev_message ev) (ev_current ev) (ev_total ev) (clock s.2) s.1)
    as E by reflexivity.
  rewrite E in H1, H2. cbv zeta. split.
  - by rewrite H1, resultsOf_UpdateFileProgress.
  - intros Hs. apply H2. revert Hs. apply is_Some_jobOf_jobHead.
    apply jobHead_UpdateFileProgress.
Qed.

Lemma processFile_results clock jobID docType (idx : nat) fh s :
  is_Some (jobOf s.1 jobID) →
  let s' := processFile clock jobID docType idx fh s in
  resultsOf s'.1 jobID = (resultsOf s.1 jobID ++ [harnessResult docType fh])%list
  ∧ is_Some (jobOf s'.1 jobID).
Proof.
  intros Hjob. unfold processFile, harnessResult.
  destruct (processDocument fh docType) as [[events r] err]. simpl.
  set (s1 := call clock (MarkFileStarted jobID (Z.of_nat idx)) s).
  destruct (progress_events_results clock jobID idx events s1) as (P1 & P2).
  set (s2 := foldl _ s1 events) in *.
  assert (is_Some (jobOf s2.1 jobID)) as Hjob2.
  { apply P2. revert Hjob. apply is_Some_jobOf_jobHead. apply jobHead_MarkFileStarted. }
  assert (resultsOf s2.1 jobID = resultsOf s.1 jobID) as H1.
  { rewrite P1. apply resultsOf_MarkFileStarted. }
  destruct err as [e|]; unfold call; simpl.
  - rewrite resultsOf_MarkFileError, H1 by done. split; [done |].
    revert Hjob2. apply is_Some_jobOf_jobHead, jobHead_MarkFileError.
  - rewrite resultsOf_MarkFileComplete, H1 by done. split; [done |].
    revert Hjob2. apply is_Some_jobOf_jobHead, jobHead_MarkFileComplete.
Qed.

Lemma fileLoop_results clock jobID docType files (idx : nat) s :
  is_Some (jobOf s.1 jobID) →
  let s' := fileLoop clock jobID docType idx files s in
  resultsOf s'.1 jobID = (resultsOf s.1 jobID ++ (harnessResult docType <$> files))%list.
Proof.
  revert idx s. induction files as [|fh files IH]; intros idx s Hjob.
  - simpl. by rewrite app_nil_r.
  - cbn [fileLoop]. cbv zeta.
    destruct (processFile_results clock jobID docType idx fh s Hjob) as [Q1 Q2].
    rewrite (IH (S idx) _ Q2), Q1. by rewrite <- app_assoc.
Qed.

(** The harness leaves exactly one result per uploaded file in the
    result sequence of the job, in the order of the files, after the
    results that were there: the result of [processDocument] for a file
    that went through, with status "ok", and for a file that failed the
    same result with status [error] and a non-empty message.  Each
    result carries the name of its file.  This does not depend on the
    job having a slot for the file. *)
Theorem runUploadJob_records_one_result_per_file clock jobID docType files σ n :
  is_Some (jobOf σ jobID) →
  let σ' := (runUploadJob clock jobID docType files (σ, n)).1 in
  resultsOf σ' jobID = (resultsOf σ jobID ++ (harnessResult docType <$> files))%list
  ∧ ∀ fh, dr_Name (harnessResult docType fh) = fh_Filename fh
          ∧ match (processDocument fh docType).2 with
            | None => dr_Status (harnessResult docType fh) = "ok"
            | Some _ => dr_Status (harnessResult docType fh) = FileStatusError
                        ∧ dr_Message (harnessResult docType fh) ≠ ""
            end.
Proof.
  intros Hjob. cbv zeta. split.
  - unfold runUploadJob.
    set (s1 := call clock (MarkProcessing jobID) (σ, n)).
    assert (resultsOf s1.1 jobID = resultsOf σ jobID) as H1.
    { unfold s1, call, MarkProcessing. simpl. apply resultsOf_set_status. }
    assert (is_Some (jobOf s1.1 jobID)) as Hjob1.
    { rewrite <- (fmap_is_Some jobHead). unfold s1, call. simpl.
      unfold MarkProcessing. rewrite jobOf_set_status by done.
      by rewrite fmap_is_Some. }
    pose proof (fileLoop_results clock jobID docType files 0 s1 Hjob1) as H2.
    cbv zeta in H2. unfold call, MarkCompleted. cbn [fst snd].
    by rewrite resultsOf_set_status, H2, H1.
  - intros fh. unfold harnessResult.
    assert (∀ e, errorMessage e ≠ "") as Hmsg.
    { intros e. unfold errorMessage. by case_decide. }
    assert (∀ m r, dr_Message (forcedError (errorMessage m) r) ≠ "") as Hforced.
    { intros m r. unfold forcedError. case_decide as Hd; [apply Hmsg | done]. }
    assert (∀ m r, dr_Name (forcedError m r) = dr_Name r
                   ∧ dr_Status (forcedError m r) = FileStatusError) as Hname.
    { intros m r. unfold forcedError. by case_decide. }
    assert (dr_Name (processDocument fh docType).1.2 = fh_Filename fh
            ∧ ((processDocument fh docType).2 = None →
               dr_Status (processDocument fh docType).1.2 = "ok")) as [Hn Hok].
    { unfold processDocument. destruct (fh_Open fh); [done |].
      destruct (fh_Create fh) as [|[docID pageCount]]; [done |].
      case_decide; [| done]. by destruct (fh_Ingest fh) as [payload [e|]]. }
    fold (processDocument fh docType).
    destruct (processDocument fh docType) as [[events r] [e|]]; simpl in *.
    + destruct (Hname (errorMessage e) r) as [-> ->]. split; [done |].
      split; [done | apply Hforced].
    + split; [done | by apply Hok].
Qed.

Lemma runUploadJob_records_one_result_per_file_witness :
  let σ' := (runUploadJob Z.of_nat "job-1" DocumentExam [brokenFile; goodFile]
               (twoFileStore, 0%nat)).1 in
  resultsOf σ' "job-1"
  = [mkDocumentResult 0 "a.pdf" 0 "error" "no pages extracted from pdf" None;
     mkDocumentResult 7 "b.pdf" 3 "ok" "" (Some 1%positive)].
Proof.
  assert (is_Some (jobOf twoFileStore "job-1")) as H1 by (vm_compute; eauto).
  exact (proj1 (runUploadJob_records_one_result_per_file Z.of_nat "job-1" DocumentExam
                  [brokenFile; goodFile] twoFileStore 0 H1)).
Defined.

(** * Further properties of the Analysis Client *)

Local Ltac retry_step :=
  cbn [retryLoop Nat.ltb Nat.leb tr_calls tr_sleeps fst snd].

(** Whatever the remote endpoint does, one call of
    [AnalyzeMultipleImages] sends at most three requests and pauses at
    most twice, 2 s and then 4 s, so never more than 6 s in all; there
    is never a request after the first without a pause before it. *)
Theorem AnalyzeMultipleImages_stays_in_budget remote :
  let tr := (AnalyzeMultipleImages remote).2 in
  (tr_calls tr ≤ 3)%nat
  ∧ tr_sleeps tr `prefix_of` allPauses
  ∧ (tr_calls tr ≤ S (length (tr_sleeps tr)))%nat
  ∧ foldr Z.add 0 (tr_sleeps tr) ≤ 6 * Second.
Proof.
  unfold AnalyzeMultipleImages, maxRetries, allPauses. retry_step.
  assert ([] `prefix_of` [1 * 2 * Second; 2 * 2 * Second]) as P0
    by (by eexists).
  assert ([1 * 2 * Second] `prefix_of` [1 * 2 * Second; 2 * 2 * Second]) as P1
    by (by exists [2 * 2 * Second]).
  assert ([1 * 2 * Second; 2 * 2 * Second]
            `prefix_of` [1 * 2 * Second; 2 * 2 * Second]) as P2
    by (by exists []).
  destruct (tryOnce 0 (remote 0%nat)); retry_step;
    [destruct (callsRemote (remote 0%nat)); simpl; split_and!; try done; try lia;
     unfold Second; lia .. |].
  destruct (tryOnce 1 (remote 1%nat)); retry_step;
    [destruct (callsRemote (remote 0%nat)), (callsRemote (remote 1%nat)); simpl;
     split_and!; try done; try lia; unfold Second; lia .. |].
  destruct (tryOnce 2 (remote 2%nat)); retry_step;
    destruct (callsRemote (remote 0%nat)), (callsRemote (remote 1%nat)),
      (callsRemote (remote 2%nat)); simpl; split_and!; try done; try lia;
    unfold Second; lia.
Qed.

Lemma retriable_not_success attempt a text :
  retriable attempt a → ¬ succeedsWith text a.
Proof.
  intros [e He] Hs. pose proof (tryOnce_succeedsWith attempt a text Hs). congruence.
Qed.

(** [AnalyzeMultipleImages] returns a text exactly when one of the first
    three attempts gets a response with status 200 and a non-empty first
    choice, every attempt before it having failed in a way that is
    retried; the text returned is that first choice, and it is never
    empty. *)
Theorem AnalyzeMultipleImages_succeeds_iff remote text :
  (AnalyzeMultipleImages remote).1 = inl text
  ↔ ∃ k, (k ≤ 2)%nat ∧ succeedsWith text (remote k)
         ∧ ∀ j, (j < k)%nat → retriable j (remote j).
Proof.
  unfold AnalyzeMultipleImages, maxRetries. split.
  - retry_step. destruct (tryOnce 0 (remote 0%nat)) as [t0|e0|e0] eqn:H0; retry_step.
    { intros [= ->]. exists 0%nat. split; [lia |].
      split; [by apply (tryOnce_Success_inv 0) | intros j Hj; lia]. }
    { done. }
    destruct (tryOnce 1 (remote 1%nat)) as [t1|e1|e1] eqn:H1; retry_step.
    { intros [= ->]. exists 1%nat. split; [lia |].
      split; [by apply (tryOnce_Success_inv 1) |].
      intros j Hj. assert (j = 0%nat) as -> by lia. by exists e0. }
    { done. }
    destruct (tryOnce 2 (remote 2%nat)) as [t2|e2|e2] eqn:H2; retry_step; try done.
    intros [= ->]. exists 2%nat. split; [lia |].
    split; [by apply (tryOnce_Success_inv 2) |].
    intros j Hj. assert (j = 0 ∨ j = 1)%nat as [-> | ->] by lia; by eexists.
  - intros (k & Hk & Hs & Hbefore).
    pose proof (tryOnce_succeedsWith k _ _ Hs) as Hsucc.
    assert (k = 0 ∨ k = 1 ∨ k = 2)%nat as [-> | [-> | ->]] by lia.
    + retry_step. by rewrite Hsucc.
    + destruct (Hbefore 0%nat) as [e0 H0]; [lia |].
      retry_step. rewrite H0. retry_step. by rewrite Hsucc.
    + destruct (Hbefore 0%nat) as [e0 H0]; [lia |].
      destruct (Hbefore 1%nat) as [e1 H1]; [lia |].
      retry_step. rewrite H0. retry_step. rewrite H1. retry_step. by rewrite Hsucc.
Qed.

(** When all three attempts fail in a way that is retried, the call
    gives up after the third: it has paused 2 s and 4 s, and the error it
    returns is that of the third attempt behind the words "vision api
    failed after 3 attempts"; the errors of the first two attempts are
    lost. *)
Theorem AnalyzeMultipleImages_gives_up_after_three remote :
  (∀ j, (j ≤ 2)%nat → retriable j (remote j)) →
  ∃ err, tryOnce 2 (remote 2%nat) = Retry err
         ∧ (AnalyzeMultipleImages remote).1
           = inr ("vision api failed after 3 attempts: " ++ err)
         ∧ tr_sleeps (AnalyzeMultipleImages remote).2 = allPauses
         ∧ (tr_calls (AnalyzeMultipleImages remote).2 ≤ 3)%nat.
Proof.
  intros Hall.
  destruct (Hall 0%nat) as [e0 H0]; [lia |].
  destruct (Hall 1%nat) as [e1 H1]; [lia |].
  destruct (Hall 2%nat) as [e2 H2]; [lia |].
  exists e2. split; [done |].
  unfold AnalyzeMultipleImages, maxRetries. retry_step.
  rewrite H0. retry_step. rewrite H1. retry_step. rewrite H2. retry_step.
  split; [done |]. split.
  - by destruct (callsRemote (remote 0%nat)), (callsRemote (remote 1%nat)),
      (callsRemote (remote 2%nat)).
  - destruct (callsRemote (remote 0%nat)), (callsRemote (remote 1%nat)),
      (callsRemote (remote 2%nat)); simpl; lia.
Qed.

Lemma AnalyzeMultipleImages_gives_up_after_three_witness :
  ∃ err, (AnalyzeMultipleImages alwaysDown).1
         = inr ("vision api failed after 3 attempts: " ++ err)
         ∧ tr_sleeps (AnalyzeMultipleImages alwaysDown).2 = allPauses.
Proof.
  assert (∀ j, (j ≤ 2)%nat → retriable j (alwaysDown j)) as H.
  { intros j _. eexists. vm_compute. reflexivity. }
  destruct (AnalyzeMultipleImages_gives_up_after_three alwaysDown H)
    as (err & _ & H1 & H2 & _).
  exists err. split; [exact H1 | exact H2].
Defined.

(** ** [AnalyzeImages] and [AnalyzeImagesWithProgress] *)

Lemma sent_0 remotes i uris : sent remotes i 0 uris = [].
Proof. done. Qed.

Lemma sent_S remotes i n u uris :
  sent remotes i (S n) (u :: uris)
  = (u, (AnalyzeImage (remotes i)).2) :: sent remotes (S i) n uris.
Proof.
  unfold sent. simpl. rewrite Nat.add_0_r. f_equal.
  apply imap_ext. intros j x _. simpl.
  by replace (i + S j)%nat with (S (i + j)) by lia.
Qed.

Lemma analyzeImagesLoop_spec ctxErr remotes texts uris :
  ∀ i results log k,
    (k ≤ length uris)%nat →
    (∀ j, (j < k)%nat →
       ctxErr (i + j)%nat = None
       ∧ (AnalyzeImage (remotes (i + j)%nat)).1 = inl (texts (i + j)%nat)) →
    let run := analyzeImagesLoop ctxErr remotes i uris results log in
    (k = length uris →
       run = (inl (results ++ (texts <$> seq i k))%list, (log ++ sent remotes i k uris)%list))
    ∧ (∀ e, (k < length uris)%nat → ctxErr (i + k)%nat = Some e →
         run = (inr e, (log ++ sent remotes i k uris)%list))
    ∧ (∀ err, (k < length uris)%nat → ctxErr (i + k)%nat = None →
         (AnalyzeImage (remotes (i + k)%nat)).1 = inr err →
         run = (inr ("analyze image " ++ pretty (Z.of_nat (i + k) + 1) ++ ": " ++ err),
                (log ++ sent remotes i (S k) uris)%list)).
Proof.
  induction uris as [|u uris IH]; intros i results log k Hk Hok.
  - simpl in Hk. assert (k = 0%nat) as -> by lia. simpl.
    split_and!; [by rewrite !app_nil_r | intros; lia | intros; lia].
  - destruct k as [|k].
    + rewrite Nat.add_0_r. cbn [analyzeImagesLoop]. cbv zeta. split_and!.
      * done.
      * intros e _ ->. by rewrite sent_0, app_nil_r.
      * intros err _ -> Herr. rewrite sent_S, sent_0.
        destruct (AnalyzeImage (remotes i)) as [answer tr]. simpl in Herr. by subst.
    + destruct (Hok 0%nat) as [Hc Ha]; [lia |]. rewrite Nat.add_0_r in Hc, Ha.
      simpl in Hk.
      destruct (IH (S i) (results ++ [texts i])%list
                  (log ++ [(u, (AnalyzeImage (remotes i)).2)])%list k) as (I1 & I2 & I3);
        [lia | |].
      { intros j Hj. replace (S i + j)%nat with (i + S j)%nat by lia. apply Hok. lia. }
      cbn [analyzeImagesLoop]. rewrite Hc.
      destruct (AnalyzeImage (remotes i)) as [answer tr] eqn:E. simpl in Ha. subst.
      rewrite sent_S, E. cbn [snd] in *.
      replace (i + S k)%nat with (S i + k)%nat by lia.
      split_and!.
      * intros [= Hlen]. rewrite I1 by done. simpl. by rewrite <- !app_assoc.
      * intros e Hlt He. simpl in Hlt. rewrite (I2 e); [| lia | done].
        by rewrite <- !app_assoc.
      * intros err Hlt Hc' Herr. simpl in Hlt. rewrite (I3 err); [| lia | done | done].
        rewrite (sent_S remotes i (S k)), E. cbn [snd].
        by rewrite <- !app_assoc.
Qed.

(** [AnalyzeImages] works through the images in order and stops at the
    first one it cannot do.  With [k] the number of images that go
    through before that: when [k] is the number of images, it returns
    their [k] texts in order; when the context is done as image [k]
    (from 0) comes up, it returns the error of the context and image [k]
    has not been sent; when the call for image [k] fails, it returns
    that error behind "analyze image k+1".  In each case the images
    sent are the first ones of the list, in order, once each, and no
    image after a failure is sent; the texts got so far are dropped. *)
Theorem AnalyzeImages_stops_at_first_failure ctxErr remotes texts uris k :
  (k ≤ length uris)%nat →
  (∀ j, (j < k)%nat →
     ctxErr j = None ∧ (AnalyzeImage (remotes j)).1 = inl (texts j)) →
  (k = length uris →
     AnalyzeImages ctxErr remotes uris = (inl (texts <$> seq 0 k), sent remotes 0 k uris))
  ∧ (∀ e, (k < length uris)%nat → ctxErr k = Some e →
       AnalyzeImages ctxErr remotes uris = (inr e, sent remotes 0 k uris))
  ∧ (∀ err, (k < length uris)%nat → ctxErr k = None →
       (AnalyzeImage (remotes k)).1 = inr err →
       AnalyzeImages ctxErr remotes uris
       = (inr ("analyze image " ++ pretty (Z.of_nat k + 1) ++ ": " ++ err),
          sent remotes 0 (S k) uris)).
Proof.
  intros Hk Hok.
  exact (analyzeImagesLoop_spec ctxErr remotes texts uris 0 [] [] k Hk Hok).
Qed.

Lemma AnalyzeImages_stops_at_first_failure_witness :
  ∃ err, AnalyzeImages (λ _, None) secondFails ["img-a"; "img-b"; "img-c"]
         = (inr ("analyze image 2: " ++ err),
            sent secondFails 0 2 ["img-a"; "img-b"; "img-c"]).
Proof.
  eexists.
  refine (proj2 (proj2 (AnalyzeImages_stops_at_first_failure (λ _, None) secondFails
                          (λ i, "page " ++ pretty (Z.of_nat i + 1))
                          ["img-a"; "img-b"; "img-c"] 1 _ _)) _ _ eq_refl _).
  - simpl. lia.
  - intros j Hj. assert (j = 0%nat) as -> by lia. split; vm_compute; reflexivity.
  - simpl. lia.
  - vm_compute. reflexivity.
Defined.

Lemma reported_S progressFn texts total i n :
  reported progressFn texts total i (S n)
  = ((if progressFn then [mkPageProgress (Z.of_nat i + 1) total (texts i)] else [])
       ++ reported progressFn texts total (S i) n)%list.
Proof. unfold reported. by destruct progressFn. Qed.

Lemma analyzeImagesWithProgressLoop_spec ctxErr remotes progressFn total texts uris :
  ∀ i results log calls k,
    (k ≤ length uris)%nat →
    (∀ j, (j < k)%nat →
       ctxErr (i + j)%nat = None
       ∧ (AnalyzeImage (remotes (i + j)%nat)).1 = inl (texts (i + j)%nat)) →
    let run :=
      analyzeImagesWithProgressLoop ctxErr remotes progressFn total i uris
        results log calls in
    let calls' := (calls ++ reported progressFn texts total i k)%list in
    (k = length uris →
       run = (inl (results ++ (texts <$> seq i k))%list,
              (log ++ sent remotes i k uris)%list, calls'))
    ∧ (∀ e, (k < length uris)%nat → ctxErr (i + k)%nat = Some e →
         run = (inr e, (log ++ sent remotes i k uris)%list, calls'))
    ∧ (∀ err, (k < length uris)%nat → ctxErr (i + k)%nat = None →
         (AnalyzeImage (remotes (i + k)%nat)).1 = inr err →
         run = (inr ("analyze page " ++ pretty (Z.of_nat (i + k) + 1) ++ " of "
                       ++ pretty total ++ ": " ++ err),
                (log ++ sent remotes i (S k) uris)%list, calls')).
Proof.
  induction uris as [|u uris IH]; intros i results log calls k Hk Hok.
  - simpl in Hk. assert (k = 0%nat) as -> by lia. simpl.
    assert (reported progressFn texts total i 0 = []) as ->
      by (unfold reported; by destruct progressFn).
    split_and!; [by rewrite !app_nil_r | intros; lia | intros; lia].
  - destruct k as [|k].
    + rewrite Nat.add_0_r. cbn [analyzeImagesWithProgressLoop]. cbv zeta.
      assert (reported progressFn texts total i 0 = []) as ->
        by (unfold reported; by destruct progressFn).
      rewrite (app_nil_r calls). split_and!.
      * done.
      * intros e _ ->. by rewrite sent_0, app_nil_r.
      * intros err _ -> Herr. rewrite sent_S, sent_0.
        destruct (AnalyzeImage (remotes i)) as [answer tr]. simpl in Herr. by subst.
    + destruct (Hok 0%nat) as [Hc Ha]; [lia |]. rewrite Nat.add_0_r in Hc, Ha.
      simpl in Hk.
      destruct (IH (S i) (results ++ [texts i])%list
                  (log ++ [(u, (AnalyzeImage (remotes i)).2)])%list
                  (if progressFn
                   then (calls ++ [mkPageProgress (Z.of_nat i + 1) total (texts i)])%list
                   else calls) k) as (I1 & I2 & I3); [lia | |].
      { intros j Hj. replace (S i + j)%nat with (i + S j)%nat by lia. apply Hok. lia. }
      cbn [analyzeImagesWithProgressLoop]. rewrite Hc.
      destruct (AnalyzeImage (remotes i)) as [answer tr] eqn:E. simpl in Ha. subst.
      rewrite sent_S, E, reported_S. cbn [snd] in *.
      replace (i + S k)%nat with (S i + k)%nat by lia.
      assert ((if progressFn
               then (calls ++ [mkPageProgress (Z.of_nat i + 1) total (texts i)])%list
               else calls) ++ reported progressFn texts total (S i) k
              = calls ++ (if progressFn
                          then [mkPageProgress (Z.of_nat i + 1) total (texts i)]
                          else []) ++ reported progressFn texts total (S i) k)%list
        as Hcalls.
      { destruct progressFn; [by rewrite <- app_assoc | done]. }
      cbv zeta in I1, I2, I3. rewrite Hcalls in I1, I2, I3. cbv zeta.
      split_and!.
      * intros [= Hlen]. rewrite I1 by done. simpl. by rewrite <- !app_assoc.
      * intros e Hlt He. simpl in Hlt. rewrite (I2 e); [| lia | done].
        by rewrite <- !app_assoc.
      * intros err Hlt Hc' Herr. simpl in Hlt. rewrite (I3 err); [| lia | done | done].
        rewrite (sent_S remotes i (S k)), E. cbn [snd].
        by rewrite <- !app_assoc.
Qed.

(** [AnalyzeImagesWithProgress] does the same as [AnalyzeImages], the
    error of a failed call being worded "analyze page k+1 of n", and
    calls [progressFn], when there is one, after each image that went
    through and for no other: with the page number counted from 1, the
    number of images and the text of the page, in the order of the
    pages.  When it fails at image [k] the callback has been called [k]
    times. *)
Theorem AnalyzeImagesWithProgress_reports_each_page
    ctxErr remotes progressFn texts uris k :
  (k ≤ length uris)%nat →
  (∀ j, (j < k)%nat →
     ctxErr j = None ∧ (AnalyzeImage (remotes j)).1 = inl (texts j)) →
  let total := Z.of_nat (length uris) in
  let run := AnalyzeImagesWithProgress ctxErr remotes uris progressFn in
  let calls := reported progressFn texts total 0 k in
  (k = length uris → run = (inl (texts <$> seq 0 k), sent remotes 0 k uris, calls))
  ∧ (∀ e, (k < length uris)%nat → ctxErr k = Some e →
       run = (inr e, sent remotes 0 k uris, calls))
  ∧ (∀ err, (k < length uris)%nat → ctxErr k = None →
       (AnalyzeImage (remotes k)).1 = inr err →
       run = (inr ("analyze page " ++ pretty (Z.of_nat k + 1) ++ " of "
                     ++ pretty total ++ ": " ++ err),
              sent remotes 0 (S k) uris, calls))
  ∧ length calls = (if progressFn then k else 0%nat).
Proof.
  intros Hk Hok total run calls.
  pose proof (analyzeImagesWithProgressLoop_spec ctxErr remotes progressFn total texts
                uris 0 [] [] [] k Hk Hok) as (H1 & H2 & H3).
  split_and!; try done.
  subst calls. unfold reported. destruct progressFn; [| done].
  by rewrite length_fmap, length_seq.
Qed.

Lemma AnalyzeImagesWithProgress_reports_each_page_witness :
  ∃ err, AnalyzeImagesWithProgress (λ _, None) secondFails ["img-a"; "img-b"; "img-c"] true
         = (inr ("analyze page 2 of 3: " ++ err),
            sent secondFails 0 2 ["img-a"; "img-b"; "img-c"],
            [mkPageProgress 1 3 "page 1"]).
Proof.
  eexists.
  refine (proj1 (proj2 (proj2
            (AnalyzeImagesWithProgress_reports_each_page (λ _, None) secondFails true
               (λ i, "page " ++ pretty (Z.of_nat i + 1))
               ["img-a"; "img-b"; "img-c"] 1 _ _))) _ _ eq_refl _).
  - simpl. lia.
  - intros j Hj. assert (j = 0%nat) as -> by lia. split; vm_compute; reflexivity.
  - simpl. lia.
  - vm_compute. reflexivity.
Defined.

(** * Further properties of the Batch Analysis Engine *)

Lemma collect_first_error pre res post acc err :
  Forall (λ r, r_err r = None) pre → r_err res = Some err →
  collect (pre ++ res :: post) acc = inl err.
Proof.
  intros Hok Herr. revert acc. induction Hok as [|r pre Hr _ IH]; intros acc; simpl.
  - by rewrite Herr.
  - by rewrite Hr, IH.
Qed.

(** When the analysis of some batch fails, the error returned is that of
    the failed batch with the lowest position in the document, whatever
    the order in which the batches finish and whichever failed first in
    time; it names the pages of that batch.  The texts of the batches
    that succeeded are dropped. *)
Theorem analyzePages_returns_first_failed_batch
    batchSize pages answers completion (k : nat) err :
  let batches := createBatches batchSize pages 0 in
  completion ≡ₚ seq 0 (length batches) →
  (k < length batches)%nat →
  answers k = inr err →
  (∀ j, (j < k)%nat → ∃ text, answers j = inl text) →
  ∃ b, batches !! k = Some b
       ∧ b_start b = Z.of_nat (k * Pos.to_nat batchSize) + 1
       ∧ b_end b = Z.of_nat (Nat.min ((k + 1) * Pos.to_nat batchSize) (length pages))
       ∧ analyzePages batchSize pages answers completion
         = inr ("analyze pages " ++ pretty (b_start b) ++ "-" ++ pretty (b_end b)
                  ++ " with vision: " ++ err).
Proof.
  intros batches Hperm Hk Herr Hbefore.
  destruct (lookup_lt_is_Some_2 batches k Hk) as [b Hb].
  exists b. split; [done |].
  assert (b = batchAt batchSize pages (k * Pos.to_nat batchSize)) as Hbat.
  { unfold batches in Hb. rewrite createBatches_lookup in Hb. simpl in Hb.
    case_decide; [by injection Hb | done]. }
  split; [by rewrite Hbat |]. split; [rewrite Hbat; simpl; f_equal; lia |].
  assert (pages ≠ []) as Hne.
  { intros ->. unfold batches in Hk. rewrite createBatches_step in Hk.
    simpl in Hk. lia. }
  unfold analyzePages. rewrite decide_False by (by destruct pages).
  fold batches. rewrite (runBatches_all_done batches answers completion Hperm).
  set (results := imap (λ idx bt, batchResult idx bt (answers idx)) batches).
  assert (results !! k = Some (batchResult k b (inr err))) as Hres.
  { unfold results. by rewrite list_lookup_imap, Hb, Herr. }
  rewrite <- (take_drop_middle results k _ Hres).
  rewrite (collect_first_error _ _ _ _
             ("analyze pages " ++ pretty (b_start b) ++ "-" ++ pretty (b_end b)
                ++ " with vision: " ++ err)); [done | | done].
  apply Forall_lookup. intros j r Hj.
  apply lookup_take_Some in Hj as [Hj Hlt].
  unfold results in Hj. rewrite list_lookup_imap in Hj.
  destruct (batches !! j) as [bj|]; [| done]. simpl in Hj. injection Hj as <-.
  destruct (Hbefore j Hlt) as [text ->]. done.
Qed.

Lemma analyzePages_returns_first_failed_batch_witness :
  let pages := convertedPages ["p1"; "p2"; "p3"; "p4"; "p5"] in
  let answers := λ k : nat, match k with
                            | 0%nat => inl "first"
                            | _ => inr ("failed " ++ pretty (Z.of_nat k))
                            end in
  ∃ b, createBatches 2 pages 0 !! 1%nat = Some b
       ∧ analyzePages 2 pages answers [2; 0; 1]%nat
         = inr "analyze pages 3-4 with vision: failed 1".
Proof.
  intros pages answers.
  destruct (analyzePages_returns_first_failed_batch 2 pages answers [2; 0; 1]%nat 1
              "failed 1") as (b & H1 & _ & _ & H2).
  - vm_compute. by eapply (Permutation_trans (perm_swap _ _ _)), perm_skip, perm_swap.
  - vm_compute. lia.
  - reflexivity.
  - intros j Hj. assert (j = 0%nat) as -> by lia. by eexists.
  - exists b. split; [exact H1 |]. rewrite H2.
    assert (b = batchAt 2 pages 2) as ->.
    { rewrite createBatches_lookup in H1. simpl in H1. by injection H1. }
    vm_compute. reflexivity.
Defined.

Lemma length_createBatches batchSize pages :
  length (createBatches batchSize pages 0)
  = ((length pages + Pos.to_nat batchSize - 1) / Pos.to_nat batchSize)%nat.
Proof.
  pose proof (Pos2Nat.is_pos batchSize) as Hbs.
  set (bs := Pos.to_nat batchSize) in *. set (n := length pages).
  set (m := ((n + bs - 1) / bs)%nat).
  assert (∀ k, (k * bs < n)%nat ↔ (k < m)%nat) as Hiff.
  { intros k. unfold m. split; intros H.
    - apply Nat.div_le_lower_bound; [lia |]. nia.
    - destruct (decide (k * bs < n)%nat) as [|Hge]; [done |]. exfalso.
      assert ((n + bs - 1) / bs ≤ k)%nat; [| lia].
      apply Nat.lt_succ_r, Nat.Div0.div_lt_upper_bound. nia. }
  destruct (decide (length (createBatches batchSize pages 0) = m)) as [|Hne]; [done |].
  exfalso.
  destruct (decide (length (createBatches batchSize pages 0) < m)%nat) as [Hlt|Hge].
  - pose proof (proj2 (Hiff (length (createBatches batchSize pages 0))) Hlt) as H.
    pose proof (createBatches_lookup batchSize pages 0
                  (length (createBatches batchSize pages 0))) as Hl.
    rewrite lookup_ge_None_2 in Hl by lia. simpl in Hl.
    fold bs n in Hl. by rewrite decide_True in Hl.
  - assert (m < length (createBatches batchSize pages 0))%nat as Hlt by lia.
    apply lookup_lt_is_Some_2 in Hlt as [b Hb].
    rewrite createBatches_lookup in Hb. simpl in Hb. fold bs n in Hb.
    case_decide as Hc; [| done]. apply Hiff in Hc. lia.
Qed.

(** A document of [n] pages is analysed in ⌈n / batchSize⌉ calls of the
    vision service (⌈n / 8⌉ for exam topics, ⌈n / 2⌉ for flashcards);
    the images of the calls, put end to end, are the images of the pages
    in page order, each page in exactly one call, and so are the page
    numbers. *)
Theorem one_call_per_batch_covers_every_page batchSize pages :
  let batches := createBatches batchSize pages 0 in
  length batches
  = ((length pages + Pos.to_nat batchSize - 1) / Pos.to_nat batchSize)%nat
  ∧ concat (b_imageURIs <$> batches) = ImageData <$> pages
  ∧ concat (b_pageNumbers <$> batches) = PageNumber <$> pages
  ∧ ∀ k b, batches !! k = Some b →
      length (b_imageURIs b) = length (b_pages b)
      ∧ (k + 1 < length batches → length (b_imageURIs b) = Pos.to_nat batchSize)%nat.
Proof.
  intros batches. split; [apply length_createBatches |].
  assert (∀ k b, batches !! k = Some b →
            b_imageURIs b = ImageData <$> b_pages b
            ∧ b_pageNumbers b = PageNumber <$> b_pages b
            ∧ b = batchAt batchSize pages (k * Pos.to_nat batchSize)) as Hb.
  { intros k b Hk. unfold batches in Hk. rewrite createBatches_lookup in Hk.
    simpl in Hk. case_decide; [| done]. by injection Hk as <-. }
  assert (∀ {B} (f : batch → list B) (g : PDFPageImage → B),
            (∀ k b, batches !! k = Some b → f b = g <$> b_pages b) →
            concat (f <$> batches) = g <$> pages) as Hcat.
  { intros B f g Hfg.
    rewrite <- (drop_0 pages), <- (createBatches_concat batchSize pages 0).
    fold batches. clear Hb. induction batches as [|b bs IH]; [done |].
    rewrite !fmap_cons. simpl. rewrite fmap_app, (Hfg 0%nat b eq_refl). f_equal.
    apply IH. intros k b' Hk. by apply (Hfg (S k)). }
  split; [apply Hcat; intros k b Hk; by apply (Hb k) |].
  split; [apply Hcat; intros k b Hk; by apply (Hb k) |].
  intros k b Hk. destruct (Hb k b Hk) as (H1 & _ & H3).
  split; [by rewrite H1, length_fmap |]. intros Hnext.
  rewrite H1, length_fmap, H3. unfold batchAt. simpl.
  apply lookup_lt_is_Some_2 in Hnext as [b' Hb'].
  unfold batches in Hb'. rewrite createBatches_lookup in Hb'. simpl in Hb'.
  case_decide as Hc; [| done].
  rewrite length_take, length_drop. lia.
Qed.

(** * Cards *)

Lemma int_of_uint64_of_nonneg z :
  0 ≤ z ≤ maxInt64 → int_of_uint64 (uint64_of_int z) = z.
Proof.
  unfold maxInt64, int_of_uint64, uint64_of_int. intros Hz.
  rewrite (Z.mod_small z) by lia. rewrite Z.mod_small by lia. lia.
Qed.

Lemma max_0 z : max z 0 = Z.max z 0.
Proof. unfold max. destruct (z >? 0) eqn:E; lia. Qed.

(** A card that goes to the scheduler and comes back unchanged
    ([ToFSRSCard], then [ApplyFSRSCard] with what it gave) keeps every
    field that is not the scheduler's; each of its four counters is
    what it was or 0 when it was negative; its state, when it was in
    0..127, is what it was, and 0 when it was negative; a time field is
    kept when it was valid and not the zero time, and otherwise comes
    back as the zero time, invalid.  So a card with counters and state
    that are not negative and plain time fields comes back as it
    went. *)
Theorem scheduler_round_trip c :
  int64 (c_ElapsedDays c) → int64 (c_ScheduledDays c) →
  int64 (c_Reps c) → int64 (c_Lapses c) →
  let c' := ApplyFSRSCard (ToFSRSCard c) c in
  (c_ID c', c_ConceptID c', c_SourceDocumentID c', c_Front c', c_Back c',
   c_CreatedAt c', c_UpdatedAt c', c_WorkingQueuePosition c', c_ConceptName c',
   c_SourceDocumentRef c', c_Stability c', c_Difficulty c')
  = (c_ID c, c_ConceptID c, c_SourceDocumentID c, c_Front c, c_Back c,
     c_CreatedAt c, c_UpdatedAt c, c_WorkingQueuePosition c, c_ConceptName c,
     c_SourceDocumentRef c, c_Stability c, c_Difficulty c)
  ∧ c_ElapsedDays c' = Z.max (c_ElapsedDays c) 0
  ∧ c_ScheduledDays c' = Z.max (c_ScheduledDays c) 0
  ∧ c_Reps c' = Z.max (c_Reps c) 0
  ∧ c_Lapses c' = Z.max (c_Lapses c) 0
  ∧ (c_State c ≤ 127 → c_State c' = Z.max (c_State c) 0)
  ∧ c_Due c' = throughScheduler (c_Due c)
  ∧ c_LastReview c' = throughScheduler (c_LastReview c)
  ∧ (0 ≤ c_ElapsedDays c → 0 ≤ c_ScheduledDays c → 0 ≤ c_Reps c → 0 ≤ c_Lapses c →
     0 ≤ c_State c ≤ 127 → plainTime (c_Due c) → plainTime (c_LastReview c) →
     c' = c).
Proof.
  intros H1 H2 H3 H4 c'. unfold int64 in H1, H2, H3, H4.
  assert (∀ z, minInt64 ≤ z ≤ maxInt64 →
               int_of_uint64 (uint64_of_int (max z 0)) = Z.max z 0) as Hcnt.
  { intros z Hz. rewrite max_0. apply int_of_uint64_of_nonneg.
    unfold minInt64, maxInt64 in *. lia. }
  assert (c_ElapsedDays c' = Z.max (c_ElapsedDays c) 0) as E1.
  { subst c'. unfold ToFSRSCard. destruct (nt_Valid (c_Due c)), (nt_Valid (c_LastReview c));
      simpl; by apply Hcnt. }
  assert (c_ScheduledDays c' = Z.max (c_ScheduledDays c) 0) as E2.
  { subst c'. unfold ToFSRSCard. destruct (nt_Valid (c_Due c)), (nt_Valid (c_LastReview c));
      simpl; by apply Hcnt. }
  assert (c_Reps c' = Z.max (c_Reps c) 0) as E3.
  { subst c'. unfold ToFSRSCard. destruct (nt_Valid (c_Due c)), (nt_Valid (c_LastReview c));
      simpl; by apply Hcnt. }
  assert (c_Lapses c' = Z.max (c_Lapses c) 0) as E4.
  { subst c'. unfold ToFSRSCard. destruct (nt_Valid (c_Due c)), (nt_Valid (c_LastReview c));
      simpl; by apply Hcnt. }
  assert (c_State c ≤ 127 → c_State c' = Z.max (c_State c) 0) as E5.
  { intros Hs. subst c'. unfold ToFSRSCard.
    destruct (nt_Valid (c_Due c)), (nt_Valid (c_LastReview c)); simpl;
      rewrite max_0; unfold int8_of_int; rewrite Z.mod_small; lia. }
  assert (c_Due c' = throughScheduler (c_Due c)) as E6.
  { subst c'. unfold ToFSRSCard, throughScheduler.
    by destruct (nt_Valid (c_Due c)), (nt_Valid (c_LastReview c)). }
  assert (c_LastReview c' = throughScheduler (c_LastReview c)) as E7.
  { subst c'. unfold ToFSRSCard, throughScheduler.
    by destruct (nt_Valid (c_Due c)), (nt_Valid (c_LastReview c)). }
  assert (c_Stability c' = c_Stability c ∧ c_Difficulty c' = c_Difficulty c) as [E8 E9].
  { subst c'. unfold ToFSRSCard.
    by destruct (nt_Valid (c_Due c)), (nt_Valid (c_LastReview c)). }
  split; [rewrite E8, E9; reflexivity |].
  refine (conj E1 (conj E2 (conj E3 (conj E4 (conj E5 (conj E6 (conj E7 _))))))).
  intros P1 P2 P3 P4 P5 P6 P7.
  assert (∀ t, plainTime t → throughScheduler t = t) as Hplain.
  { intros [t v]. unfold plainTime, throughScheduler, IsZero. simpl. intros ->.
    destruct (t =? 0) eqn:E; simpl; [| by rewrite E]. apply Z.eqb_eq in E. by subst. }
  rewrite Hplain in E6, E7 by done.
  assert (c_State c ≤ 127) as Hs by lia. specialize (E5 Hs).
  rewrite Z.max_l in E1, E2, E3, E4, E5 by lia.
  assert (∀ a b : Card,
            c_ID a = c_ID b → c_ConceptID a = c_ConceptID b →
            c_SourceDocumentID a = c_SourceDocumentID b →
            c_Front a = c_Front b → c_Back a = c_Back b → c_Due a = c_Due b →
            c_Stability a = c_Stability b → c_Difficulty a = c_Difficulty b →
            c_ElapsedDays a = c_ElapsedDays b → c_ScheduledDays a = c_ScheduledDays b →
            c_Reps a = c_Reps b → c_Lapses a = c_Lapses b → c_State a = c_State b →
            c_LastReview a = c_LastReview b → c_CreatedAt a = c_CreatedAt b →
            c_UpdatedAt a = c_UpdatedAt b →
            c_WorkingQueuePosition a = c_WorkingQueuePosition b →
            c_ConceptName a = c_ConceptName b →
            c_SourceDocumentRef a = c_SourceDocumentRef b → a = b) as Hext.
  { intros [] []. simpl. intros. by subst. }
  by apply Hext.
Qed.

Lemma scheduler_round_trip_witness :
  ApplyFSRSCard (ToFSRSCard freshCard) freshCard = freshCard
  ∧ let c' := ApplyFSRSCard (ToFSRSCard brokenCard) brokenCard in
    (c_ElapsedDays c', c_ScheduledDays c', c_Reps c', c_State c') = (0, 4, 0, 0)
    ∧ c_Due c' = mkNullTime 0 false
    ∧ c_LastReview c' = mkNullTime 0 false.
Proof.
  assert (∀ z, -3 ≤ z ≤ 4 → int64 z) as Hint by (unfold int64, minInt64, maxInt64; lia).
  split.
  - apply (scheduler_round_trip freshCard); try (apply Hint; simpl; lia);
      try (simpl; lia); reflexivity.
  - destruct (scheduler_round_trip brokenCard) as (_ & E1 & E2 & E3 & _ & E5 & E6 & E7 & _);
      try (apply Hint; simpl; lia).
    cbv zeta. rewrite E1, E2, E3, E5, E6, E7 by (simpl; lia). done.
Defined.

(** * [extractJSON] *)

(** ** White space at the ends of a byte sequence *)

Local Ltac split_match :=
  repeat match goal with
         | |- context [match ?x with _ => _ end] => is_var x; destruct x
         end.

Local Ltac bytes_as_numbers :=
  repeat match goal with
         | |- context [byteN ?a] => generalize (byteN a); intro
         end.

Lemma spaceRuneAtHead_le l : (spaceRuneAtHead l ≤ length l)%nat.
Proof.
  unfold spaceRuneAtHead.
  destruct l as [|a [|b [|c l]]]; simpl; bytes_as_numbers; split_match; lia.
Qed.

Lemma spaceRuneAtTail_le l : (spaceRuneAtTail l ≤ length l)%nat.
Proof.
  unfold spaceRuneAtTail.
  destruct l as [|a [|b [|c l]]]; simpl; bytes_as_numbers; split_match; lia.
Qed.

(** Cutting a sequence short does not bring white space to its head. *)
Lemma spaceRuneAtHead_take l m :
  spaceRuneAtHead l = 0%nat → spaceRuneAtHead (take m l) = 0%nat.
Proof.
  unfold spaceRuneAtHead.
  destruct l as [|a [|b [|c l]]]; destruct m as [|[|[|m]]]; simpl; try done;
    bytes_as_numbers; split_match; done.
Qed.

Lemma trimWith_drop rune fuel l : ∃ n, trimWith rune fuel l = drop n l.
Proof.
  revert l. induction fuel as [|fuel IH]; intros l; simpl; [by exists 0%nat |].
  destruct (rune l) as [|n]; [by exists 0%nat |].
  destruct (IH (drop (S n) l)) as [k ->]. exists (S n + k)%nat. apply drop_drop.
Qed.

Lemma trimWith_stops rune fuel l :
  (∀ l, (rune l ≤ length l)%nat) → (length l ≤ fuel)%nat →
  rune (trimWith rune fuel l) = 0%nat.
Proof.
  intros Hle. revert l. induction fuel as [|fuel IH]; intros l Hl; simpl.
  - specialize (Hle l). lia.
  - destruct (rune l) as [|n] eqn:E; [done |].
    apply IH. rewrite length_drop. lia.
Qed.

Lemma trimWith_fixed rune fuel l : rune l = 0%nat → trimWith rune fuel l = l.
Proof. intros H. destruct fuel; simpl; [done |]. by rewrite H. Qed.

(** What [TrimSpace] returns is a piece of its argument, with no white
    space at its head or at its end. *)
Lemma trimSpaceBytes_spec l :
  ∃ n m, trimSpaceBytes l = take m (drop n l)
         ∧ spaceRuneAtHead (trimSpaceBytes l) = 0%nat
         ∧ spaceRuneAtTail (rev (trimSpaceBytes l)) = 0%nat.
Proof.
  unfold trimSpaceBytes. cbv zeta.
  destruct (trimWith_drop spaceRuneAtHead (length l) l) as [n Hn].
  pose proof (trimWith_stops spaceRuneAtHead (length l) l spaceRuneAtHead_le
                (Nat.le_refl _)) as Hhead.
  set (l1 := trimWith spaceRuneAtHead (length l) l) in *.
  destruct (trimWith_drop spaceRuneAtTail (length l1) (rev l1)) as [k Hk].
  pose proof (trimWith_stops spaceRuneAtTail (length l1) (rev l1) spaceRuneAtTail_le)
    as Htail.
  rewrite length_rev in Htail. specialize (Htail (Nat.le_refl _)).
  set (l2 := trimWith spaceRuneAtTail (length l1) (rev l1)) in *.
  assert (rev l2 = take (length l1 - k) l1) as Hout.
  { rewrite Hk, skipn_rev. apply rev_involutive. }
  exists n, (length l1 - k)%nat. split_and!.
  - by rewrite Hout, Hn.
  - rewrite Hout. by apply spaceRuneAtHead_take.
  - by rewrite rev_involutive.
Qed.

Lemma trimSpaceBytes_fixed l :
  spaceRuneAtHead l = 0%nat → spaceRuneAtTail (rev l) = 0%nat → trimSpaceBytes l = l.
Proof.
  intros Hh Ht. unfold trimSpaceBytes. cbv zeta.
  rewrite (trimWith_fixed _ _ l Hh), (trimWith_fixed _ _ (rev l) Ht).
  apply rev_involutive.
Qed.

Lemma trimSpaceBytes_idemp l : trimSpaceBytes (trimSpaceBytes l) = trimSpaceBytes l.
Proof.
  destruct (trimSpaceBytes_spec l) as (n & m & _ & Hh & Ht).
  by apply trimSpaceBytes_fixed.
Qed.

Lemma TrimSpace_bytes s :
  list_ascii_of_string (TrimSpace s) = trimSpaceBytes (list_ascii_of_string s).
Proof. unfold TrimSpace. cbv zeta. by rewrite list_ascii_of_string_of_list_ascii. Qed.

Lemma string_eq_bytes (s t : string) :
  list_ascii_of_string s = list_ascii_of_string t → s = t.
Proof.
  intros H. rewrite <- (string_of_list_ascii_of_string s),
    <- (string_of_list_ascii_of_string t). by rewrite H.
Qed.

Lemma bytes_app (s t : string) :
  list_ascii_of_string (s ++ t) = (list_ascii_of_string s ++ list_ascii_of_string t)%list.
Proof. induction s as [|c s IH]; [done |]. simpl. by rewrite <- IH. Qed.

Lemma TrimSpace_idemp s : TrimSpace (TrimSpace s) = TrimSpace s.
Proof. apply string_eq_bytes. by rewrite !TrimSpace_bytes, trimSpaceBytes_idemp. Qed.

(** ** [extractJSON] on the bytes *)

Lemma extractJSON_bytes s :
  list_ascii_of_string (extractJSON s)
  = trimSpaceBytes (cutBraces (trimSpaceBytes (stripFence
      (trimSpaceBytes (list_ascii_of_string s))))).
Proof.
  unfold extractJSON. cbv zeta. rewrite TrimSpace_bytes. f_equal.
  set (c0 := TrimSpace s).
  assert (list_ascii_of_string
            (if HasPrefix c0 fence
             then
               if decide
                    (Index
                       (sliceFrom c0
                          (if decide (Index (sliceFrom c0 3) newline ≠ -1)
                           then 3 + Index (sliceFrom c0 3) newline + 1
                           else 3)) fence ≠ -1)
               then
                 slice c0
                   (if decide (Index (sliceFrom c0 3) newline ≠ -1)
                    then 3 + Index (sliceFrom c0 3) newline + 1
                    else 3)
                   ((if decide (Index (sliceFrom c0 3) newline ≠ -1)
                     then 3 + Index (sliceFrom c0 3) newline + 1
                     else 3) +
                    Index
                      (sliceFrom c0
                         (if decide (Index (sliceFrom c0 3) newline ≠ -1)
                          then 3 + Index (sliceFrom c0 3) newline + 1
                          else 3)) fence)
               else
                 sliceFrom c0
                   (if decide (Index (sliceFrom c0 3) newline ≠ -1)
                    then 3 + Index (sliceFrom c0 3) newline + 1
                    else 3)
             else c0)
          = stripFence (list_ascii_of_string c0)) as H1.
  { unfold stripFence, HasPrefix, Index, sliceFrom, slice. cbv zeta.
    change (list_ascii_of_string fence) with fenceBytes.
    change (list_ascii_of_string newline) with [nlByte].
    rewrite !list_ascii_of_string_of_list_ascii.
    destruct (hasPrefix (list_ascii_of_string c0) fenceBytes); [| done].
    change (Z.to_nat 3) with 3%nat.
    repeat case_decide; try done; by rewrite ?list_ascii_of_string_of_list_ascii. }
  set (c1 := if HasPrefix c0 fence then _ else c0) in *.
  set (c2 := TrimSpace c1).
  assert (list_ascii_of_string c2 = trimSpaceBytes (stripFence (list_ascii_of_string c0)))
    as H2 by (unfold c2; by rewrite TrimSpace_bytes, H1).
  unfold c0 in H2. rewrite TrimSpace_bytes in H2. rewrite <- H2.
  unfold cutBraces, Index, LastIndex, slice. cbv zeta.
  change (list_ascii_of_string "{") with [openBrace].
  change (list_ascii_of_string "}") with [closeBrace].
  repeat case_decide; try done; by rewrite ?list_ascii_of_string_of_list_ascii.
Qed.

(** ** Searching *)

Lemma hasPrefix_app p r : hasPrefix (p ++ r) p = true.
Proof.
  unfold hasPrefix. rewrite length_app, take_app_length.
  rewrite bool_decide_true by done. rewrite andb_true_r. apply Nat.leb_le. lia.
Qed.

Lemma hasPrefix_head c p' a l : a ≠ c → hasPrefix (a :: l) (c :: p') = false.
Proof.
  intros Hne. unfold hasPrefix. simpl. rewrite bool_decide_false; [apply andb_false_r |].
  by intros [= -> _].
Qed.

Lemma hasPrefix_nil c p' : hasPrefix [] (c :: p') = false.
Proof. done. Qed.

Lemma hasPrefix_cons_inv l c p' :
  hasPrefix l (c :: p') = true → ∃ l', l = c :: l'.
Proof.
  unfold hasPrefix. destruct l as [|a l]; [done |]. simpl.
  intros [_ H]%andb_true_iff. apply bool_decide_eq_true in H. injection H as -> _. eauto.
Qed.

(** A pattern shorter than what is left is found in a longer sequence
    too. *)
Lemma hasPrefix_take l p m : hasPrefix (take m l) p = true → hasPrefix l p = true.
Proof.
  unfold hasPrefix. intros [H1 H2]%andb_true_iff.
  apply Nat.leb_le in H1. apply bool_decide_eq_true in H2.
  rewrite length_take in H1. apply andb_true_iff. split.
  - apply Nat.leb_le. lia.
  - apply bool_decide_eq_true. rewrite take_take in H2.
    by rewrite Nat.min_l in H2 by lia.
Qed.

(** The first instance of a pattern after a stretch without its first
    byte. *)
Lemma indexFrom_first c p' pre rest i :
  c ∉ pre →
  indexFrom (c :: p') (pre ++ (c :: p') ++ rest) i = Z.of_nat (i + length pre).
Proof.
  revert i. induction pre as [|a pre IH]; intros i Hc.
  - change ([] ++ (c :: p') ++ rest)%list with ((c :: p') ++ rest)%list.
    destruct ((c :: p') ++ rest)%list eqn:E; [done |].
    cbn [indexFrom]. rewrite <- E, hasPrefix_app. f_equal. simpl. lia.
  - cbn [app indexFrom]. rewrite hasPrefix_head.
    + rewrite IH; [f_equal; simpl; lia |]. intros H. apply Hc. by right.
    + intros ->. apply Hc. by left.
Qed.

(** Without the first byte of the pattern there is no instance. *)
Lemma indexFrom_none c p' l i : c ∉ l → indexFrom (c :: p') l i = -1.
Proof.
  revert i. induction l as [|a l IH]; intros i Hc; [done |].
  cbn [indexFrom]. rewrite hasPrefix_head.
  - apply IH. intros H. apply Hc. by right.
  - intros ->. apply Hc. by left.
Qed.

Lemma indexFrom_spec p l i :
  (indexFrom p l i = -1 ∧ ∀ k, hasPrefix (drop k l) p = false)
  ∨ ∃ k, indexFrom p l i = Z.of_nat (i + k)
         ∧ hasPrefix (drop k l) p = true
         ∧ (k ≤ length l)%nat
         ∧ ∀ j, (j < k)%nat → hasPrefix (drop j l) p = false.
Proof.
  revert i. induction l as [|a l IH]; intros i.
  - cbn [indexFrom]. destruct (hasPrefix [] p) eqn:E.
    + right. exists 0%nat. rewrite Nat.add_0_r. split_and!; [done | done | done |].
      intros j Hj. lia.
    + left. split; [done |]. intros k. by rewrite drop_nil.
  - cbn [indexFrom]. destruct (hasPrefix (a :: l) p) eqn:E.
    + right. exists 0%nat. rewrite Nat.add_0_r. split_and!; [done | done | simpl; lia |].
      intros j Hj. lia.
    + destruct (IH (S i)) as [[H1 H2]|(k & H1 & H2 & H3 & H4)].
      * left. split; [done |]. intros [|k]; [done | apply H2].
      * right. exists (S k). split_and!.
        -- rewrite H1. f_equal. lia.
        -- done.
        -- simpl. lia.
        -- intros [|j] Hj; [done |]. apply H4. lia.
Qed.

Lemma lastIndexFrom_spec p l i :
  lastIndexFrom p l i = -1
  ∨ ∃ k, lastIndexFrom p l i = Z.of_nat (i + k)
         ∧ hasPrefix (drop k l) p = true
         ∧ (k ≤ length l)%nat.
Proof.
  revert i. induction l as [|a l IH]; intros i.
  - cbn [lastIndexFrom]. destruct (hasPrefix [] p) eqn:E; [| by left].
    right. exists 0%nat. by rewrite Nat.add_0_r.
  - cbn [lastIndexFrom]. cbv zeta. case_decide as Hl.
    + destruct (IH (S i)) as [H|(k & H1 & H2 & H3)]; [done |].
      right. exists (S k). split_and!; [rewrite H1; f_equal; lia | done | simpl; lia].
    + destruct (hasPrefix (a :: l) p) eqn:E; [| by left].
      right. exists 0%nat. rewrite Nat.add_0_r. split_and!; [done | done | simpl; lia].
Qed.

(** The last instance of a byte that ends the sequence. *)
Lemma lastIndexFrom_last c pre i :
  lastIndexFrom [c] (pre ++ [c]) i = Z.of_nat (i + length pre).
Proof.
  revert i. induction pre as [|a pre IH]; intros i.
  - cbn [app lastIndexFrom]. cbv zeta. rewrite hasPrefix_nil.
    rewrite decide_False by (intros H; by apply H).
    assert (hasPrefix [c] [c] = true) as -> by apply (hasPrefix_app [c] []).
    f_equal. simpl. lia.
  - cbn [app lastIndexFrom]. cbv zeta. rewrite IH.
    rewrite decide_True by lia. f_equal. simpl. lia.
Qed.

Lemma occursIn_infix p l n m : occursIn p (take m (drop n l)) → occursIn p l.
Proof.
  intros [k Hk]. exists (n + k)%nat.
  rewrite skipn_firstn_comm in Hk. apply hasPrefix_take in Hk.
  by rewrite drop_drop in Hk.
Qed.

Lemma not_occursIn_hasPrefix p l : ¬ occursIn p l → hasPrefix l p = false.
Proof.
  intros H. destruct (hasPrefix l p) eqn:E; [| done].
  exfalso. apply H. by exists 0%nat.
Qed.

(** ** The two cuts *)

Lemma spaceRune_plain_head c l :
  c = openBrace ∨ c = closeBrace ∨ c = backquote →
  spaceRuneAtHead (c :: l) = 0%nat ∧ spaceRuneAtTail (c :: l) = 0%nat.
Proof. by intros [-> | [-> | ->]]. Qed.

(** A sequence from an opening brace to a closing brace is left as it
    is by each step of [extractJSON]. *)
Lemma object_fixed mid :
  let r := openBrace :: (mid ++ [closeBrace])%list in
  trimSpaceBytes r = r ∧ stripFence r = r ∧ cutBraces r = r.
Proof.
  intros r. split_and!.
  - apply trimSpaceBytes_fixed.
    + apply spaceRune_plain_head. by left.
    + unfold r. change (openBrace :: mid ++ [closeBrace])%list
        with ((openBrace :: mid) ++ [closeBrace])%list.
      rewrite rev_app_distr. apply spaceRune_plain_head. right. by left.
  - unfold stripFence, fenceBytes, r. rewrite hasPrefix_head; done.
  - unfold cutBraces. cbv zeta.
    assert (indexFrom [openBrace] r 0 = 0) as ->.
    { assert (hasPrefix r [openBrace] = true) as Hp
        by apply (hasPrefix_app [openBrace] (mid ++ [closeBrace])).
      unfold r in *. cbn [indexFrom]. by rewrite Hp. }
    assert (lastIndexFrom [closeBrace] r 0 = Z.of_nat (S (length mid))) as ->.
    { unfold r. apply (lastIndexFrom_last closeBrace (openBrace :: mid) 0). }
    rewrite decide_True by done. rewrite decide_True by lia.
    rewrite drop_0. apply take_ge. unfold r. simpl. rewrite length_app. simpl. lia.
Qed.

Lemma cutBraces_cases l :
  cutBraces l = l ∨ ∃ mid, cutBraces l = openBrace :: (mid ++ [closeBrace])%list.
Proof.
  unfold cutBraces. cbv zeta.
  destruct (indexFrom_spec [openBrace] l 0) as [[-> _]|(k1 & -> & H1 & _ & _)];
    [by left |].
  rewrite decide_True by lia.
  destruct (lastIndexFrom_spec [closeBrace] l 0) as [-> |(k2 & -> & H2 & Hk2)].
  { left. rewrite decide_False; [done |]. by intros [? _]. }
  case_decide as Hc; [| by left]. destruct Hc as [_ Hc]. simpl in Hc. right.
  apply hasPrefix_cons_inv in H1 as [l1 Hl1]. apply hasPrefix_cons_inv in H2 as [l2 Hl2].
  simpl. rewrite Nat2Z.id.
  replace (Z.to_nat (Z.of_nat k2 + 1 - Z.of_nat k1)) with (S (S (k2 - k1 - 1))) by lia.
  rewrite Hl1. cbn [take].
  assert (l1 !! (k2 - k1 - 1)%nat = Some closeBrace) as Hlast.
  { assert (l !! k2 = Some closeBrace) as Hk.
    { rewrite <- (Nat.add_0_r k2), <- lookup_drop, Hl2. done. }
    assert (l1 = drop (S k1) l) as ->.
    { rewrite <- (drop_drop l 1 k1) || rewrite <- (Nat.add_1_r k1), <- drop_drop.
      all: by rewrite ?Hl1. }
    rewrite lookup_drop. rewrite <- Hk. f_equal. lia. }
  exists (take (k2 - k1 - 1) l1). f_equal. by apply take_S_r.
Qed.

Lemma stripFence_result l :
  hasPrefix l fenceBytes = false ∨ ¬ occursIn fenceBytes (stripFence l).
Proof.
  unfold stripFence. cbv zeta. destruct (hasPrefix l fenceBytes); [| by left]. right.
  set (start := if decide _ then _ else 3).
  destruct (indexFrom_spec fenceBytes (drop (Z.to_nat start) l) 0)
    as [[-> Hno]|(k & -> & H1 & H2 & Hno)].
  - rewrite decide_False by (intros H; by apply H).
    intros [j Hj]. by rewrite Hno in Hj.
  - rewrite decide_True by (simpl; lia).
    replace (Z.to_nat (start + Z.of_nat (0 + k) - start)) with k by (simpl; lia).
    intros [j Hj]. rewrite skipn_firstn_comm in Hj.
    destruct (decide (j < k)%nat) as [Hlt|Hge].
    + apply hasPrefix_take in Hj. by rewrite Hno in Hj.
    + replace (k - j)%nat with 0%nat in Hj by lia. done.
Qed.

(** The byte sequence [extractJSON] works on after its first two steps
    does not begin with a code fence. *)
Lemma no_fence_after_strip l :
  hasPrefix (trimSpaceBytes (stripFence (trimSpaceBytes l))) fenceBytes = false.
Proof.
  destruct (stripFence_result (trimSpaceBytes l)) as [H|H].
  - unfold stripFence. by rewrite H, trimSpaceBytes_idemp.
  - apply not_occursIn_hasPrefix. intros Ho. apply H.
    destruct (trimSpaceBytes_spec (stripFence (trimSpaceBytes l))) as (n & m & E & _).
    rewrite E in Ho. by apply occursIn_infix in Ho.
Qed.

(** ** What [extractJSON] returns *)

Lemma extractJSON_object_fixed mid : extractJSON (object mid) = object mid.
Proof.
  apply string_eq_bytes. rewrite extractJSON_bytes. unfold object.
  rewrite bytes_app. change (list_ascii_of_string "{") with [openBrace].
  rewrite bytes_app. change (list_ascii_of_string "}") with [closeBrace].
  destruct (object_fixed (list_ascii_of_string mid)) as (H1 & H2 & H3).
  cbv zeta in H1, H2, H3. simpl. by rewrite H1, H2, H1, H3, H1.
Qed.

(** [extractJSON] is idempotent: applied to its own result it returns it
    unchanged.  The result has no white space at either end and does
    not begin with a code fence. *)
Theorem extractJSON_idempotent content :
  extractJSON (extractJSON content) = extractJSON content
  ∧ trimmed (extractJSON content)
  ∧ HasPrefix (extractJSON content) fence = false.
Proof.
  set (c := trimSpaceBytes (stripFence (trimSpaceBytes (list_ascii_of_string content)))).
  assert (list_ascii_of_string (extractJSON content) = trimSpaceBytes (cutBraces c)) as Hout
    by apply extractJSON_bytes.
  pose proof (no_fence_after_strip (list_ascii_of_string content)) as Hnf. fold c in Hnf.
  assert (trimSpaceBytes c = c) as Hc by apply trimSpaceBytes_idemp.
  destruct (cutBraces_cases c) as [Hcut|[mid Hcut]].
  - assert (list_ascii_of_string (extractJSON content) = c) as Hr
      by (by rewrite Hout, Hcut).
    split_and!.
    + apply string_eq_bytes. rewrite extractJSON_bytes, Hr.
      unfold stripFence at 1. by rewrite Hc, Hnf, Hc, Hcut.
    + apply string_eq_bytes. by rewrite TrimSpace_bytes, Hr.
    + unfold HasPrefix. by rewrite Hr.
  - destruct (object_fixed mid) as (H1 & H2 & H3). cbv zeta in H1, H2, H3.
    assert (list_ascii_of_string (extractJSON content)
            = openBrace :: (mid ++ [closeBrace])%list) as Hr
      by (by rewrite Hout, Hcut, H1).
    split_and!.
    + apply string_eq_bytes. rewrite extractJSON_bytes, Hr.
      by rewrite H1, H2, H1, H3, H1.
    + apply string_eq_bytes. by rewrite TrimSpace_bytes, Hr.
    + unfold HasPrefix. rewrite Hr. by apply hasPrefix_head.
Qed.

Lemma trimSpaceBytes_newline_after_object mid :
  let r := openBrace :: (mid ++ [closeBrace])%list in
  trimSpaceBytes (r ++ [nlByte]) = r.
Proof.
  intros r. unfold trimSpaceBytes. cbv zeta.
  rewrite (trimWith_fixed spaceRuneAtHead _ (r ++ [nlByte]))
    by (apply (spaceRune_plain_head openBrace); by left).
  rewrite rev_app_distr, length_app. cbn [rev app length].
  rewrite Nat.add_1_r. cbn [trimWith].
  change (spaceRuneAtTail (nlByte :: rev r)) with 1%nat. cbn [drop].
  rewrite trimWith_fixed; [apply rev_involutive |].
  unfold r. change (openBrace :: mid ++ [closeBrace])%list
    with ((openBrace :: mid) ++ [closeBrace])%list.
  rewrite rev_app_distr. apply spaceRune_plain_head. right. by left.
Qed.

(** A JSON object inside a markdown code block comes out bare: for
    a block with any language tag on its opening line (or none), an
    object on the lines between and the closing fence, [extractJSON]
    returns the object; and so it does when the closing fence is
    missing.  The object is any text from an opening to a closing
    brace that holds no back quote. *)
Theorem extractJSON_unwraps_code_block tag mid :
  nlByte ∉ list_ascii_of_string tag →
  backquote ∉ list_ascii_of_string mid →
  extractJSON (fence ++ tag ++ newline ++ object mid ++ newline ++ fence) = object mid
  ∧ extractJSON (fence ++ tag ++ newline ++ object mid) = object mid.
Proof.
  intros Htag Hmid.
  set (t := list_ascii_of_string tag). set (m := list_ascii_of_string mid).
  set (r := openBrace :: (m ++ [closeBrace])%list).
  assert (list_ascii_of_string (object mid) = r) as Hobj.
  { unfold object. rewrite !bytes_app. done. }
  assert (backquote ∉ r) as Hr.
  { unfold r. intros [H|[H|H%list_elem_of_singleton]%elem_of_app]%elem_of_cons; done. }
  destruct (object_fixed m) as (H1 & H2 & H3). cbv zeta in H1, H2, H3. fold r in H1, H2, H3.
  assert (∀ rest, indexFrom [nlByte] (t ++ [nlByte] ++ rest) 0 = Z.of_nat (length t)) as Hnl.
  { intros rest. by rewrite (indexFrom_first nlByte [] t rest 0). }
  assert (∀ rest, drop (Z.to_nat (3 + Z.of_nat (length t) + 1))
                    (fenceBytes ++ t ++ [nlByte] ++ rest) = rest) as Hdrop.
  { intros rest. replace (Z.to_nat (3 + Z.of_nat (length t) + 1)) with (3 + (length t + 1))%nat
      by lia.
    rewrite <- drop_drop. cbn [fenceBytes app drop]. rewrite drop_0.
    change (t ++ nlByte :: rest)%list with (t ++ [nlByte] ++ rest)%list.
    rewrite <- drop_drop, drop_app_length. done. }
  split; apply string_eq_bytes; rewrite extractJSON_bytes, !bytes_app, Hobj;
    change (list_ascii_of_string fence) with fenceBytes;
    change (list_ascii_of_string newline) with [nlByte]; fold t.
  - rewrite (trimSpaceBytes_fixed (fenceBytes ++ _)).
    2:{ apply (spaceRune_plain_head backquote). by right; right. }
    2:{ rewrite !rev_app_distr. apply (spaceRune_plain_head backquote). by right; right. }
    unfold stripFence at 1. cbv zeta. rewrite (hasPrefix_app fenceBytes).
    change (drop 3 (fenceBytes ++ t ++ [nlByte] ++ r ++ [nlByte] ++ fenceBytes))
      with (t ++ [nlByte] ++ r ++ [nlByte] ++ fenceBytes)%list.
    rewrite Hnl. rewrite (decide_True (P := Z.of_nat (length t) ≠ -1)) by lia.
    rewrite Hdrop.
    assert (indexFrom fenceBytes (r ++ [nlByte] ++ fenceBytes) 0
            = Z.of_nat (length (r ++ [nlByte]))) as ->.
    { pose proof (indexFrom_first backquote [backquote; backquote] (r ++ [nlByte]) [] 0)
        as H.
      rewrite app_nil_r, <- app_assoc in H. apply H.
      intros [?|?%list_elem_of_singleton]%elem_of_app; done. }
    rewrite decide_True by lia.
    replace (Z.to_nat (3 + Z.of_nat (length t) + 1 + Z.of_nat (length (r ++ [nlByte]))
                       - (3 + Z.of_nat (length t) + 1)))
      with (length (r ++ [nlByte])) by lia.
    rewrite app_assoc, take_app_length.
    pose proof (trimSpaceBytes_newline_after_object m) as Hnl'. cbv zeta in Hnl'.
    fold r in Hnl'. by rewrite Hnl', H3, H1.
  - rewrite (trimSpaceBytes_fixed (fenceBytes ++ _)).
    2:{ apply (spaceRune_plain_head backquote). by right; right. }
    2:{ rewrite !rev_app_distr. unfold r.
        change (openBrace :: m ++ [closeBrace])%list
          with ((openBrace :: m) ++ [closeBrace])%list.
        rewrite rev_app_distr. apply (spaceRune_plain_head closeBrace). right. by left. }
    unfold stripFence at 1. cbv zeta. rewrite (hasPrefix_app fenceBytes).
    change (drop 3 (fenceBytes ++ t ++ [nlByte] ++ r))
      with (t ++ [nlByte] ++ r)%list.
    rewrite Hnl. rewrite (decide_True (P := Z.of_nat (length t) ≠ -1)) by lia.
    rewrite Hdrop. unfold fenceBytes.
    rewrite (indexFrom_none backquote) by done.
    rewrite decide_False by (intros H; by apply H).
    by rewrite H1, H3, H1.
Qed.

Lemma extractJSON_unwraps_code_block_witness :
  extractJSON (fence ++ "json" ++ newline ++ object "topics:[]" ++ newline ++ fence)
  = "{topics:[]}".
Proof.
  refine (proj1 (extractJSON_unwraps_code_block "json" "topics:[]" _ _)).
  - intros H. by repeat (apply elem_of_cons in H as [H|H]; [done |]; try by inversion H).
  - intros H. by repeat (apply elem_of_cons in H as [H|H]; [done |]; try by inversion H).
Defined.

(** ** Text around an object *)

(** The bytes of a white-space rune are not braces or back quotes. *)
Lemma spaceRuneAtHead_bytes l k c :
  (k < spaceRuneAtHead l)%nat → l !! k = Some c →
  byteN c ≠ 123%N ∧ byteN c ≠ 125%N ∧ byteN c ≠ 96%N.
Proof.
  unfold spaceRuneAtHead.
  destruct l as [|a1 [|a2 [|a3 l]]]; simpl;
    repeat match goal with
           | |- context [byteN ?a] =>
               is_var a; let x := fresh "x" in remember (byteN a) as x
           end;
    split_match; try (intros H; exfalso; lia);
    destruct k as [|[|[|k]]]; intros Hk; try (exfalso; lia);
    simpl; intros [= <-]; subst; repeat split; congruence.
Qed.

Lemma spaceRuneAtTail_bytes l k c :
  (k < spaceRuneAtTail l)%nat → l !! k = Some c →
  byteN c ≠ 123%N ∧ byteN c ≠ 125%N ∧ byteN c ≠ 96%N.
Proof.
  unfold spaceRuneAtTail.
  destruct l as [|a1 [|a2 [|a3 l]]]; simpl;
    repeat match goal with
           | |- context [byteN ?a] =>
               is_var a; let x := fresh "x" in remember (byteN a) as x
           end;
    split_match; try (intros H; exfalso; lia);
    destruct k as [|[|[|k]]]; intros Hk; try (exfalso; lia);
    simpl; intros [= <-]; subst; repeat split; congruence.
Qed.

Section around.
Local Open Scope list_scope.

(** Trimming does not go past a byte that is no white space. *)
Lemma trimWith_before rune fuel p c rest :
  (∀ l k b, (k < rune l)%nat → l !! k = Some b → b ≠ c) →
  ∃ n, (n ≤ length p)%nat
       ∧ trimWith rune fuel (p ++ c :: rest) = (drop n p ++ c :: rest)%list.
Proof.
  intros Hrune. revert p. induction fuel as [|fuel IH]; intros p; simpl.
  - exists 0%nat. split; [lia | done].
  - destruct (rune (p ++ c :: rest)) as [|n] eqn:E.
    + exists 0%nat. split; [lia | done].
    + assert (S n ≤ length p)%nat as Hn.
      { destruct (decide (S n ≤ length p)%nat) as [|Hgt]; [done |]. exfalso.
        apply (Hrune (p ++ c :: rest) (length p) c); [lia | | done].
        by rewrite lookup_app_r, Nat.sub_diag by lia. }
      destruct (IH (drop (S n) p)) as (k & Hk & Hk').
      exists (S n + k)%nat. rewrite length_drop in Hk. split; [lia |].
      rewrite drop_app_le by lia. rewrite Hk'. by rewrite drop_drop.
Qed.

(** [TrimSpace] of a text with an object inside keeps the object. *)
Lemma trimSpaceBytes_around pre mid post :
  let r := openBrace :: (mid ++ [closeBrace])%list in
  ∃ n m, (n ≤ length pre)%nat
         ∧ trimSpaceBytes (pre ++ r ++ post) = (drop n pre ++ r ++ take m post)%list.
Proof.
  intros r. unfold trimSpaceBytes. cbv zeta.
  destruct (trimWith_before spaceRuneAtHead
              (length (pre ++ openBrace :: mid ++ [closeBrace] ++ post)) pre openBrace
              (mid ++ [closeBrace] ++ post)) as (n & Hn & E1).
  { intros l k b Hk Hb ->. by destruct (spaceRuneAtHead_bytes l k openBrace Hk Hb). }
  assert (pre ++ r ++ post = pre ++ openBrace :: mid ++ [closeBrace] ++ post)%list as E0.
  { unfold r. simpl. by rewrite <- !app_assoc. }
  rewrite E0, E1. clear E1.
  set (l1 := (drop n pre ++ openBrace :: mid ++ [closeBrace] ++ post)%list).
  assert (rev l1 = rev post ++ closeBrace :: rev (drop n pre ++ openBrace :: mid))%list as E2.
  { unfold l1.
    replace (drop n pre ++ openBrace :: mid ++ [closeBrace] ++ post)%list
      with ((drop n pre ++ openBrace :: mid) ++ [closeBrace] ++ post)%list
      by (by rewrite <- !app_assoc).
    rewrite !rev_app_distr. simpl. by rewrite <- !app_assoc. }
  destruct (trimWith_before spaceRuneAtTail (length l1) (rev post) closeBrace
              (rev (drop n pre ++ openBrace :: mid))) as (k & Hk & E3).
  { intros l j b Hj Hb ->. by destruct (spaceRuneAtTail_bytes l j closeBrace Hj Hb) as (_ & ? & _). }
  rewrite E2, E3. exists n, (length post - k)%nat. split; [done |].
  rewrite rev_app_distr. simpl. rewrite rev_involutive, skipn_rev, rev_involutive.
  unfold r. simpl. by rewrite <- !app_assoc.
Qed.

End around.

(** Text before and after a JSON object is dropped: when the text
    before holds no opening brace and no back quote and the text after
    holds no closing brace, [extractJSON] returns the object alone. *)
Theorem extractJSON_drops_surrounding_text pre mid post :
  openBrace ∉ list_ascii_of_string pre →
  backquote ∉ list_ascii_of_string pre →
  closeBrace ∉ list_ascii_of_string post →
  extractJSON (pre ++ object mid ++ post) = object mid.
Proof.
  intros Hpre1 Hpre2 Hpost.
  set (p := list_ascii_of_string pre). set (m := list_ascii_of_string mid).
  set (q := list_ascii_of_string post).
  set (r := openBrace :: (m ++ [closeBrace])%list).
  assert (list_ascii_of_string (object mid) = r) as Hobj.
  { unfold object. rewrite !bytes_app. done. }
  destruct (object_fixed m) as (H1 & H2 & H3). cbv zeta in H1, H2, H3. fold r in H1, H2, H3.
  apply string_eq_bytes. rewrite extractJSON_bytes, !bytes_app, Hobj. fold p q.
  destruct (trimSpaceBytes_around p m q) as (n & k & Hn & E). cbv zeta in E. fold r in E.
  rewrite E.
  assert (trimSpaceBytes (drop n p ++ r ++ take k q)%list = (drop n p ++ r ++ take k q)%list)
    as Hfix by (rewrite <- E; apply trimSpaceBytes_idemp).
  set (p' := drop n p) in *. set (q' := take k q) in *.
  assert ((openBrace ∉ p') ∧ (backquote ∉ p')) as [Hp1 Hp2].
  { split; intros H; [apply Hpre1 | apply Hpre2]; fold p;
      rewrite <- (take_drop n p); apply elem_of_app; by right. }
  assert (closeBrace ∉ q') as Hq.
  { intros H. apply Hpost. fold q. rewrite <- (take_drop k q). apply elem_of_app. by left. }
  assert (stripFence (p' ++ r ++ q')%list = (p' ++ r ++ q')%list) as ->.
  { unfold stripFence, fenceBytes. clearbody p'. destruct p' as [|a p'].
    - unfold r. cbn [app]. by rewrite hasPrefix_head.
    - cbn [app]. rewrite hasPrefix_head; [done |]. intros ->. apply Hp2. by left. }
  rewrite Hfix.
  assert (cutBraces (p' ++ r ++ q')%list = r) as ->.
  { unfold cutBraces. cbv zeta.
    assert (indexFrom [openBrace] (p' ++ r ++ q')%list 0 = Z.of_nat (length p')) as ->.
    { pose proof (indexFrom_first openBrace [] p' ((m ++ [closeBrace]) ++ q')%list 0 Hp1) as H.
      simpl in H. unfold r. simpl. exact H. }
    assert (lastIndexFrom [closeBrace] (p' ++ r ++ q')%list 0
            = Z.of_nat (length p' + S (length m))) as ->.
    { assert (∀ l i, closeBrace ∉ l → lastIndexFrom [closeBrace] l i = -1) as Hnone.
      { induction l as [|a l IH]; intros i Hl; [done |].
        cbn [lastIndexFrom]. cbv zeta. rewrite IH by (intros H; apply Hl; by right).
        rewrite decide_False by (intros H; by apply H).
        rewrite hasPrefix_head; [done |]. intros ->. apply Hl. by left. }
      assert (∀ l1 i, lastIndexFrom [closeBrace] ((l1 ++ [closeBrace]) ++ q')%list i
                      = Z.of_nat (i + length l1)) as Hlast.
      { induction l1 as [|a l1 IH]; intros i.
        - cbn [app lastIndexFrom]. cbv zeta. rewrite Hnone by done.
          rewrite decide_False by (intros H; by apply H).
          assert (hasPrefix (closeBrace :: q') [closeBrace] = true) as ->
            by apply (hasPrefix_app [closeBrace] q').
          f_equal. simpl. lia.
        - cbn [app lastIndexFrom]. cbv zeta. rewrite IH.
          rewrite decide_True by lia. f_equal. simpl. lia. }
      replace (p' ++ r ++ q')%list with (((p' ++ openBrace :: m) ++ [closeBrace]) ++ q')%list
        by (unfold r; simpl; by rewrite <- !app_assoc).
      rewrite Hlast, length_app. f_equal. }
    rewrite decide_True by lia. rewrite decide_True by lia.
    rewrite Nat2Z.id, drop_app_length.
    replace (Z.to_nat (Z.of_nat (length p' + S (length m)) + 1 - Z.of_nat (length p')))
      with (length r) by (unfold r; simpl; rewrite length_app; simpl; lia).
    apply take_app_length. }
  done.
Qed.

Lemma extractJSON_drops_surrounding_text_witness :
  extractJSON ("Here is the result: " ++ object "topics:[{name:heap}]" ++ " Hope it helps!")
  = "{topics:[{name:heap}]}".
Proof.
  refine (extractJSON_drops_surrounding_text "Here is the result: " "topics:[{name:heap}]"
            " Hope it helps!" _ _ _);
    intros H; by repeat (apply elem_of_cons in H as [H|H]; [done |]; try by inversion H).
Defined.

(** * Concept clustering *)

Lemma SFltb_irrefl x : SFltb x x = false.
Proof.
  destruct x as [[]|[]| |[] m e]; try done;
  unfold SFltb; simpl; rewrite Z.compare_refl;
    change (Pos.compare_cont Eq m m) with (m ?= m)%positive;
    by rewrite Pos.compare_refl.
Qed.

Lemma SFltb_finite s1 m1 e1 s2 m2 e2 :
  SFltb (S754_finite s1 m1 e1) (S754_finite s2 m2 e2) = true ↔
  match s1, s2 with
  | true, false => True
  | false, true => False
  | false, false => e1 < e2 ∨ (e1 = e2 ∧ (m1 < m2)%positive)
  | true, true => e2 < e1 ∨ (e1 = e2 ∧ (m2 < m1)%positive)
  end.
Proof.
  unfold SFltb; simpl.
  change (Pos.compare_cont Eq m1 m2) with (m1 ?= m2)%positive.
  destruct s1, s2; try done;
    destruct (Z.compare_spec e1 e2); destruct (Pos.compare_spec m1 m2); simpl;
    split; try done; try lia; intros _; lia.
Qed.

Lemma SFltb_trans x y z : SFltb x y = true → SFltb y z = true → SFltb x z = true.
Proof.
  destruct x as [s1|s1| |s1 m1 e1], y as [s2|s2| |s2 m2 e2], z as [s3|s3| |s3 m3 e3];
    try done; repeat match goal with s : bool |- _ => destruct s end; try done.
  all: rewrite !SFltb_finite; lia.
Qed.


Lemma outweighs_irrefl a : ¬ outweighs a a.
Proof. unfold outweighs, float64_gt. by rewrite SFltb_irrefl. Qed.

Lemma outweighs_trans a b c : outweighs a b → outweighs b c → outweighs a c.
Proof. unfold outweighs, float64_gt. intros H1 H2. by apply (SFltb_trans _ (co_Weight b)). Qed.

Lemma outweighs_asym a b : outweighs a b → ¬ outweighs b a.
Proof. intros H1 H2. apply (outweighs_irrefl a). by apply (outweighs_trans a b a). Qed.

Lemma foldl_perm {A B} (f : list A → B → list A) :
  (∀ s x, f s x ≡ₚ s) → ∀ l s, foldl f s l ≡ₚ s.
Proof.
  intros Hf l. induction l as [|x l IH]; intros s; simpl; [done |].
  by rewrite IH.
Qed.

Lemma swapIfHeavier_perm i j s : swapIfHeavier i j s ≡ₚ s.
Proof.
  unfold swapIfHeavier. destruct (s !! i) as [ci|] eqn:Ei; [| done].
  destruct (s !! j) as [cj|] eqn:Ej; [| done].
  destruct (float64_gt _ _); [| done].
  by apply Permutation_insert_swap.
Qed.

Lemma sortByWeight_perm cs : sortByWeight cs ≡ₚ cs.
Proof.
  unfold sortByWeight. apply foldl_perm. intros s i.
  apply foldl_perm. intros s' j. apply swapIfHeavier_perm.
Qed.

Lemma swapIfHeavier_step i j s :
  (i < j)%nat → settled i s → leads i j s →
  settled i (swapIfHeavier i j s) ∧ leads i (S j) (swapIfHeavier i j s).
Proof.
  intros Hij Hs Hl. unfold swapIfHeavier.
  destruct (s !! i) as [ci|] eqn:Ei.
  2:{ split; [done |]. intros k a b _ Ha. congruence. }
  destruct (s !! j) as [cj|] eqn:Ej.
  2:{ split; [done |]. intros k a b Hk Ha Hb. apply (Hl k a b); [| done | done].
      destruct (decide (k = j)) as [->|]; [congruence | lia]. }
  destruct (float64_gt (co_Weight cj) (co_Weight ci)) eqn:Egt.
  2:{ split; [done |]. intros k a b Hk Ha Hb.
      destruct (decide (k = j)) as [->|].
      - unfold outweighs. rewrite Ei in Ha. assert (a = ci) by congruence.
        assert (b = cj) by congruence. subst. by rewrite Egt.
      - apply (Hl k a b); [lia | congruence | done]. }
  assert (i < length s)%nat as Hi by (by apply lookup_lt_Some in Ei).
  assert (j < length s)%nat as Hj by (by apply lookup_lt_Some in Ej).
  assert (∀ k, (<[i:=cj]> (<[j:=ci]> s)) !! k
               = if decide (k = i) then Some cj
                 else if decide (k = j) then Some ci else s !! k) as Hlk.
  { intros k. destruct (decide (k = i)) as [->|].
    - apply list_lookup_insert_eq. by rewrite length_insert.
    - rewrite list_lookup_insert_ne by done.
      destruct (decide (k = j)) as [->|].
      + by apply list_lookup_insert_eq.
      + by rewrite list_lookup_insert_ne. }
  split.
  - intros i' j' a b Hi' Hij'. rewrite !Hlk.
    rewrite (decide_False (P := i' = i)) by lia.
    rewrite (decide_False (P := i' = j)) by lia. intros Ha.
    destruct (decide (j' = i)) as [->|]; [intros [= <-]; by apply (Hs i' j a cj); try lia |].
    destruct (decide (j' = j)) as [->|]; [intros [= <-]; by apply (Hs i' i a ci) |].
    intros Hb. by apply (Hs i' j' a b).
  - intros k a b Hk. rewrite !Hlk. rewrite decide_True by done.
    rewrite (decide_False (P := k = i)) by lia. intros [= <-].
    destruct (decide (k = j)) as [->|]; [intros [= <-]; by apply outweighs_asym |].
    intros Hb Hgt. apply (Hl k ci b); [lia | done | done |].
    by apply (outweighs_trans b cj ci).
Qed.

Lemma inner_sort i : ∀ len start s,
  (i < start)%nat → settled i s → leads i start s →
  let s' := foldl (λ s j, swapIfHeavier i j s) s (seq start len) in
  settled i s' ∧ leads i (start + len) s'.
Proof.
  induction len as [|len IH]; intros start s Hlt Hs Hl; simpl.
  - by rewrite Nat.add_0_r.
  - destruct (swapIfHeavier_step i start s Hlt Hs Hl) as [Hs' Hl'].
    destruct (IH (S start) _ (Nat.lt_lt_succ_r _ _ Hlt) Hs' Hl') as [H1 H2].
    split; [done |]. by replace (start + S len)%nat with (S start + len)%nat by lia.
Qed.

Lemma outer_sort n : ∀ len i s,
  length s = n → settled i s →
  let s' := foldl (λ s i, foldl (λ s j, swapIfHeavier i j s) s (seq (S i) (n - S i)))
                  s (seq i len) in
  settled (i + len) s'.
Proof.
  induction len as [|len IH]; intros i s Hn Hs; simpl.
  - by rewrite Nat.add_0_r.
  - destruct (inner_sort i (n - S i) (S i) s) as [H1 H2]; [lia | done | |].
    { intros k a b Hk. lia. }
    cbv zeta in H1, H2.
    set (s1 := foldl (λ s j, swapIfHeavier i j s) s (seq (S i) (n - S i))) in *.
    assert (length s1 = n) as Hn1.
    { rewrite <- Hn. apply Permutation_length. apply foldl_perm. intros ??.
      apply swapIfHeavier_perm. }
    replace (i + S len)%nat with (S i + len)%nat by lia.
    apply IH; [done |].
    intros i' j a b Hi' Hij Ha Hb.
    destruct (decide (i' = i)) as [->|]; [| apply (H1 i' j a b); try done; lia].
    apply (H2 j a b); [| done | done].
    apply lookup_lt_Some in Hb. lia.
Qed.

Lemma sortByWeight_descending cs : descending (sortByWeight cs).
Proof.
  pose proof (outer_sort (length cs) (length cs - 1) 0%nat cs eq_refl) as H.
  cbv zeta in H. fold (sortByWeight cs) in H.
  intros i j a b Hij Ha Hb. apply (H ltac:(intros ????; lia) i j a b); try done.
  apply lookup_lt_Some in Hb. rewrite (Permutation_length (sortByWeight_perm cs)) in Hb.
  simpl. lia.
Qed.

Lemma same_id_same_concept l x y :
  NoDup (ids l) → x ∈ l → y ∈ l → co_ID x = co_ID y → x = y.
Proof.
  intros Hnd [i Hi]%list_elem_of_lookup [j Hj]%list_elem_of_lookup E.
  assert (i = j) as ->; [| congruence].
  apply (NoDup_lookup (ids l) i j (co_ID x)); [done | |]; unfold ids;
    rewrite list_lookup_fmap; [by rewrite Hi | by rewrite Hj, E].
Qed.

Lemma selectPrimaryName_first first rest :
  (∀ m, m ∈ rest → ¬ outweighs m first) →
  selectPrimaryName (first :: rest) = co_Name first.
Proof.
  simpl. induction rest as [|c rest IH]; intros H; simpl; [done |].
  destruct (float64_gt (co_Weight c) (co_Weight first)) eqn:E.
  - exfalso. apply (H c); [by left | done].
  - apply IH. intros m Hm. apply H. by right.
Qed.

Lemma primary_is_not_outweighed rest : ∀ first,
  let p := foldl (λ primary concept,
                    if float64_gt (co_Weight concept) (co_Weight primary)
                    then concept else primary) first rest in
  p ∈ first :: rest ∧ (∀ c, c ∈ first :: rest → ¬ outweighs c p)
  ∧ (p = first ∨ outweighs p first).
Proof.
  induction rest as [|c rest IH]; intros first; simpl.
  - split; [by left |]. split; [| by left].
    intros c [->|H]%elem_of_cons; [apply outweighs_irrefl | by inversion H].
  - destruct (float64_gt (co_Weight c) (co_Weight first)) eqn:E.
    + destruct (IH c) as (H1 & H2 & H3). cbv zeta in H1, H2, H3.
      split; [by right |]. split.
      * intros x [->|Hx]%elem_of_cons; [| by apply H2].
        intros Hgt. apply (H2 c); [by left |].
        by apply (outweighs_trans c first).
      * right. destruct H3 as [->|H3]; [done |]. by apply (outweighs_trans _ c).
    + destruct (IH first) as (H1 & H2 & H3). cbv zeta in H1, H2, H3.
      split; [apply elem_of_cons in H1 as [->|H1]; [by left | by do 2 right] |].
      split; [| done].
      intros x [->|[->|Hx]%elem_of_cons]%elem_of_cons.
      * apply H2. by left.
      * intros Hgt. destruct H3 as [H3|H3].
        -- rewrite H3 in Hgt. unfold outweighs in Hgt. congruence.
        -- pose proof (outweighs_trans _ _ _ Hgt H3) as H. unfold outweighs in H. congruence.
      * apply H2. by right.
Qed.

Section clustering_facts.

Variable ToLower : string → string.
Variable threshold : spec_float.
Variable concepts : list Concept.

Lemma shouldMergeConcept_true ms c :
  shouldMergeConcept ToLower ms c threshold = true →
  ∃ j m, ms !! j = Some m ∧ similar ToLower threshold m c.
Proof.
  induction ms as [|m ms IH]; simpl; [done |].
  destruct (float64_ge _ _) eqn:E.
  - intros _. by exists 0%nat, m.
  - intros (j & m' & Hj & Hm')%IH. by exists (S j), m'.
Qed.

Lemma shouldMergeConcept_false ms c m :
  shouldMergeConcept ToLower ms c threshold = false → m ∈ ms →
  ¬ similar ToLower threshold m c.
Proof.
  induction ms as [|m0 ms IH]; simpl; [intros _ H; by inversion H |].
  destruct (float64_ge _ _) eqn:E; [done |].
  intros H [->|Hm]%elem_of_cons; [unfold similar; congruence | by apply IH].
Qed.

Lemma gather_fold P0 seed : ∀ l seen ms P,
  gathered ToLower threshold concepts P0 seed seen ms P → (∀ c, c ∈ l → c ∈ concepts) →
  ∃ ms' P', foldl (gather ToLower threshold) (ms, P) l = (ms', P')
            ∧ gathered ToLower threshold concepts P0 seed (seen ++ l) ms' P'.
Proof.
  induction l as [|o l IH]; intros seen ms P HG Hl; simpl.
  { rewrite app_nil_r. by eauto. }
  assert (∀ c, c ∈ l → c ∈ concepts) as Hl' by (intros c Hc; apply Hl; by right).
  replace (seen ++ o :: l)%list with ((seen ++ [o]) ++ l)%list by (by rewrite <- app_assoc).
  destruct HG as (G1 & G2 & G3 & G4 & G5 & G6 & G7).
  destruct (decide (co_ID o ∈ P)) as [Hin|Hout].
  { apply IH; [| done]. refine (conj G1 (conj G2 (conj G3 (conj G4 (conj G5 (conj G6 _)))))).
    intros c [Hc| ->%list_elem_of_singleton]%elem_of_app; [by apply G7 | done]. }
  destruct (shouldMergeConcept ToLower ms o threshold) eqn:Em.
  2:{ apply IH; [| done].
      refine (conj G1 (conj G2 (conj G3 (conj G4 (conj G5 (conj G6 _)))))).
      intros c [Hc| ->%list_elem_of_singleton]%elem_of_app; [by apply G7 |].
      intros _. apply (shouldMergeConcept_false ms); [done |].
      destruct ms as [|m0 ms]; [done |]. injection G6 as ->. by left. }
  apply IH; [| done].
  assert ((co_ID o ∉ ids ms) ∧ (co_ID o ∉ P0)) as [Hn1 Hn2].
  { subst P. split; intros H; apply Hout, elem_of_union; [left | by right].
    by apply elem_of_list_to_set. }
  refine (conj _ (conj _ (conj _ (conj _ (conj _ (conj _ _)))))).
  - unfold ids. rewrite fmap_app. simpl. apply NoDup_app. split; [done |]. split.
    + intros x Hx [->|H]%elem_of_cons; [done | by inversion H].
    + apply NoDup_singleton.
  - subst P. unfold ids. rewrite fmap_app, list_to_set_app_L. simpl.
    rewrite union_empty_r_L, (comm_L (∪) (list_to_set _) {[co_ID o]}).
    apply (assoc_L (∪)).
  - intros m [Hm| ->%list_elem_of_singleton]%elem_of_app; [by apply G3 | done].
  - intros m [Hm| ->%list_elem_of_singleton]%elem_of_app; [by apply G4 |].
    apply Hl. by left.
  - intros k m Hk. destruct (decide (S k < length ms)%nat) as [Hlt|Hge].
    + rewrite lookup_app_l in Hk by done. rewrite take_app_le by lia. by apply G5.
    + assert (S k = length ms) as Hk'.
      { apply lookup_lt_Some in Hk. rewrite length_app in Hk. simpl in Hk. lia. }
      rewrite Hk' in Hk |- *. rewrite take_app_length.
      rewrite lookup_app_r in Hk by lia. rewrite Nat.sub_diag in Hk.
      injection Hk as <-. done.
  - destruct ms; [done |]. done.
  - intros c [Hc| ->%list_elem_of_singleton]%elem_of_app Hid.
    + apply G7; [done |]. intros Hin. apply Hid, elem_of_union. by right.
    + exfalso. apply Hid, elem_of_union. left. by apply elem_of_singleton.
Qed.

Lemma members_snoc clusters cl :
  members (clusters ++ [cl]) = (members clusters ++ cc_concepts cl)%list.
Proof. unfold members. rewrite fmap_app, concat_app. simpl. by rewrite app_nil_r. Qed.

Lemma formCluster_fold sorted :
  sorted ≡ₚ concepts → descending sorted →
  ∀ l pre clusters P,
  sorted = (pre ++ l)%list → formed ToLower threshold concepts pre clusters P →
  ∃ clusters' P', foldl (formCluster ToLower concepts threshold) (clusters, P) l
                  = (clusters', P')
                  ∧ formed ToLower threshold concepts sorted clusters' P'.
Proof.
  intros Hperm Hdesc. induction l as [|seed l IH]; intros pre clusters P Hs HF.
  { rewrite app_nil_r in Hs. subst pre. simpl. eauto. }
  assert (sorted = ((pre ++ [seed]) ++ l)%list) as Hs' by (by rewrite <- app_assoc).
  cbn [foldl]. unfold formCluster at 2.
  destruct HF as (F1 & F2 & F3 & F4 & F5 & F6 & F7).
  destruct (decide (co_ID seed ∈ P)) as [Hin|Hout].
  { apply (IH _ _ _ Hs'). refine (conj F1 (conj F2 (conj _ (conj F4 (conj F5 (conj F6 F7)))))).
    intros c [Hc| ->%list_elem_of_singleton]%elem_of_app; [by apply F3 | done]. }
  assert (seed ∈ concepts) as Hseed.
  { rewrite <- Hperm, Hs. apply elem_of_app. right. by left. }
  destruct (gather_fold P seed concepts [] [seed] ({[co_ID seed]} ∪ P)) as (ms & P1 & E & HG);
    [| done |].
  { refine (conj _ (conj _ (conj _ (conj _ (conj _ (conj _ _)))))).
    - apply NoDup_singleton.
    - simpl. by rewrite union_empty_r_L.
    - by intros m ->%list_elem_of_singleton.
    - by intros m ->%list_elem_of_singleton.
    - by intros k m Hk.
    - done.
    - intros c Hc. by inversion Hc. }
  rewrite E. destruct HG as (G1 & G2 & G3 & G4 & G5 & G6 & G7). simpl in G7.
  assert (∀ c, c ∈ concepts → co_ID c ∉ P → ¬ outweighs c seed) as Hdom.
  { intros c Hc Hcid. rewrite <- Hperm in Hc. rewrite Hs in Hc.
    apply elem_of_app in Hc as [Hc|Hc]; [exfalso; by apply Hcid, F3 |].
    apply elem_of_cons in Hc as [->|Hc]; [apply outweighs_irrefl |].
    apply list_elem_of_lookup in Hc as [k Hk].
    apply (Hdesc (length pre) (length pre + S k)%nat seed c); [lia | |]; rewrite Hs.
    - by rewrite lookup_app_r, Nat.sub_diag by lia.
    - rewrite lookup_app_r by lia.
      by replace (length pre + S k - length pre)%nat with (S k) by lia. }
  assert (∀ c, co_ID c ∉ P1 → co_ID c ∉ P) as Hmono.
  { intros c Hc Hin. apply Hc. subst P1. apply elem_of_union. by right. }
  apply (IH _ _ _ Hs').
  refine (conj _ (conj _ (conj _ (conj _ (conj _ (conj _ _)))))).
  - rewrite members_snoc. unfold ids in *. rewrite fmap_app, list_to_set_app_L. subst P1 P.
    apply (comm_L (∪)).
  - rewrite members_snoc. unfold ids in *. rewrite fmap_app. apply NoDup_app.
    split; [done |]. split; [| done].
    intros x Hx Hx'. apply list_elem_of_fmap in Hx' as (m & -> & Hm).
    apply (G3 m Hm). subst P. by apply elem_of_list_to_set.
  - intros c [Hc| ->%list_elem_of_singleton]%elem_of_app.
    + subst P1. apply elem_of_union. right. by apply F3.
    + subst P1. apply elem_of_union. left. apply elem_of_list_to_set.
      destruct ms as [|m0 ms]; [done |]. injection G6 as ->. simpl. by left.
  - apply Forall_app. split; [done |]. apply Forall_singleton.
    refine (conj G5 (conj eq_refl _)). exists seed. split; [done |]. simpl.
    destruct ms as [|m0 ms]; [done |]. injection G6 as ->.
    apply selectPrimaryName_first. intros m Hm. apply Hdom.
    + apply G4. by right.
    + apply G3. by right.
  - rewrite members_snoc. intros c [Hc|Hc]%elem_of_app; [by apply F5 | by apply G4].
  - intros a b cla clb s m Ha Hb Hhead Hm.
    destruct (decide (b < length clusters)%nat) as [Hlt|Hge].
    + apply lookup_lt_Some in Ha as Ha'. rewrite length_app in Ha'. simpl in Ha'.
      rewrite lookup_app_l in Hb by lia.
      destruct (decide (a < length clusters)%nat) as [Hlt'|Hge'].
      * rewrite lookup_app_l in Ha by lia. by apply (F6 a b cla clb).
      * split; intros; lia.
    + apply lookup_lt_Some in Hb as Hb'. rewrite length_app in Hb'. simpl in Hb'.
      assert (b = length clusters) as -> by lia.
      rewrite lookup_app_r, Nat.sub_diag in Hb by lia. injection Hb as <-.
      simpl in Hm.
      destruct (decide (a < length clusters)%nat) as [Hlt|Hge'].
      * rewrite lookup_app_l in Ha by lia.
        destruct (F7 cla s m) as [H1 H2];
          [by eapply list_elem_of_lookup_2 | done | by apply G4 | by apply G3 |].
        done.
      * apply lookup_lt_Some in Ha as Ha'. rewrite length_app in Ha'. simpl in Ha'.
        assert (a = length clusters) as -> by lia.
        rewrite lookup_app_r, Nat.sub_diag in Ha by lia. injection Ha as <-.
        simpl in Hhead. assert (s = seed) as -> by congruence.
        split; [| lia]. intros _. apply Hdom; [by apply G4 | by apply G3].
  - intros cl s c [Hcl| ->%list_elem_of_singleton]%elem_of_app Hhead Hc Hcid.
    + apply (F7 cl s c); try done. by apply Hmono.
    + simpl in Hhead. assert (s = seed) as -> by congruence.
      split; [apply Hdom; [done | by apply Hmono] | by apply G7].
Qed.

Lemma clusterConcepts_formed :
  ∃ P, formed ToLower threshold concepts (sortByWeight concepts)
         (clusterConcepts ToLower concepts threshold) P.
Proof.
  assert (formed ToLower threshold concepts [] [] ∅) as H0.
  { refine (conj _ (conj _ (conj _ (conj _ (conj _ (conj _ _)))))).
    - done.
    - constructor.
    - intros c Hc. by inversion Hc.
    - done.
    - intros c Hc. by inversion Hc.
    - intros a b cla clb s m Ha. done.
    - intros cl s c Hcl. by inversion Hcl. }
  unfold clusterConcepts. destruct (decide (length concepts = 0%nat)) as [Hz|Hn].
  - apply nil_length_inv in Hz. exists ∅. rewrite Hz in H0 |- *. exact H0.
  - destruct (formCluster_fold (sortByWeight concepts) (sortByWeight_perm concepts)
                (sortByWeight_descending concepts) (sortByWeight concepts) [] [] ∅ eq_refl H0)
      as (clusters & P & E & HF).
    rewrite E. by exists P.
Qed.

End clustering_facts.

(** [clusterConcepts] sorts the concepts into clusters: no cluster is
    empty, no two concepts of the clusters have the same ID, every
    concept of a cluster is one of the given concepts, and every given
    concept has its ID in some cluster.  When the given concepts have
    distinct IDs, the clusters put end to end are the given concepts
    in some order: each concept is in exactly one cluster. *)
Theorem clusterConcepts_partitions ToLower concepts threshold :
  let clusters := clusterConcepts ToLower concepts threshold in
  (∀ cl, cl ∈ clusters → cc_concepts cl ≠ [])
  ∧ NoDup (co_ID <$> members clusters)
  ∧ (∀ c, c ∈ members clusters → c ∈ concepts)
  ∧ (∀ c, c ∈ concepts → co_ID c ∈ co_ID <$> members clusters)
  ∧ (NoDup (co_ID <$> concepts) → members clusters ≡ₚ concepts).
Proof.
  intros clusters.
  destruct (clusterConcepts_formed ToLower threshold concepts)
    as (P & F1 & F2 & F3 & F4 & F5 & _). fold clusters in F1, F2, F3, F4, F5.
  assert (∀ c, c ∈ concepts → co_ID c ∈ co_ID <$> members clusters) as Hcov.
  { intros c Hc. rewrite <- (sortByWeight_perm concepts) in Hc.
    apply F3 in Hc. rewrite F1 in Hc. by apply elem_of_list_to_set in Hc. }
  split_and!; try done.
  - intros cl Hcl Hnil. rewrite Forall_forall in F4.
    destruct (F4 cl Hcl) as (_ & _ & seed & Hseed & _). by rewrite Hnil in Hseed.
  - intros Hnd. apply NoDup_Permutation.
    + by apply (NoDup_fmap_1 co_ID).
    + by apply (NoDup_fmap_1 co_ID).
    + intros x. split; [by apply F5 |]. intros Hx.
      destruct (proj1 (list_elem_of_fmap _ _ _) (Hcov x Hx)) as (y & Hid & Hy).
      by rewrite (same_id_same_concept concepts x y Hnd Hx (F5 y Hy) Hid).
Qed.

Lemma clusterConcepts_partitions_witness :
  members (clusterConcepts asciiLower sampleConcepts half) ≡ₚ sampleConcepts.
Proof.
  apply (clusterConcepts_partitions asciiLower sampleConcepts half).
  unfold sampleConcepts. simpl. repeat (apply NoDup_cons; split; [| ]).
  - intros H. repeat (apply elem_of_cons in H as [H|H]; [done |]). by inversion H.
  - intros H. repeat (apply elem_of_cons in H as [H|H]; [done |]). by inversion H.
  - intros H. by inversion H.
  - apply NoDup_nil_2.
Defined.

(** The concepts of a cluster are linked by similarity: every concept
    of a cluster but the first reaches the threshold with some concept
    before it in the cluster. *)
Theorem clusters_are_linked ToLower concepts threshold cl k m :
  cl ∈ clusterConcepts ToLower concepts threshold →
  cc_concepts cl !! S k = Some m →
  ∃ j m', (j ≤ k)%nat ∧ cc_concepts cl !! j = Some m'
          ∧ float64_ge (calculateConceptSimilarity ToLower m' m) threshold = true.
Proof.
  intros Hcl Hm.
  destruct (clusterConcepts_formed ToLower threshold concepts)
    as (P & _ & _ & _ & F4 & _).
  rewrite Forall_forall in F4. destruct (F4 cl Hcl) as (Hlinked & _).
  destruct (shouldMergeConcept_true ToLower threshold _ _ (Hlinked k m Hm))
    as (j & m' & Hj & Hsim).
  apply lookup_take_Some in Hj as [Hj Hlt].
  exists j, m'. split; [lia |]. by split.
Qed.

Lemma clusters_are_linked_witness :
  ∃ j m', (j ≤ 0)%nat
          ∧ [searchTrees; binarySearch] !! j = Some m'
          ∧ float64_ge (calculateConceptSimilarity asciiLower m' binarySearch) half = true.
Proof.
  apply (clusters_are_linked asciiLower sampleConcepts half
           (mkConceptCluster [searchTrees; binarySearch] (float64_of_int 4)
              "binary search trees") 0 binarySearch).
  - apply elem_of_cons. left. vm_compute. reflexivity.
  - reflexivity.
Defined.

(** Clusters are kept apart by their first concepts: no concept of a
    later cluster reaches the threshold with the first concept of an
    earlier cluster. *)
Theorem clusters_are_separated ToLower concepts threshold a b cla clb s m :
  let clusters := clusterConcepts ToLower concepts threshold in
  clusters !! a = Some cla → clusters !! b = Some clb → (a < b)%nat →
  head (cc_concepts cla) = Some s → m ∈ cc_concepts clb →
  float64_ge (calculateConceptSimilarity ToLower s m) threshold = false.
Proof.
  intros clusters Ha Hb Hab Hs Hm.
  destruct (clusterConcepts_formed ToLower threshold concepts)
    as (P & _ & _ & _ & _ & _ & F6 & _).
  destruct (F6 a b cla clb s m Ha Hb Hs Hm) as [_ H].
  apply not_true_is_false. by apply H.
Qed.

Lemma clusters_are_separated_witness :
  float64_ge (calculateConceptSimilarity asciiLower searchTrees paging) half = false.
Proof.
  apply (clusters_are_separated asciiLower sampleConcepts half 0 1
           (mkConceptCluster [searchTrees; binarySearch] (float64_of_int 4)
              "binary search trees")
           (mkConceptCluster [paging] (float64_of_int 2) "Paging")).
  - vm_compute. reflexivity.
  - vm_compute. reflexivity.
  - lia.
  - reflexivity.
  - apply elem_of_cons. by left.
Defined.

(** Clusters come heaviest first.  Every cluster has a first concept,
    and no concept of the cluster or of a later cluster outweighs
    it; the cluster carries the name of its first concept (so the
    choice of a name after the concepts are gathered never changes
    the name the cluster began with) and the average weight of its
    concepts. *)
Theorem clusters_come_heaviest_first ToLower concepts threshold a b cla clb :
  let clusters := clusterConcepts ToLower concepts threshold in
  clusters !! a = Some cla → clusters !! b = Some clb → (a ≤ b)%nat →
  ∃ s, head (cc_concepts cla) = Some s
       ∧ cc_primaryName cla = co_Name s
       ∧ cc_avgWeight cla = calculateAverageWeight (cc_concepts cla)
       ∧ ∀ m, m ∈ cc_concepts clb → float64_gt (co_Weight m) (co_Weight s) = false.
Proof.
  intros clusters Ha Hb Hab.
  destruct (clusterConcepts_formed ToLower threshold concepts)
    as (P & _ & _ & _ & F4 & _ & F6 & _).
  rewrite Forall_forall in F4.
  destruct (F4 cla (list_elem_of_lookup_2 _ _ _ Ha)) as (_ & Havg & s & Hs & Hname).
  exists s. split_and!; try done.
  intros m Hm. destruct (F6 a b cla clb s m Ha Hb Hs Hm) as [H _].
  apply not_true_is_false. by apply H.
Qed.

Lemma clusters_come_heaviest_first_witness :
  ∃ s, head [searchTrees; binarySearch] = Some s
       ∧ "binary search trees" = co_Name s
       ∧ float64_of_int 4 = calculateAverageWeight [searchTrees; binarySearch]
       ∧ ∀ m, m ∈ [paging] → float64_gt (co_Weight m) (co_Weight s) = false.
Proof.
  apply (clusters_come_heaviest_first asciiLower sampleConcepts half 0 1
           (mkConceptCluster [searchTrees; binarySearch] (float64_of_int 4)
              "binary search trees")
           (mkConceptCluster [paging] (float64_of_int 2) "Paging")).
  - vm_compute. reflexivity.
  - vm_compute. reflexivity.
  - lia.
Defined.

(** [selectPrimaryName] returns the name of a concept of the list that
    no concept of the list outweighs. *)
Theorem selectPrimaryName_picks_a_heaviest concepts :
  concepts ≠ [] →
  ∃ p, p ∈ concepts
       ∧ selectPrimaryName concepts = co_Name p
       ∧ ∀ c, c ∈ concepts → float64_gt (co_Weight c) (co_Weight p) = false.
Proof.
  destruct concepts as [|first rest]; [done |]. intros _.
  destruct (primary_is_not_outweighed rest first) as (H1 & H2 & _). cbv zeta in H1, H2.
  eexists. split; [exact H1 |]. split; [done |].
  intros c Hc. apply not_true_is_false. by apply H2.
Qed.

Lemma selectPrimaryName_picks_a_heaviest_witness :
  ∃ p, p ∈ sampleConcepts
       ∧ selectPrimaryName sampleConcepts = co_Name p
       ∧ ∀ c, c ∈ sampleConcepts → float64_gt (co_Weight c) (co_Weight p) = false.
Proof.
  apply (selectPrimaryName_picks_a_heaviest sampleConcepts). unfold sampleConcepts. done.
Defined.

(** * The ingestion service *)

Lemma progressOf_app l1 l2 : progressOf (l1 ++ l2) = (progressOf l1 ++ progressOf l2)%list.
Proof. apply omap_app. Qed.

Lemma upserts_app l1 l2 : upserts (l1 ++ l2) = (upserts l1 ++ upserts l2)%list.
Proof. apply omap_app. Qed.

Lemma progressOf_report progress step message current total :
  progressOf (report progress step message current total)
  = if progress then [mkProgressEvent step message current total] else [].
Proof. by destruct progress. Qed.

Lemma upserts_report progress step message current total :
  upserts (report progress step message current total) = [].
Proof. by destruct progress. Qed.

Lemma progressOf_relayed progress events :
  progressOf (relayed progress events) = if progress then events else [].
Proof.
  destruct progress; [| done]. unfold relayed.
  induction events as [|[s m c t] events IH]; [done |].
  rewrite fmap_cons. rewrite <- IH at 2. done.
Qed.

Lemma upserts_relayed progress events : upserts (relayed progress events) = [].
Proof.
  destruct progress; [| done]. unfold relayed.
  induction events as [|e events IH]; [done |]. done.
Qed.

Lemma saveTopics_spec w doc progress n : ∀ topics i,
  let r := saveTopics w doc progress n i topics in
  let said ts := if progress && (n >? 0) then imap (λ j, topicEvent n (i + j)) ts else [] in
  (r.2 = None
   ∧ upserts r.1 = savedTopic doc <$> topics
   ∧ progressOf r.1 = said topics
   ∧ ∀ j, (j < length topics)%nat → UpsertExamTopic w (i + j) = None)
  ∨ (∃ j t err,
       topics !! j = Some t ∧ UpsertExamTopic w (i + j) = Some err
       ∧ (∀ j', (j' < j)%nat → UpsertExamTopic w (i + j') = None)
       ∧ r.2 = Some ("upsert concept " ++ et_Name t ++ ": " ++ err)
       ∧ upserts r.1 = savedTopic doc <$> take (S j) topics
       ∧ progressOf r.1 = said (take j topics)).
Proof.
  assert (∀ t, (if et_Frequency t <=? 0 then 1 else et_Frequency t) = Z.max 1 (et_Frequency t))
    as Hfreq by (intros t; destruct (Z.leb_spec (et_Frequency t) 0); lia).
  induction topics as [|t topics IH]; intros i; cbv zeta.
  { left. simpl. split_and!; try done; [by destruct (progress && _) | intros j Hj; lia]. }
  cbn [saveTopics]. cbv zeta.
  destruct (UpsertExamTopic w i) as [err|] eqn:Eu.
  { right. exists 0%nat, t, err. rewrite Nat.add_0_r. simpl.
    split_and!; try done; [intros j' Hj'; lia | | by destruct (progress && _)].
    unfold savedTopic. by rewrite Hfreq. }
  specialize (IH (S i)). cbv zeta in IH.
  destruct (saveTopics w doc progress n (S i) topics) as [calls err] eqn:Es.
  cbn [fst snd] in IH |- *.
  assert (progressOf
            ((if progress && (n >? 0)
              then [CallProgress "save" ("Saved topic: " ++ et_Name t)
                      (90 + Z.quot (10 * (Z.of_nat i + 1)) n) 100]
              else []) ++ calls)
            = ((if progress && (n >? 0) then [topicEvent n (i + 0) t] else [])
                 ++ progressOf calls)%list) as Hp.
  { rewrite progressOf_app. f_equal. destruct (progress && (n >? 0)) eqn:E; [| done].
    simpl. unfold topicEvent. rewrite Nat.add_0_r.
    rewrite Z.quot_div_nonneg; [done | lia |].
    apply andb_true_iff in E as [_ E]. lia. }
  assert (∀ ts : list ExamTopicResult,
            (if progress && (n >? 0) then imap (λ j, topicEvent n (S i + j)) ts else [])
                = if progress && (n >? 0)
                  then imap ((λ j, topicEvent n (i + j)) ∘ S) ts else []) as Hshift.
  { intros ts. destruct (progress && _); [| done]. apply imap_ext. intros j x _. simpl.
    by replace (i + S j)%nat with (S (i + j)) by lia. }
  destruct IH as [(H1 & H2 & H3 & H4)|(j & t' & e & H1 & H2 & H3 & H4 & H5 & H6)].
  - left. split_and!; [done | | |].
    + change (upserts (CallUpsertExamTopic ?a ?b :: ?l)) with ((a, b) :: upserts l).
      rewrite upserts_app. replace (upserts (if progress && (n >? 0) then _ else [])) with
        (@nil (DocumentTopic * string)) by (by destruct (progress && _)).
      simpl. rewrite H2. unfold savedTopic at 2. by rewrite Hfreq.
    + change (progressOf (CallUpsertExamTopic ?a ?b :: ?l)) with (progressOf l).
      rewrite Hp, H3, Hshift. by destruct (progress && _).
    + intros [|j] Hj; [by rewrite Nat.add_0_r |].
      replace (i + S j)%nat with (S i + j)%nat by lia. apply H4. simpl in Hj. lia.
  - right. exists (S j), t', e. split_and!; [done | | | done | |].
    + by replace (i + S j)%nat with (S i + j)%nat by lia.
    + intros [|j'] Hj'; [by rewrite Nat.add_0_r |].
      replace (i + S j')%nat with (S i + j')%nat by lia. apply H3. lia.
    + change (upserts (CallUpsertExamTopic ?a ?b :: ?l)) with ((a, b) :: upserts l).
      rewrite upserts_app. replace (upserts (if progress && (n >? 0) then _ else [])) with
        (@nil (DocumentTopic * string)) by (by destruct (progress && _)).
      simpl. rewrite H5. unfold savedTopic at 2. by rewrite Hfreq.
    + change (progressOf (CallUpsertExamTopic ?a ?b :: ?l)) with (progressOf l).
      rewrite Hp, H6, Hshift. by destruct (progress && _).
Qed.

Lemma cardsOf_new recordID docID protos :
  Forall (newCard (mkNullInt64 recordID true) (mkNullInt64 docID true))
         (cardsOf recordID docID protos).
Proof.
  induction protos as [|p protos IH]; simpl; [constructor |].
  destruct (decide _) as [H|H]; [done |].
  constructor; [| done]. unfold newCard; simpl.
  split_and!; try done.
  - intros E. apply H. by left.
  - apply TrimSpace_idemp.
  - intros E. apply H. by right.
  - apply TrimSpace_idemp.
Qed.

Lemma saveConcepts_clean w doc progress n : ∀ concepts idx,
  Forall (cleanCall w doc) (saveConcepts w doc progress n idx concepts).1.
Proof.
  induction concepts as [|c concepts IH]; intros idx; simpl; [constructor |].
  destruct (decide _) as [H|H]; [apply IH |].
  destruct (TouchConcept w idx) as [err|record] eqn:Et; simpl.
  { constructor; [| constructor]. simpl. intros E. apply H. by left. }
  assert (cleanCall w doc (CallTouchConcept (fc_Name c) (fc_Description c))) as H1.
  { simpl. intros E. apply H. by left. }
  assert (cleanCall w doc
            (CallBulkUpsertCards (mkNullInt64 (co_ID record) true) (mkNullInt64 (d_ID doc) true)
               (cardsOf (co_ID record) (d_ID doc) (fc_Cards c)))) as H2.
  { simpl. split; [done |]. split; [by exists idx, record |]. apply cardsOf_new. }
  destruct (BulkUpsertCards w idx) as [err|] eqn:Eb; simpl.
  { constructor; [done |]. constructor; [done | constructor]. }
  specialize (IH (S idx)).
  destruct (saveConcepts w doc progress n (S idx) concepts) as [calls err]. simpl in *.
  constructor; [done |]. constructor; [done |]. apply Forall_app. split; [| done].
  destruct (progress && _); [| constructor]. constructor; [done | constructor].
Qed.

Lemma report_clean w doc progress step message current total :
  Forall (cleanCall w doc) (report progress step message current total).
Proof. destruct progress; [| constructor]. constructor; [done | constructor]. Qed.

Lemma relayed_clean w doc progress events :
  Forall (cleanCall w doc) (relayed progress events).
Proof.
  destruct progress; [| constructor]. unfold relayed. apply Forall_fmap.
  by apply Forall_true.
Qed.



(** When the AI service has returned the topics of an exam,
    [ProcessExamDocumentWithProgress] hands them to [UpsertExamTopic] one
    by one in their order, each with the ID of the document, its name
    and description, and its frequency, or 1 when that is not positive.
    When every call succeeds, all topics are handed over and the
    extraction is returned as the AI service gave it (frequencies
    included).  Otherwise it stops at the first call that fails: the
    error names the topic, and no topic after it is handed over. *)
Theorem exam_topics_are_saved_in_order w doc progress events extraction :
  ai w = true →
  ExtractExamTopicsWithProgress w (d_StoredPath doc) = (events, inr extraction) →
  let topics := ee_Topics extraction in
  let calls := (ProcessExamDocumentWithProgress w doc progress).1 in
  let res := (ProcessExamDocumentWithProgress w doc progress).2 in
  (res = inr extraction
   ∧ upserts calls = savedTopic doc <$> topics
   ∧ ∀ j, (j < length topics)%nat → UpsertExamTopic w j = None)
  ∨ (∃ j t err,
       topics !! j = Some t ∧ UpsertExamTopic w j = Some err
       ∧ (∀ j', (j' < j)%nat → UpsertExamTopic w j' = None)
       ∧ res = inl ("upsert concept " ++ et_Name t ++ ": " ++ err)
       ∧ upserts calls = savedTopic doc <$> take (S j) topics).
Proof.
  intros Hai He topics calls res. subst calls res.
  unfold ProcessExamDocumentWithProgress. rewrite Hai, He. cbn [negb].
  pose proof (saveTopics_spec w doc progress (Z.of_nat (length topics)) topics 0) as H.
  cbv zeta in H. fold topics.
  destruct (saveTopics w doc progress (Z.of_nat (length topics)) 0 topics) as [calls err].
  cbn [fst snd] in H.
  assert (∀ tail, upserts
            ((report progress "extract" "Starting exam topic extraction" 0 100
                ++ CallExtractExamTopics (d_StoredPath doc) :: relayed progress events)
               ++ report progress "save" "Saving topics to database" 90 100 ++ calls ++ tail)
          = (upserts calls ++ upserts tail)%list) as Hu.
  { intros tail. rewrite !upserts_app, !upserts_report.
    change (upserts (CallExtractExamTopics ?p :: ?l)) with (upserts l).
    by rewrite upserts_relayed. }
  destruct H as [(H1 & H2 & _ & H4)|(j & t & e & H1 & H2 & H3 & H4 & H5 & _)].
  - left. subst err. cbn [fst snd]. split; [done |]. split; [| done].
    by rewrite Hu, upserts_report, app_nil_r.
  - right. exists j, t, e. subst err. cbn [fst snd].
    split_and!; try done.
    rewrite <- (app_nil_r calls) at 1. rewrite Hu. simpl. by rewrite app_nil_r.
Qed.

Lemma exam_topics_are_saved_in_order_witness :
  let topics := ee_Topics sampleExam in
  let calls := (ProcessExamDocumentWithProgress lockedDatabase sampleDocument true).1 in
  let res := (ProcessExamDocumentWithProgress lockedDatabase sampleDocument true).2 in
  (res = inr sampleExam
   ∧ upserts calls = savedTopic sampleDocument <$> topics
   ∧ ∀ j, (j < length topics)%nat → UpsertExamTopic lockedDatabase j = None)
  ∨ (∃ j t err,
       topics !! j = Some t ∧ UpsertExamTopic lockedDatabase j = Some err
       ∧ (∀ j', (j' < j)%nat → UpsertExamTopic lockedDatabase j' = None)
       ∧ res = inl ("upsert concept " ++ et_Name t ++ ": " ++ err)
       ∧ upserts calls = savedTopic sampleDocument <$> take (S j) topics).
Proof.
  apply (exam_topics_are_saved_in_order lockedDatabase sampleDocument true analysing sampleExam);
    reflexivity.
Defined.

(** When an exam goes through with a callback, the callback is called
    with 0 of 100 at the start, then by the AI service, then with 90
    when saving begins, after each topic with 90 + 10 (i + 1) / n (the
    integer quotient, for topic i of n, counted from 0), and with 100 at
    the end.  The reports of the save phase lie between 90 and 100 and
    never go down, and the last of them is 100.  Without a callback
    nothing is reported. *)
Theorem exam_progress_runs_from_90_to_100 w doc events extraction :
  ai w = true →
  ExtractExamTopicsWithProgress w (d_StoredPath doc) = (events, inr extraction) →
  (∀ j, (j < length (ee_Topics extraction))%nat → UpsertExamTopic w j = None) →
  let topics := ee_Topics extraction in
  let perTopic := imap (topicEvent (Z.of_nat (length topics))) topics in
  progressOf (ProcessExamDocumentWithProgress w doc true).1
  = (mkProgressEvent "extract" "Starting exam topic extraction" 0 100
       :: events
       ++ mkProgressEvent "save" "Saving topics to database" 90 100
       :: perTopic
       ++ [mkProgressEvent "complete" "Processing complete" 100 100])%list
  ∧ (∀ i e, perTopic !! i = Some e → 90 ≤ ev_current e ≤ 100)
  ∧ (∀ i j e e', (i ≤ j)%nat → perTopic !! i = Some e → perTopic !! j = Some e' →
       ev_current e ≤ ev_current e')
  ∧ (∀ e, last perTopic = Some e → ev_current e = 100)
  ∧ progressOf (ProcessExamDocument w doc).1 = [].
Proof.
  intros Hai He Hall topics perTopic.
  set (n := Z.of_nat (length topics)) in *.
  assert (∀ progress,
            progressOf (ProcessExamDocumentWithProgress w doc progress).1
            = if progress
              then (mkProgressEvent "extract" "Starting exam topic extraction" 0 100
                      :: events
                      ++ mkProgressEvent "save" "Saving topics to database" 90 100
                      :: perTopic
                      ++ [mkProgressEvent "complete" "Processing complete" 100 100])%list
              else []) as Hrun.
  { intros progress. unfold ProcessExamDocumentWithProgress. rewrite Hai, He. cbn [negb].
    pose proof (saveTopics_spec w doc progress n topics 0) as H.
    cbv zeta in H. fold topics n.
    destruct (saveTopics w doc progress n 0 topics) as [calls err]. cbn [fst snd] in H.
    destruct H as [(H1 & _ & H3 & _)|(j & t & e & H1 & H2 & _)].
    2:{ apply lookup_lt_Some in H1. rewrite Hall in H2; [done | by apply H1]. }
    subst err. cbn [fst snd].
    rewrite !progressOf_app, !progressOf_report.
    change (progressOf (CallExtractExamTopics ?p :: ?l)) with (progressOf l).
    rewrite progressOf_relayed, H3.
    destruct progress; [| done]. simpl.
    destruct (n >? 0) eqn:En; [done |].
    assert (topics = []) as Hnil by (apply nil_length_inv; lia).
    unfold perTopic. by rewrite Hnil. }
  assert (∀ i e, perTopic !! i = Some e →
                 (i < length topics)%nat
                 ∧ ev_current e = 90 + 10 * (Z.of_nat i + 1) / n) as Hev.
  { intros i e Hi. unfold perTopic in Hi. rewrite list_lookup_imap in Hi.
    destruct (topics !! i) as [t|] eqn:Et; [| done]. injection Hi as <-.
    split; [by apply lookup_lt_Some in Et | done]. }
  assert (∀ i, (i < length topics)%nat → 10 * (Z.of_nat i + 1) / n ≤ 10) as Hhi.
  { intros i Hi. assert (10 * (Z.of_nat i + 1) / n ≤ 10 * n / n) as H
      by (apply Z.div_le_mono; lia).
    rewrite (Z.div_mul 10 n) in H by lia. done. }
  split_and!.
  - apply (Hrun true).
  - intros i e Hi. destruct (Hev i e Hi) as [Hlt ->].
    pose proof (Hhi i Hlt). assert (0 ≤ 10 * (Z.of_nat i + 1) / n) by (apply Z.div_pos; lia).
    lia.
  - intros i j e e' Hij Hi Hj. destruct (Hev i e Hi) as [Hlt ->].
    destruct (Hev j e' Hj) as [Hlt' ->].
    apply Z.add_le_mono_l, Z.div_le_mono; lia.
  - intros e He'. rewrite last_lookup in He'. destruct (Hev _ e He') as [Hlt ->].
    unfold perTopic in *. rewrite length_imap in *.
    replace (Z.of_nat (Nat.pred (length topics)) + 1) with n by lia.
    rewrite (Z.div_mul 10 n) by lia. done.
  - apply (Hrun false).
Qed.

Lemma exam_progress_runs_from_90_to_100_witness :
  ev_current <$> progressOf (ProcessExamDocumentWithProgress working sampleDocument true).1
  = [0; 40; 90; 93; 96; 100; 100].
Proof.
  rewrite (proj1 (exam_progress_runs_from_90_to_100 working sampleDocument analysing sampleExam
                    eq_refl eq_refl (λ _ _, eq_refl))).
  reflexivity.
Defined.

(** [ProcessInformationDocumentWithProgress] never saves an incomplete
    card, whatever the AI service returns and whichever calls fail.
    Every card handed to [BulkUpsertCards] has a front and a back that
    are not empty and have no white space around them, belongs to the
    document and to the concept record [TouchConcept] returned, and is
    new to the scheduler (state New, zero counters, no due time).  A
    concept with a blank name is never handed to [TouchConcept].  The
    AI service is asked with the concepts and cards that were listed
    (100 and 120 at most), the first 12 concepts as focus. *)
Theorem only_complete_cards_are_saved w doc progress :
  Forall (cleanCall w doc) (ProcessInformationDocumentWithProgress w doc progress).1.
Proof.
  unfold ProcessInformationDocumentWithProgress.
  destruct (ai w); cbn [negb]; [| constructor].
  assert (Forall (cleanCall w doc)
            (report progress "concepts" "Loading prior concepts" 0 100
               ++ [CallListConcepts 100])) as H1.
  { apply Forall_app. split; [apply report_clean |]. by constructor. }
  destruct (ListConcepts w) as [err|allConcepts] eqn:El; [done |].
  assert (Forall (cleanCall w doc)
            ((report progress "concepts" "Loading prior concepts" 0 100
                ++ [CallListConcepts 100])
               ++ report progress "flashcards" "Loading existing flashcards" 2 100
               ++ [CallListCardSummaries 120])) as H2.
  { apply Forall_app. split; [done |]. apply Forall_app. split; [apply report_clean |].
    by constructor. }
  destruct (ListCardSummaries w) as [err|cardSummaries] eqn:Ec; [done |].
  destruct (GenerateFlashcardsWithProgress w _ _) as [events res] eqn:Eg.
  match goal with |- Forall _ (match res with inl _ => (?c, _) | _ => _ end).1 =>
    assert (Forall (cleanCall w doc) c) as H3 end.
  { apply Forall_app. split; [done |]. apply Forall_app. split; [apply report_clean |].
    constructor; [| apply relayed_clean]. simpl. split_and!; try done.
    destruct (Nat.ltb_spec 12 (length allConcepts)); [done |].
    by rewrite take_ge by lia. }
  destruct res as [err|extraction]; [done |].
  pose proof (saveConcepts_clean w doc progress (Z.of_nat (length (fe_Concepts extraction)))
                (fe_Concepts extraction) 0) as H4.
  destruct (saveConcepts w doc progress _ 0 _) as [calls err]. cbn [fst] in H4.
  destruct err as [err|]; cbn [fst].
  - apply Forall_app. split; [done |]. apply Forall_app. split; [apply report_clean | done].
  - apply Forall_app. split; [done |]. apply Forall_app. split; [apply report_clean |].
    apply Forall_app. split; [done | apply report_clean].
Qed.


